(** * moz-trace-graph: trace ingestion, snapshot round trip, viewport and
      visible-range query

    A shallow embedding of [src/trace.js], [parseTrace] and the viewport
    part of [src/trace-graph.js], with the properties of the specification
    stated over it.

    Conventions of the embedding.
    - JavaScript numbers that carry time stamps are integers ([Z]); a value
      computed from a missing operand is [NaN], as in JavaScript.  On
      integers binary64 arithmetic is exact as long as the results are safe
      integers; a statement that depends on exact sums or differences says
      so in its hypotheses.
    - The numbers of the viewport are rationals, with the infinities and
      NaN.  Comparisons, [Math.min], [Math.max] and [||] are exact on
      doubles; where a statement depends on the rounding of an arithmetic
      operation, the operations are taken with a rounding function.
    - Frame objects live in the array [frames] of the trace; a reference to a
      frame object is its position in that array (the object is pushed there
      when it is created and never moves).  [children], [_stack], [older],
      [previous] and [next] hold such references, so that a mutation through
      one alias is seen through all of them.
    - A record of [functions] is referenced by its position in [functions].
    - A JSON text is kept as its syntax tree. *)

From Stdlib Require Import ZArith QArith Qabs Qround Qpower Lqa String Ascii List Lia.
From stdpp Require Import base option list gmap strings pretty.

Local Open Scope Z_scope.
Set Warnings "-register-all".

(** ** JavaScript values carried by packets *)

(** A number: an integer or NaN. *)
Inductive num : Type :=
| NaN
| Num (z : Z).

(** The opaque payloads of a packet ([location], [parameterNames],
    [callsite], [arguments], [return], [throw], [yield]). An object is the
    list of its own properties in enumeration order. *)
Inductive value : Type :=
| VUndef
| VNull
| VBool (b : bool)
| VNum (n : num)
| VStr (s : string)
| VArr (l : list value)
| VObj (l : list (string * value)).

(** The syntax tree of a JSON text. *)
Inductive json : Type :=
| JNull
| JBool (b : bool)
| JNum (z : Z)
| JStr (s : string)
| JArr (l : list json)
| JObj (l : list (string * json)).

Global Instance num_eq_dec : EqDecision num.
Proof. solve_decision. Defined.

(** [JSON.stringify v]: [None] stands for the result [undefined]. A property
    whose value is undefined is left out of an object, an undefined element
    of an array is written [null], and so is NaN. *)
Fixpoint stringify (v : value) : option json :=
  match v with
  | VUndef => None
  | VNull => Some JNull
  | VBool b => Some (JBool b)
  | VNum NaN => Some JNull
  | VNum (Num z) => Some (JNum z)
  | VStr s => Some (JStr s)
  | VArr l => Some (JArr (map (fun x => default JNull (stringify x)) l))
  | VObj l =>
      Some (JObj ((fix props (l : list (string * value)) : list (string * json) :=
                     match l with
                     | [] => []
                     | (k, x) :: l' =>
                         match stringify x with
                         | Some j => (k, j) :: props l'
                         | None => props l'
                         end
                     end) l))
  end.

(** [JSON.parse] on a syntax tree. *)
Fixpoint parse (j : json) : value :=
  match j with
  | JNull => VNull
  | JBool b => VBool b
  | JNum z => VNum (Num z)
  | JStr s => VStr s
  | JArr l => VArr (map parse l)
  | JObj l => VObj (map (fun kv => (kv.1, parse kv.2)) l)
  end.

(** The value read back from a property that may be missing in the text. *)
Definition parse_opt (o : option json) : value :=
  match o with
  | Some j => parse j
  | None => VUndef
  end.

(** *** The characters of a JSON text *)

Definition hex_digit (n : nat) : ascii :=
  ascii_of_nat (if Nat.ltb n 10 then 48 + n else 87 + n)%nat.

Definition quote_char : ascii := ascii_of_nat 34.
Definition backslash : ascii := ascii_of_nat 92.

Definition escape_char (c : ascii) : string :=
  let n := nat_of_ascii c in
  if Nat.eqb n 34 then String backslash (String quote_char EmptyString)
  else if Nat.eqb n 92 then String backslash (String backslash EmptyString)
  else if Nat.eqb n 8 then String backslash "b"
  else if Nat.eqb n 12 then String backslash "f"
  else if Nat.eqb n 10 then String backslash "n"
  else if Nat.eqb n 13 then String backslash "r"
  else if Nat.eqb n 9 then String backslash "t"
  else if Nat.ltb n 32 then
    String backslash
      (String "u" (String "0" (String "0"
         (String (hex_digit (n / 16)) (String (hex_digit (n mod 16)) EmptyString)))))%nat
  else String c EmptyString.

Fixpoint escape (s : string) : string :=
  match s with
  | EmptyString => EmptyString
  | String c s' => escape_char c +:+ escape s'
  end.

Definition quote (s : string) : string :=
  String quote_char (escape s) +:+ String quote_char EmptyString.

Definition commas (l : list string) : string :=
  match l with
  | [] => EmptyString
  | x :: l' => fold_left (fun acc y => acc +:+ "," +:+ y) l' x
  end.

(** The text of a syntax tree, as [JSON.stringify] writes it (no white
    space; integers in decimal). *)
Fixpoint json_text (j : json) : string :=
  match j with
  | JNull => "null"
  | JBool true => "true"
  | JBool false => "false"
  | JNum z => pretty z
  | JStr s => quote s
  | JArr l => "[" +:+ commas (map json_text l) +:+ "]"
  | JObj l =>
      "{" +:+ commas (map (fun kv => quote kv.1 +:+ ":" +:+ json_text kv.2) l) +:+ "}"
  end.

(** String concatenation with the result of [JSON.stringify]: undefined is
    written out as the word. *)
Definition text_of (o : option json) : string :=
  match o with
  | Some j => json_text j
  | None => "undefined"
  end.

(** ** Numbers and time stamps *)

(** A time stamp as a packet carries it: an integer, or undefined when the
    packet has no [time]. *)
Inductive timeval : Type :=
| TUndef
| TNum (z : Z).

Global Instance timeval_eq_dec : EqDecision timeval.
Proof. solve_decision. Defined.

(** ToNumber. *)
Definition to_number (t : timeval) : num :=
  match t with
  | TUndef => NaN
  | TNum z => Num z
  end.

(** The number read from a property that may be missing. *)
Definition opt_number (o : option num) : num := default NaN o.

Definition num_sub (a b : num) : num :=
  match a, b with
  | Num x, Num y => Num (x - y)
  | _, _ => NaN
  end.

Definition num_add (a b : num) : num :=
  match a, b with
  | Num x, Num y => Num (x + y)
  | _, _ => NaN
  end.

(** [a > b]: false as soon as one side is NaN. *)
Definition num_gt (a b : num) : bool :=
  match a, b with
  | Num x, Num y => bool_decide (y < x)
  | _, _ => false
  end.

Definition num_lt (a b : num) : bool := num_gt b a.

(** [!t] *)
Definition falsy (t : timeval) : bool :=
  match t with
  | TUndef => true
  | TNum z => bool_decide (z = 0)
  end.

(** [typeof t === "number"] *)
Definition is_number (t : timeval) : bool :=
  match t with
  | TUndef => false
  | TNum _ => true
  end.

(** ** Errors *)

(** A handler either returns or throws. [TypeError] is the exception of a
    property access on null or undefined; [Dangling] marks a reference to a
    position that holds no object, which no state built by the handlers
    contains; [Fuel] marks a loop that did not end within the bound of its
    model. *)
Inductive error : Type :=
| TypeError
| Dangling
| Fuel.

Inductive res (A : Type) : Type :=
| Ok (a : A)
| Err (e : error).
Arguments Ok {A} a.
Arguments Err {A} e.

Global Instance res_bind : MBind res := fun A B k r =>
  match r with
  | Ok a => k a
  | Err e => Err e
  end.

Definition of_option {A : Type} (e : error) (o : option A) : res A :=
  match o with
  | Some a => Ok a
  | None => Err e
  end.

(** ** Packets *)

Module EnterPacket.
Record t : Type := mk {
  name : option string;
  location : value;
  callsite : value;
  time : timeval;
  parameterNames : value;
  arguments : value
}.
End EnterPacket.

Module ExitPacket.
Record t : Type := mk {
  time : timeval;
  return_ : value;
  throw : value;
  yield : value
}.
End ExitPacket.

Inductive event : Type :=
| Entered (packet : EnterPacket.t)
| Exited (packet : ExitPacket.t).

(** ** Objects of a trace *)

(** A reference to what can be on the call stack: the trace itself (the
    sentinel at the bottom) or a frame. *)
Inductive ref : Type :=
| RTrace
| RFrame (uid : nat).

Global Instance ref_eq_dec : EqDecision ref.
Proof. solve_decision. Defined.

(** A record of [functions]. [totalTime] and [selfTime] are [None] until
    the first exit of a call of the function. *)
Module Function.
Record t : Type := mk {
  count : nat;
  name : option string;
  location : value;
  parameterNames : value;
  totalTime : option num;
  selfTime : option num
}.

Definition incr_count (f : t) : t :=
  mk (S (count f)) (name f) (location f) (parameterNames f) (totalTime f) (selfTime f).

Definition set_times (tt st : option num) (f : t) : t :=
  mk (count f) (name f) (location f) (parameterNames f) tt st.
End Function.

(** A frame object. A field of type [option] that is [None] is a property
    the object does not have (yet). *)
Module Frame.
Record t : Type := mk {
  uid : nat;
  depth : nat;
  children : list nat;
  older : option ref;
  previous : option nat;
  next : option nat;
  fid : nat;
  aggregated : nat;
  name : option string;
  location : value;
  parameterNames : value;
  startTime : timeval;
  callsite : value;
  arguments : value;
  endTime : option timeval;
  totalTime : option num;
  selfTime : option num;
  return_ : option value;
  throw : option value;
  yield : option value
}.

Definition set_next (n : nat) (f : t) : t :=
  mk (uid f) (depth f) (children f) (older f) (previous f) (Some n)
     (fid f) (aggregated f) (name f) (location f) (parameterNames f)
     (startTime f) (callsite f) (arguments f)
     (endTime f) (totalTime f) (selfTime f) (return_ f) (throw f) (yield f).

Definition push_child (c : nat) (f : t) : t :=
  mk (uid f) (depth f) (children f ++ [c]) (older f) (previous f) (next f)
     (fid f) (aggregated f) (name f) (location f) (parameterNames f)
     (startTime f) (callsite f) (arguments f)
     (endTime f) (totalTime f) (selfTime f) (return_ f) (throw f) (yield f).

(** The assignments of [onExitedFrame] to the frame. *)
Definition close (e : timeval) (tt st : num) (r th y : option value) (f : t) : t :=
  mk (uid f) (depth f) (children f) (older f) (previous f) (next f)
     (fid f) (aggregated f) (name f) (location f) (parameterNames f)
     (startTime f) (callsite f) (arguments f)
     (Some e) (Some tt) (Some st) r th y.
End Frame.

(** Modelled from the spec: the event source is outside the repository; of
    it the trace uses [addListener] and [removeListener]. The client is the
    list of the handlers of this trace that are registered with it, each
    under its event name. *)
Inductive handler : Type :=
| HEntered
| HExited.

Global Instance handler_eq_dec : EqDecision handler.
Proof. solve_decision. Defined.

Definition client : Type := list (string * handler).

Definition addListener (ev : string) (h : handler) (c : client) : client :=
  c ++ [(ev, h)].

Definition removeListener (ev : string) (h : handler) (c : client) : client :=
  filter (fun l => l ≠ (ev, h)) c.

(** Modelled from the spec: [EventEmitter.decorate] is not among the sources;
    [emit] signals observers synchronously, which is recorded as a log of the
    signals in the order they were emitted. *)
Inductive signal : Type :=
| SEnteredFrame (uid : nat)
| SExitedFrame (uid : nat)
| SFinished.

Module Trace.
Record t : Type := mk {
  name : option string;
  children : list nat;
  frames : list Frame.t;
  functions : list Function.t;
  maxDepth : nat;
  _stack : option (list nat);
  _functionIds : option (gmap string nat);
  _client : option client;
  startTime : timeval;
  endTime : timeval;
  finished : bool;
  emitted : list signal
}.
End Trace.

(** ** The trace: construction and ingestion *)

(** [_stack] is kept as the list of the frames above the sentinel, the top
    of the stack first: the array [[this, f1, ..., fk]] of the source is the
    list [[fk; ...; f1]], and [None] is the value null that [finish] stores.
    The sentinel [this] is never popped ([onExitedFrame] pops only when the
    top is not [this]) and is not written in the list. *)

(** [new Trace(client, name)] *)
Definition new_Trace (c : option client) (name : option string) : Trace.t :=
  Trace.mk name [] [] [] 0%nat (Some []) (Some ∅)
    (addListener "exitedFrame" HExited <$> (addListener "enteredFrame" HEntered <$> c))
    TUndef TUndef false [].

(** [get _currentFrame] *)
Definition _currentFrame (stack : list nat) : ref :=
  match stack with
  | [] => RTrace
  | u :: _ => RFrame u
  end.

(** [r.children], for the trace or a frame. *)
Definition children_of (t : Trace.t) (r : ref) : res (list nat) :=
  match r with
  | RTrace => Ok (Trace.children t)
  | RFrame u => of_option Dangling (Frame.children <$> Trace.frames t !! u)
  end.

(** [(name || "") + JSON.stringify(loc)] *)
Definition locationToString (loc : value) (name : option string) : string :=
  default "" name +:+ text_of (stringify loc).

(** [finish]: throws on a trace that has no client. *)
Definition finish (t : Trace.t) : res Trace.t :=
  c ← of_option TypeError (Trace._client t);
  Ok (Trace.mk (Trace.name t) (Trace.children t) (Trace.frames t)
        (Trace.functions t) (Trace.maxDepth t) None None
        (Some (removeListener "exitedFrame" HExited
                 (removeListener "enteredFrame" HEntered c)))
        (Trace.startTime t) (Trace.endTime t) true
        (Trace.emitted t ++ [SFinished])).

(** [frameByUid]: [None] is undefined. *)
Definition frameByUid (t : Trace.t) (uid : nat) : option Frame.t :=
  Trace.frames t !! uid.

(** [onEnteredFrame]. The top of the stack [current] is an object, the trace
    or a frame, so the guard [if (current)] holds and [older] is always set.
    The frame is built with all the properties that the handler gives it and
    pushed once: nothing observes it in between. *)
Definition onEnteredFrame (t : Trace.t) (packet : EnterPacket.t) : res Trace.t :=
  stack ← of_option TypeError (Trace._stack t);
  let current := _currentFrame stack in
  let uid := length (Trace.frames t) in
  let depth := length stack in
  (* references to parent and siblings *)
  siblings ← children_of t current;
  let previous := last siblings in
  let frames1 : list Frame.t :=
    match previous with
    | Some p => alter (Frame.set_next uid) p (Trace.frames t)
    | None => Trace.frames t
    end in
  (* reference to aggregated info, created if necessary *)
  ids ← of_option TypeError (Trace._functionIds t);
  let key := locationToString (EnterPacket.location packet) (EnterPacket.name packet) in
  let known := bool_decide (is_Some (ids !! key)) in
  let ids1 : gmap string nat :=
    if known then ids else <[key := length (Trace.functions t)]> ids in
  let functions1 : list Function.t :=
    if known then Trace.functions t
    else Trace.functions t ++
           [Function.mk 0 (EnterPacket.name packet) (EnterPacket.location packet)
              (EnterPacket.parameterNames packet) None None] in
  fid ← of_option Dangling (ids1 !! key);
  aggregated ← of_option Dangling (functions1 !! fid);
  let functions2 : list Function.t :=
    <[fid := Function.incr_count aggregated]> functions1 in
  let frame :=
    Frame.mk uid depth [] (Some current) previous None
      fid fid (Function.name aggregated) (Function.location aggregated)
      (Function.parameterNames aggregated)
      (EnterPacket.time packet) (EnterPacket.callsite packet)
      (EnterPacket.arguments packet)
      None None None None None None in
  (* new frame added to the frames list, the parent and the frame stack *)
  let frames2 := frames1 ++ [frame] in
  let frames3 : list Frame.t :=
    match current with
    | RTrace => frames2
    | RFrame c => alter (Frame.push_child uid) c frames2
    end in
  let children3 : list nat :=
    match current with
    | RTrace => Trace.children t ++ [uid]
    | RFrame _ => Trace.children t
    end in
  Ok (Trace.mk (Trace.name t) children3 frames3 functions2
        (if decide (Trace.maxDepth t < depth)%nat then depth else Trace.maxDepth t)
        (Some (uid :: stack)) (Some ids1) (Trace._client t)
        (if is_number (Trace.startTime t) then Trace.startTime t
         else EnterPacket.time packet)
        (EnterPacket.time packet)
        (Trace.finished t)
        (Trace.emitted t ++ [SEnteredFrame uid])).

(** [typeof v !== "undefined"] selects the properties copied at exit. *)
Definition defined (v : value) : option value :=
  match v with
  | VUndef => None
  | _ => Some v
  end.

(** [onExitedFrame]. [frame === this] holds when no frame is above the
    sentinel. *)
Definition onExitedFrame (t : Trace.t) (packet : ExitPacket.t) : res Trace.t :=
  stack ← of_option TypeError (Trace._stack t);
  match stack with
  | [] =>
      (* more exits than entries *)
      finish t
  | u :: stack' =>
      frame ← of_option Dangling (Trace.frames t !! u);
      let endTime := ExitPacket.time packet in
      let totalTime := num_sub (to_number endTime) (to_number (Frame.startTime frame)) in
      kids ← of_option Dangling (mapM (fun c => Trace.frames t !! c) (Frame.children frame));
      let selfTime :=
        fold_left (fun acc child => num_sub acc (opt_number (Frame.totalTime child)))
          kids totalTime in
      aggregated ← of_option Dangling (Trace.functions t !! Frame.aggregated frame);
      let tt0 := default (Num 0) (Function.totalTime aggregated) in
      let st0 :=
        match Function.totalTime aggregated with
        | None => Num 0
        | Some _ => opt_number (Function.selfTime aggregated)
        end in
      let aggregated1 :=
        Function.set_times (Some (num_add tt0 totalTime)) (Some (num_add st0 selfTime))
          aggregated in
      let frame1 :=
        Frame.close endTime totalTime selfTime
          (match defined (ExitPacket.return_ packet) with
           | Some v => Some v | None => Frame.return_ frame end)
          (match defined (ExitPacket.throw packet) with
           | Some v => Some v | None => Frame.throw frame end)
          (match defined (ExitPacket.yield packet) with
           | Some v => Some v | None => Frame.yield frame end)
          frame in
      Ok (Trace.mk (Trace.name t) (Trace.children t)
            (<[u := frame1]> (Trace.frames t))
            (<[Frame.aggregated frame := aggregated1]> (Trace.functions t))
            (Trace.maxDepth t) (Some stack') (Trace._functionIds t) (Trace._client t)
            (Trace.startTime t)
            (if falsy (Trace.endTime t)
                || num_gt (to_number endTime) (to_number (Trace.endTime t))
             then endTime else Trace.endTime t)
            (Trace.finished t)
            (Trace.emitted t ++ [SExitedFrame u]))
  end.

(** The handler of an event. *)
Definition handle (t : Trace.t) (e : event) : res Trace.t :=
  match e with
  | Entered p => onEnteredFrame t p
  | Exited p => onExitedFrame t p
  end.

(** The events of a list handled in order; the first exception ends the run. *)
Fixpoint run (t : Trace.t) (evs : list event) : res Trace.t :=
  match evs with
  | [] => Ok t
  | e :: evs' => t' ← handle t e; run t' evs'
  end.

(** ** The serialized snapshot *)

(** The text that [toJSON] returns has the shape
    [{functions: [...], children: [...]}]; it is kept as the tree below. A
    field of type [option] that is [None] is a key that the text does not
    have, because [JSON.stringify] leaves out a property that is missing or
    undefined. *)
Module Snapshot.
Record func : Type := mkfunc {
  count : nat;
  name : option string;
  location : option json;
  parameterNames : option json;
  totalTime : option json;
  selfTime : option json
}.

Inductive node : Type :=
| Node (fid : nat) (startTime endTime : option Z)
    (arguments return_ throw yield : option json) (children : list node).

Record t : Type := mk {
  functions : list func;
  children : list node
}.
End Snapshot.

(** [JSON.stringify] of a time stamp. *)
Definition stringify_time (t : timeval) : option Z :=
  match t with
  | TUndef => None
  | TNum z => Some z
  end.

(** [JSON.parse] of a time stamp. *)
Definition parse_time (o : option Z) : timeval :=
  match o with
  | None => TUndef
  | Some z => TNum z
  end.

(** [JSON.stringify] of a record of [functions]. *)
Definition stringify_function (f : Function.t) : Snapshot.func :=
  Snapshot.mkfunc (Function.count f) (Function.name f)
    (stringify (Function.location f)) (stringify (Function.parameterNames f))
    (n ← Function.totalTime f; stringify (VNum n))
    (n ← Function.selfTime f; stringify (VNum n)).

(** [_frameToJSONObj], followed by [JSON.stringify] of the object it builds.
    The recursion follows the references in [children]; [fuel] bounds its
    depth, and [None] is returned when the fuel runs out or a reference
    dangles. *)
Fixpoint _frameToJSONObj (fuel : nat) (frames : list Frame.t) (u : nat)
  : option Snapshot.node :=
  match fuel with
  | O => None
  | S fuel' =>
      frame ← frames !! u;
      children ← mapM (_frameToJSONObj fuel' frames) (Frame.children frame);
      Some (Snapshot.Node (Frame.fid frame)
              (stringify_time (Frame.startTime frame))
              (Frame.endTime frame ≫= stringify_time)
              (stringify (Frame.arguments frame))
              (Frame.return_ frame ≫= stringify)
              (Frame.throw frame ≫= stringify)
              (Frame.yield frame ≫= stringify)
              children)
  end.

(** [toJSON]: a chain of [children] references in an array of n frames that
    has no cycle has at most n frames, which is the fuel given. *)
Definition toJSON (t : Trace.t) : option Snapshot.t :=
  children ← mapM (_frameToJSONObj (length (Trace.frames t)) (Trace.frames t))
                  (Trace.children t);
  Some (Snapshot.mk (stringify_function <$> Trace.functions t) children).

(** ** parseTrace *)

(** [exitFrame] of [parseTrace]. *)
Definition exitFrame (frame : Snapshot.node) (trace : Trace.t) : res Trace.t :=
  match frame with
  | Snapshot.Node _ _ endTime _ ret thr yld _ =>
      onExitedFrame trace
        (ExitPacket.mk (parse_time endTime) (parse_opt ret) (parse_opt thr)
           (parse_opt yld))
  end.

(** [enterFrame] of [parseTrace]; [functions] is [data.functions]. A snapshot
    has no [callsite]. *)
Fixpoint enterFrame (functions : list Snapshot.func) (frame : Snapshot.node)
    (trace : Trace.t) : res Trace.t :=
  match frame with
  | Snapshot.Node fid startTime _ args _ _ _ children =>
      aggregated ← of_option TypeError (functions !! fid);
      trace1 ← onEnteredFrame trace
        (EnterPacket.mk (Snapshot.name aggregated)
           (parse_opt (Snapshot.location aggregated)) VUndef
           (parse_time startTime)
           (parse_opt (Snapshot.parameterNames aggregated))
           (parse_opt args));
      trace2 ← (fix each (l : list Snapshot.node) (tr : Trace.t) : res Trace.t :=
                  match l with
                  | [] => Ok tr
                  | child :: l' => tr' ← enterFrame functions child tr; each l' tr'
                  end) children trace1;
      exitFrame frame trace2
  end.

Fixpoint enterFrames (functions : list Snapshot.func) (l : list Snapshot.node)
    (trace : Trace.t) : res Trace.t :=
  match l with
  | [] => Ok trace
  | child :: l' => tr' ← enterFrame functions child trace; enterFrames functions l' tr'
  end.

Definition set_finished (t : Trace.t) : Trace.t :=
  Trace.mk (Trace.name t) (Trace.children t) (Trace.frames t) (Trace.functions t)
    (Trace.maxDepth t) (Trace._stack t) (Trace._functionIds t) (Trace._client t)
    (Trace.startTime t) (Trace.endTime t) true (Trace.emitted t).

(** [parseTrace] on the parsed text. *)
Definition parseTrace (data : Snapshot.t) : res Trace.t :=
  trace ← enterFrames (Snapshot.functions data) (Snapshot.children data)
             (new_Trace None None);
  Ok (set_finished trace).

(** ** The viewport: TraceBounds *)

(** The numbers of the viewport are fractions, so they are modelled as
    rationals extended with the two infinities and NaN, which division by a
    zero total time produces. Rounding and the sign of zero are not modelled.
    A field that was never assigned is undefined; in every operation below
    undefined behaves as NaN, which stands for it. *)
Inductive xnum : Type :=
| XNaN
| XNInf
| XPInf
| XFin (q : Q).

Definition Qsign (q : Q) : comparison := (q ?= 0)%Q.

Definition x_neg (a : xnum) : xnum :=
  match a with
  | XNaN => XNaN
  | XNInf => XPInf
  | XPInf => XNInf
  | XFin q => XFin (- q)
  end.

Definition x_add (a b : xnum) : xnum :=
  match a, b with
  | XNaN, _ | _, XNaN => XNaN
  | XPInf, XNInf | XNInf, XPInf => XNaN
  | XPInf, _ | _, XPInf => XPInf
  | XNInf, _ | _, XNInf => XNInf
  | XFin p, XFin q => XFin (p + q)
  end.

Definition x_sub (a b : xnum) : xnum := x_add a (x_neg b).

(** An infinity of the sign of [c], where [Gt] is positive. *)
Definition x_inf (c : comparison) : xnum :=
  match c with
  | Gt => XPInf
  | Lt => XNInf
  | Eq => XNaN
  end.

Definition x_sign (a : xnum) : option comparison :=
  match a with
  | XNaN => None
  | XNInf => Some Lt
  | XPInf => Some Gt
  | XFin q => Some (Qsign q)
  end.

Definition sign_mul (c d : comparison) : comparison :=
  match c, d with
  | Eq, _ | _, Eq => Eq
  | Gt, Gt | Lt, Lt => Gt
  | _, _ => Lt
  end.

Definition x_mul (a b : xnum) : xnum :=
  match a, b with
  | XFin p, XFin q => XFin (p * q)
  | _, _ =>
      match x_sign a, x_sign b with
      | Some c, Some d => x_inf (sign_mul c d)
      | _, _ => XNaN
      end
  end.

Definition x_div (a b : xnum) : xnum :=
  match a, b with
  | XNaN, _ | _, XNaN => XNaN
  | XFin p, XFin q =>
      match Qsign q with
      | Eq => x_inf (Qsign p)
      | _ => XFin (p / q)
      end
  | XFin _, _ => XFin 0
  | _, XFin q =>
      match x_sign a, Qsign q with
      | Some c, Lt => x_inf (sign_mul c Lt)
      | Some c, _ => x_inf c
      | None, _ => XNaN
      end
  | _, _ => XNaN
  end.

(** [a < b]: false when a side is NaN. *)
Definition x_lt (a b : xnum) : bool :=
  match a, b with
  | XNaN, _ | _, XNaN => false
  | XNInf, XNInf => false
  | XNInf, _ => true
  | _, XNInf => false
  | XPInf, _ => false
  | _, XPInf => true
  | XFin p, XFin q => if Qlt_le_dec p q then true else false
  end.

Definition x_gt (a b : xnum) : bool := x_lt b a.

(** [Math.min] and [Math.max]: NaN when a side is NaN. *)
Definition x_min (a b : xnum) : xnum :=
  match a, b with
  | XNaN, _ | _, XNaN => XNaN
  | _, _ => if x_lt b a then b else a
  end.

Definition x_max (a b : xnum) : xnum :=
  match a, b with
  | XNaN, _ | _, XNaN => XNaN
  | _, _ => if x_lt a b then b else a
  end.

Definition x_abs (a : xnum) : xnum :=
  match a with
  | XNaN => XNaN
  | XNInf | XPInf => XPInf
  | XFin q => XFin (Qabs q)
  end.

(** [a || b]: zero and NaN are falsy. *)
Definition x_or (a b : xnum) : xnum :=
  match a with
  | XNaN => b
  | XFin q => match Qsign q with Eq => b | _ => a end
  | _ => a
  end.

(** A time stamp of the trace as a viewport number. *)
Definition x_of_time (t : timeval) : xnum :=
  match t with
  | TUndef => XNaN
  | TNum z => XFin (inject_Z z)
  end.

Module TraceBounds.
Record t : Type := mk {
  _totalTime : xnum;
  _left : xnum;
  _right : xnum;
  changed : list (option string)
}.
End TraceBounds.

(** [new TraceBounds()] *)
Definition new_TraceBounds : TraceBounds.t :=
  TraceBounds.mk XNaN XNaN XNaN [].

Definition _minimumIntervalTime : xnum := XFin 3.

Definition _minimumIntervalWidth (b : TraceBounds.t) : xnum :=
  x_div _minimumIntervalTime (TraceBounds._totalTime b).

Definition intervalWidth (b : TraceBounds.t) : xnum :=
  x_sub (TraceBounds._right b) (TraceBounds._left b).

Definition get_center (b : TraceBounds.t) : xnum :=
  x_add (TraceBounds._left b) (x_div (intervalWidth b) (XFin 2)).

Definition get_leftTime (b : TraceBounds.t) : xnum :=
  x_mul (TraceBounds._totalTime b) (TraceBounds._left b).

Definition get_rightTime (b : TraceBounds.t) : xnum :=
  x_mul (TraceBounds._totalTime b) (TraceBounds._right b).

Definition intervalTime (b : TraceBounds.t) : xnum :=
  x_sub (get_rightTime b) (get_leftTime b).

(** [get totalTime] of the trace, and [setTrace]. *)
Definition totalTime (t : Trace.t) : timeval := Trace.endTime t.

Definition setTrace (b : TraceBounds.t) (t : Trace.t) : TraceBounds.t :=
  TraceBounds.mk (x_of_time (totalTime t)) (XFin 0) (XFin 1) (TraceBounds.changed b).

(** [setBounds]; [why] is the reason passed to the observers of "changed",
    which are recorded as the log [changed]. *)
Definition setBounds (b : TraceBounds.t) (left right : xnum) (why : option string)
  : TraceBounds.t :=
  let swap := x_gt left right in
  let left1 := if swap then right else left in
  let right1 := if swap then left else right in
  TraceBounds.mk (TraceBounds._totalTime b)
    (x_max (x_min (x_or left1 (XFin 0)) (XFin 1)) (XFin 0))
    (x_max (x_min (x_or right1 (XFin 1)) (XFin 1)) (XFin 0))
    (TraceBounds.changed b ++ [why]).

Definition set_left (b : TraceBounds.t) (percent : xnum) : TraceBounds.t :=
  setBounds b percent (TraceBounds._right b) None.

Definition set_right (b : TraceBounds.t) (percent : xnum) : TraceBounds.t :=
  setBounds b (TraceBounds._left b) percent None.

Definition set_center (b : TraceBounds.t) (percent : xnum) : TraceBounds.t :=
  let width := x_div (x_max (intervalWidth b) (_minimumIntervalWidth b)) (XFin 2) in
  let percent :=
    if x_lt percent width then width
    else if x_gt percent (x_sub (XFin 1) width) then x_sub (XFin 1) width
    else percent in
  setBounds b (x_sub percent width) (x_add percent width) None.

Definition set_leftTime (b : TraceBounds.t) (time : xnum) : TraceBounds.t :=
  setBounds b (x_div time (TraceBounds._totalTime b)) (TraceBounds._right b) None.

Definition set_rightTime (b : TraceBounds.t) (time : xnum) : TraceBounds.t :=
  setBounds b (TraceBounds._left b) (x_div time (TraceBounds._totalTime b)) None.

Definition percentageFromTime (b : TraceBounds.t) (time : xnum) (inBounds : bool) : xnum :=
  if inBounds then x_div (x_sub time (get_leftTime b)) (intervalTime b)
  else x_div time (TraceBounds._totalTime b).

Definition timeFromPercentage (b : TraceBounds.t) (percent : xnum) (inBounds : bool) : xnum :=
  if inBounds then x_add (get_leftTime b) (x_mul percent (intervalTime b))
  else x_mul percent (TraceBounds._totalTime b).

(** [zoom]; [centerPercent] is [None] when the argument is not passed. *)
Definition zoom (b : TraceBounds.t) (value : xnum) (centerPercent : option xnum)
  : TraceBounds.t :=
  let zoom := x_div (x_mul (intervalWidth b) value) (XFin 500) in
  let minWidth := _minimumIntervalWidth b in
  if x_lt (x_add (intervalWidth b) (x_mul (XFin 2) zoom)) minWidth then
    let center := get_center b in
    setBounds b (x_sub center (x_div minWidth (XFin 2)))
      (x_add center (x_div minWidth (XFin 2))) (Some "zoom")
  else
    let centerPercent := default (XFin (1 # 2)) centerPercent in
    let lZoom := x_mul zoom centerPercent in
    let rZoom := x_mul zoom (x_sub (XFin 1) centerPercent) in
    setBounds b (x_sub (TraceBounds._left b) lZoom)
      (x_add (TraceBounds._right b) rZoom) (Some "zoom").

Definition panByPercent (b : TraceBounds.t) (value : xnum) : TraceBounds.t :=
  let pan := x_mul (intervalWidth b) value in
  let roomToPan :=
    if x_lt value (XFin 0) then x_neg (TraceBounds._left b)
    else x_sub (XFin 1) (TraceBounds._right b) in
  let pan := if x_gt (x_abs pan) (x_abs roomToPan) then roomToPan else pan in
  setBounds b (x_add (TraceBounds._left b) pan) (x_add (TraceBounds._right b) pan)
    (Some "pan").

Definition pan (b : TraceBounds.t) (value : xnum) : TraceBounds.t :=
  panByPercent b (x_div value (XFin 1000)).

(** ** The visible-range query *)

(** ToInt32, which [>>] applies to its left operand. *)
Definition toInt32 (z : Z) : Z := (z + 2 ^ 31) mod 2 ^ 32 - 2 ^ 31.

(** [array[i]] is undefined outside the array. *)
Definition at_index {A : Type} (array : list A) (i : Z) : option A :=
  if decide (0 ≤ i) then array !! Z.to_nat i else None.

(** The loop of [binarySearch]. The comparator receives [None] when
    [array[mid]] is undefined. [fuel] bounds the number of iterations. *)
Fixpoint binarySearch_loop {K A : Type} (fuel : nat) (key : K) (array : list A)
    (comparator : K → option A → res num) (first last : Z) : res Z :=
  match fuel with
  | O => Err Fuel
  | S fuel' =>
      if decide (first ≤ last) then
        let mid := Z.shiftr (toInt32 (first + last)) 1 in
        c ← comparator key (at_index array mid);
        if num_gt c (Num 0) then
          binarySearch_loop fuel' key array comparator (mid + 1) last
        else if num_lt c (Num 0) then
          binarySearch_loop fuel' key array comparator first (mid - 1)
        else Ok mid
      else Ok (- (first + 1))
  end.

(** [binarySearch]: every iteration removes at least one position of the
    range from [first] to [last], so the loop ends within length + 1 tests. *)
Definition binarySearch {K A : Type} (key : K) (array : list A)
    (comparator : K → option A → res num) : res Z :=
  binarySearch_loop (S (length array)) key array comparator 0
    (Z.of_nat (length array) - 1).

(** The comparator of [_renderChildren]:
    [function(time, child) { return time - child.endTime; }] *)
Definition byEndTime (time : num) (child : option Frame.t) : res num :=
  child ← of_option TypeError child;
  Ok (num_sub time (default NaN (to_number <$> Frame.endTime child))).

(** The index that [_renderChildren] takes from the result. *)
Definition decode (idx : Z) : Z := if decide (idx < 0) then - (idx + 1) else idx.

(** ** The viewport in rounded arithmetic *)

(** The numbers of the code are binary64 floating-point numbers: an
    addition, subtraction, multiplication or division returns the
    representable number next to the exact result, while comparisons,
    [Math.min], [Math.max] and [||] are exact. Where a statement depends on
    that rounding, the getters of the viewport and [zoom] are taken with a
    rounding function [rnd] applied to every finite result of an arithmetic
    operation. With the identity for [rnd] they are the definitions above. *)
Definition x_round (rnd : Q → Q) (a : xnum) : xnum :=
  match a with
  | XFin q => XFin (rnd q)
  | _ => a
  end.

Module Rounded.
Section Operations.

Variable rnd : Q → Q.

Definition add (a b : xnum) : xnum := x_round rnd (x_add a b).
Definition sub (a b : xnum) : xnum := x_round rnd (x_sub a b).
Definition mul (a b : xnum) : xnum := x_round rnd (x_mul a b).
Definition div (a b : xnum) : xnum := x_round rnd (x_div a b).

Definition _minimumIntervalWidth (b : TraceBounds.t) : xnum :=
  div _minimumIntervalTime (TraceBounds._totalTime b).

Definition intervalWidth (b : TraceBounds.t) : xnum :=
  sub (TraceBounds._right b) (TraceBounds._left b).

Definition get_center (b : TraceBounds.t) : xnum :=
  add (TraceBounds._left b) (div (intervalWidth b) (XFin 2)).

(** [var zoom = this.intervalWidth * value / 500] *)
Definition zoom_amount (b : TraceBounds.t) (value : xnum) : xnum :=
  div (mul (intervalWidth b) value) (XFin 500).

(** The test of [zoom]: [this.intervalWidth + 2 * zoom < minWidth] *)
Definition zoom_snaps (b : TraceBounds.t) (value : xnum) : bool :=
  x_lt (add (intervalWidth b) (mul (XFin 2) (zoom_amount b value)))
    (_minimumIntervalWidth b).

(** [zoom]; [centerPercent] is [None] when the argument is not passed. *)
Definition zoom (b : TraceBounds.t) (value : xnum) (centerPercent : option xnum)
  : TraceBounds.t :=
  let zoom := zoom_amount b value in
  let minWidth := _minimumIntervalWidth b in
  if zoom_snaps b value then
    let center := get_center b in
    setBounds b (sub center (div minWidth (XFin 2)))
      (add center (div minWidth (XFin 2))) (Some "zoom")
  else
    let centerPercent := default (XFin (1 # 2)) centerPercent in
    let lZoom := mul zoom centerPercent in
    let rZoom := mul zoom (sub (XFin 1) centerPercent) in
    setBounds b (sub (TraceBounds._left b) lZoom)
      (add (TraceBounds._right b) rZoom) (Some "zoom").

(** The loop of [onExitedFrame] that computes [selfTime], on numbers that
    are not integers: [selfTime -= child.totalTime] for each child. *)
Definition self_from (totalTime : Q) (totals : list Q) : Q :=
  fold_left (fun acc total => rnd (acc - total)%Q) totals totalTime.

End Operations.
End Rounded.

(** ** The rounding of binary64 *)

(** The exponent of a positive rational [q]: the [e] with
    [2^e <= q < 2^(e+1)]. *)
Definition binade (q : Q) : Z :=
  let e := Z.log2 (Qnum q) - Z.log2 (Z.pos (Qden q)) in
  if Qle_bool (2 ^ e) q then e else e - 1.

(** The integer next to a rational; of two that are as near, the even one. *)
Definition round_even (q : Q) : Z :=
  let f := Qfloor q in
  match (q - inject_Z f ?= 1 # 2)%Q with
  | Lt => f
  | Gt => f + 1
  | Eq => if Z.even f then f else f + 1
  end.

(** A positive rational rounded to 53 significant bits. *)
Definition round53 (q : Q) : Q :=
  (inject_Z (round_even (q * 2 ^ (52 - binade q))) * 2 ^ (binade q - 52))%Q.

(** The rounding of binary64: to the nearest number of 53 significant bits,
    ties to even. The range of the exponent is not bounded, so that no result
    overflows or underflows. *)
Definition binary64 (q : Q) : Q :=
  match (q ?= 0)%Q with
  | Eq => 0%Q
  | Gt => round53 q
  | Lt => (- round53 (- q))%Q
  end.

(** ** The colors of the frames (trace-graph.js) *)

(** The three ranges [h], [s] and [l], and the color [current]. *)
Module Range.
Record t : Type := mk {
  min : Z;
  max : Z;
  step : Z
}.
End Range.

Module Current.
Record t : Type := mk {
  h : Z;
  s : Z;
  l : Z
}.
End Current.

Module Palette.
Definition h : Range.t := Range.mk 0 360 43.
Definition s : Range.t := Range.mk 30 40 3.
Definition l : Range.t := Range.mk 20 40 5.

(** [current] as the script initializes it. *)
Definition current : Current.t :=
  Current.mk (Range.max h) (Range.max s) (Range.max l).
End Palette.

(** [if ((v -= r.step) <= r.min) v += r.max], one line of [getColor]. *)
Definition advance (r : Range.t) (v : Z) : Z :=
  let v1 := v - Range.step r in
  if decide (v1 ≤ Range.min r) then v1 + Range.max r else v1.

(** [getColor]: the color [current] after the call, and the string
    returned. *)
Definition getColor (current : Current.t) : Current.t * string :=
  let current1 :=
    Current.mk (advance Palette.h (Current.h current))
      (advance Palette.s (Current.s current))
      (advance Palette.l (Current.l current)) in
  (current1,
   "hsl(" +:+ pretty (Current.h current1) +:+ ", " +:+ pretty (Current.s current1)
     +:+ "%, " +:+ pretty (Current.l current1) +:+ "%)").

(** The map [colors] from frame names to colors, with [current]. A frame
    name is a string or undefined ([None]). *)
Module Colors.
Record t : Type := mk {
  colors : gmap (option string) string;
  current : Current.t
}.
End Colors.

(** The state when the script was loaded. *)
Definition new_Colors : Colors.t := Colors.mk ∅ Palette.current.

(** The color that [_renderFrame] chooses for a frame, which is all that
    [_renderFrame] does with [colors]: yellow for the selected frame, and
    otherwise the color of its name, taken from [getColor] the first time
    the name is seen. [selected] is [this._selected], and the result [None]
    is undefined. *)
Definition frameColor (st : Colors.t) (selected : option nat) (frame : Frame.t)
  : Colors.t * option string :=
  if decide (selected = Some (Frame.uid frame)) then (st, Some "yellow")
  else
    let st1 :=
      if bool_decide (is_Some (Colors.colors st !! Frame.name frame)) then st
      else
        let '(current1, color) := getColor (Colors.current st) in
        Colors.mk (<[Frame.name frame := color]> (Colors.colors st)) current1 in
    (st1, Colors.colors st1 !! Frame.name frame).

(** ** The Map substitute (map.js) *)

(** ToString, which a property access [obj[key]] applies to a key that is
    not a string. *)
Fixpoint to_string (v : value) : string :=
  match v with
  | VUndef => "undefined"
  | VNull => "null"
  | VBool true => "true"
  | VBool false => "false"
  | VNum NaN => "NaN"
  | VNum (Num z) => pretty z
  | VStr s => s
  | VArr l =>
      commas (map (fun x => match x with
                            | VUndef | VNull => EmptyString
                            | _ => to_string x
                            end) l)
  | VObj _ => "[object Object]"
  end.

(** The substitute keeps the entries as the own properties of [obj], an
    object without prototype. [None] is the result undefined. *)
Module Map.
Record t (A : Type) : Type := mk {
  obj : gmap string A
}.
Arguments mk {A} obj.
Arguments obj {A} t.

Definition get {A : Type} (m : t A) (key : value) : option A :=
  obj m !! to_string key.

Definition has {A : Type} (m : t A) (key : value) : bool :=
  bool_decide (is_Some (obj m !! to_string key)).

Definition set {A : Type} (m : t A) (key : value) (v : A) : t A :=
  mk (<[to_string key := v]> (obj m)).
End Map.

(** [new Map()] *)
Definition new_Map {A : Type} : Map.t A := Map.mk ∅.

(** ** The main view: the frames that are drawn (trace-graph.js) *)

(** What [binarySearch] tests of the result of its comparator is whether it
    is greater or smaller than 0. The difference of a time of the viewport,
    a fraction, and a time stamp is given to it as the number of that sign:
    1, 0 or -1, and NaN for NaN. *)
Definition sign_of (a : xnum) : num :=
  match a with
  | XNaN => NaN
  | XNInf => Num (-1)
  | XPInf => Num 1
  | XFin q =>
      match Qsign q with
      | Lt => Num (-1)
      | Eq => Num 0
      | Gt => Num 1
      end
  end.

(** The comparator of [_renderChildren], with a time of the viewport:
    [function(time, child) { return time - child.endTime; }] *)
Definition byEndTime_of (time : xnum) (child : option Frame.t) : res num :=
  child ← of_option TypeError child;
  Ok (sign_of (x_sub time (default XNaN (x_of_time <$> Frame.endTime child)))).

(** [frame.totalTime === 0], where [frame] is the trace, whose [totalTime]
    is its [endTime], or a frame. *)
Definition totalTime_is_0 (t : Trace.t) (frame : ref) : res bool :=
  match frame with
  | RTrace => Ok (bool_decide (totalTime t = TNum 0))
  | RFrame u =>
      f ← of_option Dangling (Trace.frames t !! u);
      Ok (bool_decide (Frame.totalTime f = Some (Num 0)))
  end.

(** The loop of [_renderChildren] over the children from the first visible
    one on; [below] is [_renderChildren] itself. What the view draws is
    recorded as the list of the frames given to [_renderFrame], in order. *)
Definition render_from (t : Trace.t) (rightTime : xnum) (below : nat → res (list nat))
  : list nat → res (list nat) :=
  fix each (l : list nat) : res (list nat) :=
    match l with
    | [] => Ok []
    | c :: l' =>
        child ← of_option Dangling (Trace.frames t !! c);
        if x_gt (x_of_time (Frame.startTime child)) rightTime then Ok []
        else
          drawn ← below c;
          rest ← each l';
          Ok (c :: drawn ++ rest)
    end.

(** [MainView.prototype._renderChildren]; [fuel] bounds the depth of the
    recursion. *)
Fixpoint _renderChildren (fuel : nat) (t : Trace.t) (bounds : TraceBounds.t)
    (frame : ref) : res (list nat) :=
  match fuel with
  | O => Err Fuel
  | S fuel' =>
      let leftTime := get_leftTime bounds in
      let rightTime := get_rightTime bounds in
      children ← children_of t frame;
      zero ← totalTime_is_0 t frame;
      if (zero : bool) then Ok []
      else
        array ← of_option Dangling (mapM (fun c => Trace.frames t !! c) children);
        idx ← binarySearch leftTime array byEndTime_of;
        let idx := decode idx in
        match at_index children idx with
        | None => Ok []
        | Some _ =>
            render_from t rightTime
              (fun c => _renderChildren fuel' t bounds (RFrame c))
              (drop (Z.to_nat idx) children)
        end
  end.

(** [MainView.prototype._doRender], after the canvas was cleared: a chain of
    [children] references in an array of n frames has at most n frames, so
    the recursion from the trace is at most n + 1 calls deep. *)
Definition _doRender (t : Trace.t) (bounds : TraceBounds.t) : res (list nat) :=
  _renderChildren (S (length (Trace.frames t))) t bounds RTrace.

(** ** The rectangle of a frame *)

(** The properties of a view that [_frameRect] reads. [width] and [height]
    are those of the canvas, which holds them as unsigned integers. The
    overview never assigns [_isZoomView] and [_vGap]: they are undefined
    there, which is falsy, and for which [false] and NaN stand. *)
Module View.
Record t : Type := mk {
  _isZoomView : bool;
  _vGap : xnum;
  width : N;
  height : N
}.
End View.

Definition x_of_N (n : N) : xnum := XFin (inject_Z (Z.of_N n)).
Definition x_of_nat (n : nat) : xnum := XFin (inject_Z (Z.of_nat n)).

Definition x_of_num (n : num) : xnum :=
  match n with
  | NaN => XNaN
  | Num z => XFin (inject_Z z)
  end.

(** Whether a number is truthy: zero and NaN are not. *)
Definition x_truthy (a : xnum) : bool :=
  match a with
  | XNaN => false
  | XFin q => match Qsign q with Eq => false | _ => true end
  | _ => true
  end.

(** [TraceView.prototype._frameRect]: the array [[x, y, w, h]]. A property
    of the frame that is not there reads as undefined. *)
Definition _frameRect (v : View.t) (t : Trace.t) (bounds : TraceBounds.t)
    (frame : Frame.t) : xnum * xnum * xnum * xnum :=
  let zoomed := View._isZoomView v in
  let width := x_of_N (View.width v) in
  let height := x_of_N (View.height v) in
  let x := x_mul width
             (percentageFromTime bounds (x_of_time (Frame.startTime frame)) zoomed) in
  let w := x_mul width
             (if x_truthy (default XNaN (x_of_time <$> Frame.endTime frame))
              then x_div (x_of_num (opt_number (Frame.totalTime frame)))
                         (if zoomed then intervalTime bounds
                          else x_of_time (totalTime t))
              else XFin 1) in
  let h := x_div height (x_of_nat (Trace.maxDepth t)) in
  let y := x_sub height (x_mul (x_of_nat (Frame.depth frame + 1)) h) in
  let h := if x_truthy (View._vGap v) && x_gt h (View._vGap v)
           then x_sub h (View._vGap v) else h in
  (x, y, w, h).

(** ** Notions used by the statements *)

(** The traces that ingestion builds: the state after the events of a list
    were handled by a new trace, or the trace that [parseTrace] returns. *)
Definition reachable (t : Trace.t) : Prop :=
  (∃ c name evs, run (new_Trace c name) evs = Ok t) ∨
  (∃ data, parseTrace data = Ok t).

(** The scenario of the specification: A is entered at 0, B at 1, B exits at
    3 and A at 5. *)
Definition enter_at (name : string) (time : Z) : EnterPacket.t :=
  EnterPacket.mk (Some name) (VObj [("line", VNum (Num 1))]) VUndef (TNum time)
    (VArr []) (VArr []).

Definition exit_at (time : Z) : ExitPacket.t :=
  ExitPacket.mk (TNum time) VUndef VUndef VUndef.

Definition scenario : list event :=
  [Entered (enter_at "A" 0); Entered (enter_at "B" 1);
   Exited (exit_at 3); Exited (exit_at 5)].

(** The trace after the first event of the scenario. *)
Definition entered_once : Trace.t :=
  Eval vm_compute in
    match onEnteredFrame (new_Trace (Some []) None) (enter_at "A" 0) with
    | Ok t => t
    | Err _ => new_Trace None None
    end.

(** The trace after the scenario. *)
Definition scenario_trace : Trace.t :=
  Eval vm_compute in
    match run (new_Trace (Some []) None) scenario with
    | Ok t => t
    | Err _ => new_Trace None None
    end.

(** The flat frame list is indexed by uid. *)
Definition uid_indexed (frames : list Frame.t) : Prop :=
  ∀ u f, frames !! u = Some f → Frame.uid f = u.

(** The properties of a frame other than [children] and [next], which are
    the two that change while the frame is closed or below the top of the
    stack. *)
Definition scalars (f : Frame.t) :=
  (Frame.uid f, Frame.depth f, Frame.older f, Frame.previous f, Frame.fid f,
   Frame.aggregated f, Frame.name f, Frame.location f, Frame.parameterNames f,
   Frame.startTime f, Frame.callsite f, Frame.arguments f, Frame.endTime f,
   Frame.totalTime f, Frame.selfTime f, Frame.return_ f, Frame.throw f,
   Frame.yield f).

(** [selfTime] as the loop of [onExitedFrame] computes it from the total
    times of the children, and the sum of a list of numbers. *)
Definition self_from (totalTime : num) (totals : list num) : num :=
  fold_left num_sub totals totalTime.

Definition num_sum (totals : list num) : num := foldr num_add (Num 0) totals.

(** The integers that binary64 holds exactly: a sum or difference of two of
    them that is one of them again is computed without rounding. *)
Definition safe_integer (z : Z) : Prop := - 2 ^ 53 ≤ z ≤ 2 ^ 53.

(** No subtraction of the loop that computes [selfTime] from the integer
    [z] and the integers [zs] rounds: every partial difference is a safe
    integer. *)
Definition exact_differences (z : Z) (zs : list Z) : Prop :=
  ∀ k : nat, safe_integer (z - foldr Z.add 0 (take k zs)).

(** Three total times of children that are not integers. *)
Definition tiny_children : list Q :=
  [3 * (1 # 2) ^ 54; 1; (1 # 2) ^ 54]%Q.

(** The total times of the frames that [children] refers to. *)
Definition totals_at (frames : list Frame.t) (children : list nat) (totals : list num)
  : Prop :=
  Forall2 (fun c x => ∃ fc e, frames !! c = Some fc ∧ Frame.endTime fc = Some e ∧
                              Frame.totalTime fc = Some x) children totals.

(** What holds of a frame once it was exited at [e]. *)
Definition closed_ok (frames : list Frame.t) (f : Frame.t) (e : timeval) : Prop :=
  ∃ totals,
    totals_at frames (Frame.children f) totals ∧
    Frame.totalTime f = Some (num_sub (to_number e) (to_number (Frame.startTime f))) ∧
    Frame.selfTime f =
      Some (self_from (num_sub (to_number e) (to_number (Frame.startTime f))) totals).

(** A frame that was entered and not exited. *)
Definition is_open (f : Frame.t) : Prop :=
  Frame.endTime f = None ∧ Frame.totalTime f = None ∧ Frame.return_ f = None ∧
  Frame.throw f = None ∧ Frame.yield f = None ∧ Frame.selfTime f = None.

Fixpoint descending (l : list nat) : Prop :=
  match l with
  | [] => True
  | u :: l' => Forall (fun v => v < u)%nat l' ∧ descending l'
  end.

(** What holds while the trace collects: the stack holds exactly the open
    frames, the newest on top, and [_functionIds] maps every key to the
    record that was created for it. *)
Record live (t : Trace.t) (stack : list nat) : Prop := {
  live_descending : descending stack;
  live_open : ∀ u, u ∈ stack → ∃ f, Trace.frames t !! u = Some f ∧ is_open f;
  live_stack : ∀ u f, Trace.frames t !! u = Some f → Frame.endTime f = None → u ∈ stack;
  live_ids : ∃ ids, Trace._functionIds t = Some ids ∧
     ∀ k i, ids !! k = Some i →
       ∃ g, Trace.functions t !! i = Some g ∧
            locationToString (Function.location g) (Function.name g) = k
}.

(** The invariant of ingestion. *)
Record Inv (t : Trace.t) : Prop := {
  inv_roots : Forall (fun u => u < length (Trace.frames t))%nat (Trace.children t);
  inv_children : ∀ u f, Trace.frames t !! u = Some f →
     Forall (fun c => u < c < length (Trace.frames t))%nat (Frame.children f);
  inv_aggregated : ∀ u f, Trace.frames t !! u = Some f →
     Frame.aggregated f = Frame.fid f ∧
     (Frame.fid f < length (Trace.functions t))%nat;
  inv_closed : ∀ u f e, Trace.frames t !! u = Some f → Frame.endTime f = Some e →
     closed_ok (Trace.frames t) f e;
  inv_live : ∀ stack, Trace._stack t = Some stack → live t stack
}.

(** A packet without the required [time]. *)
Definition enter_without_time : EnterPacket.t :=
  EnterPacket.mk (Some "A") (VObj [("line", VNum (Num 1))]) VUndef TUndef
    (VArr []) (VArr []).

Definition exit_without_time : ExitPacket.t :=
  ExitPacket.mk TUndef VUndef VUndef VUndef.

(** A is entered at 0; its children B and C are both entered at 0 and exited
    at 4; A exits at 5. *)
Definition two_long_children : list event :=
  [Entered (enter_at "A" 0);
   Entered (enter_at "B" 0); Exited (exit_at 4);
   Entered (enter_at "C" 0); Exited (exit_at 4);
   Exited (exit_at 5)].

(** The time stamp of an event. *)
Definition time_of (e : event) : timeval :=
  match e with
  | Entered p => EnterPacket.time p
  | Exited p => ExitPacket.time p
  end.

(** No exit of the list arrives with the sentinel on top of the stack, when
    [depth] frames are on the stack at the start. *)
Fixpoint well_nested (depth : nat) (evs : list event) : bool :=
  match evs with
  | [] => true
  | Entered _ :: evs' => well_nested (S depth) evs'
  | Exited _ :: evs' =>
      match depth with
      | O => false
      | S depth' => well_nested depth' evs'
      end
  end.

(** Time stamps that never decrease, after [z]. *)
Fixpoint nondecreasing (z : Z) (zs : list Z) : Prop :=
  match zs with
  | [] => True
  | z' :: zs' => z ≤ z' ∧ nondecreasing z' zs'
  end.

(** The largest of the time stamps [z :: zs]. *)
Definition maximum (z : Z) (zs : list Z) : Z := fold_left Z.max zs z.

(** The scenario followed by one more exit, at 9. *)
Definition scenario_then_exit : list event := scenario ++ [Exited (exit_at 9)].

(** Two enter events whose time stamps decrease. *)
Definition clock_backwards : list event :=
  [Entered (enter_at "A" 5); Entered (enter_at "B" 3)].

(** The bounds are numbers with [0 <= left <= right <= 1]. *)
Definition in_unit (b : TraceBounds.t) : Prop :=
  ∃ l r : Q, TraceBounds._left b = XFin l ∧ TraceBounds._right b = XFin r ∧
             (0 <= l)%Q ∧ (l <= r)%Q ∧ (r <= 1)%Q.

(** What the statements use of the rounding of binary64, within its range
    (no result overflows or underflows): it maps equal numbers to equal
    numbers, keeps the order, leaves a representable number as it is, and
    is off by at most the fraction [u] of the exact result; [u] is the unit
    roundoff, [2^-53] for [binary64]. The identity is the rounding of exact
    arithmetic, with [u = 0]. *)
Record rounding (rnd : Q → Q) (u : Q) : Prop := {
  rnd_proper : ∀ p q : Q, (p == q)%Q → (rnd p == rnd q)%Q;
  rnd_mono : ∀ p q : Q, (p <= q)%Q → (rnd p <= rnd q)%Q;
  rnd_idem : ∀ q : Q, (rnd (rnd q) == rnd q)%Q;
  rnd_err : ∀ q : Q, (Qabs (rnd q - q) <= u * Qabs q)%Q;
  rnd_unit : (0 <= u)%Q ∧ (u <= 1 # 1024)%Q
}.

(** The bounds are numbers that the viewport has stored: rounding leaves
    them as they are. *)
Definition stored (rnd : Q → Q) (b : TraceBounds.t) : Prop :=
  ∀ q, TraceBounds._left b = XFin q ∨ TraceBounds._right b = XFin q → (rnd q == q)%Q.

(** The viewport of a trace of 300 time units, after [right] was set to
    1/1000. *)
Definition narrow_bounds : TraceBounds.t :=
  set_right (TraceBounds.mk (XFin 300) (XFin 0) (XFin 1) []) (XFin (1 # 1000)).

(** The viewport of a trace of one time unit, as [setTrace] leaves it. *)
Definition short_trace_bounds : TraceBounds.t :=
  TraceBounds.mk (XFin 1) (XFin 0) (XFin 1) [].

(** The viewport of a trace of 15 time units, as [setTrace] leaves it. *)
Definition whole_trace_bounds : TraceBounds.t :=
  TraceBounds.mk (XFin 15) (XFin 0) (XFin 1) [].

(** The end times of the frames of a sibling list, all of them closed. *)
Definition ends_of (array : list Frame.t) (ends : list Z) : Prop :=
  Forall2 (fun f e => Frame.endTime f = Some (TNum e)) array ends.

Definition ascending (ends : list Z) : Prop :=
  ∀ i j a b, (i ≤ j)%nat → ends !! i = Some a → ends !! j = Some b → a ≤ b.

(** A closed frame without children that ran from [s] to [e]. *)
Definition leaf_frame (uid : nat) (s e : Z) : Frame.t :=
  Frame.mk uid 0 [] (Some RTrace) None None 0 0 (Some "f") VUndef VUndef
    (TNum s) VUndef VUndef (Some (TNum e)) (Some (Num (e - s))) (Some (Num (e - s)))
    None None None.

(** Three siblings that all end at 2. *)
Definition same_end_siblings : list Frame.t :=
  [leaf_frame 0 0 2; leaf_frame 1 2 2; leaf_frame 2 2 2].

(** ** Notions of the round trip through a snapshot *)

(** What a snapshot keeps of an event: of an enter event the function id
    that was resolved for the frame, the time and the arguments as written
    out; of an exit event the time and the values as written out. *)
Inductive aevent : Type :=
| AEnter (fid : nat) (startTime : option Z) (arguments : option json)
| AExit (endTime : option Z) (return_ throw yield : option json).

Definition aevent_of_enter (fid : nat) (p : EnterPacket.t) : aevent :=
  AEnter fid (stringify_time (EnterPacket.time p)) (stringify (EnterPacket.arguments p)).

Definition aevent_of_exit (p : ExitPacket.t) : aevent :=
  AExit (stringify_time (ExitPacket.time p)) (stringify (ExitPacket.return_ p))
    (stringify (ExitPacket.throw p)) (stringify (ExitPacket.yield p)).

(** The events that [parseTrace] replays for a node, in order. *)
Fixpoint dfs (n : Snapshot.node) : list aevent :=
  match n with
  | Snapshot.Node fid st et args r th y kids =>
      AEnter fid st args :: concat (map dfs kids) ++ [AExit et r th y]
  end.

(** The handler call that [parseTrace] makes for one of them. *)
Definition replay (functions : list Snapshot.func) (a : aevent) (trace : Trace.t)
  : res Trace.t :=
  match a with
  | AEnter fid st args =>
      aggregated ← of_option TypeError (functions !! fid);
      onEnteredFrame trace
        (EnterPacket.mk (Snapshot.name aggregated)
           (parse_opt (Snapshot.location aggregated)) VUndef (parse_time st)
           (parse_opt (Snapshot.parameterNames aggregated)) (parse_opt args))
  | AExit et r th y =>
      onExitedFrame trace
        (ExitPacket.mk (parse_time et) (parse_opt r) (parse_opt th) (parse_opt y))
  end.

Fixpoint replay_all (functions : list Snapshot.func) (l : list aevent)
    (trace : Trace.t) : res Trace.t :=
  match l with
  | [] => Ok trace
  | a :: l' => tr' ← replay functions a trace; replay_all functions l' tr'
  end.

(** The frame at [u] is closed and is written out as [node]. *)
Definition closed_json (frames : list Frame.t) (u : nat) (node : Snapshot.node) : Prop :=
  (∃ f e, frames !! u = Some f ∧ Frame.endTime f = Some e) ∧
  ∃ fuel, _frameToJSONObj fuel frames u = Some node.

(** How a handler leaves the closed frames. *)
Definition keeps_closed (frames frames' : list Frame.t) : Prop :=
  ∀ u f e, frames !! u = Some f → Frame.endTime f = Some e →
    ∃ f', frames' !! u = Some f' ∧ scalars f' = scalars f ∧
          Frame.children f' = Frame.children f.

(** [r.children] as an option. *)
Definition children_at (roots : list nat) (frames : list Frame.t) (r : ref)
  : option (list nat) :=
  match r with
  | RTrace => Some roots
  | RFrame u => Frame.children <$> frames !! u
  end.

(** The events handled so far, read back from the trace: below [parent],
    whose open descendants are [stack] from the outermost to the innermost,
    the closed children are written out as nodes, whose events come first,
    and the last child is the next frame of the stack if there is one. *)
Fixpoint rep_stack (roots : list nat) (frames : list Frame.t) (parent : ref)
    (stack : list nat) (aevs : list aevent) : Prop :=
  match stack with
  | [] =>
      ∃ nodes, (∃ children, children_at roots frames parent = Some children ∧
                            Forall2 (closed_json frames) children nodes) ∧
               aevs = concat (map dfs nodes)
  | s :: rest =>
      ∃ kids nodes f rest_aevs,
        children_at roots frames parent = Some (kids ++ [s]) ∧
        Forall2 (closed_json frames) kids nodes ∧
        frames !! s = Some f ∧
        aevs = concat (map dfs nodes) ++
               AEnter (Frame.fid f) (stringify_time (Frame.startTime f))
                 (stringify (Frame.arguments f)) :: rest_aevs ∧
        rep_stack roots frames (RFrame s) rest rest_aevs
  end.

Definition Hist (t : Trace.t) (aevs : list aevent) : Prop :=
  ∃ stack, Trace._stack t = Some stack ∧
           rep_stack (Trace.children t) (Trace.frames t) RTrace (rev stack) aevs.

(** Two frames, and two records, that are written out alike and on which the
    handlers act alike. *)
Definition frame_sim (f f' : Frame.t) : Prop :=
  Frame.children f' = Frame.children f ∧ Frame.fid f' = Frame.fid f ∧
  Frame.aggregated f' = Frame.aggregated f ∧
  Frame.startTime f' = Frame.startTime f ∧ Frame.endTime f' = Frame.endTime f ∧
  Frame.totalTime f' = Frame.totalTime f ∧ Frame.selfTime f' = Frame.selfTime f ∧
  stringify (Frame.arguments f') = stringify (Frame.arguments f) ∧
  (Frame.return_ f' ≫= stringify) = (Frame.return_ f ≫= stringify) ∧
  (Frame.throw f' ≫= stringify) = (Frame.throw f ≫= stringify) ∧
  (Frame.yield f' ≫= stringify) = (Frame.yield f ≫= stringify).

Definition func_sim (g g' : Function.t) : Prop :=
  Function.count g' = Function.count g ∧ Function.name g' = Function.name g ∧
  stringify (Function.location g') = stringify (Function.location g) ∧
  stringify (Function.parameterNames g') = stringify (Function.parameterNames g) ∧
  Function.totalTime g' = Function.totalTime g ∧
  Function.selfTime g' = Function.selfTime g.

(** The trace [t'] that the replay builds follows the trace [t]. *)
Record sim (t t' : Trace.t) : Prop := {
  sim_stack : Trace._stack t' = Trace._stack t;
  sim_ids : Trace._functionIds t' = Trace._functionIds t;
  sim_roots : Trace.children t' = Trace.children t;
  sim_frames : Forall2 frame_sim (Trace.frames t) (Trace.frames t');
  sim_functions : Forall2 func_sim (Trace.functions t) (Trace.functions t')
}.

(** The table [F] of a snapshot has, at every position of the table of [t],
    the name, location and parameter names of the record, written out. *)
Definition static_link (F : list Snapshot.func) (t : Trace.t) : Prop :=
  ∀ i g, Trace.functions t !! i = Some g →
    ∃ sf, F !! i = Some sf ∧ Snapshot.name sf = Function.name g ∧
          Snapshot.location sf = stringify (Function.location g) ∧
          Snapshot.parameterNames sf = stringify (Function.parameterNames g).

(** The name, location and parameter names of a record. *)
Definition static (g : Function.t) :=
  (Function.name g, Function.location g, Function.parameterNames g).

(** ** Notions of the tree of frames *)

(** A list of uids in ascending order. *)
Definition ascending_uids (l : list nat) : Prop :=
  ∀ i j a b, (i < j)%nat → l !! i = Some a → l !! j = Some b → (a < b)%nat.

(** The child list [kids] of [r], whose children are at depth [d]: every
    child names [r] as [older], and [previous] and [next] follow the list. *)
Definition family (frames : list Frame.t) (r : ref) (d : nat) (kids : list nat) : Prop :=
  ascending_uids kids ∧
  ∀ i c, kids !! i = Some c →
    ∃ fc, frames !! c = Some fc ∧ Frame.older fc = Some r ∧ Frame.depth fc = d ∧
          Frame.previous fc = match i with O => None | S i' => kids !! i' end ∧
          Frame.next fc = kids !! S i.

(** The stack is the chain of [older] links from the current frame down to
    the trace. *)
Fixpoint chain (frames : list Frame.t) (stack : list nat) : Prop :=
  match stack with
  | [] => True
  | u :: rest =>
      (∃ f, frames !! u = Some f ∧ Frame.older f = Some (_currentFrame rest) ∧
            Frame.depth f = length rest) ∧
      chain frames rest
  end.

(** The properties of a frame that tie it into the tree. *)
Definition links (f : Frame.t) :=
  (Frame.depth f, Frame.children f, Frame.older f, Frame.previous f, Frame.next f).

(** The invariant of the links between the frames. *)
Record Tree (t : Trace.t) : Prop := {
  tree_roots : family (Trace.frames t) RTrace 0 (Trace.children t);
  tree_kids : ∀ u f, Trace.frames t !! u = Some f →
     family (Trace.frames t) (RFrame u) (S (Frame.depth f)) (Frame.children f);
  tree_parent : ∀ c fc, Trace.frames t !! c = Some fc →
     ∃ r kids, Frame.older fc = Some r ∧
       children_at (Trace.children t) (Trace.frames t) r = Some kids ∧ c ∈ kids;
  tree_stack : ∀ stack, Trace._stack t = Some stack → chain (Trace.frames t) stack;
  tree_depth : Trace.maxDepth t = foldr Nat.max 0%nat (Frame.depth <$> Trace.frames t)
}.

(** ** Notions of the table of functions *)

(** The key under which [_functionIds] knows a record. *)
Definition key_of (g : Function.t) : string :=
  locationToString (Function.location g) (Function.name g).

(** The frames of the function [i], and those of them that were exited. *)
Definition calls (i : nat) (frames : list Frame.t) : list Frame.t :=
  filter (fun f => Frame.fid f = i) frames.

Definition exited_calls (i : nat) (frames : list Frame.t) : list Frame.t :=
  filter (fun f => Frame.fid f = i ∧ is_Some (Frame.endTime f)) frames.

(** [frame.totalTime] and [frame.selfTime] read as numbers. *)
Definition total_of (f : Frame.t) : num := opt_number (Frame.totalTime f).
Definition self_of (f : Frame.t) : num := opt_number (Frame.selfTime f).

(** The sum that a record holds: nothing before the first exit. *)
Definition sum_of (l : list num) : option num :=
  match l with
  | [] => None
  | _ :: _ => Some (num_sum l)
  end.

(** The time stamps [zs] of [n] events are integers of magnitude at most
    [B], with [B] so small that every difference and every sum of
    differences that the handlers compute from them is a safe integer, which
    binary64 arithmetic computes without rounding. *)
Definition exact_clock (n : nat) (B : Z) (zs : list Z) : Prop :=
  Forall (fun z => - B ≤ z ≤ B) zs ∧ 2 * Z.of_nat n * B ≤ 2 ^ 53.

(** The invariant of the table of functions. *)
Record Table (t : Trace.t) : Prop := {
  table_count : ∀ i g, Trace.functions t !! i = Some g →
     Function.count g = length (calls i (Trace.frames t)) ∧ (1 ≤ Function.count g)%nat;
  table_frame : ∀ u f, Trace.frames t !! u = Some f →
     ∃ g, Trace.functions t !! Frame.fid f = Some g ∧
          Frame.name f = Function.name g ∧ Frame.location f = Function.location g ∧
          Frame.parameterNames f = Function.parameterNames g;
  table_keys : ∀ i j gi gj, Trace.functions t !! i = Some gi →
     Trace.functions t !! j = Some gj → key_of gi = key_of gj → i = j;
  table_ids : ∀ ids, Trace._functionIds t = Some ids →
     ∀ i g, Trace.functions t !! i = Some g → ids !! key_of g = Some i;
  table_times : ∀ i g, Trace.functions t !! i = Some g →
     Function.totalTime g = sum_of (total_of <$> exited_calls i (Trace.frames t)) ∧
     Function.selfTime g = sum_of (self_of <$> exited_calls i (Trace.frames t))
}.

(** ** Notions of a trace whose clock never runs backwards *)

(** The invariant of the time stamps, when every event carries a time that
    is at least the time of the event before it; [now] is the time of the
    last event. *)
Record Timed (now : Z) (t : Trace.t) : Prop := {
  timed_frame : ∀ u f, Trace.frames t !! u = Some f →
     ∃ s, Frame.startTime f = TNum s ∧ s ≤ now ∧
          ∀ e, Frame.endTime f = Some e → ∃ ez, e = TNum ez ∧ s ≤ ez ≤ now;
  timed_child : ∀ u f c fc s sc, Trace.frames t !! u = Some f →
     c ∈ Frame.children f → Trace.frames t !! c = Some fc →
     Frame.startTime f = TNum s → Frame.startTime fc = TNum sc →
     s ≤ sc ∧
     ∀ e, Frame.endTime f = Some (TNum e) →
          ∃ ec, Frame.endTime fc = Some (TNum ec) ∧ ec ≤ e;
  timed_next : ∀ r kids i a b fb,
     children_at (Trace.children t) (Trace.frames t) r = Some kids →
     kids !! i = Some a → kids !! S i = Some b → Trace.frames t !! b = Some fb →
     ∃ fa ea sb, Trace.frames t !! a = Some fa ∧ Frame.endTime fa = Some (TNum ea) ∧
                 Frame.startTime fb = TNum sb ∧ ea ≤ sb
}.

(** A is entered at 0; its children B and C run from 1 to 2 and from 3 to 4;
    A exits at 5. *)
Definition two_short_children : list event :=
  [Entered (enter_at "A" 0);
   Entered (enter_at "B" 1); Exited (exit_at 2);
   Entered (enter_at "C" 3); Exited (exit_at 4);
   Exited (exit_at 5)].

(** The children [kids] were exited one after the other between [lo] and
    [hi], and the total time of each is the length of its interval. *)
Fixpoint packed (frames : list Frame.t) (lo : Z) (kids : list nat) (hi : Z) : Prop :=
  match kids with
  | [] => lo ≤ hi
  | c :: rest =>
      ∃ fc s e, frames !! c = Some fc ∧ Frame.startTime fc = TNum s ∧
                Frame.endTime fc = Some (TNum e) ∧
                Frame.totalTime fc = Some (Num (e - s)) ∧ lo ≤ s ∧ s ≤ e ∧
                packed frames e rest hi
  end.

(** ** Notions of a snapshot *)

(** Every node of the tree refers to an entry of the table [F]. *)
Fixpoint fids_ok (F : list Snapshot.func) (n : Snapshot.node) : bool :=
  match n with
  | Snapshot.Node fid _ _ _ _ _ _ kids =>
      bool_decide (fid < length F)%nat && forallb (fids_ok F) kids
  end.

(** A node without its function ids. *)
Fixpoint shape (n : Snapshot.node) : Snapshot.node :=
  match n with
  | Snapshot.Node _ st et args r th y kids =>
      Snapshot.Node 0 st et args r th y (map shape kids)
  end.

Definition ashape (a : aevent) : aevent :=
  match a with
  | AEnter _ st args => AEnter 0 st args
  | AExit et r th y => AExit et r th y
  end.

(** What follows the events of a forest, if anything, is an exit. *)
Definition after_forest (r : list aevent) : Prop :=
  match r with
  | AEnter _ _ _ :: _ => False
  | _ => True
  end.

(** A snapshot of two calls of one function, the second inside the first. *)
Definition nested_snapshot : Snapshot.t :=
  Snapshot.mk
    [Snapshot.mkfunc 2 (Some "f") (Some (JNum 1)) None (Some (JNum 6)) (Some (JNum 4))]
    [Snapshot.Node 0 (Some 0) (Some 4) None None None None
       [Snapshot.Node 0 (Some 1) (Some 3) None (Some (JNum 7)) None None []]].

(** A snapshot whose only node refers to a function that the table lacks. *)
Definition dangling_snapshot : Snapshot.t :=
  Snapshot.mk [] [Snapshot.Node 0 (Some 0) (Some 4) None None None None []].

(** ** Notions of the colors *)

(** The hue, saturation and lightness that [getColor] keeps [current]
    within. *)
Definition in_palette (c : Current.t) : Prop :=
  0 < Current.h c ≤ 360 ∧ 30 < Current.s c ≤ 70 ∧ 20 < Current.l c ≤ 60.

(** [current] after [n] calls of [getColor]. *)
Definition colors_after (n : nat) (c : Current.t) : Current.t :=
  Nat.iter n (fun c => (getColor c).1) c.

(** ** Notions of the order of arrival *)

(** The packets of the enter events of a list, in order. *)
Definition enter_packets (evs : list event) : list EnterPacket.t :=
  omap (fun e => match e with Entered p => Some p | Exited _ => None end) evs.

(** The frame [f] of the trace [t] holds what the packet [p] carried. *)
Definition records (t : Trace.t) (p : EnterPacket.t) (f : Frame.t) : Prop :=
  Frame.startTime f = EnterPacket.time p ∧
  Frame.callsite f = EnterPacket.callsite p ∧
  Frame.arguments f = EnterPacket.arguments p ∧
  ∃ g, Trace.functions t !! Frame.fid f = Some g ∧
       key_of g = locationToString (EnterPacket.location p) (EnterPacket.name p).

(** ** Notions of the main view *)

(** [u] is below [r] in the tree: a child of [r], or below a child of [r]. *)
Inductive below (t : Trace.t) : ref → nat → Prop :=
| below_child (r : ref) (kids : list nat) (c : nat) :
    children_at (Trace.children t) (Trace.frames t) r = Some kids → c ∈ kids →
    below t r c
| below_deeper (r : ref) (kids : list nat) (c u : nat) :
    children_at (Trace.children t) (Trace.frames t) r = Some kids → c ∈ kids →
    below t (RFrame c) u → below t r u.

(** The frame [u] ran from [s] to [e]. *)
Definition span (t : Trace.t) (u : nat) (s e : Z) : Prop :=
  ∃ f, Trace.frames t !! u = Some f ∧ Frame.startTime f = TNum s ∧
       Frame.endTime f = Some (TNum e).

(** The calls of [_renderChildren] from [frame] fit in [fuel]. *)
Definition fuel_for (t : Trace.t) (frame : ref) (fuel : nat) : Prop :=
  match frame with
  | RTrace => (length (Trace.frames t) < fuel)%nat
  | RFrame u => (u < length (Trace.frames t))%nat ∧ (length (Trace.frames t) - u ≤ fuel)%nat
  end.

(** What holds of the frames that are drawn, for a window from [L] to [R]:
    each starts at the right edge of the window or before, and ends at the
    left edge or after. *)
Definition meets_window (t : Trace.t) (L R : Q) (u : nat) : Prop :=
  ∃ s e, span t u s e ∧ (inject_Z s <= R)%Q ∧ (L <= inject_Z e)%Q.

(** What suffices for a frame to be drawn: it took some time, it ends after
    the left edge of the window and it starts at the right edge or before. *)
Definition in_window (t : Trace.t) (L R : Q) (u : nat) : Prop :=
  ∃ s e, span t u s e ∧ s < e ∧ (L < inject_Z e)%Q ∧ (inject_Z s <= R)%Q.

(** ** Handlers: inversion *)

Lemma bind_Ok {A B : Type} (r : res A) (k : A → res B) (b : B) :
  r ≫= k = Ok b ↔ ∃ a, r = Ok a ∧ k a = Ok b.
Proof.
  destruct r as [a|e]; simpl; split.
  - eauto.
  - intros (a' & [= ->] & ?). done.
  - discriminate.
  - intros (a' & [=] & ?).
Qed.

Lemma of_option_Ok {A : Type} (e : error) (o : option A) (a : A) :
  of_option e o = Ok a ↔ o = Some a.
Proof. destruct o; simpl; split; congruence. Qed.

Ltac res_inv H :=
  repeat match type of H with
    | _ ≫= _ = Ok _ =>
        let a := fresh "x" in
        let E := fresh "E" in
        apply bind_Ok in H as (a & E & H);
        try apply of_option_Ok in E
    end.

Lemma run_app (t : Trace.t) (evs1 evs2 : list event) :
  run t (evs1 ++ evs2) = (t' ← run t evs1; run t' evs2).
Proof.
  revert t. induction evs1 as [|e evs1 IH]; intros t; simpl; [done|].
  destruct (handle t e); simpl; [apply IH|done].
Qed.

(** A property of traces that every handler preserves holds after a run. *)
Lemma run_invariant (P : Trace.t → Prop) :
  (∀ t e t', P t → handle t e = Ok t' → P t') →
  ∀ evs t t', P t → run t evs = Ok t' → P t'.
Proof.
  intros Hstep. induction evs as [|e evs IH]; simpl; intros t t' HP Hrun.
  - congruence.
  - apply bind_Ok in Hrun as (t1 & H1 & H2). eauto.
Qed.

(** ** parseTrace replays the events of the nodes *)

Lemma node_ind' (P : Snapshot.node → Prop) :
  (∀ fid st et args r th y kids, Forall P kids →
     P (Snapshot.Node fid st et args r th y kids)) →
  ∀ n, P n.
Proof.
  intros H. fix IH 1. intros [fid st et args r th y kids]. apply H.
  induction kids as [|k kids IHk]; constructor; [apply IH|exact IHk].
Qed.

Lemma replay_all_app (F : list Snapshot.func) (l1 l2 : list aevent) (tr : Trace.t) :
  replay_all F (l1 ++ l2) tr = (tr' ← replay_all F l1 tr; replay_all F l2 tr').
Proof.
  revert tr. induction l1 as [|a l1 IH]; intros tr; simpl; [done|].
  destruct (replay F a tr); simpl; [apply IH|done].
Qed.

Lemma enterFrame_replay (F : list Snapshot.func) (n : Snapshot.node) :
  ∀ tr, enterFrame F n tr = replay_all F (dfs n) tr.
Proof.
  induction n as [fid st et args r th y kids IH] using node_ind'. intros tr.
  simpl. destruct (F !! fid) as [agg|]; simpl; [|done].
  destruct (onEnteredFrame tr _) as [tr1|]; simpl; [|done].
  rewrite replay_all_app. clear tr. revert tr1.
  induction IH as [|k kids Hk _ IHkids]; intros tr1; simpl.
  - by destruct (onExitedFrame tr1 _).
  - rewrite replay_all_app, Hk.
    destruct (replay_all F (dfs k) tr1) as [tr2|]; simpl; [apply IHkids|done].
Qed.

Lemma enterFrames_replay (F : list Snapshot.func) (l : list Snapshot.node) :
  ∀ tr, enterFrames F l tr = replay_all F (concat (map dfs l)) tr.
Proof.
  induction l as [|k l IH]; intros tr; simpl; [done|].
  rewrite replay_all_app, enterFrame_replay.
  destruct (replay_all F (dfs k) tr); simpl; [apply IH|done].
Qed.

(** Every step of the replay is a call of a handler. *)
Lemma replay_handle (F : list Snapshot.func) (a : aevent) (t t' : Trace.t) :
  replay F a t = Ok t' → ∃ e, handle t e = Ok t'.
Proof.
  destruct a as [fid st args|et r th y]; simpl; intros H.
  - res_inv H. by eexists (Entered _).
  - by eexists (Exited _).
Qed.

Lemma replay_invariant (P : Trace.t → Prop) :
  (∀ t e t', P t → handle t e = Ok t' → P t') →
  ∀ F aevs t t', P t → replay_all F aevs t = Ok t' → P t'.
Proof.
  intros Hstep F. induction aevs as [|a aevs IH]; simpl; intros t t' HP Hrun.
  - congruence.
  - apply bind_Ok in Hrun as (t1 & H1 & H2).
    destruct (replay_handle _ _ _ _ H1) as (e & He). eauto.
Qed.

(** A property of traces that holds of a new trace, that the handlers
    preserve and that does not depend on [finished] holds of every trace that
    ingestion builds. *)
Lemma reachable_invariant (P : Trace.t → Prop) :
  (∀ c name, P (new_Trace c name)) →
  (∀ t e t', P t → handle t e = Ok t' → P t') →
  (∀ t, P t → P (set_finished t)) →
  ∀ t, reachable t → P t.
Proof.
  intros Hnew Hstep Hfin t [(c & name & evs & Hrun)|(data & Hparse)].
  - eapply run_invariant; [exact Hstep|apply Hnew|exact Hrun].
  - unfold parseTrace in Hparse. apply bind_Ok in Hparse as (t0 & H0 & [= <-]).
    apply Hfin. rewrite enterFrames_replay in H0.
    eapply replay_invariant; [exact Hstep|apply Hnew|exact H0].
Qed.

Lemma finish_frames (t t' : Trace.t) :
  finish t = Ok t' → Trace.frames t' = Trace.frames t.
Proof. unfold finish. intros H. res_inv H. by injection H as <-. Qed.

(** ** The flat frame list is indexed by uid *)

Lemma uid_indexed_alter (g : Frame.t → Frame.t) (i : nat) (frames : list Frame.t) :
  (∀ f, Frame.uid (g f) = Frame.uid f) →
  uid_indexed frames → uid_indexed (alter g i frames).
Proof.
  intros Hg Hi u f. destruct (decide (i = u)) as [->|Hne].
  - rewrite list_lookup_alter_eq. destruct (frames !! u) as [f0|] eqn:E; [|done].
    simpl. intros [= <-]. rewrite Hg. by apply Hi.
  - rewrite list_lookup_alter_ne by done. apply Hi.
Qed.

Lemma uid_indexed_snoc (frames : list Frame.t) (f : Frame.t) :
  Frame.uid f = length frames → uid_indexed frames → uid_indexed (frames ++ [f]).
Proof.
  intros Hf Hi u g Hu. apply lookup_app_Some in Hu as [Hu|[Hlen Hu]].
  - by apply Hi.
  - apply list_lookup_singleton_Some in Hu as [Hz ->]. lia.
Qed.

Lemma onEnteredFrame_uid_indexed (t t' : Trace.t) (p : EnterPacket.t) :
  onEnteredFrame t p = Ok t' →
  uid_indexed (Trace.frames t) → uid_indexed (Trace.frames t').
Proof.
  unfold onEnteredFrame. intros H Hi. res_inv H. injection H as <-; simpl.
  assert (uid_indexed (match last x0 with
         | Some p0 => alter (Frame.set_next (length (Trace.frames t))) p0 (Trace.frames t)
         | None => Trace.frames t end))
       by (destruct (last x0); [by apply uid_indexed_alter|done]).
  destruct (_currentFrame x); simpl.
  all: try apply uid_indexed_alter; try done.
  all: apply uid_indexed_snoc; try done; simpl.
  all: destruct (last x0); by rewrite ?length_alter.
Qed.

Lemma onExitedFrame_uid_indexed (t t' : Trace.t) (p : ExitPacket.t) :
  onExitedFrame t p = Ok t' →
  uid_indexed (Trace.frames t) → uid_indexed (Trace.frames t').
Proof.
  unfold onExitedFrame. intros H Hi. res_inv H.
  destruct x as [|u stack'].
  - by rewrite (finish_frames _ _ H).
  - res_inv H. injection H as <-. simpl.
    intros v f. destruct (decide (u = v)) as [->|Hne].
    + rewrite list_lookup_insert_eq by (by eapply lookup_lt_Some).
      intros [= <-]. simpl. by apply Hi.
    + rewrite list_lookup_insert_ne by done. apply Hi.
Qed.

(** C10: after any events handled by a new trace, every frame of the flat
    list sits at the position equal to its uid; [frameByUid u] is the only
    frame of the list whose uid is [u]; and [frameByUid] of a uid that is not
    below the length of the list is undefined, not an exception. *)
Theorem frames_indexed_by_uid (t : Trace.t) :
  reachable t →
  (∀ u f, Trace.frames t !! u = Some f → Frame.uid f = u) ∧
  (∀ u f, f ∈ Trace.frames t → Frame.uid f = u → frameByUid t u = Some f) ∧
  (∀ u, (length (Trace.frames t) ≤ u)%nat → frameByUid t u = None).
Proof.
  intros Hr.
  assert (Hi : uid_indexed (Trace.frames t)).
  { revert t Hr. apply (reachable_invariant (fun t => uid_indexed (Trace.frames t))).
    - intros c name u f Hu. by destruct c, u.
    - intros t1 [p|p] t2 H1 H2; simpl in H2.
      + by eapply onEnteredFrame_uid_indexed.
      + by eapply onExitedFrame_uid_indexed.
    - done. }
  split; [exact Hi|]. split.
  - intros u f Hin Huid. apply list_elem_of_lookup in Hin as [i Hi'].
    unfold frameByUid. by rewrite <- Huid, (Hi _ _ Hi').
  - intros u Hu. unfold frameByUid. by apply lookup_ge_None.
Qed.

Lemma frames_indexed_by_uid_witness :
  reachable scenario_trace ∧
  (Frame.uid <$> frameByUid scenario_trace 1 = Some 1%nat) ∧
  frameByUid scenario_trace 2 = None.
Proof.
  assert (Hr : reachable scenario_trace).
  { left. exists (Some []), None, scenario. vm_compute. reflexivity. }
  split; [exact Hr|].
  destruct (frames_indexed_by_uid scenario_trace Hr) as (H1 & H2 & H3).
  split; [reflexivity|]. apply H3. vm_compute. lia.
Defined.

(** ** The invariant of ingestion *)

Lemma Forall_lt_mono (l : list nat) (n m : nat) :
  (n ≤ m)%nat → Forall (fun u => u < n)%nat l → Forall (fun u => u < m)%nat l.
Proof. intros Hnm H. eapply Forall_impl; [exact H|]. simpl. intros; lia. Qed.

Lemma link_previous_length (o : option nat) (n : nat) (frames : list Frame.t) :
  length (match o with
          | Some p => alter (Frame.set_next n) p frames
          | None => frames
          end) = length frames.
Proof. destruct o; by rewrite ?length_alter. Qed.

Lemma link_previous_lookup (o : option nat) (n u : nat) (frames : list Frame.t) :
  match o with
  | Some p => alter (Frame.set_next n) p frames
  | None => frames
  end !! u =
  (if decide (o = Some u) then Frame.set_next n else id) <$> frames !! u.
Proof.
  destruct o as [p|].
  - destruct (decide (p = u)) as [->|Hne].
    + rewrite list_lookup_alter_eq. by rewrite decide_True.
    + rewrite list_lookup_alter_ne by done. rewrite decide_False by congruence.
      by destruct (frames !! u).
  - rewrite decide_False by done. by destruct (frames !! u).
Qed.

(** The frames of the trace after [onEnteredFrame], position by position. *)
Lemma onEnteredFrame_frames (t t' : Trace.t) (p : EnterPacket.t) :
  onEnteredFrame t p = Ok t' →
  ∃ stack siblings fnew,
    Trace._stack t = Some stack ∧
    children_of t (_currentFrame stack) = Ok siblings ∧
    Trace._stack t' = Some (length (Trace.frames t) :: stack) ∧
    length (Trace.frames t') = S (length (Trace.frames t)) ∧
    Trace.frames t' !! length (Trace.frames t) = Some fnew ∧
    Frame.uid fnew = length (Trace.frames t) ∧
    Frame.depth fnew = length stack ∧
    Frame.children fnew = [] ∧
    Frame.older fnew = Some (_currentFrame stack) ∧
    Frame.previous fnew = last siblings ∧
    Frame.startTime fnew = EnterPacket.time p ∧
    Frame.arguments fnew = EnterPacket.arguments p ∧
    is_open fnew ∧
    (∀ u, (u < length (Trace.frames t))%nat →
       Trace.frames t' !! u =
       (fun f => (if decide (_currentFrame stack = RFrame u)
                  then Frame.push_child (length (Trace.frames t)) else id)
                   ((if decide (last siblings = Some u)
                     then Frame.set_next (length (Trace.frames t)) else id) f))
         <$> Trace.frames t !! u) ∧
    Trace.children t' =
      match _currentFrame stack with
      | RTrace => Trace.children t ++ [length (Trace.frames t)]
      | RFrame _ => Trace.children t
      end.
Proof.
  unfold onEnteredFrame. intros H. res_inv H. injection H as <-; simpl.
  set (n := length (Trace.frames t)).
  set (fnew := Frame.mk n (length x) [] (Some (_currentFrame x))
               (last x0) None x2 x2 (Function.name x3) (Function.location x3)
               (Function.parameterNames x3) (EnterPacket.time p)
               (EnterPacket.callsite p) (EnterPacket.arguments p)
               None None None None None None).
  exists x, x0, fnew. split; [done|]. split; [done|]. split; [done|].
  set (frames1 := match last x0 with
                  | Some p0 => alter (Frame.set_next n) p0 (Trace.frames t)
                  | None => Trace.frames t end).
  assert (Hlen1 : length frames1 = n) by apply link_previous_length.
  split; [|split].
  - destruct (_currentFrame x); rewrite ?length_alter, length_app, Hlen1; simpl; lia.
  - destruct (_currentFrame x) as [|c] eqn:Ecur.
    + rewrite lookup_app_r by lia. rewrite Hlen1, Nat.sub_diag. reflexivity.
    + assert (c ≠ n).
      { intros ->. simpl in E0. apply of_option_Ok in E0.
        destruct (Trace.frames t !! n) eqn:En; [|done].
        apply lookup_lt_Some in En. unfold n in En. lia. }
      rewrite list_lookup_alter_ne by done.
      rewrite lookup_app_r by lia. rewrite Hlen1, Nat.sub_diag. reflexivity.
  - simpl. repeat (split; [done|]). split; [|done].
    intros u Hu.
    assert (Hbase : (frames1 ++ [fnew]) !! u
             = (if decide (last x0 = Some u) then Frame.set_next n else id)
                 <$> Trace.frames t !! u).
    { rewrite lookup_app_l by lia. apply link_previous_lookup. }
    destruct (_currentFrame x) as [|c] eqn:Ecur.
    + rewrite Hbase. by destruct (Trace.frames t !! u).
    + destruct (decide (c = u)) as [->|Hne].
      * rewrite list_lookup_alter_eq, Hbase.
        destruct (Trace.frames t !! u); simpl; [|done].
        by destruct (decide (RFrame u = RFrame u)).
      * rewrite list_lookup_alter_ne, Hbase by done.
        destruct (Trace.frames t !! u); simpl; [|done].
        destruct (decide (RFrame c = RFrame u)); [congruence|done].
Qed.

(** The aggregate table after [onEnteredFrame]: either the key is known and
    the count of its record is incremented, or a record is appended. *)
Lemma onEnteredFrame_functions (t t' : Trace.t) (p : EnterPacket.t) :
  onEnteredFrame t p = Ok t' →
  ∃ ids fid fnew,
    Trace._functionIds t = Some ids ∧
    Trace.frames t' !! length (Trace.frames t) = Some fnew ∧
    Frame.fid fnew = fid ∧ Frame.aggregated fnew = fid ∧
    ((∃ g, ids !! locationToString (EnterPacket.location p) (EnterPacket.name p)
             = Some fid ∧
           Trace.functions t !! fid = Some g ∧
           Trace._functionIds t' = Some ids ∧
           Trace.functions t' = <[fid := Function.incr_count g]> (Trace.functions t))
     ∨ (ids !! locationToString (EnterPacket.location p) (EnterPacket.name p) = None ∧
        fid = length (Trace.functions t) ∧
        Trace._functionIds t' =
          Some (<[locationToString (EnterPacket.location p) (EnterPacket.name p)
                  := fid]> ids) ∧
        Trace.functions t' =
          Trace.functions t ++
            [Function.mk 1 (EnterPacket.name p) (EnterPacket.location p)
               (EnterPacket.parameterNames p) None None])).
Proof.
  intros H. destruct (onEnteredFrame_frames _ _ _ H)
    as (stack & sib & fnew & _ & _ & _ & _ & Hnew & _).
  revert H Hnew. unfold onEnteredFrame. intros H. res_inv H. injection H as <-; simpl.
  intros Hnew. exists x1, x2, fnew. split; [done|]. split; [done|].
  assert (Hfid : Frame.fid fnew = x2 ∧ Frame.aggregated fnew = x2).
  { set (n := length (Trace.frames t)) in *.
    set (frames1 := match last x0 with
                    | Some p0 => alter (Frame.set_next n) p0 (Trace.frames t)
                    | None => Trace.frames t end) in *.
    assert (Hlen1 : length frames1 = n) by apply link_previous_length.
    destruct (_currentFrame x) as [|c] eqn:Ecur.
    - rewrite lookup_app_r in Hnew by lia. rewrite Hlen1, Nat.sub_diag in Hnew.
      by injection Hnew as <-.
    - assert (c ≠ n).
      { intros ->. simpl in E0. apply of_option_Ok in E0.
        destruct (Trace.frames t !! n) eqn:En; [|done].
        apply lookup_lt_Some in En. unfold n in En. lia. }
      rewrite list_lookup_alter_ne in Hnew by done.
      rewrite lookup_app_r in Hnew by lia. rewrite Hlen1, Nat.sub_diag in Hnew.
      by injection Hnew as <-. }
  destruct Hfid as [-> ->]. split; [done|]. split; [done|]. clear Hnew.
  destruct (x1 !! _) as [i|] eqn:Eid; simpl in *.
  - left. exists x3. rewrite Eid in E2. by injection E2 as ->.
  - right. rewrite lookup_insert_eq in E2. injection E2 as <-.
    rewrite lookup_app_r, Nat.sub_diag in E3 by lia. injection E3 as <-.
    split; [done|]. split; [done|]. split; [done|].
    replace (length (Trace.functions t)) with (length (Trace.functions t) + 0)%nat
      at 1 by lia.
    by rewrite insert_app_r.
Qed.

Lemma scalars_inv (f f' : Frame.t) :
  scalars f' = scalars f →
  Frame.uid f' = Frame.uid f ∧ Frame.fid f' = Frame.fid f ∧
  Frame.aggregated f' = Frame.aggregated f ∧
  Frame.startTime f' = Frame.startTime f ∧ Frame.arguments f' = Frame.arguments f ∧
  Frame.endTime f' = Frame.endTime f ∧ Frame.totalTime f' = Frame.totalTime f ∧
  Frame.selfTime f' = Frame.selfTime f ∧ Frame.return_ f' = Frame.return_ f ∧
  Frame.throw f' = Frame.throw f ∧ Frame.yield f' = Frame.yield f ∧
  Frame.older f' = Frame.older f ∧ Frame.previous f' = Frame.previous f ∧
  Frame.depth f' = Frame.depth f.
Proof. unfold scalars. intros [= ]. repeat split; done. Qed.

Lemma is_open_scalars (f f' : Frame.t) :
  scalars f' = scalars f → is_open f → is_open f'.
Proof.
  intros Hs (H1 & H2 & H3 & H4 & H5 & H6). apply scalars_inv in Hs.
  unfold is_open. destruct_and!. repeat split; congruence.
Qed.

(** A frame that existed before [onEnteredFrame] keeps its properties, but
    that the top of the stack has the new frame as one more child, and that
    [next] of the last sibling is set. *)
Lemma onEnteredFrame_old_frame (t t' : Trace.t) (p : EnterPacket.t) (stack : list nat)
    (u : nat) (f' : Frame.t) :
  onEnteredFrame t p = Ok t' → Trace._stack t = Some stack →
  (u < length (Trace.frames t))%nat → Trace.frames t' !! u = Some f' →
  ∃ f, Trace.frames t !! u = Some f ∧ scalars f' = scalars f ∧
       Frame.children f' =
         if decide (_currentFrame stack = RFrame u)
         then Frame.children f ++ [length (Trace.frames t)] else Frame.children f.
Proof.
  intros H Hst Hu Hf'.
  destruct (onEnteredFrame_frames _ _ _ H)
    as (stack0 & sib & fnew & Hst0 & _ & _ & _ & _ & _ & _ & _ & _ & _ & _ & _ & _ & Hold & _).
  rewrite Hst in Hst0. injection Hst0 as <-.
  rewrite (Hold u Hu) in Hf'.
  destruct (Trace.frames t !! u) as [f|]; [|done]. simpl in Hf'.
  injection Hf' as <-. exists f. split; [done|].
  destruct (decide (_currentFrame stack = RFrame u)),
           (decide (last sib = Some u)); done.
Qed.

Lemma onEnteredFrame_old_frame_rev (t t' : Trace.t) (p : EnterPacket.t)
    (u : nat) (f : Frame.t) :
  onEnteredFrame t p = Ok t' → Trace.frames t !! u = Some f →
  ∃ f', Trace.frames t' !! u = Some f' ∧ scalars f' = scalars f.
Proof.
  intros H Hf.
  destruct (onEnteredFrame_frames _ _ _ H)
    as (stack0 & sib & fnew & Hst0 & _ & _ & _ & _ & _ & _ & _ & _ & _ & _ & _ & _ & Hold & _).
  rewrite (Hold u) by (by eapply lookup_lt_Some). rewrite Hf. simpl.
  eexists. split; [done|].
  destruct (decide (_currentFrame stack0 = RFrame u)),
           (decide (last sib = Some u)); done.
Qed.

Lemma new_Trace_Inv (c : option client) (name : option string) : Inv (new_Trace c name).
Proof.
  split; simpl.
  - constructor.
  - intros u f Hu. by destruct u.
  - intros u f Hu. by destruct u.
  - intros u f e Hu. by destruct u.
  - intros stack [= <-]. split; simpl.
    + done.
    + intros u Hu. by apply elem_of_nil in Hu.
    + intros u f Hu. by destruct u.
    + exists ∅. split; [done|]. intros k i Hk. by rewrite lookup_empty in Hk.
Qed.

Lemma totals_at_ext (frames frames' : list Frame.t) (children : list nat)
    (totals : list num) :
  (∀ c fc, c ∈ children → frames !! c = Some fc →
     ∃ fc', frames' !! c = Some fc' ∧ scalars fc' = scalars fc) →
  totals_at frames children totals → totals_at frames' children totals.
Proof.
  intros Hext Ht. unfold totals_at in *.
  induction Ht as [|c x cs xs (fc & e & Hc & He & Hx) _ IH]; [constructor|].
  constructor.
  - destruct (Hext c fc) as (fc' & Hc' & Hs); [by left|done|].
    apply scalars_inv in Hs. destruct_and!.
    exists fc', e. repeat split; congruence.
  - apply IH. intros c' fc' Hin. apply Hext. by right.
Qed.

Lemma onEnteredFrame_Inv (t t' : Trace.t) (p : EnterPacket.t) :
  Inv t → onEnteredFrame t p = Ok t' → Inv t'.
Proof.
  intros HI H.
  destruct (onEnteredFrame_frames _ _ _ H)
    as (stack & sib & fnew & Hst & Hsib & Hst' & Hlen & Hnew & Huid & Hdepth & Hkids
        & Holder & Hprev & Hstart & Hargs & Hopen & Hold & Hroots).
  destruct (onEnteredFrame_functions _ _ _ H)
    as (ids & fid & fnew' & Hids & Hnew' & Hfid & Hagg & Hfun).
  rewrite Hnew in Hnew'. injection Hnew' as <-.
  pose proof (inv_live _ HI _ Hst) as HL.
  set (n := length (Trace.frames t)) in *.
  assert (Hfunlen : (length (Trace.functions t) ≤ length (Trace.functions t'))%nat
                    ∧ (fid < length (Trace.functions t'))%nat).
  { destruct Hfun as [(g & _ & Hg & _ & ->)|(_ & -> & _ & ->)].
    - rewrite length_insert. split; [lia|]. by eapply lookup_lt_Some.
    - rewrite length_app. simpl. lia. }
  assert (Hcases : ∀ u f', Trace.frames t' !! u = Some f' →
            (u = n ∧ f' = fnew) ∨
            ((u < n)%nat ∧ ∃ f, Trace.frames t !! u = Some f ∧ scalars f' = scalars f ∧
               Frame.children f' =
                 if decide (_currentFrame stack = RFrame u)
                 then Frame.children f ++ [n] else Frame.children f)).
  { intros u f' Hu. destruct (decide (u = n)) as [->|Hne].
    - left. split; [done|]. congruence.
    - right. assert (u < n)%nat.
      { apply lookup_lt_Some in Hu. lia. }
      split; [done|]. by eapply onEnteredFrame_old_frame. }
  split.
  - (* roots *)
    rewrite Hroots, Hlen. destruct (_currentFrame stack).
    + apply Forall_app. split.
      * eapply Forall_lt_mono; [|apply (inv_roots _ HI)]. lia.
      * constructor; [lia|constructor].
    + eapply Forall_lt_mono; [|apply (inv_roots _ HI)]. lia.
  - (* children *)
    intros u f' Hu. rewrite Hlen.
    destruct (Hcases _ _ Hu) as [[-> ->]|(Hlt & f & Hf & Hs & Hc)].
    + rewrite Hkids. constructor.
    + rewrite Hc. pose proof (inv_children _ HI _ _ Hf) as Hch.
      assert (Forall (fun c => u < c < S n)%nat (Frame.children f)).
      { eapply Forall_impl; [exact Hch|]. simpl. intros; lia. }
      destruct (decide _); [|done].
      apply Forall_app. split; [done|]. constructor; [lia|constructor].
  - (* aggregated *)
    intros u f' Hu.
    destruct (Hcases _ _ Hu) as [[-> ->]|(Hlt & f & Hf & Hs & Hc)].
    + split; [congruence|]. rewrite Hfid. apply Hfunlen.
    + apply scalars_inv in Hs. destruct_and!.
      destruct (inv_aggregated _ HI _ _ Hf). split; [congruence|]. lia.
  - (* closed frames *)
    intros u f' e Hu He.
    destruct (Hcases _ _ Hu) as [[-> ->]|(Hlt & f & Hf & Hs & Hc)];
      [destruct Hopen; congruence|].
    pose proof (scalars_inv _ _ Hs) as Hs'. destruct_and!.
    assert (Hef : Frame.endTime f = Some e) by congruence.
    destruct (inv_closed _ HI _ _ _ Hf Hef) as (totals & Htot' & Htt & Hself).
    assert (Hnotcur : _currentFrame stack ≠ RFrame u).
    { intros Hcur. destruct stack as [|u0 stack0]; [done|]. injection Hcur as ->.
      destruct (live_open _ _ HL u) as (f0 & Hf0 & Hopen0); [by left|].
      destruct Hopen0 as [Hopen0 _]. congruence. }
    rewrite decide_False in Hc by done.
    exists totals. split; [|split; congruence].
    rewrite Hc. eapply totals_at_ext; [|exact Htot'].
    intros c fc _ Hfc. by eapply onEnteredFrame_old_frame_rev.
  - (* the live part *)
    intros stack' Hstack'. rewrite Hst' in Hstack'. injection Hstack' as <-.
    split.
    + simpl. split; [|apply (live_descending _ _ HL)].
      apply Forall_forall. intros v Hv.
      destruct (live_open _ _ HL v Hv) as (fv & Hfv & _).
      by eapply lookup_lt_Some.
    + intros u Hu. apply elem_of_cons in Hu as [->|Hu].
      * exists fnew. by split.
      * destruct (live_open _ _ HL u Hu) as (f & Hf & Hopenf).
        destruct (onEnteredFrame_old_frame_rev _ _ _ _ _ H Hf) as (f' & Hf' & Hs).
        exists f'. split; [done|]. by eapply is_open_scalars.
    + intros u f' Hu He.
      destruct (Hcases _ _ Hu) as [[-> ->]|(Hlt & f & Hf & Hs & Hc)]; [by left|].
      right. apply scalars_inv in Hs. destruct_and!.
      apply (live_stack _ _ HL u f Hf). congruence.
    + destruct (live_ids _ _ HL) as (ids0 & Hids0 & Hkey).
      rewrite Hids in Hids0. injection Hids0 as <-.
      destruct Hfun as [(g & Hk & Hg & -> & ->)|(Hk & -> & -> & ->)].
      * exists ids. split; [done|]. intros k i Hki.
        destruct (Hkey k i Hki) as (g0 & Hg0 & Hkg).
        destruct (decide (i = fid)) as [->|Hne].
        -- rewrite list_lookup_insert_eq by (by eapply lookup_lt_Some).
           eexists. split; [done|]. simpl.
           rewrite Hg in Hg0. by injection Hg0 as <-.
        -- rewrite list_lookup_insert_ne by done. eauto.
      * eexists. split; [done|]. intros k i Hki.
        apply lookup_insert_Some in Hki as [[<- <-]|[Hne Hki]].
        -- rewrite lookup_app_r, Nat.sub_diag by lia. simpl. eauto.
        -- destruct (Hkey k i Hki) as (g0 & Hg0 & Hkg).
           exists g0. split; [|done]. rewrite lookup_app_l; [done|].
           by eapply lookup_lt_Some.
Qed.

Lemma self_from_map (kids : list Frame.t) (tt : num) :
  fold_left (fun acc child => num_sub acc (opt_number (Frame.totalTime child))) kids tt
  = self_from tt (map (fun k => opt_number (Frame.totalTime k)) kids).
Proof.
  unfold self_from. revert tt. induction kids as [|k kids IH]; intros tt; simpl; [done|].
  apply IH.
Qed.

(** The state after the exit of the frame on top of the stack. *)
Lemma onExitedFrame_pop (t t' : Trace.t) (p : ExitPacket.t) (u : nat) (stack' : list nat) :
  Trace._stack t = Some (u :: stack') → onExitedFrame t p = Ok t' →
  ∃ f kids g,
    Trace.frames t !! u = Some f ∧
    mapM (fun c => Trace.frames t !! c) (Frame.children f) = Some kids ∧
    Trace.functions t !! Frame.aggregated f = Some g ∧
    Trace.frames t' =
      <[u := Frame.close (ExitPacket.time p)
               (num_sub (to_number (ExitPacket.time p)) (to_number (Frame.startTime f)))
               (self_from
                  (num_sub (to_number (ExitPacket.time p)) (to_number (Frame.startTime f)))
                  (map (fun k => opt_number (Frame.totalTime k)) kids))
               (match defined (ExitPacket.return_ p) with
                | Some v => Some v | None => Frame.return_ f end)
               (match defined (ExitPacket.throw p) with
                | Some v => Some v | None => Frame.throw f end)
               (match defined (ExitPacket.yield p) with
                | Some v => Some v | None => Frame.yield f end) f]> (Trace.frames t) ∧
    Trace.functions t' =
      <[Frame.aggregated f :=
          Function.set_times
            (Some (num_add (default (Num 0) (Function.totalTime g))
                     (num_sub (to_number (ExitPacket.time p))
                        (to_number (Frame.startTime f)))))
            (Some (num_add
                     (match Function.totalTime g with
                      | None => Num 0
                      | Some _ => opt_number (Function.selfTime g)
                      end)
                     (self_from
                        (num_sub (to_number (ExitPacket.time p))
                           (to_number (Frame.startTime f)))
                        (map (fun k => opt_number (Frame.totalTime k)) kids))))
            g]> (Trace.functions t) ∧
    Trace._stack t' = Some stack' ∧
    Trace._functionIds t' = Trace._functionIds t ∧
    Trace.children t' = Trace.children t ∧
    Trace.startTime t' = Trace.startTime t ∧
    Trace.endTime t' =
      (if falsy (Trace.endTime t)
          || num_gt (to_number (ExitPacket.time p)) (to_number (Trace.endTime t))
       then ExitPacket.time p else Trace.endTime t) ∧
    Trace._client t' = Trace._client t ∧ Trace.finished t' = Trace.finished t.
Proof.
  intros Hst. unfold onExitedFrame. rewrite Hst. simpl. intros H. res_inv H.
  injection H as <-. simpl. exists x, x0, x1.
  rewrite self_from_map. done.
Qed.

(** An exit at the sentinel is [finish]. *)
Lemma onExitedFrame_sentinel (t : Trace.t) (p : ExitPacket.t) :
  Trace._stack t = Some [] → onExitedFrame t p = finish t.
Proof. intros Hst. unfold onExitedFrame. by rewrite Hst. Qed.

Lemma mapM_lookup_totals (frames : list Frame.t) (children : list nat)
    (kids : list Frame.t) :
  mapM (fun c => frames !! c) children = Some kids →
  (∀ c fc, c ∈ children → frames !! c = Some fc →
     ∃ e, Frame.endTime fc = Some e ∧ is_Some (Frame.totalTime fc)) →
  totals_at frames children (map (fun k => opt_number (Frame.totalTime k)) kids).
Proof.
  intros HM Hcl. apply mapM_Some in HM. unfold totals_at.
  induction HM as [|c fc cs fcs Hc _ IH]; simpl; [constructor|].
  constructor.
  - destruct (Hcl c fc) as (e & He & [x Hx]); [by left|done|].
    exists fc, e. rewrite Hx. done.
  - apply IH. intros c' fc' Hin. apply Hcl. by right.
Qed.

Lemma descending_not_elem (u c : nat) (stack : list nat) :
  descending (u :: stack) → (u < c)%nat → c ∉ u :: stack.
Proof.
  intros [Hlt _] Huc Hin. apply elem_of_cons in Hin as [->|Hin]; [lia|].
  rewrite Forall_forall in Hlt. specialize (Hlt _ Hin). lia.
Qed.

Lemma finish_Inv (t t' : Trace.t) : Inv t → finish t = Ok t' → Inv t'.
Proof.
  intros HI. unfold finish. intros H. res_inv H. injection H as <-.
  destruct HI as [H1 H2 H3 H4 H5]. split; simpl; try done.
Qed.

Lemma onExitedFrame_Inv (t t' : Trace.t) (p : ExitPacket.t) :
  Inv t → onExitedFrame t p = Ok t' → Inv t'.
Proof.
  intros HI H.
  destruct (Trace._stack t) as [[|u stack']|] eqn:Hst.
  - rewrite onExitedFrame_sentinel in H by done. by eapply finish_Inv.
  - destruct (onExitedFrame_pop _ _ _ _ _ Hst H)
      as (f & kids & g & Hf & Hkids & Hg & Hfr & Hfun & Hst' & Hids & Hroots & _).
    pose proof (inv_live _ HI _ Hst) as HL.
    assert (Hu : (u < length (Trace.frames t))%nat) by (by eapply lookup_lt_Some).
    assert (Hother : ∀ v, v ≠ u → Trace.frames t' !! v = Trace.frames t !! v).
    { intros v Hv. rewrite Hfr. by rewrite list_lookup_insert_ne. }
    assert (Hclosedkids : ∀ c fc, c ∈ Frame.children f → Trace.frames t !! c = Some fc →
              ∃ e, Frame.endTime fc = Some e ∧ is_Some (Frame.totalTime fc)).
    { intros c fc Hc Hfc.
      pose proof (inv_children _ HI _ _ Hf) as Hch. rewrite Forall_forall in Hch.
      specialize (Hch _ Hc).
      destruct (Frame.endTime fc) as [e|] eqn:He.
      - exists e. split; [done|].
        destruct (inv_closed _ HI _ _ _ Hfc He) as (? & _ & -> & _). eauto.
      - exfalso. apply (descending_not_elem u c stack'); [|lia|].
        + apply (live_descending _ _ HL).
        + by apply (live_stack _ _ HL c fc). }
    split.
    + rewrite Hroots, Hfr, length_insert. apply (inv_roots _ HI).
    + intros v f' Hv. rewrite Hfr, length_insert.
      rewrite Hfr in Hv. apply list_lookup_insert_Some in Hv as [(-> & <- & _)|[Hne Hv]].
      * apply (inv_children _ HI _ _ Hf).
      * apply (inv_children _ HI _ _ Hv).
    + intros v f' Hv. rewrite Hfun, length_insert.
      rewrite Hfr in Hv. apply list_lookup_insert_Some in Hv as [(-> & <- & _)|[Hne Hv]].
      * apply (inv_aggregated _ HI _ _ Hf).
      * apply (inv_aggregated _ HI _ _ Hv).
    + intros v f' e Hv He.
      assert (Hext : ∀ c fc, c ≠ u → Trace.frames t !! c = Some fc →
                ∃ fc', Trace.frames t' !! c = Some fc' ∧ scalars fc' = scalars fc).
      { intros c fc Hc Hfc. exists fc. by rewrite Hother. }
      rewrite Hfr in Hv. apply list_lookup_insert_Some in Hv as [(-> & <- & _)|[Hne Hv]].
      * simpl in He. injection He as <-.
        exists (map (fun k => opt_number (Frame.totalTime k)) kids). simpl.
        split; [|done].
        eapply totals_at_ext; [|by apply mapM_lookup_totals].
        intros c fc Hc Hfc. apply Hext; [|done]. intros ->.
        pose proof (inv_children _ HI _ _ Hf) as Hch. rewrite Forall_forall in Hch.
        specialize (Hch _ Hc). lia.
      * destruct (inv_closed _ HI _ _ _ Hv He) as (totals & Htot & Htt & Hself).
        exists totals. split; [|done].
        unfold totals_at in *. eapply Forall2_impl; [exact Htot|]. simpl.
        intros c x (fc & ec & Hfc & Hec & Hx). exists fc, ec. split; [|done].
        rewrite Hother; [done|]. intros ->.
        destruct (live_open _ _ HL u) as (f0 & Hf0 & Hopen & _); [by left|].
        congruence.
    + intros stack Hstack. rewrite Hst' in Hstack. injection Hstack as <-.
      destruct (live_descending _ _ HL) as [Hlt Hdesc]. split.
      * done.
      * intros v Hv. rewrite Hother.
        -- apply (live_open _ _ HL). by right.
        -- intros ->. rewrite Forall_forall in Hlt. specialize (Hlt _ Hv). lia.
      * intros v fv Hv He.
        rewrite Hfr in Hv. apply list_lookup_insert_Some in Hv as [(-> & <- & _)|[Hne Hv]].
        -- done.
        -- pose proof (live_stack _ _ HL v fv Hv He) as Hin.
           apply elem_of_cons in Hin as [->|Hin]; done.
      * destruct (live_ids _ _ HL) as (ids & Hids0 & Hkey).
        exists ids. split; [congruence|]. intros k i Hki.
        destruct (Hkey k i Hki) as (g0 & Hg0 & Hkg). rewrite Hfun.
        destruct (decide (i = Frame.aggregated f)) as [->|Hne].
        -- rewrite list_lookup_insert_eq by (by eapply lookup_lt_Some).
           eexists. split; [done|]. simpl. congruence.
        -- rewrite list_lookup_insert_ne by done. eauto.
  - unfold onExitedFrame in H. by rewrite Hst in H.
Qed.

Lemma handle_Inv (t t' : Trace.t) (e : event) : Inv t → handle t e = Ok t' → Inv t'.
Proof.
  destruct e; simpl; [apply onEnteredFrame_Inv|apply onExitedFrame_Inv].
Qed.

Lemma set_finished_Inv (t : Trace.t) : Inv t → Inv (set_finished t).
Proof.
  intros [H1 H2 H3 H4 H5]. split; try done.
  intros stack Hst. destruct (H5 stack Hst) as [L1 L2 L3 L4]. by split.
Qed.

Lemma reachable_Inv (t : Trace.t) : reachable t → Inv t.
Proof.
  revert t. apply (reachable_invariant Inv).
  - apply new_Trace_Inv.
  - intros t1 e t2. apply handle_Inv.
  - apply set_finished_Inv.
Qed.

(** ** Totality of the handlers on the traces that ingestion builds *)

Lemma onEnteredFrame_total (t : Trace.t) (p : EnterPacket.t) (stack : list nat) :
  Inv t → Trace._stack t = Some stack → ∃ t', onEnteredFrame t p = Ok t'.
Proof.
  intros HI Hst. pose proof (inv_live _ HI _ Hst) as HL.
  destruct (live_ids _ _ HL) as (ids & Hids & Hkey).
  unfold onEnteredFrame. rewrite Hst, Hids. simpl.
  assert (Hsib : ∃ sib, children_of t (_currentFrame stack) = Ok sib).
  { destruct stack as [|u stack']; simpl; [eauto|].
    destruct (live_open _ _ HL u) as (f & -> & _); [by left|]. simpl. eauto. }
  destruct Hsib as (sib & ->). simpl.
  destruct (ids !! _) as [i|] eqn:Ei; simpl.
  - rewrite Ei. simpl.
    destruct (Hkey _ _ Ei) as (g & -> & _). simpl. eauto.
  - rewrite lookup_insert_eq. simpl.
    rewrite lookup_app_r, Nat.sub_diag by lia. simpl. eauto.
Qed.

Lemma mapM_lookup_is_Some (frames : list Frame.t) (children : list nat) :
  Forall (fun c => c < length frames)%nat children →
  is_Some (mapM (fun c => frames !! c) children).
Proof.
  intros H. apply mapM_is_Some. eapply Forall_impl; [exact H|]. simpl.
  intros c Hc. by apply lookup_lt_is_Some.
Qed.

Lemma onExitedFrame_total (t : Trace.t) (p : ExitPacket.t) (u : nat) (stack : list nat) :
  Inv t → Trace._stack t = Some (u :: stack) → ∃ t', onExitedFrame t p = Ok t'.
Proof.
  intros HI Hst. pose proof (inv_live _ HI _ Hst) as HL.
  unfold onExitedFrame. rewrite Hst. simpl.
  destruct (live_open _ _ HL u) as (f & Hf & _); [by left|]. rewrite Hf. simpl.
  destruct (mapM_lookup_is_Some (Trace.frames t) (Frame.children f)) as [kids Hkids].
  { eapply Forall_impl; [apply (inv_children _ HI _ _ Hf)|]. simpl. intros; lia. }
  rewrite Hkids. simpl.
  destruct (inv_aggregated _ HI _ _ Hf) as [Hagg Hlt]. rewrite <- Hagg in Hlt.
  apply lookup_lt_is_Some in Hlt as [g Hg]. rewrite Hg. simpl. eauto.
Qed.

(** ** Self time *)

Lemma self_from_sum (tt : num) (totals : list num) :
  self_from tt totals = num_sub tt (num_sum totals).
Proof.
  unfold self_from. revert tt. induction totals as [|x xs IH]; intros tt; simpl.
  - destruct tt; simpl; [done|]. f_equal. lia.
  - rewrite IH. destruct tt, x, (num_sum xs); simpl; try done. f_equal. lia.
Qed.

Lemma num_sum_Num (zs : list Z) : num_sum (Num <$> zs) = Num (foldr Z.add 0 zs).
Proof.
  unfold num_sum. induction zs as [|z zs IH]; [done|].
  rewrite fmap_cons. simpl. by rewrite IH.
Qed.

(** C2, as amended: in every trace that ingestion builds, every closed
    frame has [totalTime = endTime - startTime], and its [selfTime] is what
    is left of [totalTime] when the [totalTime] of each of its children, all
    of which are closed, was subtracted from it in turn. When these numbers
    are integers and every partial difference is a safe integer, so that no
    subtraction rounds, [selfTime = totalTime - sum of the totalTime of the
    children]; and [selfTime] is then not negative whenever that sum is at
    most the [totalTime] of the frame. *)
Theorem closed_frame_self_time (t : Trace.t) (u : nat) (f : Frame.t) (e : timeval) :
  reachable t → Trace.frames t !! u = Some f → Frame.endTime f = Some e →
  ∃ tt totals,
    tt = num_sub (to_number e) (to_number (Frame.startTime f)) ∧
    Frame.totalTime f = Some tt ∧
    totals_at (Trace.frames t) (Frame.children f) totals ∧
    Frame.selfTime f = Some (self_from tt totals) ∧
    (∀ z zs, tt = Num z → totals = Num <$> zs → exact_differences z zs →
       Frame.selfTime f = Some (Num (z - foldr Z.add 0 zs)) ∧
       (foldr Z.add 0 zs ≤ z → 0 ≤ z - foldr Z.add 0 zs)).
Proof.
  intros Hr Hf He. apply reachable_Inv in Hr.
  destruct (inv_closed _ Hr _ _ _ Hf He) as (totals & Htot & Htt & Hself).
  eexists _, totals. split; [done|]. split; [done|]. split; [done|].
  split; [done|].
  intros z zs Hz -> _. rewrite Hself, self_from_sum, Hz, num_sum_Num. simpl.
  split; [done|]. lia.
Qed.

Lemma closed_frame_self_time_witness :
  reachable scenario_trace ∧
  ∃ f, Trace.frames scenario_trace !! 0%nat = Some f ∧
       Frame.totalTime f = Some (Num 5) ∧
       Frame.selfTime f = Some (Num (5 - foldr Z.add 0 [2])).
Proof.
  assert (Hr : reachable scenario_trace).
  { left. exists (Some []), None, scenario. vm_compute. reflexivity. }
  split; [exact Hr|]. eexists. split; [reflexivity|].
  destruct (closed_frame_self_time scenario_trace 0%nat _ (TNum 5) Hr eq_refl eq_refl)
    as (tt & totals & Htt & Ht & Htot & Hself & Hexact).
  split; [rewrite Ht, Htt; reflexivity|].
  apply (Hexact 5 [2]).
  - exact Htt.
  - inversion Htot as [|c x cs xs (fc & e & Hfc & _ & Hx) Hrest]; subst.
    inversion Hrest; subst. injection Hfc as <-. simpl in Hx. by injection Hx as <-.
  - intros [|[|k]]; unfold safe_integer; simpl; lia.
Defined.

(** C2 as stated fails: A is entered at 0, its children B and C both run
    from 0 to 4 and A exits at 5. Each child has a total time (4) that is at
    most the total time of A (5), and the self time of A is -3. And on
    numbers that are not integers the subtractions round: in binary64 the
    loop leaves a negative self time of the total time [1 + 2^-52] and the
    total times [3 * 2^-54], [1] and [2^-54] of three children, numbers of
    binary64 with a sum that is the total time. *)
Lemma self_time_negative_counterexample :
  (∃ t f, run (new_Trace (Some []) None) two_long_children = Ok t ∧
          Trace.frames t !! 0%nat = Some f ∧
          Frame.totalTime f = Some (Num 5) ∧
          (Frame.totalTime <$> Trace.frames t !! 1%nat) = Some (Some (Num 4)) ∧
          (Frame.totalTime <$> Trace.frames t !! 2%nat) = Some (Some (Num 4)) ∧
          Frame.children f = [1; 2]%nat ∧
          Frame.selfTime f = Some (Num (-3))) ∧
  (Forall (fun q => binary64 q == q)%Q (1 + (1 # 2) ^ 52 :: tiny_children)%Q ∧
   (foldr Qplus 0 tiny_children == 1 + (1 # 2) ^ 52)%Q ∧
   (Rounded.self_from binary64 (1 + (1 # 2) ^ 52) tiny_children < 0)%Q).
Proof.
  split; [vm_compute; eexists _, _; repeat split|].
  split; [repeat constructor; vm_compute; reflexivity|].
  split; vm_compute; reflexivity.
Qed.

(** ** Stack underflow *)

(** C3, as amended: an exit that arrives while the sentinel is on top of the
    stack, on a trace attached to a client, the source of its events,
    finishes the trace: the listeners are removed, [finished] is set, and no
    frame, root or record is created or changed. A bare exit at 0 on a new
    trace with a client gives a finished trace without frames. *)
Theorem sentinel_exit_finishes :
  (∀ (t : Trace.t) (p : ExitPacket.t) (c : client),
     Trace._stack t = Some [] → Trace._client t = Some c →
     ∃ t' c', onExitedFrame t p = Ok t' ∧
       Trace.finished t' = true ∧
       Trace._client t' = Some c' ∧
       (("enteredFrame", HEntered) ∉ c') ∧ (("exitedFrame", HExited) ∉ c') ∧
       Trace._stack t' = None ∧
       Trace.frames t' = Trace.frames t ∧
       Trace.children t' = Trace.children t ∧
       Trace.functions t' = Trace.functions t) ∧
  (∀ (c : client) (name : option string),
     ∃ t', run (new_Trace (Some c) name) [Exited (exit_at 0)] = Ok t' ∧
           Trace.finished t' = true ∧ Trace.frames t' = []).
Proof.
  split.
  - intros t p c Hst Hc. rewrite onExitedFrame_sentinel by done.
    unfold finish. rewrite Hc. simpl. eexists _, _. split; [done|]. simpl.
    split; [done|]. split; [done|]. split; [|split; [|done]].
    + intros Hin. apply list_elem_of_filter in Hin as [_ Hin].
      apply list_elem_of_filter in Hin as [Hne _]. done.
    + intros Hin. apply list_elem_of_filter in Hin as [Hne _]. done.
  - intros c name. simpl. eexists. split; [done|]. done.
Qed.

Lemma sentinel_exit_finishes_witness :
  ∃ t', onExitedFrame (new_Trace (Some []) None) (exit_at 0) = Ok t' ∧
        Trace.finished t' = true ∧ Trace.frames t' = [].
Proof.
  destruct sentinel_exit_finishes as [H _].
  destruct (H (new_Trace (Some []) None) (exit_at 0)
              [("enteredFrame"%string, HEntered); ("exitedFrame"%string, HExited)]
              eq_refl eq_refl)
    as (t' & c' & Hrun & Hfin & _ & _ & _ & _ & Hfr & _).
  exists t'. split; [exact Hrun|]. split; [exact Hfin|]. exact Hfr.
Defined.

(** C3 as stated fails on a trace without a client, which the constructor
    allows (it attaches its listeners under [if (client)]) and [parseTrace]
    builds. There the sentinel is on top of the stack, and a bare exit at 0
    is not handled: [finish], which does not test [_client], throws a
    TypeError at [this._client.removeListener], so that no finished trace
    results. *)
Lemma bare_exit_without_client_counterexample :
  Trace._stack (new_Trace None None) = Some [] ∧
  Trace._client (new_Trace None None) = None ∧
  onExitedFrame (new_Trace None None) (exit_at 0) = Err TypeError ∧
  ¬ ∃ t', run (new_Trace None None) [Exited (exit_at 0)] = Ok t' ∧
          Trace.finished t' = true.
Proof.
  split; [reflexivity|]. split; [reflexivity|]. split; [reflexivity|].
  intros (t' & H & _). discriminate H.
Qed.

(** ** Links to parent and siblings *)

(** C7, as amended: [onEnteredFrame] sets [older] of the new frame to the
    top of the stack whatever it is, the trace itself (the sentinel) for a
    root-level frame; and it links [previous] and [next] with the last child
    of that top, frame or trace, whenever there is one. *)
Theorem entered_frame_links (t t' : Trace.t) (p : EnterPacket.t) (stack : list nat) :
  Trace._stack t = Some stack → onEnteredFrame t p = Ok t' →
  ∃ f siblings,
    Trace.frames t' !! length (Trace.frames t) = Some f ∧
    children_of t (_currentFrame stack) = Ok siblings ∧
    Frame.older f = Some (_currentFrame stack) ∧
    Frame.previous f = last siblings ∧
    (∀ s fs, last siblings = Some s → Trace.frames t !! s = Some fs →
       ∃ fs', Trace.frames t' !! s = Some fs' ∧
              Frame.next fs' = Some (length (Trace.frames t))).
Proof.
  intros Hst H.
  destruct (onEnteredFrame_frames _ _ _ H)
    as (stack0 & sib & fnew & Hst0 & Hsib & _ & _ & Hnew & _ & _ & _
        & Holder & Hprev & _ & _ & _ & Hold & _).
  rewrite Hst in Hst0. injection Hst0 as <-.
  exists fnew, sib. repeat (split; [done|]).
  intros s fs Hs Hfs. rewrite Hold by (by eapply lookup_lt_Some).
  rewrite Hfs. simpl. eexists. split; [done|].
  rewrite (decide_True (P := last sib = Some s)) by done.
  by destruct (decide (_currentFrame stack = RFrame s)).
Qed.

Lemma entered_frame_links_witness :
  onEnteredFrame (new_Trace (Some []) None) (enter_at "A" 0) = Ok entered_once ∧
  ∃ f, Trace.frames entered_once !! 0%nat = Some f ∧ Frame.older f = Some RTrace.
Proof.
  assert (H : onEnteredFrame (new_Trace (Some []) None) (enter_at "A" 0)
              = Ok entered_once) by (vm_compute; reflexivity).
  split; [exact H|].
  destruct (entered_frame_links (new_Trace (Some []) None) entered_once
              (enter_at "A" 0) [] eq_refl H)
    as (f & sib & Hf & _ & Holder & _).
  exists f. split; [exact Hf|exact Holder].
Defined.

(** C7 as stated fails: a frame entered while the sentinel is on top of the
    stack does get [older] (the trace), and two root-level frames are linked
    by [previous] and [next]. *)
Lemma root_frames_linked_counterexample :
  ∃ t f0 f1,
    run (new_Trace (Some []) None)
      [Entered (enter_at "A" 0); Exited (exit_at 1); Entered (enter_at "B" 2)] = Ok t ∧
    Trace.frames t !! 0%nat = Some f0 ∧ Trace.frames t !! 1%nat = Some f1 ∧
    Frame.depth f0 = 0%nat ∧ Frame.depth f1 = 0%nat ∧
    Frame.older f0 = Some RTrace ∧ Frame.older f1 = Some RTrace ∧
    Frame.previous f1 = Some 0%nat ∧ Frame.next f0 = Some 1%nat.
Proof. vm_compute. eexists _, _, _. repeat split. Qed.

(** ** Packets without a time *)

Lemma self_from_NaN (totals : list num) : self_from NaN totals = NaN.
Proof. unfold self_from. induction totals; simpl; done. Qed.

(** C5, as amended: a packet that lacks [time] is not rejected. On a trace
    that ingestion built and that is not finished, an enter packet without
    [time] is handled as any other: the handler returns, the new frame is in
    the frame list and on the stack with an undefined [startTime], and the
    end time of the trace is undefined; an exit packet without [time] pops
    the frame on top of the stack and closes it with an undefined [endTime]
    and with NaN as [totalTime] and [selfTime]. *)
Theorem missing_time_is_ingested (t : Trace.t) :
  reachable t →
  (∀ stack p, Trace._stack t = Some stack → EnterPacket.time p = TUndef →
     ∃ t' f, onEnteredFrame t p = Ok t' ∧
       length (Trace.frames t') = S (length (Trace.frames t)) ∧
       Trace.frames t' !! length (Trace.frames t) = Some f ∧
       Frame.startTime f = TUndef ∧
       Trace._stack t' = Some (length (Trace.frames t) :: stack) ∧
       Trace.endTime t' = TUndef) ∧
  (∀ u stack p, Trace._stack t = Some (u :: stack) → ExitPacket.time p = TUndef →
     ∃ t' f, onExitedFrame t p = Ok t' ∧
       Trace.frames t' !! u = Some f ∧
       Frame.endTime f = Some TUndef ∧
       Frame.totalTime f = Some NaN ∧ Frame.selfTime f = Some NaN ∧
       Trace._stack t' = Some stack).
Proof.
  intros Hr. apply reachable_Inv in Hr. split.
  - intros stack p Hst Htime.
    destruct (onEnteredFrame_total t p stack Hr Hst) as (t' & H).
    destruct (onEnteredFrame_frames _ _ _ H)
      as (stack0 & sib & fnew & Hst0 & _ & Hst' & Hlen & Hnew & _ & _ & _
          & _ & _ & Hstart & _).
    rewrite Hst in Hst0. injection Hst0 as <-.
    exists t', fnew. repeat (split; [done|]). split; [congruence|]. split; [done|].
    revert H. unfold onEnteredFrame. intros H. res_inv H. injection H as <-. done.
  - intros u stack p Hst Htime.
    destruct (onExitedFrame_total t p u stack Hr Hst) as (t' & H).
    destruct (onExitedFrame_pop _ _ _ _ _ Hst H)
      as (f & kids & g & Hf & _ & _ & Hfr & _ & Hst' & _).
    exists t'. eexists. split; [done|]. rewrite Hfr.
    rewrite list_lookup_insert_eq by (by eapply lookup_lt_Some).
    split; [done|]. simpl. rewrite Htime. simpl. by rewrite self_from_NaN.
Qed.

Lemma missing_time_is_ingested_witness :
  reachable (new_Trace (Some []) None) ∧
  ∃ t' f, onEnteredFrame (new_Trace (Some []) None) enter_without_time = Ok t' ∧
          Trace.frames t' !! 0%nat = Some f ∧ Frame.startTime f = TUndef.
Proof.
  assert (Hr : reachable (new_Trace (Some []) None)).
  { left. exists (Some []), None, []. reflexivity. }
  split; [exact Hr|].
  destruct (missing_time_is_ingested _ Hr) as [H _].
  destruct (H [] enter_without_time eq_refl eq_refl)
    as (t' & f & H1 & _ & H3 & H4 & _).
  exists t', f. split; [exact H1|]. split; [exact H3|exact H4].
Defined.

(** C5 as stated fails: the handler of an enter packet without [time] does
    not fail; it returns with the frame pushed on the frame list and the
    stack of a trace that had neither. An exit packet without [time] then
    closes it with NaN times and records them in the aggregate table. *)
Lemma malformed_event_mutates_counterexample :
  Trace.frames (new_Trace (Some []) None) = [] ∧
  ∃ t1 t2 f g,
    onEnteredFrame (new_Trace (Some []) None) enter_without_time = Ok t1 ∧
    length (Trace.frames t1) = 1%nat ∧ Trace._stack t1 = Some [0%nat] ∧
    length (Trace.functions t1) = 1%nat ∧
    onExitedFrame t1 exit_without_time = Ok t2 ∧
    Trace.frames t2 !! 0%nat = Some f ∧ Frame.totalTime f = Some NaN ∧
    Trace.functions t2 !! 0%nat = Some g ∧ Function.totalTime g = Some NaN.
Proof. split; [reflexivity|]. vm_compute. eexists _, _, _, _. repeat split. Qed.

(** ** The bounds of the trace *)

Lemma last_default_cons (a d : Z) (l : list Z) : List.last (a :: l) d = List.last l a.
Proof.
  revert a d. induction l as [|b l IH]; intros a d; [done|].
  change (List.last (a :: b :: l) d) with (List.last (b :: l) d).
  by rewrite !IH.
Qed.

Lemma maximum_nondecreasing (z : Z) (zs : list Z) :
  nondecreasing z zs → maximum z zs = List.last zs z.
Proof.
  unfold maximum. revert z. induction zs as [|z' zs IH]; intros z; [done|].
  intros [Hle Hnd]. rewrite last_default_cons. simpl.
  rewrite Z.max_r by done. by apply IH.
Qed.

(** The bounds along a run whose time stamps never decrease and that stays
    above the sentinel. *)
Lemma run_bounds (evs : list event) :
  ∀ (t : Trace.t) (stack : list nat) (L : Z) (zs : list Z),
    Inv t → Trace._stack t = Some stack →
    well_nested (length stack) evs = true →
    time_of <$> evs = TNum <$> zs → nondecreasing L zs →
    Trace.endTime t = TNum L → is_number (Trace.startTime t) = true →
    ∃ t', run t evs = Ok t' ∧ Trace.startTime t' = Trace.startTime t ∧
          Trace.endTime t' = TNum (List.last zs L).
Proof.
  induction evs as [|e evs IH]; intros t stack L zs HI Hst Hwn Htimes Hnd Hend Hstart.
  - destruct zs; [|done]. simpl. eauto.
  - destruct zs as [|z zs]; [done|]. rewrite !fmap_cons in Htimes.
    injection Htimes as Hz Htimes. destruct Hnd as [Hle Hnd].
    destruct e as [p|p]; simpl in Hz, Hwn.
    + destruct (onEnteredFrame_total t p stack HI Hst) as (t1 & H1).
      assert (HI1 : Inv t1) by (by eapply onEnteredFrame_Inv).
      destruct (onEnteredFrame_frames _ _ _ H1)
        as (stack0 & _ & _ & Hst0 & _ & Hst1 & _).
      rewrite Hst in Hst0. injection Hst0 as <-.
      assert (Hb : Trace.startTime t1 = Trace.startTime t ∧ Trace.endTime t1 = TNum z).
      { revert H1. unfold onEnteredFrame. intros H. res_inv H. injection H as <-.
        simpl. by rewrite Hstart, Hz. }
      destruct Hb as [Hs1 He1].
      destruct (IH t1 _ z zs HI1 Hst1 Hwn Htimes Hnd He1) as (t' & Hrun & Hs' & He').
      { by rewrite Hs1. }
      exists t'. rewrite last_default_cons. simpl. rewrite H1. simpl.
      split; [done|]. split; congruence.
    + destruct stack as [|u stack']; [done|]. simpl in Hwn.
      destruct (onExitedFrame_total t p u stack' HI Hst) as (t1 & H1).
      assert (HI1 : Inv t1) by (by eapply onExitedFrame_Inv).
      destruct (onExitedFrame_pop _ _ _ _ _ Hst H1)
        as (f & kids & g & _ & _ & _ & _ & _ & Hst1 & _ & _ & Hs1 & He1 & _).
      assert (He1' : Trace.endTime t1 = TNum z).
      { rewrite He1, Hend, Hz. simpl.
        destruct (bool_decide (L = 0)) eqn:E0; simpl; [done|].
        destruct (bool_decide (L < z)) eqn:E1; [done|].
        apply bool_decide_eq_false in E1. f_equal. lia. }
      destruct (IH t1 _ z zs HI1 Hst1 Hwn Htimes Hnd He1') as (t' & Hrun & Hs' & He').
      { by rewrite Hs1. }
      exists t'. rewrite last_default_cons. simpl. rewrite H1. simpl.
      split; [done|]. split; congruence.
Qed.

Lemma handle_startTime (t t' : Trace.t) (e : event) :
  is_number (Trace.startTime t) = true → handle t e = Ok t' →
  Trace.startTime t' = Trace.startTime t.
Proof.
  intros Hnum H. destruct e as [p|p]; simpl in H.
  - revert H. unfold onEnteredFrame. intros H. res_inv H. injection H as <-.
    simpl. by rewrite Hnum.
  - destruct (Trace._stack t) as [[|u stack]|] eqn:Hst.
    + rewrite onExitedFrame_sentinel in H by done. unfold finish in H.
      res_inv H. by injection H as <-.
    + by destruct (onExitedFrame_pop _ _ _ _ _ Hst H)
        as (f & kids & g & _ & _ & _ & _ & _ & _ & _ & _ & Hs & _).
    + unfold onExitedFrame in H. by rewrite Hst in H.
Qed.

(** What a normal exit does to the end time of the trace: it keeps the
    larger of the two time stamps, and replaces an end time that is
    undefined or 0. *)
Lemma onExitedFrame_endTime (t t' : Trace.t) (p : ExitPacket.t) (u : nat)
    (stack : list nat) :
  Trace._stack t = Some (u :: stack) → onExitedFrame t p = Ok t' →
  (∀ m e, Trace.endTime t = TNum m → m ≠ 0 → ExitPacket.time p = TNum e →
     Trace.endTime t' = TNum (Z.max m e)) ∧
  (∀ m, Trace.endTime t = TNum m → m ≠ 0 → ExitPacket.time p = TUndef →
     Trace.endTime t' = TNum m) ∧
  (Trace.endTime t = TUndef ∨ Trace.endTime t = TNum 0 →
     Trace.endTime t' = ExitPacket.time p).
Proof.
  intros Hst H.
  destruct (onExitedFrame_pop _ _ _ _ _ Hst H)
    as (f & kids & g & _ & _ & _ & _ & _ & _ & _ & _ & _ & He & _).
  rewrite He. split; [|split].
  - intros m e Hm Hm0 Hp. rewrite Hm, Hp. simpl.
    rewrite (bool_decide_eq_false_2 (m = 0)) by done. simpl.
    destruct (bool_decide (m < e)) eqn:E.
    + apply bool_decide_eq_true in E. f_equal. lia.
    + apply bool_decide_eq_false in E. f_equal. lia.
  - intros m Hm Hm0 Hp. rewrite Hm, Hp. simpl.
    by rewrite (bool_decide_eq_false_2 (m = 0)) by done.
  - intros [Hu|H0]; [by rewrite Hu|by rewrite H0].
Qed.

(** The end time after the exits that follow an enter event, when the time
    stamps are positive and no exit arrives at the sentinel. *)
Lemma run_exits_endTime (exits : list ExitPacket.t) :
  ∀ (t t' : Trace.t) (m : Z) (zs : list Z),
    run t (Exited <$> exits) = Ok t' → Trace.finished t' = false →
    Trace.endTime t = TNum m → 0 < m →
    ExitPacket.time <$> exits = TNum <$> zs → Forall (fun z => 0 < z) zs →
    Trace.endTime t' = TNum (maximum m zs).
Proof.
  induction exits as [|p exits IH]; intros t t' m zs Hrun Hfin Hend Hm Hzs Hpos.
  - destruct zs; [|done]. simpl in Hrun. by injection Hrun as <-.
  - destruct zs as [|z zs]; [done|]. rewrite !fmap_cons in Hzs.
    injection Hzs as Hz Hzs. apply Forall_cons in Hpos as [Hz0 Hpos].
    rewrite fmap_cons in Hrun. simpl in Hrun.
    destruct (onExitedFrame t p) as [t1|] eqn:H1; [|done]. simpl in Hrun.
    destruct (Trace._stack t) as [[|u stack]|] eqn:Hst.
    + rewrite onExitedFrame_sentinel in H1 by done. unfold finish in H1.
      res_inv H1. injection H1 as <-. destruct exits as [|p' exits].
      * simpl in Hrun. injection Hrun as <-. done.
      * rewrite fmap_cons in Hrun. simpl in Hrun. unfold onExitedFrame in Hrun.
        simpl in Hrun. done.
    + destruct (onExitedFrame_endTime _ _ _ _ _ Hst H1) as (Hmax & _ & _).
      apply (IH t1 t' (Z.max m z) zs Hrun Hfin); [|lia|done|done].
      apply Hmax; [done|lia|done].
    + unfold onExitedFrame in H1. by rewrite Hst in H1.
Qed.

(** C6, as amended: once [startTime] is a number no event changes it, and it
    is set by the first enter event, to its time. An enter event sets
    [endTime] to its own time, whatever it was; an exit that closes a frame
    keeps the larger of [endTime] and its own time, and replaces an
    [endTime] that is undefined or 0; an exit that arrives at the sentinel
    leaves [endTime] as it was. So after an enter event and the exits that
    follow it, all with positive time stamps and none arriving at the
    sentinel, [endTime] is the largest of these time stamps, whatever came
    before; and after the events of any non-empty list whose time stamps
    never decrease and none of whose exits arrives at the sentinel,
    [endTime] is the time stamp of the last event, which is the largest
    observed. *)
Theorem trace_bounds_follow_clock :
  (∀ (t t' : Trace.t) (e : event),
     is_number (Trace.startTime t) = true → handle t e = Ok t' →
     Trace.startTime t' = Trace.startTime t) ∧
  (∀ (t t' : Trace.t) (p : EnterPacket.t),
     onEnteredFrame t p = Ok t' → Trace.endTime t' = EnterPacket.time p) ∧
  (∀ (t t' : Trace.t) (p : ExitPacket.t),
     Trace._stack t = Some [] → onExitedFrame t p = Ok t' →
     Trace.endTime t' = Trace.endTime t) ∧
  (∀ (t t' : Trace.t) (p : ExitPacket.t) (u : nat) (stack : list nat),
     Trace._stack t = Some (u :: stack) → onExitedFrame t p = Ok t' →
     (∀ m e, Trace.endTime t = TNum m → m ≠ 0 → ExitPacket.time p = TNum e →
        Trace.endTime t' = TNum (Z.max m e)) ∧
     (∀ m, Trace.endTime t = TNum m → m ≠ 0 → ExitPacket.time p = TUndef →
        Trace.endTime t' = TNum m) ∧
     (Trace.endTime t = TUndef ∨ Trace.endTime t = TNum 0 →
        Trace.endTime t' = ExitPacket.time p)) ∧
  (∀ (c : option client) (name : option string) (before : list event)
     (p : EnterPacket.t) (exits : list ExitPacket.t) (z : Z) (zs : list Z)
     (t : Trace.t),
     run (new_Trace c name) (before ++ Entered p :: (Exited <$> exits)) = Ok t →
     Trace.finished t = false →
     EnterPacket.time p = TNum z → 0 < z →
     ExitPacket.time <$> exits = TNum <$> zs → Forall (fun x => 0 < x) zs →
     Trace.endTime t = TNum (maximum z zs)) ∧
  (∀ (c : option client) (name : option string) (evs : list event) (z : Z)
     (zs : list Z),
     time_of <$> evs = TNum <$> (z :: zs) → nondecreasing z zs →
     well_nested 0 evs = true →
     ∃ t, run (new_Trace c name) evs = Ok t ∧
          Trace.startTime t = TNum z ∧
          Trace.endTime t = TNum (List.last zs z) ∧
          List.last zs z = maximum z zs).
Proof.
  split; [apply handle_startTime|]. split.
  { intros t t' p H. revert H. unfold onEnteredFrame. intros H. res_inv H.
    by injection H as <-. }
  split.
  { intros t t' p Hst H. rewrite onExitedFrame_sentinel in H by done.
    unfold finish in H. res_inv H. by injection H as <-. }
  split; [apply onExitedFrame_endTime|]. split.
  { intros c name before p exits z zs t Hrun Hfin Hp Hz Hzs Hpos.
    rewrite run_app in Hrun.
    destruct (run (new_Trace c name) before) as [t0|]; [|done]. simpl in Hrun.
    destruct (onEnteredFrame t0 p) as [t1|] eqn:H1; [|done]. simpl in Hrun.
    apply (run_exits_endTime exits t1 t z zs Hrun Hfin); [|done..].
    revert H1. unfold onEnteredFrame. intros H. res_inv H. injection H as <-.
    done. }
  intros c name evs z zs Htimes Hnd Hwn.
  destruct evs as [|[p|p] evs]; [done| |done].
  rewrite !fmap_cons in Htimes. injection Htimes as Hz Htimes. simpl in Hz, Hwn.
  pose proof (new_Trace_Inv c name) as HI0.
  destruct (onEnteredFrame_total (new_Trace c name) p [] HI0 eq_refl) as (t1 & H1).
  assert (HI1 : Inv t1) by (by eapply onEnteredFrame_Inv).
  destruct (onEnteredFrame_frames _ _ _ H1)
    as (stack0 & ? & ? & Hst0 & _ & Hst1 & _).
  injection Hst0 as <-.
  assert (Hb : Trace.startTime t1 = TNum z ∧ Trace.endTime t1 = TNum z).
  { revert H1. unfold onEnteredFrame. intros H. res_inv H. injection H as <-.
    simpl. by rewrite Hz. }
  destruct Hb as [Hs1 He1].
  destruct (run_bounds evs t1 _ z zs HI1 Hst1 Hwn Htimes Hnd He1) as (t' & Hrun & Hs' & He').
  { by rewrite Hs1. }
  exists t'. simpl. rewrite H1. simpl. split; [done|]. split; [congruence|].
  split; [done|]. symmetry. by apply maximum_nondecreasing.
Qed.

Lemma trace_bounds_follow_clock_witness :
  ∃ t, run (new_Trace (Some []) None) scenario = Ok t ∧
       Trace.startTime t = TNum 0 ∧ Trace.endTime t = TNum 5.
Proof.
  destruct trace_bounds_follow_clock as (_ & _ & _ & _ & _ & H).
  destruct (H (Some []) None scenario 0 [1; 3; 5])
    as (t & Hrun & Hs & He & _).
  - reflexivity.
  - simpl. lia.
  - reflexivity.
  - exists t. split; [exact Hrun|]. split; [exact Hs|exact He].
Defined.

(** C6 as stated fails. After the scenario, one more exit, at 9, arrives at
    the sentinel: it is handled (the trace is finished) and the end time
    stays 5. And an enter at 3 that follows an enter at 5 sets the end time
    to 3. *)
Lemma end_time_not_maximum_counterexample :
  (∃ t, run (new_Trace (Some []) None) scenario_then_exit = Ok t ∧
        Trace.finished t = true ∧ Trace.endTime t = TNum 5 ∧
        time_of <$> scenario_then_exit = TNum <$> [0; 1; 3; 5; 9]) ∧
  (∃ t, run (new_Trace (Some []) None) clock_backwards = Ok t ∧
        Trace.endTime t = TNum 3 ∧
        time_of <$> clock_backwards = TNum <$> [5; 3]).
Proof. split; vm_compute; eexists; repeat split. Qed.

(** ** The rounding of binary64 is a rounding *)

Section Binary64.
Local Open Scope Q_scope.

Lemma pow2_pos (e : Z) : 0 < 2 ^ e.
Proof. apply Qpower_0_lt. lra. Qed.

Lemma pow2_succ (e : Z) : 2 ^ (e + 1) == 2 * 2 ^ e.
Proof. rewrite Qpower_plus by lra. rewrite Qpower_1_r. ring. Qed.

Lemma pow2_inject (n : Z) : (0 <= n)%Z → inject_Z (2 ^ n) == 2 ^ n.
Proof. intros Hn. by rewrite Zpower_Qpower. Qed.

Lemma pow2_split (a b : Z) : 2 ^ (a - b) * 2 ^ b == 2 ^ a.
Proof. rewrite <- Qpower_plus by lra. by replace (a - b + b)%Z with a by lia. Qed.

(** [binade] is the exponent, and the only one. *)
Lemma binade_spec (q : Q) : 0 < q → 2 ^ binade q <= q ∧ q < 2 ^ (binade q + 1).
Proof.
  intros Hq. destruct q as [n d]. unfold binade. cbn [Qnum Qden].
  assert (Hn : (0 < n)%Z) by (unfold Qlt in Hq; simpl in Hq; lia).
  set (a := Z.log2 n). set (b := Z.log2 (Z.pos d)).
  destruct (Z.log2_spec n Hn) as [Ha1 Ha2]. fold a in Ha1, Ha2.
  destruct (Z.log2_spec (Z.pos d) ltac:(lia)) as [Hb1 Hb2]. fold b in Hb1, Hb2.
  assert (Ha0 : (0 <= a)%Z) by apply Z.log2_nonneg.
  assert (Hb0 : (0 <= b)%Z) by apply Z.log2_nonneg.
  assert (Hqd : n # d == inject_Z n / inject_Z (Z.pos d)) by apply Qmake_Qdiv.
  assert (Hd : 0 < inject_Z (Z.pos d)) by (rewrite <- (Zlt_Qlt 0); lia).
  assert (Hnd : (n # d) * inject_Z (Z.pos d) == inject_Z n).
  { rewrite Hqd. field. lra. }
  assert (Ha1' : 2 ^ a <= inject_Z n) by (rewrite <- pow2_inject by done; by rewrite <- Zle_Qle).
  assert (Ha2' : inject_Z n < 2 ^ (a + 1))
    by (rewrite <- pow2_inject by lia; by rewrite <- Zlt_Qlt).
  assert (Hb1' : 2 ^ b <= inject_Z (Z.pos d))
    by (rewrite <- pow2_inject by done; by rewrite <- Zle_Qle).
  assert (Hb2' : inject_Z (Z.pos d) < 2 ^ (b + 1))
    by (rewrite <- pow2_inject by lia; by rewrite <- Zlt_Qlt).
  set (q := n # d) in *. set (D := inject_Z (Z.pos d)) in *. set (N := inject_Z n) in *.
  clearbody q D N.
  pose proof (pow2_pos b) as Hpb. pose proof (pow2_pos (a - b)) as Hpab.
  pose proof (pow2_split a b) as Hs.
  rewrite pow2_succ in Ha2', Hb2'.
  destruct (Qle_bool (2 ^ (a - b)) q) eqn:E.
  - apply Qle_bool_iff in E. split; [done|].
    rewrite pow2_succ.
    (* q * D = N < 2 * 2^a = 2 * 2^(a-b) * 2^b <= 2 * 2^(a-b) * D *)
    apply Qnot_le_lt. intros Hc.
    assert (2 * 2 ^ (a - b) * 2 ^ b <= q * D).
    { apply Qle_trans with (2 * 2 ^ (a - b) * D).
      - apply Qmult_le_l; lra.
      - apply Qmult_le_compat_r; lra. }
    lra.
  - assert (E' : q < 2 ^ (a - b)).
    { apply Qnot_le_lt. intros Hc. apply Qle_bool_iff in Hc. congruence. }
    replace (a - b - 1 + 1)%Z with (a - b)%Z by lia. split; [|done].
    assert (Hh : 2 * 2 ^ (a - b - 1) == 2 ^ (a - b)).
    { rewrite <- pow2_succ. by replace (a - b - 1 + 1)%Z with (a - b)%Z by lia. }
    pose proof (pow2_pos (a - b - 1)) as Hp1.
    apply Qnot_lt_le. intros Hc.
    (* q * D = N >= 2^a = 2^(a-b-1) * 2 * 2^b > 2^(a-b-1) * D > q * D *)
    assert (q * D < 2 ^ (a - b - 1) * D) by (apply Qmult_lt_compat_r; lra).
    assert (2 ^ (a - b - 1) * D < 2 ^ (a - b - 1) * (2 * 2 ^ b))
      by (apply Qmult_lt_l; lra).
    assert (2 ^ (a - b - 1) * (2 * 2 ^ b) == 2 ^ a) by (rewrite <- Hs, <- Hh; ring).
    lra.
Qed.

Lemma binade_unique (q : Q) (e : Z) : 2 ^ e <= q → q < 2 ^ (e + 1) → binade q = e.
Proof.
  intros H1 H2.
  assert (Hq : 0 < q) by (pose proof (pow2_pos e); lra).
  destruct (binade_spec q Hq) as [H3 H4].
  assert (e < binade q + 1)%Z
    by (apply (Qpower_lt_compat_l_inv 2); [lra|lra]).
  assert (binade q < e + 1)%Z
    by (apply (Qpower_lt_compat_l_inv 2); [lra|lra]).
  lia.
Qed.


Lemma binade_proper (p q : Q) : 0 < p → p == q → binade p = binade q.
Proof.
  intros Hp E. destruct (binade_spec p Hp) as [H1 H2].
  symmetry. apply binade_unique; lra.
Qed.

(** [round_even] is within 1/2 of its argument, keeps the order and leaves
    an integer as it is. *)
Lemma round_even_floor (q : Q) :
  round_even q = Qfloor q ∨ round_even q = (Qfloor q + 1)%Z.
Proof.
  unfold round_even.
  destruct (q - inject_Z (Qfloor q) ?= 1 # 2); [destruct (Z.even _)|..]; auto.
Qed.

Lemma round_even_near (q : Q) : Qabs (inject_Z (round_even q) - q) <= 1 # 2.
Proof.
  unfold round_even. pose proof (Qfloor_le q) as H1. pose proof (Qlt_floor q) as H2.
  rewrite inject_Z_plus in H2. change (inject_Z 1) with 1 in H2.
  destruct (q - inject_Z (Qfloor q) ?= 1 # 2) eqn:E.
  - apply Qeq_alt in E. destruct (Z.even _); [|rewrite inject_Z_plus];
      apply Qabs_Qle_condition; change (inject_Z 1) with 1; split; lra.
  - apply Qlt_alt in E. apply Qabs_Qle_condition. split; lra.
  - apply Qgt_alt in E. rewrite inject_Z_plus. change (inject_Z 1) with 1.
    apply Qabs_Qle_condition. split; lra.
Qed.

Lemma round_even_Z (z : Z) : round_even (inject_Z z) = z.
Proof.
  unfold round_even. rewrite Qfloor_Z.
  assert (E : (inject_Z z - inject_Z z ?= 1 # 2) = Lt) by (rewrite <- Qlt_alt; lra).
  by rewrite E.
Qed.

Lemma round_even_proper (p q : Q) : p == q → round_even p = round_even q.
Proof.
  intros E. unfold round_even. rewrite (Qfloor_comp _ _ E).
  assert (E' : p - inject_Z (Qfloor q) == q - inject_Z (Qfloor q)) by lra.
  by rewrite E'.
Qed.

Lemma round_even_mono (p q : Q) : p <= q → (round_even p <= round_even q)%Z.
Proof.
  intros Hpq. pose proof (Qfloor_resp_le _ _ Hpq) as Hf.
  destruct (Z.eq_dec (Qfloor p) (Qfloor q)) as [Ef|Nf].
  - unfold round_even. rewrite Ef.
    destruct (p - inject_Z (Qfloor q) ?= 1 # 2) eqn:E1;
      destruct (q - inject_Z (Qfloor q) ?= 1 # 2) eqn:E2;
      first [rewrite <- Qeq_alt in E1 | rewrite <- Qlt_alt in E1 | rewrite <- Qgt_alt in E1];
      first [rewrite <- Qeq_alt in E2 | rewrite <- Qlt_alt in E2 | rewrite <- Qgt_alt in E2];
      try destruct (Z.even (Qfloor q)); try lia; exfalso; lra.
  - destruct (round_even_floor p) as [-> | ->]; destruct (round_even_floor q) as [-> | ->]; lia.
Qed.

(** The significand of a positive number lies in [2^52, 2^53), and rounds
    to an integer of [2^52, 2^53]. *)
Lemma significand_range (q : Q) :
  0 < q → 2 ^ 52 <= q * 2 ^ (52 - binade q) ∧ q * 2 ^ (52 - binade q) < 2 ^ 53.
Proof.
  intros Hq. destruct (binade_spec q Hq) as [H1 H2].
  pose proof (pow2_pos (52 - binade q)) as Hp.
  assert (E1 : 2 ^ binade q * 2 ^ (52 - binade q) == 2 ^ 52).
  { rewrite <- Qpower_plus by lra. by replace (binade q + (52 - binade q))%Z with 52%Z by lia. }
  assert (E2 : 2 ^ (binade q + 1) * 2 ^ (52 - binade q) == 2 ^ 53).
  { rewrite <- Qpower_plus by lra.
    by replace (binade q + 1 + (52 - binade q))%Z with 53%Z by lia. }
  split.
  - rewrite <- E1. apply Qmult_le_compat_r; lra.
  - rewrite <- E2. apply Qmult_lt_compat_r; lra.
Qed.

Lemma rounded_significand_range (q : Q) :
  0 < q →
  (2 ^ 52 <= round_even (q * 2 ^ (52 - binade q)) <= 2 ^ 53)%Z.
Proof.
  intros Hq. destruct (significand_range q Hq) as [H1 H2].
  split.
  - rewrite <- (round_even_Z (2 ^ 52)). apply round_even_mono.
    by rewrite pow2_inject.
  - rewrite <- (round_even_Z (2 ^ 53)). apply round_even_mono.
    rewrite pow2_inject by done. lra.
Qed.

(** [round53] stays within the binade of its argument, up to the power of
    2 that ends it; it is within [2^-53] of its argument, relative to it,
    keeps the order and leaves a result of its own as it is. *)
Lemma round53_range (q : Q) :
  0 < q → 2 ^ binade q <= round53 q ∧ round53 q <= 2 ^ (binade q + 1).
Proof.
  intros Hq. destruct (rounded_significand_range q Hq) as [H1 H2].
  unfold round53. set (k := round_even _) in *. clearbody k.
  pose proof (pow2_pos (binade q - 52)) as Hp.
  assert (E1 : 2 ^ 52 * 2 ^ (binade q - 52) == 2 ^ binade q).
  { rewrite <- Qpower_plus by lra. by replace (52 + (binade q - 52))%Z with (binade q) by lia. }
  assert (E2 : 2 ^ 53 * 2 ^ (binade q - 52) == 2 ^ (binade q + 1)).
  { rewrite <- Qpower_plus by lra.
    by replace (53 + (binade q - 52))%Z with (binade q + 1)%Z by lia. }
  rewrite Zle_Qle in H1, H2. rewrite pow2_inject in H1, H2 by done.
  split.
  - rewrite <- E1. apply Qmult_le_compat_r; lra.
  - rewrite <- E2. apply Qmult_le_compat_r; lra.
Qed.

Lemma round53_pos (q : Q) : 0 < q → 0 < round53 q.
Proof.
  intros Hq. destruct (round53_range q Hq) as [H _].
  pose proof (pow2_pos (binade q)). lra.
Qed.

Lemma round53_proper (p q : Q) : 0 < p → p == q → round53 p == round53 q.
Proof.
  intros Hp E. unfold round53. rewrite (binade_proper p q Hp E).
  assert (E' : p * 2 ^ (52 - binade q) == q * 2 ^ (52 - binade q)) by (by rewrite E).
  by rewrite (round_even_proper _ _ E').
Qed.

Lemma round53_err (q : Q) : 0 < q → Qabs (round53 q - q) <= (1 # 2) ^ 53 * q.
Proof.
  intros Hq. destruct (binade_spec q Hq) as [H1 _]. unfold round53.
  set (e := binade q) in *. clearbody e.
  pose proof (round_even_near (q * 2 ^ (52 - e))) as Hn.
  set (k := inject_Z (round_even _)) in *. clearbody k.
  pose proof (pow2_pos (e - 52)) as Hp.
  assert (Es : 2 ^ (52 - e) * 2 ^ (e - 52) == 1).
  { rewrite <- Qpower_plus by lra. by replace (52 - e + (e - 52))%Z with 0%Z by lia. }
  assert (Ee : 2 ^ 53 * ((1 # 2) * 2 ^ (e - 52)) <= q).
  { assert (E : 2 ^ 53 * ((1 # 2) * 2 ^ (e - 52)) == 2 ^ 52 * 2 ^ (e - 52)) by ring.
    rewrite E, <- Qpower_plus by lra. by replace (52 + (e - 52))%Z with e by lia. }
  assert (Ed : k * 2 ^ (e - 52) - q == (k - q * 2 ^ (52 - e)) * 2 ^ (e - 52)).
  { transitivity (k * 2 ^ (e - 52) - q * (2 ^ (52 - e) * 2 ^ (e - 52))); [|ring].
    rewrite Es. ring. }
  rewrite Ed, Qabs_Qmult, (Qabs_pos (2 ^ (e - 52))) by lra.
  apply Qle_trans with ((1 # 2) * 2 ^ (e - 52)).
  - apply Qmult_le_compat_r; lra.
  - assert (E53 : (1 # 2) ^ 53 * 2 ^ 53 == 1) by reflexivity.
    set (h := (1 # 2) * 2 ^ (e - 52)) in *.
    assert (Hh : h == (1 # 2) ^ 53 * (2 ^ 53 * h)).
    { transitivity ((1 # 2) ^ 53 * 2 ^ 53 * h); [rewrite E53|]; ring. }
    rewrite Hh. apply Qmult_le_l; [reflexivity|done].
Qed.

Lemma round53_mono (p q : Q) : 0 < p → p <= q → round53 p <= round53 q.
Proof.
  intros Hp Hpq. assert (Hq : 0 < q) by lra.
  destruct (binade_spec p Hp) as [P1 P2]. destruct (binade_spec q Hq) as [Q1 Q2].
  assert (Hb : (binade p <= binade q)%Z).
  { assert (binade p < binade q + 1)%Z; [|lia].
    apply (Qpower_lt_compat_l_inv 2); lra. }
  destruct (Z.eq_dec (binade p) (binade q)) as [Eb|Nb].
  - unfold round53. rewrite Eb.
    pose proof (pow2_pos (binade q - 52)). pose proof (pow2_pos (52 - binade q)).
    apply Qmult_le_compat_r; [|lra].
    rewrite <- Zle_Qle. apply round_even_mono. apply Qmult_le_compat_r; lra.
  - destruct (round53_range p Hp) as [_ R1]. destruct (round53_range q Hq) as [R2 _].
    assert (2 ^ (binade p + 1) <= 2 ^ binade q) by (apply Qpower_le_compat_l; [lia|lra]).
    lra.
Qed.

Lemma round53_idem (q : Q) : 0 < q → round53 (round53 q) == round53 q.
Proof.
  intros Hq. destruct (rounded_significand_range q Hq) as [K1 K2].
  pose proof (round53_range q Hq) as [R1 R2].
  remember (round53 q) as r0 eqn:Er0. unfold round53 in Er0.
  set (e := binade q) in *. set (k := round_even (q * 2 ^ (52 - e))) in *.
  clearbody k e. subst r0.
  set (r := inject_Z k * 2 ^ (e - 52)) in *.
  destruct (Z.eq_dec k (2 ^ 53)%Z) as [Ek|Nk].
  - assert (Er : r == 2 ^ (e + 1)).
    { unfold r. rewrite Ek, pow2_inject, <- Qpower_plus by (done || lra).
      by replace (53 + (e - 52))%Z with (e + 1)%Z by lia. }
    assert (Eb : binade r = (e + 1)%Z).
    { apply binade_unique; [lra|]. rewrite Er. apply Qpower_lt_compat_l; [lia|lra]. }
    unfold round53. rewrite Eb.
    assert (Em : r * 2 ^ (52 - (e + 1)) == inject_Z (2 ^ 52)).
    { rewrite Er, <- Qpower_plus, pow2_inject by (done || lra).
      by replace (e + 1 + (52 - (e + 1)))%Z with 52%Z by lia. }
    rewrite (round_even_proper _ _ Em), round_even_Z, Er, pow2_inject by done.
    rewrite <- Qpower_plus by lra. by replace (52 + (e + 1 - 52))%Z with (e + 1)%Z by lia.
  - assert (Hk : (k < 2 ^ 53)%Z) by lia.
    assert (Eb : binade r = e).
    { apply binade_unique; [done|]. unfold r.
      pose proof (pow2_pos (e - 52)).
      assert (E2 : 2 ^ 53 * 2 ^ (e - 52) == 2 ^ (e + 1)).
      { rewrite <- Qpower_plus by lra. by replace (53 + (e - 52))%Z with (e + 1)%Z by lia. }
      rewrite <- E2. apply Qmult_lt_compat_r; [done|].
      rewrite Zlt_Qlt in Hk. by rewrite pow2_inject in Hk. }
    unfold round53. rewrite Eb.
    assert (Em : r * 2 ^ (52 - e) == inject_Z k).
    { unfold r. rewrite <- Qmult_assoc, <- Qpower_plus by lra.
      replace (e - 52 + (52 - e))%Z with 0%Z by lia. simpl. ring. }
    rewrite (round_even_proper _ _ Em), round_even_Z. reflexivity.
Qed.


Lemma binary64_cases (q : Q) :
  (q == 0 ∧ binary64 q = 0) ∨ (0 < q ∧ binary64 q = round53 q) ∨
  (q < 0 ∧ binary64 q = - round53 (- q)).
Proof.
  unfold binary64. destruct (q ?= 0) eqn:E.
  - left. by rewrite <- Qeq_alt in E.
  - right. right. by rewrite <- Qlt_alt in E.
  - right. left. by rewrite <- Qgt_alt in E.
Qed.

Lemma binary64_sign (q : Q) :
  (q == 0 → binary64 q == 0) ∧ (0 < q → 0 < binary64 q) ∧ (q < 0 → binary64 q < 0).
Proof.
  destruct (binary64_cases q) as [[H ->]|[[H ->]|[H ->]]].
  - split; [done|]. split; intros; lra.
  - pose proof (round53_pos q H). split; [|split]; intros; lra.
  - pose proof (round53_pos (- q) ltac:(lra)). split; [|split]; intros; lra.
Qed.

(** The rounding of binary64 is a rounding in the sense that the statements
    on the viewport use, with the unit roundoff [2^-53]. *)
Lemma binary64_rounding : rounding binary64 ((1 # 2) ^ 53).
Proof.
  split.
  - intros p q E.
    destruct (binary64_cases p) as [[Hp ->]|[[Hp ->]|[Hp ->]]];
      destruct (binary64_cases q) as [[Hq ->]|[[Hq ->]|[Hq ->]]]; try lra.
    + by apply round53_proper.
    + apply Qopp_comp. apply round53_proper; lra.
  - intros p q Hpq.
    pose proof (binary64_sign p) as (P0 & P1 & P2).
    pose proof (binary64_sign q) as (Q0 & Q1 & Q2).
    destruct (binary64_cases p) as [[Hp Ep]|[[Hp Ep]|[Hp Ep]]];
      destruct (binary64_cases q) as [[Hq Eq]|[[Hq Eq]|[Hq Eq]]]; try lra;
      try (specialize (P0 Hp)); try (specialize (P1 Hp)); try (specialize (P2 Hp));
      try (specialize (Q0 Hq)); try (specialize (Q1 Hq)); try (specialize (Q2 Hq));
      try lra.
    + rewrite Ep, Eq. by apply round53_mono.
    + rewrite Ep, Eq.
      assert (round53 (- q) <= round53 (- p)) by (apply round53_mono; lra). lra.
  - intros q. pose proof (binary64_sign q) as (Q0 & Q1 & Q2).
    destruct (binary64_cases q) as [[Hq Eq]|[[Hq Eq]|[Hq Eq]]].
    + rewrite Eq. reflexivity.
    + destruct (binary64_cases (binary64 q)) as [[H E]|[[H E]|[H E]]];
        specialize (Q1 Hq); try lra.
      rewrite E, Eq. by apply round53_idem.
    + destruct (binary64_cases (binary64 q)) as [[H E]|[[H E]|[H E]]];
        specialize (Q2 Hq); try lra.
      rewrite E, Eq.
      pose proof (round53_pos (- q) ltac:(lra)) as Hr.
      assert (E' : - - round53 (- q) == round53 (- q)) by ring.
      assert (Hr' : 0 < - - round53 (- q)) by lra.
      rewrite (round53_proper _ _ Hr' E').
      apply Qopp_comp. apply round53_idem. lra.
  - intros q. destruct (binary64_cases q) as [[Hq ->]|[[Hq ->]|[Hq ->]]].
    + assert (E : 0 - q == 0) by lra. rewrite E, Hq. by apply Qle_bool_iff.
    + rewrite (Qabs_pos q) by lra. by apply round53_err.
    + rewrite (Qabs_neg q) by lra.
      assert (E : - round53 (- q) - q == - (round53 (- q) - - q)) by ring.
      rewrite E, Qabs_opp. apply round53_err. lra.
  - split; done.
Qed.

(** The doubles next to 1/10 and to 1/5. *)
Lemma binary64_tenth :
  binary64 (1 # 10) == 3602879701896397 # 36028797018963968 ∧
  binary64 (1 # 5) == 3602879701896397 # 18014398509481984.
Proof. split; vm_compute; reflexivity. Qed.

End Binary64.

(** ** The viewport *)

Lemma Qsign_spec (q : Q) :
  (Qsign q = Eq ∧ q == 0)%Q ∨ (Qsign q = Lt ∧ q < 0)%Q ∨ (Qsign q = Gt ∧ 0 < q)%Q.
Proof.
  unfold Qsign. destruct (Qcompare_spec q 0); auto.
Qed.

Ltac case_sign q :=
  let H := fresh "Hs" in
  let E := fresh "Es" in
  destruct (Qsign_spec q) as [[E H]|[[E H]|[E H]]]; rewrite ?E in *.

Ltac case_lt :=
  match goal with
  | |- context [Qlt_le_dec ?a ?b] => destruct (Qlt_le_dec a b)
  | H : context [Qlt_le_dec ?a ?b] |- _ => destruct (Qlt_le_dec a b)
  end.

(** [x_max (x_min x 1) 0] is a fraction between 0 and 1 as soon as [x] is
    not NaN. *)
Lemma clamp_unit (x : xnum) :
  x ≠ XNaN →
  ∃ q, x_max (x_min x (XFin 1)) (XFin 0) = XFin q ∧ (0 <= q)%Q ∧ (q <= 1)%Q ∧
       match x with
       | XFin p => (p <= 0 → q == 0)%Q ∧ (1 <= p → q == 1)%Q ∧
                   (0 <= p → p <= 1 → q == p)%Q
       | XPInf => (q == 1)%Q
       | _ => (q == 0)%Q
       end.
Proof.
  intros Hx. destruct x as [| | |p]; simpl; [done| | |].
  - exists 0%Q. repeat split; lra.
  - exists 1%Q. simpl. repeat split; lra.
  - unfold x_min, x_max, x_lt. repeat (case_lt; simpl).
    all: eexists; split; [reflexivity|]; repeat split; lra.
Qed.

Lemma x_or_not_NaN (x : xnum) (d : Q) : x_or x (XFin d) ≠ XNaN.
Proof. destruct x as [| | |p]; simpl; try done. by case_sign p. Qed.

Lemma setBounds_in_unit (b : TraceBounds.t) (left right : xnum) (why : option string) :
  in_unit (setBounds b left right why).
Proof.
  unfold setBounds, in_unit. simpl.
  set (l1 := if x_gt left right then right else left).
  set (r1 := if x_gt left right then left else right).
  assert (Hord : x_gt l1 r1 = false).
  { unfold l1, r1, x_gt. destruct (x_lt right left) eqn:E; [|done].
    destruct left as [| | |p], right as [| | |q]; simpl in *; try done.
    repeat case_lt; try done. lra. }
  destruct (clamp_unit (x_or l1 (XFin 0)) (x_or_not_NaN _ _)) as (ql & -> & Hl0 & Hl1 & Hl).
  destruct (clamp_unit (x_or r1 (XFin 1)) (x_or_not_NaN _ _)) as (qr & -> & Hr0 & Hr1 & Hr).
  exists ql, qr. repeat (split; [done|]). split; [|done].
  clearbody l1 r1. unfold x_gt in Hord.
  destruct l1 as [| | |p], r1 as [| | |q]; simpl in *; try done; try lra.
  all: try (case_sign p; simpl in *); try (case_sign q; simpl in *); try lra.
  all: try case_lt; try done.
  all: destruct (Qlt_le_dec p 0), (Qlt_le_dec 1 p), (Qlt_le_dec q 0), (Qlt_le_dec 1 q);
    destruct_and?; try lra.
  all: repeat match goal with
         | H : (_ → _)%Q |- _ => first [specialize (H ltac:(lra)) | clear H]
         end; try lra.
Qed.

(** What [setBounds] stores for two numbers in order: the left one clamped
    to [0,1]; and the right one clamped to [0,1], unless it is 0, for which
    1 is stored. *)
Lemma setBounds_stores (b : TraceBounds.t) (p q : Q) (why : option string) :
  (p <= q)%Q →
  ∃ l' r', TraceBounds._left (setBounds b (XFin p) (XFin q) why) = XFin l' ∧
           TraceBounds._right (setBounds b (XFin p) (XFin q) why) = XFin r' ∧
           (p <= 0 → l' == 0)%Q ∧ (0 <= p → p <= 1 → l' == p)%Q ∧ (1 <= p → l' == 1)%Q ∧
           (q < 0 → r' == 0)%Q ∧ (q == 0 → r' == 1)%Q ∧
           (0 < q → q <= 1 → r' == q)%Q ∧ (1 <= q → r' == 1)%Q.
Proof.
  intros Hpq. unfold setBounds.
  assert (Hgt : x_gt (XFin p) (XFin q) = false).
  { unfold x_gt. simpl. destruct (Qlt_le_dec q p); [lra|done]. }
  rewrite Hgt. cbn [TraceBounds._left TraceBounds._right].
  destruct (clamp_unit (x_or (XFin p) (XFin 0)) (x_or_not_NaN _ _)) as (ql & -> & Hl0 & Hl1 & Hl).
  destruct (clamp_unit (x_or (XFin q) (XFin 1)) (x_or_not_NaN _ _)) as (qr & -> & Hr0 & Hr1 & Hr).
  exists ql, qr. split; [done|]. split; [done|].
  simpl in Hl, Hr. case_sign p; case_sign q; simpl in *; destruct_and?.
  all: repeat split; intros.
  all: repeat match goal with
         | H : (_ → _)%Q |- _ => first [specialize (H ltac:(lra)) | clear H]
         end; lra.
Qed.

(** Two numbers out of order are exchanged. *)
Lemma setBounds_swap (b : TraceBounds.t) (p q : Q) (why : option string) :
  (q < p)%Q →
  setBounds b (XFin p) (XFin q) why = setBounds b (XFin q) (XFin p) why.
Proof.
  intros Hqp. unfold setBounds, x_gt. simpl.
  destruct (Qlt_le_dec q p); [|lra]. destruct (Qlt_le_dec p q); [lra|]. done.
Qed.

(** C9, as amended: whatever the arguments, [setBounds] stores bounds with
    [0 <= left <= right <= 1]; and so does every operation of the viewport,
    from any state, since each ends in [setBounds]. Two numbers are
    exchanged when the left one is larger; then the left one is clamped to
    [0,1], and so is the right one unless it is 0, for which 1 is stored; for
    an argument that is NaN, 0 is stored on the left and 1 on the right. *)
Theorem bounds_stay_in_unit (b : TraceBounds.t) :
  (∀ left right why, in_unit (setBounds b left right why)) ∧
  (∀ value centerPercent, in_unit (zoom b value centerPercent)) ∧
  (∀ value, in_unit (pan b value)) ∧
  (∀ value, in_unit (panByPercent b value)) ∧
  (∀ percent, in_unit (set_center b percent)) ∧
  (∀ percent, in_unit (set_left b percent)) ∧
  (∀ percent, in_unit (set_right b percent)) ∧
  (∀ time, in_unit (set_leftTime b time)) ∧
  (∀ time, in_unit (set_rightTime b time)) ∧
  (∀ (p q : Q) why, (q < p)%Q →
     setBounds b (XFin p) (XFin q) why = setBounds b (XFin q) (XFin p) why) ∧
  (∀ (p q : Q) why, (p <= q)%Q →
     ∃ l' r', TraceBounds._left (setBounds b (XFin p) (XFin q) why) = XFin l' ∧
              TraceBounds._right (setBounds b (XFin p) (XFin q) why) = XFin r' ∧
              (p <= 0 → l' == 0)%Q ∧ (0 <= p → p <= 1 → l' == p)%Q ∧
              (1 <= p → l' == 1)%Q ∧
              (q < 0 → r' == 0)%Q ∧ (q == 0 → r' == 1)%Q ∧
              (0 < q → q <= 1 → r' == q)%Q ∧ (1 <= q → r' == 1)%Q) ∧
  (∀ right why, TraceBounds._left (setBounds b XNaN right why) = XFin 0) ∧
  (∀ left why, TraceBounds._right (setBounds b left XNaN why) = XFin 1).
Proof.
  repeat split; intros.
  - apply setBounds_in_unit.
  - unfold zoom. destruct (x_lt _ _); apply setBounds_in_unit.
  - apply setBounds_in_unit.
  - apply setBounds_in_unit.
  - apply setBounds_in_unit.
  - apply setBounds_in_unit.
  - apply setBounds_in_unit.
  - apply setBounds_in_unit.
  - apply setBounds_in_unit.
  - by apply setBounds_swap.
  - by apply setBounds_stores.
  - unfold setBounds, x_gt. by destruct right.
Qed.

Lemma bounds_stay_in_unit_witness :
  ∃ l' r',
    TraceBounds._left (setBounds new_TraceBounds (XFin (3 # 4)) (XFin (1 # 4)) None)
      = XFin l' ∧
    TraceBounds._right (setBounds new_TraceBounds (XFin (3 # 4)) (XFin (1 # 4)) None)
      = XFin r' ∧
    (l' == 1 # 4)%Q ∧ (r' == 3 # 4)%Q.
Proof.
  destruct (bounds_stay_in_unit new_TraceBounds)
    as (_ & _ & _ & _ & _ & _ & _ & _ & _ & Hswap & Hstores & _).
  rewrite (Hswap (3 # 4) (1 # 4) None) by reflexivity.
  destruct (Hstores (1 # 4) (3 # 4) None) as (l' & r' & Hl & Hr & _ & Hl' & _ & _ & _ & Hr' & _);
    [vm_compute; discriminate|].
  exists l', r'. split; [exact Hl|]. split; [exact Hr|].
  split; [apply Hl'; vm_compute; discriminate|apply Hr'; [reflexivity|vm_compute; discriminate]].
Defined.

(** C9 as stated fails: a right argument of 0 is not clamped to [0,1], which
    would leave it 0. [setBounds(0, 0)] stores the bounds [0, 1]. *)
Lemma right_bound_zero_counterexample :
  ∃ l' r', TraceBounds._left (setBounds new_TraceBounds (XFin 0) (XFin 0) None) = XFin l' ∧
           TraceBounds._right (setBounds new_TraceBounds (XFin 0) (XFin 0) None) = XFin r' ∧
           (l' == 0)%Q ∧ (r' == 1)%Q ∧ ¬ (r' == 0)%Q.
Proof.
  eexists _, _. split; [vm_compute; reflexivity|]. split; [vm_compute; reflexivity|].
  split; [reflexivity|]. split; [reflexivity|]. vm_compute. discriminate.
Qed.

(** [setBounds] on two fractions in order, the right one positive. *)
Lemma setBounds_fin (b : TraceBounds.t) (p q : Q) (why : option string) :
  (p <= q)%Q → (0 < q)%Q →
  ∃ l' r', TraceBounds._left (setBounds b (XFin p) (XFin q) why) = XFin l' ∧
           TraceBounds._right (setBounds b (XFin p) (XFin q) why) = XFin r' ∧
           (p <= 0 → l' == 0)%Q ∧ (0 <= p → p <= 1 → l' == p)%Q ∧ (1 <= p → l' == 1)%Q ∧
           (q <= 1 → r' == q)%Q ∧ (1 <= q → r' == 1)%Q.
Proof.
  intros Hpq Hq. unfold setBounds.
  assert (Hgt : x_gt (XFin p) (XFin q) = false).
  { unfold x_gt. simpl. destruct (Qlt_le_dec q p); [lra|done]. }
  rewrite Hgt. cbn [TraceBounds._left TraceBounds._right].
  destruct (clamp_unit (x_or (XFin p) (XFin 0)) (x_or_not_NaN _ _)) as (ql & -> & Hl0 & Hl1 & Hl).
  destruct (clamp_unit (x_or (XFin q) (XFin 1)) (x_or_not_NaN _ _)) as (qr & -> & Hr0 & Hr1 & Hr).
  exists ql, qr. split; [done|]. split; [done|].
  simpl in Hl, Hr. case_sign p; case_sign q; simpl in *; destruct_and?.
  all: repeat split; intros.
  all: repeat match goal with
         | H : (_ → _)%Q |- _ => first [specialize (H ltac:(lra)) | clear H]
         end; lra.
Qed.

Lemma Qsign_pos (q : Q) : (0 < q)%Q → Qsign q = Gt.
Proof. intros H. case_sign q; [lra|lra|done]. Qed.

Lemma Qdiv_pos (p q : Q) : (0 < p)%Q → (0 < q)%Q → (0 < p / q)%Q.
Proof.
  intros Hp Hq. unfold Qdiv. apply Qmult_lt_0_compat; [done|].
  by apply Qinv_lt_0_compat.
Qed.

(** A share [z * c] of [z] for a fraction [c] of the unit interval lies
    between 0 and [z]. *)
Lemma share_bounds (z c : Q) :
  (0 <= c)%Q → (c <= 1)%Q →
  ((0 <= z → 0 <= z * c ∧ z * c <= z) ∧ (z <= 0 → z <= z * c ∧ z * c <= 0))%Q.
Proof. intros H0 H1. split; intros Hz; split; nra. Qed.

(** ** Rounded arithmetic *)

Section Rounding.

Variable rnd : Q → Q.
Variable u : Q.
Hypothesis HR : rounding rnd u.

Lemma rnd_zero : (rnd 0 == 0)%Q.
Proof using HR.
  pose proof (rnd_err _ _ HR 0) as H. pose proof (rnd_unit _ _ HR) as [Hu0 Hu1].
  apply Qabs_Qle_condition in H. change (Qabs 0) with 0%Q in H. lra.
Qed.

Lemma rnd_nonneg (x : Q) : (0 <= x → 0 <= rnd x)%Q.
Proof using HR.
  intros Hx. rewrite <- rnd_zero. by apply (rnd_mono _ _ HR).
Qed.

Lemma rnd_nonpos (x : Q) : (x <= 0 → rnd x <= 0)%Q.
Proof using HR.
  intros Hx. rewrite <- rnd_zero. by apply (rnd_mono _ _ HR).
Qed.

(** The error of a rounding, for a result of magnitude at most [B]. *)
Lemma rnd_within (x B : Q) :
  (Qabs x <= B → x - u * B <= rnd x ∧ rnd x <= x + u * B)%Q.
Proof using HR.
  intros HB. pose proof (rnd_err _ _ HR x) as H.
  pose proof (rnd_unit _ _ HR) as [Hu0 Hu1].
  apply Qabs_Qle_condition in H.
  assert (u * Qabs x <= u * B)%Q by nra. lra.
Qed.

Lemma rnd_pos (x : Q) : (0 < x → 0 < rnd x)%Q.
Proof using HR.
  intros Hx. pose proof (rnd_err _ _ HR x) as H.
  pose proof (rnd_unit _ _ HR) as [Hu0 Hu1].
  apply Qabs_Qle_condition in H. rewrite (Qabs_pos x) in H by lra. nra.
Qed.

Lemma rnd_pos_inv (x : Q) : (0 < rnd x → 0 < x)%Q.
Proof using HR.
  intros H. destruct (Qlt_le_dec 0 x) as [|Hle]; [done|].
  apply rnd_nonpos in Hle. lra.
Qed.

(** A number is at most twice its rounding, in magnitude. *)
Lemma rnd_back (x B : Q) : (Qabs (rnd x) <= B → Qabs x <= 2 * B)%Q.
Proof using HR.
  intros HB. pose proof (rnd_err _ _ HR x) as H.
  pose proof (rnd_unit _ _ HR) as [Hu0 Hu1].
  apply Qabs_Qle_condition in H. apply Qabs_Qle_condition in HB.
  apply Qabs_Qle_condition.
  destruct (Qlt_le_dec x 0) as [Hx|Hx].
  - rewrite (Qabs_neg x) in H by lra. nra.
  - rewrite (Qabs_pos x) in H by lra. nra.
Qed.

End Rounding.

(** The getters after [setBounds] was given two numbers in order. *)
Lemma Rounded_after_setBounds (rnd : Q → Q) (b : TraceBounds.t) (p q : Q)
    (why : option string) :
  (p <= q)%Q →
  ∃ l' r',
    TraceBounds._left (setBounds b (XFin p) (XFin q) why) = XFin l' ∧
    TraceBounds._right (setBounds b (XFin p) (XFin q) why) = XFin r' ∧
    (0 <= l')%Q ∧ (l' <= r')%Q ∧ (r' <= 1)%Q ∧
    ((p <= 0 → l' == 0) ∧ (0 <= p → p <= 1 → l' == p) ∧ (1 <= p → l' == 1) ∧
     (q < 0 → r' == 0) ∧ (q == 0 → r' == 1) ∧
     (0 < q → q <= 1 → r' == q) ∧ (1 <= q → r' == 1))%Q ∧
    Rounded._minimumIntervalWidth rnd (setBounds b (XFin p) (XFin q) why)
      = Rounded._minimumIntervalWidth rnd b ∧
    Rounded.intervalWidth rnd (setBounds b (XFin p) (XFin q) why)
      = XFin (rnd (r' + - l')%Q).
Proof.
  intros Hpq.
  destruct (setBounds_stores b p q why Hpq) as (l' & r' & Hl' & Hr' & Hcases).
  destruct (setBounds_in_unit b (XFin p) (XFin q) why) as (l2 & r2 & Hl2 & Hr2 & H0 & H1 & H2).
  exists l', r'. split; [done|]. split; [done|].
  rewrite Hl' in Hl2. rewrite Hr' in Hr2. injection Hl2 as <-. injection Hr2 as <-.
  repeat (split; [done|]).
  unfold Rounded.intervalWidth, Rounded.sub. by rewrite Hl', Hr'.
Qed.

(** [zoom] in rounded arithmetic, for bounds and arguments that are numbers. *)
Lemma Rounded_zoom_eq (rnd : Q → Q) (b : TraceBounds.t) (T l r v : Q) (cp : option Q) :
  TraceBounds._totalTime b = XFin T → (0 < T)%Q →
  TraceBounds._left b = XFin l → TraceBounds._right b = XFin r →
  let w := rnd (r + - l)%Q in
  let m := rnd (3 / T)%Q in
  let z := rnd (rnd (w * v) / 500)%Q in
  let c := rnd (l + rnd (w / 2))%Q in
  let c0 := default (1 # 2)%Q cp in
  Rounded._minimumIntervalWidth rnd b = XFin m ∧
  Rounded.intervalWidth rnd b = XFin w ∧
  Rounded.get_center rnd b = XFin c ∧
  Rounded.zoom_snaps rnd b (XFin v)
    = (if Qlt_le_dec (rnd (w + rnd (2 * z))%Q) m then true else false) ∧
  Rounded.zoom rnd b (XFin v) (XFin <$> cp)
    = (if Rounded.zoom_snaps rnd b (XFin v)
       then setBounds b (XFin (rnd (c + - rnd (m / 2))%Q))
              (XFin (rnd (c + rnd (m / 2))%Q)) (Some "zoom"%string)
       else setBounds b (XFin (rnd (l + - rnd (z * c0))%Q))
              (XFin (rnd (r + rnd (z * rnd (1 + - c0)))%Q)) (Some "zoom"%string)).
Proof.
  intros HT HTpos Hl Hr w m z c c0.
  assert (Hm : Rounded._minimumIntervalWidth rnd b = XFin m).
  { unfold Rounded._minimumIntervalWidth, Rounded.div, _minimumIntervalTime.
    rewrite HT. simpl. by rewrite (Qsign_pos T). }
  assert (Hw : Rounded.intervalWidth rnd b = XFin w).
  { unfold Rounded.intervalWidth, Rounded.sub. by rewrite Hl, Hr. }
  assert (Hc : Rounded.get_center rnd b = XFin c).
  { unfold Rounded.get_center, Rounded.add, Rounded.div. by rewrite Hw, Hl. }
  assert (Hz : Rounded.zoom_amount rnd b (XFin v) = XFin z).
  { unfold Rounded.zoom_amount, Rounded.div, Rounded.mul. by rewrite Hw. }
  assert (Hs : Rounded.zoom_snaps rnd b (XFin v)
               = (if Qlt_le_dec (rnd (w + rnd (2 * z))%Q) m then true else false)).
  { unfold Rounded.zoom_snaps, Rounded.add, Rounded.mul. by rewrite Hz, Hw, Hm. }
  repeat (split; [done|]).
  unfold Rounded.zoom. rewrite Hz, Hm, Hc.
  destruct (Rounded.zoom_snaps rnd b (XFin v)); [done|].
  assert (Hcp : default (XFin (1 # 2)) (XFin <$> cp) = XFin c0) by (by destruct cp).
  rewrite Hcp, Hl, Hr. done.
Qed.

(** Without rounding the rounded operations are the exact ones. *)
Lemma x_round_exact (a : xnum) : x_round (fun q => q) a = a.
Proof. by destruct a. Qed.

Lemma Rounded_zoom_exact (b : TraceBounds.t) (value : xnum) (centerPercent : option xnum) :
  Rounded.zoom (fun q => q) b value centerPercent = zoom b value centerPercent.
Proof.
  unfold Rounded.zoom, Rounded.zoom_snaps, Rounded.zoom_amount, Rounded.get_center,
    Rounded.intervalWidth, Rounded._minimumIntervalWidth, Rounded.add, Rounded.sub,
    Rounded.mul, Rounded.div, zoom, get_center, intervalWidth, _minimumIntervalWidth.
  by rewrite !x_round_exact.
Qed.

Section RoundedZoom.
Local Open Scope Q_scope.

(** The error of a product with a rounded factor. *)
Lemma product_error (z om d u : Q) :
  -2 <= z → z <= 0 → 0 <= om → om <= 2 → d - u <= om → om <= d + u →
  z * om - z * d <= 2 * u ∧ - (2 * u) <= z * om - z * d ∧ z * om <= 0 ∧ -4 <= z * om.
Proof.
  intros Hz1 Hz2 Ho1 Ho2 Hd1 Hd2.
  assert (E : z * om - z * d == z * (om - d)) by ring.
  rewrite E. repeat split; nra.
Qed.

Ltac use_cases :=
  repeat match goal with
    | H : (_ → _)%Q |- _ => first [specialize (H ltac:(lra)) | clear H]
    end.

Ltac rnd_bound HR x B :=
  let H := fresh "Hb" in
  assert (H : (Qabs x <= B)%Q) by (apply Qabs_Qle_condition; lra);
  apply (rnd_within _ _ HR x B) in H; destruct H.

(** C8, as amended. Every arithmetic operation of [zoom] and of the getters
    rounds its result: [rnd] is that rounding and [u] its unit roundoff
    ([2^-53] for binary64; the identity and 0 for exact arithmetic). From
    bounds within [0,1] whose width is at least the floor [3 / totalTime],
    both as the getters compute them, of a trace with a positive total time,
    [zoom] by any amount, around a center given as a fraction of the unit
    interval (or the default), yields bounds within [0,1] whose width is at
    least the floor less [64 u], and at least the floor when the amount is
    not negative. And when the test [width + 2 * zoom < floor] of [zoom]
    holds, the bounds become, within [64 u], the window as wide as the floor
    and centered on the center that the bounds had. *)
Theorem zoom_keeps_floor (rnd : Q → Q) (u : Q) (b : TraceBounds.t) (T m w v : Q)
    (cp : option Q) :
  rounding rnd u → in_unit b → stored rnd b →
  TraceBounds._totalTime b = XFin T → (0 < T)%Q →
  Rounded._minimumIntervalWidth rnd b = XFin m →
  Rounded.intervalWidth rnd b = XFin w → (m <= w)%Q →
  (∀ c, cp = Some c → (0 <= c)%Q ∧ (c <= 1)%Q) →
  ∃ w',
    in_unit (Rounded.zoom rnd b (XFin v) (XFin <$> cp)) ∧
    Rounded._minimumIntervalWidth rnd (Rounded.zoom rnd b (XFin v) (XFin <$> cp))
      = XFin m ∧
    Rounded.intervalWidth rnd (Rounded.zoom rnd b (XFin v) (XFin <$> cp)) = XFin w' ∧
    (m - 64 * u <= w')%Q ∧
    ((0 <= v)%Q → (m <= w')%Q) ∧
    (Rounded.zoom_snaps rnd b (XFin v) = true →
     ∃ c l' r',
       Rounded.get_center rnd b = XFin c ∧
       TraceBounds._left (Rounded.zoom rnd b (XFin v) (XFin <$> cp)) = XFin l' ∧
       TraceBounds._right (Rounded.zoom rnd b (XFin v) (XFin <$> cp)) = XFin r' ∧
       (Qabs (l' - (c - m / 2)) <= 64 * u)%Q ∧ (Qabs (r' - (c + m / 2)) <= 64 * u)%Q).
Proof.
  intros HR (l & r & Hl & Hr & Hl0 & Hlr & Hr1) Hst HT HTpos Hm Hw Hmw Hcp.
  pose proof (rnd_unit _ _ HR) as [Hu0 Hu1].
  assert (Hsl : (rnd l == l)%Q) by (apply Hst; by left).
  assert (Hsr : (rnd r == r)%Q) by (apply Hst; by right).
  destruct (Rounded_zoom_eq rnd b T l r v cp HT HTpos Hl Hr)
    as (Hm' & Hw' & Hc & Hsnaps & Hzoom).
  rewrite Hm in Hm'. injection Hm' as Hm'. rewrite Hw in Hw'. injection Hw' as Hw'.
  rewrite <- Hm', <- Hw' in *. clear Hw.
  set (z := rnd (rnd (w * v) / 500)%Q) in *.
  set (c := rnd (l + rnd (w / 2))%Q) in *.
  set (c0 := default (1 # 2)%Q cp) in *.
  assert (Hc0 : (0 <= c0)%Q ∧ (c0 <= 1)%Q).
  { unfold c0. destruct cp as [c1|]; simpl; [by apply Hcp|lra]. }
  destruct Hc0 as [Hc00 Hc01].
  assert (Hmpos : (0 < m)%Q).
  { rewrite Hm'. apply (rnd_pos _ _ HR). apply Qdiv_pos; [lra|done]. }
  assert (Hww : (rnd w == w)%Q) by (rewrite Hw'; apply (rnd_idem _ _ HR)).
  assert (Hw0 : (0 <= w)%Q) by (rewrite Hw'; apply (rnd_nonneg _ _ HR); lra).
  assert (Hwb : ((r + - l) - u * 1 <= w ∧ w <= (r + - l) + u * 1)%Q).
  { rewrite Hw'. apply (rnd_within _ _ HR). apply Qabs_Qle_condition. lra. }
  destruct Hwb as [Hwlo Hwhi].
  assert (Hrl : (0 < r + - l)%Q) by (apply (rnd_pos_inv _ _ HR); rewrite <- Hw'; lra).
  assert (Hzv : (0 <= v → 0 <= z)%Q).
  { intros Hv. unfold z. apply (rnd_nonneg _ _ HR).
    assert (0 <= rnd (w * v))%Q by (apply (rnd_nonneg _ _ HR); nra).
    apply Qle_shift_div_l; lra. }
  clearbody z c0. clear Hm'.
  destruct (Qlt_le_dec z 0) as [Hzneg|Hzpos].
  2: { (* the window does not shrink *)
    set (a := rnd (2 * z)%Q) in *.
    assert (Ha : (0 <= a)%Q) by (apply (rnd_nonneg _ _ HR); lra).
    assert (Hs : (m <= rnd (w + a))%Q).
    { assert (rnd w <= rnd (w + a))%Q by (apply (rnd_mono _ _ HR); lra). lra. }
    destruct (Qlt_le_dec (rnd (w + a)) m) as [Hlt|_]; [lra|].
    rewrite Hsnaps in Hzoom. rewrite Hzoom, Hsnaps.
    set (lz := rnd (z * c0)%Q).
    assert (Hlz : (0 <= lz)%Q) by (apply (rnd_nonneg _ _ HR); nra).
    set (om := rnd (1 + - c0)%Q).
    assert (Hom : (0 <= om)%Q) by (apply (rnd_nonneg _ _ HR); lra).
    set (rz := rnd (z * om)%Q).
    assert (Hrz : (0 <= rz)%Q) by (apply (rnd_nonneg _ _ HR); nra).
    set (L := rnd (l + - lz)%Q).
    assert (HL : (L <= l)%Q).
    { assert (L <= rnd l)%Q by (apply (rnd_mono _ _ HR); lra). lra. }
    set (R := rnd (r + rz)%Q).
    assert (HRr : (r <= R)%Q).
    { assert (rnd r <= R)%Q by (apply (rnd_mono _ _ HR); lra). lra. }
    clearbody L R.
    destruct (Rounded_after_setBounds rnd b L R (Some "zoom"%string))
      as (l' & r' & Hl' & Hr' & H0 & H1 & H2 & Hcases & Hmin & Hwidth); [lra|].
    exists (rnd (r' + - l')). split; [by exists l', r'|].
    split; [by rewrite Hmin|]. split; [done|].
    assert (Hwide : (m <= rnd (r' + - l'))%Q).
    { assert (rnd (r + - l) <= rnd (r' + - l'))%Q; [|rewrite Hw' in *; lra].
      apply (rnd_mono _ _ HR).
      destruct Hcases as (C1 & C2 & C3 & C4 & C5 & C6 & C7).
      destruct (Qlt_le_dec L 0), (Qlt_le_dec 1 R); use_cases; lra. }
    split; [lra|]. split; [done|]. done. }
  assert (Hv : (v < 0)%Q).
  { destruct (Qlt_le_dec v 0); [done|]. specialize (Hzv ltac:(done)). lra. }
  set (a := rnd (2 * z)%Q) in *.
  set (hm := (m / 2)%Q) in *.
  assert (Hhm : (hm * 2 == m)%Q) by (unfold hm; field).
  destruct (Qlt_le_dec (rnd (w + a)) m) as [Hsnap|Hkeep].
  - (* the window of the floor around the center *)
    rewrite Hsnaps in Hzoom. rewrite Hzoom, Hsnaps.
    subst c.
    set (hw := (w / 2)%Q) in *.
    assert (Hhw : (hw * 2 == w)%Q) by (unfold hw; field).
    clearbody hw hm.
    rnd_bound HR hw 2. set (rhw := rnd hw) in *.
    assert (Hrhw : 0 <= rhw) by (apply (rnd_nonneg _ _ HR); lra).
    clearbody rhw.
    rnd_bound HR (l + rhw) 2. set (c := rnd (l + rhw)) in *.
    assert (Hc0 : 0 <= c) by (apply (rnd_nonneg _ _ HR); lra).
    clearbody c.
    rnd_bound HR hm 2. set (h := rnd hm) in *.
    assert (Hh0 : 0 < h) by (apply (rnd_pos _ _ HR); lra).
    clearbody h.
    rnd_bound HR (c + - h) 2. set (L := rnd (c + - h)) in *.
    rnd_bound HR (c + h) 2. set (R := rnd (c + h)) in *.
    assert (HLR : L <= R) by (apply (rnd_mono _ _ HR); lra).
    assert (HR0 : 0 < R) by (apply (rnd_pos _ _ HR); lra).
    clearbody L R.
    destruct (Rounded_after_setBounds rnd b L R (Some "zoom"%string))
      as (l' & r' & Hl' & Hr' & H0' & H1' & H2' & Hcases & Hmin & Hwidth); [lra|].
    rnd_bound HR (r' + - l') 1.
    destruct Hcases as (C1 & C2 & C3 & C4 & C5 & C6 & C7).
    assert (Hclose : l' - (c - hm) <= 32 * u ∧ - (32 * u) <= l' - (c - hm) ∧
                     r' - (c + hm) <= 32 * u ∧ - (32 * u) <= r' - (c + hm)).
    { destruct (Qlt_le_dec L 0), (Qlt_le_dec 1 L), (Qlt_le_dec 1 R); use_cases;
        repeat split; lra. }
    exists (rnd (r' + - l')). split; [by exists l', r'|].
    split; [by rewrite Hmin|]. split; [done|].
    split; [lra|]. split; [lra|]. intros _.
    exists c, l', r'. split; [done|]. split; [done|]. split; [done|].
    split; apply Qabs_Qle_condition; lra.
  - (* the window shrinks, and stays above the floor *)
    rewrite Hsnaps in Hzoom. rewrite Hzoom, Hsnaps. clear Hzoom c Hc.
    assert (Ha0 : a <= 0) by (apply (rnd_nonpos _ _ HR); lra).
    assert (Hwa : 0 < w + a) by (apply (rnd_pos_inv _ _ HR); lra).
    assert (Hz2 : Qabs (2 * z) <= 2 * 2).
    { apply (rnd_back _ _ HR). apply Qabs_Qle_condition. fold a. lra. }
    apply Qabs_Qle_condition in Hz2.
    rnd_bound HR (2 * z) 4. fold a in H, H0. clearbody a.
    rnd_bound HR (w + a) 2. set (s := rnd (w + a)) in *. clearbody s.
    destruct (share_bounds z c0 Hc00 Hc01) as [_ Hshare].
    destruct (Hshare ltac:(lra)) as [Hzc1 Hzc2].
    set (zc := z * c0) in *.
    assert (Hsum : z * (1 + - c0) + zc == z) by (unfold zc; ring).
    clearbody zc.
    rnd_bound HR zc 2. set (lz := rnd zc) in *.
    assert (Hlz : lz <= 0) by (apply (rnd_nonpos _ _ HR); lra).
    clearbody lz.
    rnd_bound HR (1 + - c0) 1. set (om := rnd (1 + - c0)) in *.
    assert (Hom : 0 <= om) by (apply (rnd_nonneg _ _ HR); lra).
    clearbody om.
    destruct (product_error z om (1 + - c0) u) as (Hzom1 & Hzom2 & Hzom3 & Hzom4);
      [lra..|].
    set (zo := z * om) in *. set (zd := z * (1 + - c0)) in *. clearbody zo zd.
    rnd_bound HR zo 4. set (rz := rnd zo) in *.
    assert (Hrz : rz <= 0) by (apply (rnd_nonpos _ _ HR); lra).
    clearbody rz.
    rnd_bound HR (l + - lz) 4. set (L := rnd (l + - lz)) in *.
    assert (HLl : l <= L).
    { assert (rnd l <= L) by (apply (rnd_mono _ _ HR); lra). lra. }
    rnd_bound HR (r + rz) 8. set (R := rnd (r + rz)) in *.
    assert (HRr : R <= r).
    { assert (R <= rnd r) by (apply (rnd_mono _ _ HR); lra). lra. }
    clearbody L R.
    assert (Hgap : m - 48 * u <= R - L) by lra.
    destruct (Qlt_le_dec R L) as [Hswap|Hord].
    + rewrite setBounds_swap by done.
      destruct (Rounded_after_setBounds rnd b R L (Some "zoom"%string))
        as (l' & r' & Hl' & Hr' & H0' & H1' & H2' & _ & Hmin & Hwidth); [lra|].
      exists (rnd (r' + - l')). split; [by exists l', r'|].
      split; [by rewrite Hmin|]. split; [done|].
      assert (0 <= rnd (r' + - l')) by (apply (rnd_nonneg _ _ HR); lra).
      split; [lra|]. split; [lra|done].
    + destruct (Rounded_after_setBounds rnd b L R (Some "zoom"%string))
        as (l' & r' & Hl' & Hr' & H0' & H1' & H2' & Hcases & Hmin & Hwidth); [lra|].
      rnd_bound HR (r' + - l') 1.
      destruct Hcases as (C1 & C2 & C3 & C4 & C5 & C6 & C7).
      assert (Hfin : R - L <= r' - l').
      { destruct (Qlt_le_dec 0 R); use_cases; lra. }
      exists (rnd (r' + - l')). split; [by exists l', r'|].
      split; [by rewrite Hmin|]. split; [done|].
      split; [lra|]. split; [lra|done].
Qed.

Lemma exact_rounding : rounding (fun q => q) 0.
Proof.
  split; try done.
  - intros q. assert (E : q - q == 0) by ring. rewrite E, Qmult_0_l.
    apply Qle_refl.
Qed.

Lemma zoom_keeps_floor_witness :
  ∃ m w',
    Rounded._minimumIntervalWidth binary64 whole_trace_bounds = XFin m ∧
    in_unit (Rounded.zoom binary64 whole_trace_bounds (XFin (-1000)) (XFin <$> Some (1 # 2))) ∧
    Rounded.intervalWidth binary64
      (Rounded.zoom binary64 whole_trace_bounds (XFin (-1000)) (XFin <$> Some (1 # 2)))
      = XFin w' ∧
    m - 64 * (1 # 2) ^ 53 <= w'.
Proof.
  destruct (zoom_keeps_floor binary64 ((1 # 2) ^ 53) whole_trace_bounds
              15 (binary64 (3 / 15)) (binary64 (1 + - 0)) (-1000) (Some (1 # 2)))
    as (w' & H1 & _ & H2 & H3 & _).
  - exact binary64_rounding.
  - exists 0, 1. repeat split; vm_compute; discriminate.
  - intros q [[= <-]|[= <-]]; vm_compute; reflexivity.
  - reflexivity.
  - reflexivity.
  - vm_compute. reflexivity.
  - vm_compute. reflexivity.
  - vm_compute. discriminate.
  - intros c [= <-]. split; vm_compute; discriminate.
  - exists (binary64 (3 / 15)), w'. split; [vm_compute; reflexivity|].
    split; [exact H1|]. split; [exact H2|exact H3].
Defined.

End RoundedZoom.


(** C8 as stated fails. With a total time of 300 the floor is 1/100; from the
    bounds [0, 1/1000], [zoom(-1000, 0.5)] takes the branch of the floor and
    [setBounds] clamps its left argument to 0: the bounds become
    [0, 11/2000], narrower than the floor and not centered on the center
    1/2000 that they had. With a total time of 1 the floor is 3, wider than
    the unit interval, and the bounds stay [0, 1]. And in binary64, with a
    total time of 15 and the bounds [0, 1], which are wider than the floor,
    [zoom(-1000, 0.5)] takes the branch of the floor and leaves bounds
    whose width, as [intervalWidth] computes it, is smaller than the floor,
    as [_minimumIntervalWidth] computes it: every operation rounds. *)
Lemma zoom_below_floor_counterexample :
  (in_unit narrow_bounds ∧
   _minimumIntervalWidth narrow_bounds = XFin (3 / 300) ∧
   ∃ l' r', TraceBounds._left (zoom narrow_bounds (XFin (-1000)) (Some (XFin (1 # 2))))
              = XFin l' ∧
            TraceBounds._right (zoom narrow_bounds (XFin (-1000)) (Some (XFin (1 # 2))))
              = XFin r' ∧
            (l' == 0 ∧ r' == 11 # 2000 ∧ r' - l' < 3 / 300)%Q) ∧
  (_minimumIntervalWidth short_trace_bounds = XFin (3 / 1) ∧
   ∃ l' r', TraceBounds._left (zoom short_trace_bounds (XFin 0) None) = XFin l' ∧
            TraceBounds._right (zoom short_trace_bounds (XFin 0) None) = XFin r' ∧
            (r' - l' < 3 / 1)%Q) ∧
  (∃ m w w',
     Rounded._minimumIntervalWidth binary64 whole_trace_bounds = XFin m ∧
     Rounded.intervalWidth binary64 whole_trace_bounds = XFin w ∧
     Rounded.zoom_snaps binary64 whole_trace_bounds (XFin (-1000)) = true ∧
     Rounded._minimumIntervalWidth binary64
       (Rounded.zoom binary64 whole_trace_bounds (XFin (-1000)) (Some (XFin (1 # 2))))
       = XFin m ∧
     Rounded.intervalWidth binary64
       (Rounded.zoom binary64 whole_trace_bounds (XFin (-1000)) (Some (XFin (1 # 2))))
       = XFin w' ∧
     (m <= w ∧ w' < m)%Q).
Proof.
  split; [|split].
  - split; [apply setBounds_in_unit|]. split; [reflexivity|].
    eexists _, _. split; [vm_compute; reflexivity|]. split; [vm_compute; reflexivity|].
    repeat split.
  - split; [reflexivity|].
    eexists _, _. split; [vm_compute; reflexivity|]. split; [vm_compute; reflexivity|].
    reflexivity.
  - eexists _, _, _. split; [vm_compute; reflexivity|]. split; [vm_compute; reflexivity|].
    split; [vm_compute; reflexivity|]. split; [vm_compute; reflexivity|].
    split; [vm_compute; reflexivity|]. split; [vm_compute; discriminate|reflexivity].
Qed.

(** ** The visible-range query *)

Lemma toInt32_small (z : Z) : - 2 ^ 31 ≤ z < 2 ^ 31 → toInt32 z = z.
Proof. intros Hz. unfold toInt32. rewrite Z.mod_small; lia. Qed.

Lemma ends_of_lookup (array : list Frame.t) (ends : list Z) (i : nat) (e : Z) :
  ends_of array ends → ends !! i = Some e →
  ∃ f, array !! i = Some f ∧ Frame.endTime f = Some (TNum e).
Proof.
  intros H He. destruct (Forall2_lookup_r _ _ _ _ _ H He) as (f & Hf & Hfe). eauto.
Qed.

Section Search.

Variable array : list Frame.t.
Variable ends : list Z.
Variable t : Z.
Hypothesis array_ends : ends_of array ends.
Hypothesis ends_ascending : ascending ends.
Hypothesis array_small : Z.of_nat (length array) ≤ 2 ^ 30.

(** The middle of a range within the array, as the loop computes it. *)
Lemma middle (first last : Z) :
  0 ≤ first → first ≤ last → last < Z.of_nat (length array) →
  first ≤ Z.shiftr (toInt32 (first + last)) 1 ≤ last.
Proof using array_small.
  intros H0 Hle Hn. rewrite toInt32_small by lia. rewrite Z.shiftr_div_pow2 by lia.
  change (2 ^ 1) with 2. split.
  - apply Z.div_le_lower_bound; lia.
  - apply Z.div_le_upper_bound; lia.
Qed.

(** What the loop returns, from a range that brackets the key. *)
Lemma binarySearch_loop_spec (fuel : nat) :
  ∀ first last : Z,
    0 ≤ first → last < Z.of_nat (length array) → first ≤ last + 1 →
    last - first + 1 < Z.of_nat fuel →
    (∀ k e, Z.of_nat k < first → ends !! k = Some e → e < t) →
    (∀ k e, last < Z.of_nat k → ends !! k = Some e → t < e) →
    ∃ idx, binarySearch_loop fuel (Num t) array byEndTime first last = Ok idx ∧
      ((0 ≤ idx ∧ ends !! Z.to_nat idx = Some t) ∨
       (idx < 0 ∧ 0 ≤ - (idx + 1) ≤ Z.of_nat (length array) ∧
        (∀ k e, Z.of_nat k < - (idx + 1) → ends !! k = Some e → e < t) ∧
        (∀ k e, - (idx + 1) ≤ Z.of_nat k → ends !! k = Some e → t < e))).
Proof using array_ends ends_ascending array_small.
  pose proof (Forall2_length _ _ _ array_ends) as Hlen'.
  induction fuel as [|fuel' IH]; intros first last H0 Hn Hfl Hfuel Hlo Hhi.
  - lia.
  - simpl. destruct (decide (first ≤ last)) as [Hle|Hgt].
    + pose proof (middle first last H0 Hle Hn) as Hmid.
      set (mid := Z.shiftr (toInt32 (first + last)) 1) in *. clearbody mid.
      assert (Hsome : is_Some (ends !! Z.to_nat mid)).
      { apply lookup_lt_is_Some. lia. }
      destruct Hsome as [e He].
      destruct (ends_of_lookup _ _ _ _ array_ends He) as (f & Hf & Hfe).
      unfold at_index. rewrite decide_True by lia. rewrite Hf. simpl.
      rewrite Hfe. simpl. unfold num_lt. simpl.
      destruct (bool_decide (0 < t - e)) eqn:E1.
      * apply bool_decide_eq_true in E1.
        apply IH; try lia; [|exact Hhi].
        intros k e' Hk He'.
        assert (e' ≤ e); [|lia].
        apply (ends_ascending k (Z.to_nat mid) e' e); [lia|done|done].
      * apply bool_decide_eq_false in E1.
        destruct (bool_decide (t - e < 0)) eqn:E2.
        -- apply bool_decide_eq_true in E2.
           apply IH; try lia; [exact Hlo|].
           intros k e' Hk He'.
           assert (e ≤ e'); [|lia].
           apply (ends_ascending (Z.to_nat mid) k e e'); [lia|done|done].
        -- apply bool_decide_eq_false in E2.
           exists mid. split; [done|]. left. split; [lia|].
           rewrite He. f_equal. lia.
    + eexists. split; [done|]. right. split; [lia|].
      replace (- (- (first + 1) + 1)) with first by lia.
      split; [lia|]. split; [done|].
      intros k e Hk. apply Hhi. lia.
Qed.

End Search.

(** C4, as amended: on a sibling list of at most 2^30 closed frames in
    ascending order of [endTime], [binarySearch] with the comparator
    [time - child.endTime] returns either the index of a frame that ends at
    [t], or [-(i + 1)] where every frame before [i] ends before [t] and every
    frame from [i] on ends after [t]. In both cases the decoded index [i] is
    within the list, every frame before it ends at [t] or before, and every
    frame from it on ends at [t] or after; and when at most one frame ends at
    [t], every frame before [i] ends before [t], so that [i] is the leftmost
    frame that ends at [t] or after. *)
Theorem binarySearch_insertion_point (array : list Frame.t) (ends : list Z) (t : Z) :
  ends_of array ends → ascending ends → Z.of_nat (length array) ≤ 2 ^ 30 →
  ∃ idx, binarySearch (Num t) array byEndTime = Ok idx ∧
    ((0 ≤ idx ∧ ends !! Z.to_nat idx = Some t) ∨
     (idx < 0 ∧
      (∀ k e, Z.of_nat k < decode idx → ends !! k = Some e → e < t) ∧
      (∀ k e, decode idx ≤ Z.of_nat k → ends !! k = Some e → t < e))) ∧
    0 ≤ decode idx ≤ Z.of_nat (length array) ∧
    (∀ k e, Z.of_nat k < decode idx → ends !! k = Some e → e ≤ t) ∧
    (∀ k e, decode idx ≤ Z.of_nat k → ends !! k = Some e → t ≤ e) ∧
    ((∀ i j, ends !! i = Some t → ends !! j = Some t → i = j) →
     ∀ k e, Z.of_nat k < decode idx → ends !! k = Some e → e < t).
Proof.
  intros Hends Hasc Hlen. pose proof (Forall2_length _ _ _ Hends) as Hlen'.
  destruct (binarySearch_loop_spec array ends t Hends Hasc Hlen
              (S (length array)) 0 (Z.of_nat (length array) - 1))
    as (idx & Hrun & Hidx); try lia.
  { intros k e Hk He. apply lookup_lt_Some in He. lia. }
  exists idx. split; [exact Hrun|]. unfold decode.
  destruct Hidx as [[Hpos Hfound]|(Hneg & Hrange & Hlo & Hhi)].
  - rewrite decide_False by lia.
    assert (Hin : (Z.to_nat idx < length ends)%nat) by (by eapply lookup_lt_Some).
    split; [by left|]. split; [lia|].
    assert (Hle : ∀ k e, Z.of_nat k < idx → ends !! k = Some e → e ≤ t).
    { intros k e Hk He. apply (Hasc k (Z.to_nat idx) e t); [lia|done|done]. }
    split; [exact Hle|]. split.
    + intros k e Hk He. apply (Hasc (Z.to_nat idx) k t e); [lia|done|done].
    + intros Huniq k e Hk He. specialize (Hle k e Hk He).
      destruct (decide (e = t)) as [->|Hne]; [|lia].
      specialize (Huniq _ _ He Hfound). lia.
  - rewrite decide_True by lia.
    split; [right; by repeat split|]. split; [lia|].
    split; [intros k e Hk He; specialize (Hlo k e Hk He); lia|].
    split; [intros k e Hk He; specialize (Hhi k e Hk He); lia|].
    intros _. exact Hlo.
Qed.

Lemma binarySearch_insertion_point_witness :
  ∃ idx, binarySearch (Num 3) [leaf_frame 0 0 2; leaf_frame 1 2 4] byEndTime = Ok idx ∧
         decode idx = 1.
Proof.
  destruct (binarySearch_insertion_point [leaf_frame 0 0 2; leaf_frame 1 2 4] [2; 4] 3)
    as (idx & Hrun & _).
  - repeat constructor.
  - intros [|[|i]] [|[|j]] a b Hij; simpl; intros [= <-] [= <-]; lia.
  - vm_compute. discriminate.
  - exists idx. split; [exact Hrun|].
    vm_compute in Hrun. injection Hrun as <-. reflexivity.
Defined.

(** C4 as stated fails: among three siblings that all end at 2 the query 2
    finds the middle one, index 1, and the frame at position 0, before it,
    does not end before 2. *)
Lemma binarySearch_not_leftmost_counterexample :
  ends_of same_end_siblings [2; 2; 2] ∧ ascending [2; 2; 2] ∧
  binarySearch (Num 2) same_end_siblings byEndTime = Ok 1 ∧ decode 1 = 1 ∧
  ∃ f, same_end_siblings !! 0%nat = Some f ∧ Frame.endTime f = Some (TNum 2) ∧ ¬ 2 < 2.
Proof.
  split; [repeat constructor|]. split.
  - intros i j a b _ Hi Hj.
    assert (Hall : ∀ x : Z, x ∈ [2; 2; 2] → x = 2).
    { intros x Hx. repeat (apply elem_of_cons in Hx as [Hx|Hx]; [done|]).
      by apply elem_of_nil in Hx. }
    apply list_elem_of_lookup_2, Hall in Hi. apply list_elem_of_lookup_2, Hall in Hj.
    lia.
  - split; [reflexivity|]. split; [reflexivity|].
    eexists. split; [reflexivity|]. split; [reflexivity|]. lia.
Qed.

(** ** Writing out and reading back *)

Lemma json_ind' (P : json → Prop) :
  P JNull → (∀ b, P (JBool b)) → (∀ z, P (JNum z)) → (∀ s, P (JStr s)) →
  (∀ l, Forall P l → P (JArr l)) →
  (∀ l, Forall (fun kv => P kv.2) l → P (JObj l)) →
  ∀ j, P j.
Proof.
  intros Hnull Hbool Hnum Hstr Harr Hobj. fix IH 1.
  intros [| b | z | s | l | l]; [done|done|done|done| |].
  - apply Harr. induction l as [|j l IHl]; constructor; [apply IH|exact IHl].
  - apply Hobj. induction l as [|[k j] l IHl]; constructor; [apply IH|exact IHl].
Qed.

(** Reading a text back and writing the value out again gives the text. *)
Lemma stringify_parse (j : json) : stringify (parse j) = Some j.
Proof.
  induction j as [| b | z | s | l IH | l IH] using json_ind'; simpl; try done.
  - do 2 f_equal. induction IH as [|j l Hj _ IHl]; simpl; [done|].
    by rewrite Hj, IHl.
  - do 2 f_equal. induction IH as [|[k j] l Hj _ IHl]; simpl; [done|].
    simpl in Hj. by rewrite Hj, IHl.
Qed.

Lemma stringify_parse_opt (o : option json) : stringify (parse_opt o) = o.
Proof. destruct o; simpl; [apply stringify_parse|done]. Qed.

Lemma parse_stringify_time (t : timeval) : parse_time (stringify_time t) = t.
Proof. by destruct t. Qed.

Lemma stringify_None (v : value) : stringify v = None → v = VUndef.
Proof. destruct v as [| | |[|]| | |]; simpl; congruence. Qed.

Lemma parse_not_undefined (j : json) : parse j ≠ VUndef.
Proof. by destruct j. Qed.

(** The property copied at exit is written out as the value of the packet. *)
Lemma defined_stringify (v : value) (old : option value) :
  old = None →
  (match defined v with Some x => Some x | None => old end) ≫= stringify = stringify v.
Proof. intros ->. by destruct v. Qed.

(** ** The fuel of [_frameToJSONObj] *)

Lemma mapM_ext_Some {A B : Type} (f g : A → option B) (l : list A) (k : list B) :
  (∀ x y, x ∈ l → f x = Some y → g x = Some y) →
  mapM f l = Some k → mapM g l = Some k.
Proof.
  intros Hfg H. apply mapM_Some in H. apply mapM_Some.
  induction H as [|x y l k Hxy _ IH]; constructor.
  - apply Hfg; [by left|done].
  - apply IH. intros x' y' Hin. apply Hfg. by right.
Qed.

Lemma frameToJSONObj_mono (frames : list Frame.t) (fuel fuel' : nat) :
  (fuel ≤ fuel')%nat →
  ∀ u node, _frameToJSONObj fuel frames u = Some node →
            _frameToJSONObj fuel' frames u = Some node.
Proof.
  revert fuel'. induction fuel as [|fuel IH]; intros fuel' Hle u node; [done|].
  destruct fuel' as [|fuel']; [lia|]. simpl.
  destruct (frames !! u) as [f|]; simpl; [|done].
  destruct (mapM (_frameToJSONObj fuel frames) (Frame.children f)) as [kids|] eqn:E;
    simpl; [|done].
  rewrite (mapM_ext_Some _ (_frameToJSONObj fuel' frames) _ _ (fun x y _ => IH fuel' ltac:(lia) x y) E).
  done.
Qed.

(** Nodes written with a fuel each can all be written with one fuel. *)
Lemma closed_json_common_fuel (frames : list Frame.t) (children : list nat)
    (nodes : list Snapshot.node) :
  Forall2 (closed_json frames) children nodes →
  ∃ fuel, mapM (_frameToJSONObj fuel frames) children = Some nodes.
Proof.
  induction 1 as [|c n cs ns [_ [fuel1 H1]] _ [fuel2 IH]].
  - by exists 0%nat.
  - exists (fuel1 `max` fuel2)%nat. apply mapM_Some. constructor.
    + eapply frameToJSONObj_mono; [|exact H1]. lia.
    + apply mapM_Some in IH. eapply Forall2_impl; [exact IH|]. simpl.
      intros c' n'. apply frameToJSONObj_mono. lia.
Qed.

(** With children that all come after their parent, the length of the frame
    list is fuel enough. *)
Lemma frameToJSONObj_length (frames : list Frame.t) :
  (∀ u f, frames !! u = Some f →
     Forall (fun c => u < c < length frames)%nat (Frame.children f)) →
  ∀ fuel' fuel u node,
    (length frames - u ≤ fuel)%nat →
    _frameToJSONObj fuel' frames u = Some node →
    _frameToJSONObj fuel frames u = Some node.
Proof.
  intros Hch. induction fuel' as [|fuel' IH]; intros fuel u node Hfuel; [done|].
  simpl. destruct (frames !! u) as [f|] eqn:Hf; simpl; [|done].
  assert (Hu : (u < length frames)%nat) by (by eapply lookup_lt_Some).
  destruct fuel as [|fuel]; [lia|]. simpl. rewrite Hf. simpl.
  destruct (mapM (_frameToJSONObj fuel' frames) (Frame.children f)) as [kids|] eqn:E;
    simpl; [|done].
  assert (Hext : ∀ c n, c ∈ Frame.children f →
            _frameToJSONObj fuel' frames c = Some n →
            _frameToJSONObj fuel frames c = Some n).
  { intros c n Hc. apply IH.
    specialize (Hch _ _ Hf). rewrite Forall_forall in Hch. specialize (Hch _ Hc). lia. }
  by rewrite (mapM_ext_Some _ _ _ _ Hext E).
Qed.

(** A closed frame is written out from closed frames alone: if these are
    written alike in another frame list, so is the frame. *)
Lemma frameToJSONObj_frame (frames frames' : list Frame.t) :
  (∀ u f e, frames !! u = Some f → Frame.endTime f = Some e →
     ∃ totals, totals_at frames (Frame.children f) totals) →
  (∀ u f e, frames !! u = Some f → Frame.endTime f = Some e →
     ∃ f', frames' !! u = Some f' ∧ scalars f' = scalars f ∧
           Frame.children f' = Frame.children f) →
  ∀ fuel u node,
    (∃ f e, frames !! u = Some f ∧ Frame.endTime f = Some e) →
    _frameToJSONObj fuel frames u = Some node →
    _frameToJSONObj fuel frames' u = Some node.
Proof.
  intros Hclosed Hsame. induction fuel as [|fuel IH]; intros u node Hu; [done|].
  destruct Hu as (f & e & Hf & He). simpl. rewrite Hf. simpl.
  destruct (Hsame _ _ _ Hf He) as (f' & -> & Hs & Hc). simpl.
  rewrite Hc. apply scalars_inv in Hs. destruct_and!.
  destruct (mapM (_frameToJSONObj fuel frames) (Frame.children f)) as [kids|] eqn:E;
    simpl; [|done].
  assert (Hext : ∀ c n, c ∈ Frame.children f →
            _frameToJSONObj fuel frames c = Some n →
            _frameToJSONObj fuel frames' c = Some n).
  { intros c n Hin. apply IH.
    destruct (Hclosed _ _ _ Hf He) as (totals & Htot).
    unfold totals_at in Htot.
    apply list_elem_of_lookup in Hin as [i Hi].
    destruct (Forall2_lookup_l _ _ _ _ _ Htot Hi) as (x & _ & fc & ec & Hfc & Hec & _).
    eauto. }
  rewrite (mapM_ext_Some _ _ _ _ Hext E). simpl.
  intros [= <-]. congruence.
Qed.

(** ** The events read back from the trace *)

Lemma closed_json_step (t : Trace.t) (frames' : list Frame.t) (u : nat)
    (node : Snapshot.node) :
  Inv t → keeps_closed (Trace.frames t) frames' →
  closed_json (Trace.frames t) u node → closed_json frames' u node.
Proof.
  intros HI Hkeep [(f & e & Hf & He) (fuel & Hfuel)]. split.
  - destruct (Hkeep _ _ _ Hf He) as (f' & Hf' & Hs & _).
    apply scalars_inv in Hs. destruct_and!. exists f', e. split; congruence.
  - exists fuel. eapply frameToJSONObj_frame; [| |eauto|exact Hfuel].
    + intros v fv ev Hv Hev.
      destruct (inv_closed _ HI _ _ _ Hv Hev) as (totals & Htot & _). eauto.
    + exact Hkeep.
Qed.

Lemma onEnteredFrame_keeps_closed (t t' : Trace.t) (p : EnterPacket.t) :
  Inv t → onEnteredFrame t p = Ok t' →
  keeps_closed (Trace.frames t) (Trace.frames t').
Proof.
  intros HI H u f e Hf He.
  destruct (onEnteredFrame_frames _ _ _ H) as (stack & _ & _ & Hst & _).
  destruct (onEnteredFrame_old_frame_rev _ _ _ _ _ H Hf) as (f' & Hf' & Hs).
  exists f'. split; [done|]. split; [done|].
  destruct (onEnteredFrame_old_frame _ _ _ stack u f' H Hst) as (f0 & Hf0 & _ & Hc);
    [by eapply lookup_lt_Some|done|].
  rewrite Hf in Hf0. injection Hf0 as <-. rewrite Hc.
  rewrite decide_False; [done|].
  intros Hcur. destruct stack as [|u0 stack0]; [done|]. injection Hcur as ->.
  destruct (live_open _ _ (inv_live _ HI _ Hst) u) as (f0 & Hf0 & Hopen & _); [by left|].
  congruence.
Qed.

Lemma onExitedFrame_keeps_closed (t t' : Trace.t) (p : ExitPacket.t) (u : nat)
    (stack : list nat) :
  Inv t → Trace._stack t = Some (u :: stack) → onExitedFrame t p = Ok t' →
  keeps_closed (Trace.frames t) (Trace.frames t').
Proof.
  intros HI Hst H v f e Hf He.
  destruct (onExitedFrame_pop _ _ _ _ _ Hst H) as (fu & kids & g & Hfu & _ & _ & Hfr & _).
  exists f. split; [|done]. rewrite Hfr, list_lookup_insert_ne; [done|].
  intros Heq. subst v.
  destruct (live_open _ _ (inv_live _ HI _ Hst) u) as (f0 & Hf0 & Hopen & _);
    [by left|].
  congruence.
Qed.

(** The children of the trace or of a frame after [onEnteredFrame]. *)
Lemma children_at_enter (t t' : Trace.t) (p : EnterPacket.t) (stack : list nat)
    (r : ref) (children : list nat) :
  onEnteredFrame t p = Ok t' → Trace._stack t = Some stack →
  children_at (Trace.children t) (Trace.frames t) r = Some children →
  children_at (Trace.children t') (Trace.frames t') r =
    Some (if decide (r = _currentFrame stack)
          then children ++ [length (Trace.frames t)] else children).
Proof.
  intros H Hst Hr.
  destruct (onEnteredFrame_frames _ _ _ H)
    as (stack0 & sib & fnew & Hst0 & _ & _ & _ & _ & _ & _ & _ & _ & _ & _ & _ & _ & Hold & Hroots).
  rewrite Hst in Hst0. injection Hst0 as <-.
  destruct r as [|u]; simpl in *.
  - injection Hr as <-. rewrite Hroots.
    by destruct (_currentFrame stack).
  - destruct (Trace.frames t !! u) as [f|] eqn:Hf; [|done]. injection Hr as <-.
    rewrite Hold by apply (lookup_lt_Some _ _ _ Hf). rewrite Hf. simpl. f_equal.
    destruct (decide (_currentFrame stack = RFrame u)) as [Heq|Hne].
    + rewrite (decide_True (P := RFrame u = _currentFrame stack)) by done.
      by destruct (decide (last sib = Some u)).
    + rewrite (decide_False (P := RFrame u = _currentFrame stack)) by congruence.
      by destruct (decide (last sib = Some u)).
Qed.

Lemma last_chain (parent : ref) (stack : list nat) (n : nat) :
  last (parent :: (RFrame <$> stack ++ [n])) = Some (RFrame n).
Proof. rewrite fmap_app. simpl. by rewrite app_comm_cons, last_snoc. Qed.

(** [onEnteredFrame] appends the enter event to the events read back. *)
Lemma rep_stack_enter (t t' : Trace.t) (p : EnterPacket.t) (stack : list nat)
    (fnew : Frame.t) :
  Inv t → onEnteredFrame t p = Ok t' → Trace._stack t = Some stack →
  Trace.frames t' !! length (Trace.frames t) = Some fnew →
  ∀ bstack parent aevs,
    last (parent :: (RFrame <$> bstack)) = Some (_currentFrame stack) →
    NoDup (parent :: (RFrame <$> bstack)) →
    rep_stack (Trace.children t) (Trace.frames t) parent bstack aevs →
    rep_stack (Trace.children t') (Trace.frames t') parent
      (bstack ++ [length (Trace.frames t)])
      (aevs ++ [aevent_of_enter (Frame.fid fnew) p]).
Proof.
  intros HI H Hst Hnew.
  pose proof (onEnteredFrame_keeps_closed _ _ _ HI H) as Hkeep.
  destruct (onEnteredFrame_frames _ _ _ H)
    as (stack0 & sib & fnew0 & Hst0 & _ & _ & _ & Hnew0 & _ & _ & Hkids & _ & _
        & Hstart & Hargs & _ & _ & _).
  rewrite Hnew in Hnew0. injection Hnew0 as <-.
  induction bstack as [|s rest IH]; intros parent aevs Hlast Hnd Hrep.
  - injection Hlast as ->. simpl in Hrep.
    destruct Hrep as (nodes & (children & Hch & Hnodes) & ->).
    exists children, nodes, fnew, [].
    split.
    { rewrite (children_at_enter _ _ _ _ _ _ H Hst Hch). by rewrite decide_True. }
    split.
    { eapply Forall2_impl; [exact Hnodes|]. intros u node. by apply closed_json_step. }
    split; [done|]. split.
    { unfold aevent_of_enter. by rewrite Hstart, Hargs. }
    exists []. split; [|done]. exists []. split; [|constructor].
    simpl. by rewrite Hnew, <- Hkids.
  - simpl in Hrep.
    destruct Hrep as (kids & nodes & f & rest_aevs & Hch & Hnodes & Hf & -> & Hrest).
    rewrite fmap_cons, last_cons_cons in Hlast.
    rewrite fmap_cons in Hnd. apply NoDup_cons in Hnd as [Hparent Hnd].
    destruct (onEnteredFrame_old_frame_rev _ _ _ _ _ H Hf) as (f' & Hf' & Hs).
    apply scalars_inv in Hs. destruct_and!.
    exists kids, nodes, f', (rest_aevs ++ [aevent_of_enter (Frame.fid fnew) p]).
    split.
    { rewrite (children_at_enter _ _ _ _ _ _ H Hst Hch). rewrite decide_False; [done|].
      intros ->. apply Hparent. by apply last_Some_elem_of. }
    split.
    { eapply Forall2_impl; [exact Hnodes|]. intros u node. by apply closed_json_step. }
    split; [done|]. split.
    { rewrite <- app_assoc. simpl. congruence. }
    by apply IH.
Qed.

Lemma children_at_exit (t t' : Trace.t) (p : ExitPacket.t) (u : nat) (stack : list nat)
    (r : ref) :
  Trace._stack t = Some (u :: stack) → onExitedFrame t p = Ok t' →
  children_at (Trace.children t') (Trace.frames t') r =
  children_at (Trace.children t) (Trace.frames t) r.
Proof.
  intros Hst H.
  destruct (onExitedFrame_pop _ _ _ _ _ Hst H)
    as (f & kids & g & Hf & _ & _ & Hfr & _ & _ & _ & Hroots & _).
  destruct r as [|v]; simpl; [by rewrite Hroots|].
  rewrite Hfr. destruct (decide (u = v)) as [->|Hne].
  - rewrite list_lookup_insert_eq by (by eapply lookup_lt_Some). by rewrite Hf.
  - by rewrite list_lookup_insert_ne.
Qed.

(** [onExitedFrame] appends the exit event to the events read back: the
    frame on top of the stack becomes a node. *)
Lemma rep_stack_exit (t t' : Trace.t) (p : ExitPacket.t) (u : nat) (stack : list nat) :
  Inv t → Trace._stack t = Some (u :: stack) → onExitedFrame t p = Ok t' →
  ∀ bstack parent aevs,
    rep_stack (Trace.children t) (Trace.frames t) parent (bstack ++ [u]) aevs →
    rep_stack (Trace.children t') (Trace.frames t') parent bstack
      (aevs ++ [aevent_of_exit p]).
Proof.
  intros HI Hst H.
  pose proof (onExitedFrame_keeps_closed _ _ _ _ _ HI Hst H) as Hkeep.
  assert (Hstep : ∀ cs ns, Forall2 (closed_json (Trace.frames t)) cs ns →
                           Forall2 (closed_json (Trace.frames t')) cs ns).
  { intros cs ns Hcs. eapply Forall2_impl; [exact Hcs|].
    intros c n. by apply closed_json_step. }
  destruct (onExitedFrame_pop _ _ _ _ _ Hst H)
    as (f & kidsf & g & Hf & _ & _ & Hfr & _).
  destruct (live_open _ _ (inv_live _ HI _ Hst) u) as (f0 & Hf0 & Hopen); [by left|].
  rewrite Hf in Hf0. injection Hf0 as <-.
  destruct Hopen as (_ & _ & Hret & Hthr & Hyld & _).
  induction bstack as [|s rest IH]; intros parent aevs Hrep.
  - simpl in Hrep.
    destruct Hrep as (kids & nodes & f1 & rest_aevs & Hch & Hnodes & Hf1 & -> & Hrest).
    rewrite Hf in Hf1. injection Hf1 as <-.
    destruct Hrest as (nodes_u & (ch & Hchu & Hnodes_u) & ->).
    simpl in Hchu. rewrite Hf in Hchu. injection Hchu as <-.
    destruct (closed_json_common_fuel _ _ _ (Hstep _ _ Hnodes_u)) as (fuel0 & Hfuel0).
    simpl.
    exists (nodes ++ [Snapshot.Node (Frame.fid f) (stringify_time (Frame.startTime f))
                        (stringify_time (ExitPacket.time p))
                        (stringify (Frame.arguments f))
                        (stringify (ExitPacket.return_ p))
                        (stringify (ExitPacket.throw p))
                        (stringify (ExitPacket.yield p)) nodes_u]).
    split.
    + exists (kids ++ [u]). split.
      { by rewrite (children_at_exit _ _ _ _ _ _ Hst H). }
      apply Forall2_app; [by apply Hstep|]. constructor; [|constructor].
      split.
      * rewrite Hfr, list_lookup_insert_eq by (by eapply lookup_lt_Some).
        eexists _, _. split; [done|]. done.
      * exists (S fuel0). simpl.
        rewrite Hfr, list_lookup_insert_eq by (by eapply lookup_lt_Some).
        simpl. rewrite <- Hfr, Hfuel0. simpl.
        by rewrite !defined_stringify.
    + rewrite map_app, concat_app. simpl. rewrite app_nil_r.
      by rewrite <- app_assoc.
  - simpl in Hrep.
    destruct Hrep as (kids & nodes & fs & rest_aevs & Hch & Hnodes & Hfs & -> & Hrest).
    specialize (IH _ _ Hrest).
    assert (Hfs' : ∃ fs', Trace.frames t' !! s = Some fs' ∧ Frame.fid fs' = Frame.fid fs ∧
              Frame.startTime fs' = Frame.startTime fs ∧
              Frame.arguments fs' = Frame.arguments fs).
    { rewrite Hfr. destruct (decide (u = s)) as [->|Hne].
      - rewrite list_lookup_insert_eq by (by eapply lookup_lt_Some).
        rewrite Hf in Hfs. injection Hfs as <-. eauto.
      - rewrite list_lookup_insert_ne by done. eauto. }
    destruct Hfs' as (fs' & Hfs' & Hfid & Hstart & Hargs).
    exists kids, nodes, fs', (rest_aevs ++ [aevent_of_exit p]).
    split; [by rewrite (children_at_exit _ _ _ _ _ _ Hst H)|].
    split; [by apply Hstep|]. split; [done|]. split.
    + rewrite <- app_assoc. simpl. congruence.
    + exact IH.
Qed.

Lemma descending_NoDup (l : list nat) : descending l → NoDup l.
Proof.
  induction l as [|u l IH]; simpl; [constructor|].
  intros [Hlt Hd]. constructor; [|by apply IH].
  intros Hin. rewrite Forall_forall in Hlt. specialize (Hlt _ Hin). lia.
Qed.

Lemma stack_chain (stack : list nat) :
  descending stack →
  last (RTrace :: (RFrame <$> rev stack)) = Some (_currentFrame stack) ∧
  NoDup (RTrace :: (RFrame <$> rev stack)).
Proof.
  intros Hd. split.
  - destruct stack as [|u stack]; [done|]. simpl.
    rewrite fmap_app. simpl. by rewrite app_comm_cons, last_snoc.
  - constructor.
    + intros Hin. apply list_elem_of_fmap in Hin as (u & [=] & _).
    + apply NoDup_fmap; [by intros ?? [=]|].
      rewrite <- (Permutation_rev stack). by apply descending_NoDup.
Qed.

Lemma Hist_new (c : option client) (name : option string) : Hist (new_Trace c name) [].
Proof.
  exists []. split; [done|]. simpl. exists []. split; [|done].
  exists []. split; [done|constructor].
Qed.

Lemma Hist_enter (t t' : Trace.t) (p : EnterPacket.t) (aevs : list aevent) :
  Inv t → Hist t aevs → onEnteredFrame t p = Ok t' →
  ∃ fnew, Trace.frames t' !! length (Trace.frames t) = Some fnew ∧
          Hist t' (aevs ++ [aevent_of_enter (Frame.fid fnew) p]).
Proof.
  intros HI (stack & Hst & Hrep) H.
  destruct (onEnteredFrame_frames _ _ _ H)
    as (stack0 & sib & fnew & Hst0 & _ & Hst' & _ & Hnew & _).
  rewrite Hst in Hst0. injection Hst0 as <-.
  exists fnew. split; [done|]. exists (length (Trace.frames t) :: stack).
  split; [done|]. simpl.
  destruct (stack_chain stack) as [Hlast Hnd];
    [apply (live_descending _ _ (inv_live _ HI _ Hst))|].
  by eapply rep_stack_enter.
Qed.

Lemma Hist_exit (t t' : Trace.t) (p : ExitPacket.t) (u : nat) (stack : list nat)
    (aevs : list aevent) :
  Inv t → Hist t aevs → Trace._stack t = Some (u :: stack) → onExitedFrame t p = Ok t' →
  Hist t' (aevs ++ [aevent_of_exit p]).
Proof.
  intros HI (stack0 & Hst0 & Hrep) Hst H.
  rewrite Hst in Hst0. injection Hst0 as <-. simpl in Hrep.
  destruct (onExitedFrame_pop _ _ _ _ _ Hst H)
    as (f & kids & g & _ & _ & _ & _ & _ & Hst' & _).
  exists stack. split; [done|]. by eapply rep_stack_exit.
Qed.

(** Once every frame is closed, the events read back are those of the nodes
    that [toJSON] writes. *)
Lemma Hist_complete (t : Trace.t) (aevs : list aevent) :
  Inv t → Hist t aevs → Trace._stack t = Some [] →
  ∃ nodes, toJSON t = Some (Snapshot.mk (stringify_function <$> Trace.functions t) nodes) ∧
           aevs = concat (map dfs nodes).
Proof.
  intros HI (stack & Hst & Hrep) Hst0. rewrite Hst0 in Hst. injection Hst as <-.
  simpl in Hrep. destruct Hrep as (nodes & (children & [= <-] & Hnodes) & ->).
  exists nodes. split; [|done]. unfold toJSON.
  destruct (closed_json_common_fuel _ _ _ Hnodes) as (fuel & Hfuel).
  assert (Hlen : mapM (_frameToJSONObj (length (Trace.frames t)) (Trace.frames t))
                   (Trace.children t) = Some nodes).
  { eapply mapM_ext_Some; [|exact Hfuel]. intros c n Hc.
    apply frameToJSONObj_length; [apply (inv_children _ HI)|lia]. }
  by rewrite Hlen.
Qed.

(** ** The replay follows the ingestion *)

Lemma frame_sim_set_next (n : nat) (f f' : Frame.t) :
  frame_sim f f' → frame_sim (Frame.set_next n f) (Frame.set_next n f').
Proof. by intros H. Qed.

Lemma frame_sim_push_child (n : nat) (f f' : Frame.t) :
  frame_sim f f' → frame_sim (Frame.push_child n f) (Frame.push_child n f').
Proof.
  intros (H1 & H). split; [|exact H]. simpl. by rewrite H1.
Qed.

Lemma sim_children_of (t t' : Trace.t) (r : ref) :
  sim t t' → children_of t' r = children_of t r.
Proof.
  intros Hs. destruct r as [|u]; simpl.
  - by rewrite (sim_roots _ _ Hs).
  - pose proof (sim_frames _ _ Hs) as HF.
    destruct (Trace.frames t !! u) as [f|] eqn:Hf.
    + destruct (Forall2_lookup_l _ _ _ _ _ HF Hf) as (f' & -> & Hsim).
      simpl. by destruct Hsim as [-> _].
    + apply lookup_ge_None in Hf.
      assert (Hnone : Trace.frames t' !! u = None).
      { apply lookup_ge_None. by rewrite <- (Forall2_length _ _ _ HF). }
      by rewrite Hnone.
Qed.

Lemma func_sim_incr_count (g g' : Function.t) :
  func_sim g g' → func_sim (Function.incr_count g) (Function.incr_count g').
Proof. intros (H1 & H). split; [|exact H]. simpl. by rewrite H1. Qed.

(** An enter packet of the replay that has the key of the packet of the
    ingestion, its time, its arguments as written out and, when the key is
    new, its name, location and parameter names as written out, is handled
    alike. *)
Lemma sim_enter (t t' t2 : Trace.t) (p p' : EnterPacket.t) :
  sim t t' → Inv t' → onEnteredFrame t p = Ok t2 →
  locationToString (EnterPacket.location p') (EnterPacket.name p')
    = locationToString (EnterPacket.location p) (EnterPacket.name p) →
  (∀ ids, Trace._functionIds t = Some ids →
     ids !! locationToString (EnterPacket.location p) (EnterPacket.name p) = None →
     EnterPacket.name p' = EnterPacket.name p ∧
     stringify (EnterPacket.location p') = stringify (EnterPacket.location p) ∧
     stringify (EnterPacket.parameterNames p')
       = stringify (EnterPacket.parameterNames p)) →
  EnterPacket.time p' = EnterPacket.time p →
  stringify (EnterPacket.arguments p') = stringify (EnterPacket.arguments p) →
  ∃ t2', onEnteredFrame t' p' = Ok t2' ∧ sim t2 t2'.
Proof.
  intros Hs HI' H Hkey Hnewrec Htime Hargs.
  destruct (onEnteredFrame_frames _ _ _ H)
    as (stack & sib & fnew & Hst & Hsib & Hst2 & Hlen2 & Hnew & _ & _ & Hkids
        & _ & _ & Hstart & Hargs0 & Hopen & Hold & Hroots).
  destruct (onEnteredFrame_functions _ _ _ H)
    as (ids & fid & fnew0 & Hids & Hnew0 & Hfid & Hagg & Hfun).
  rewrite Hnew in Hnew0. injection Hnew0 as <-.
  assert (Hst' : Trace._stack t' = Some stack) by (by rewrite (sim_stack _ _ Hs)).
  destruct (onEnteredFrame_total t' p' stack HI' Hst') as (t2' & H').
  exists t2'. split; [done|].
  destruct (onEnteredFrame_frames _ _ _ H')
    as (stack' & sib' & fnew' & Hst1' & Hsib' & Hst2' & Hlen2' & Hnew' & _ & _ & Hkids'
        & _ & _ & Hstart' & Hargs0' & Hopen' & Hold' & Hroots').
  destruct (onEnteredFrame_functions _ _ _ H')
    as (ids' & fid' & fnew0' & Hids' & Hnew0' & Hfid' & Hagg' & Hfun').
  rewrite Hnew' in Hnew0'. injection Hnew0' as <-.
  rewrite Hst' in Hst1'. injection Hst1' as <-.
  rewrite (sim_children_of _ _ _ Hs), Hsib in Hsib'. injection Hsib' as <-.
  rewrite (sim_ids _ _ Hs), Hids in Hids'. injection Hids' as <-.
  pose proof (sim_frames _ _ Hs) as HF. pose proof (sim_functions _ _ Hs) as HG.
  pose proof (Forall2_length _ _ _ HF) as HlenF.
  pose proof (Forall2_length _ _ _ HG) as HlenG.
  rewrite Hkey in Hfun'.
  set (key := locationToString (EnterPacket.location p) (EnterPacket.name p)) in *.
  assert (Hfuns : fid' = fid ∧ Trace._functionIds t2' = Trace._functionIds t2 ∧
                  Forall2 func_sim (Trace.functions t2) (Trace.functions t2')).
  { destruct Hfun as [(g & Hk & Hg & Hids2 & ->)|(Hk & -> & Hids2 & ->)],
             Hfun' as [(g' & Hk' & Hg' & Hids2' & ->)|(Hk' & -> & Hids2' & ->)];
      try congruence.
    - rewrite Hk in Hk'. injection Hk' as <-.
      split; [done|]. split; [congruence|].
      apply Forall2_insert; [done|]. apply func_sim_incr_count.
      destruct (Forall2_lookup_l _ _ _ _ _ HG Hg) as (g0 & Hg0 & Hsim). congruence.
    - split; [done|]. split; [congruence|].
      apply Forall2_app; [done|]. constructor; [|constructor].
      destruct (Hnewrec _ Hids Hk) as (Hn & Hl & Hp). by repeat split. }
  destruct Hfuns as (-> & Hids2 & HG2).
  split.
  - congruence.
  - done.
  - rewrite Hroots, Hroots', HlenF. by rewrite (sim_roots _ _ Hs).
  - apply Forall2_same_length_lookup_2; [lia|].
    intros i f2 f2' Hi Hi'.
    destruct (decide (i = length (Trace.frames t))) as [->|Hne].
    + rewrite Hnew in Hi. rewrite HlenF, Hnew' in Hi'.
      injection Hi as <-. injection Hi' as <-.
      destruct Hopen as (? & ? & ? & ? & ? & ?), Hopen' as (? & ? & ? & ? & ? & ?).
      repeat split; try congruence.
      all: by match goal with
        | H : ?x = None, H' : ?y = None |- ?y ≫= _ = ?x ≫= _ => rewrite H, H'
        end.
    + assert (Hlt : (i < length (Trace.frames t))%nat).
      { apply lookup_lt_Some in Hi. lia. }
      rewrite Hold in Hi by done. rewrite Hold' in Hi' by lia.
      destruct (Trace.frames t !! i) as [f|] eqn:Hf; [|done].
      destruct (Forall2_lookup_l _ _ _ _ _ HF Hf) as (f' & Hf' & Hsim).
      rewrite Hf' in Hi'. simpl in Hi, Hi'. injection Hi as <-. injection Hi' as <-.
      rewrite <- HlenF.
      destruct (decide (_currentFrame stack = RFrame i)), (decide (last sib = Some i));
        simpl; auto using frame_sim_push_child, frame_sim_set_next.
  - done.
Qed.

Lemma defined_bind (v : value) (old : option value) :
  (match defined v with Some x => Some x | None => old end) ≫= stringify
  = match stringify v with Some j => Some j | None => old ≫= stringify end.
Proof. by destruct v as [| | |[|]| | |]. Qed.

Lemma sim_kid_totals (frames frames' : list Frame.t) (children : list nat)
    (kids kids' : list Frame.t) :
  Forall2 frame_sim frames frames' →
  mapM (fun c => frames !! c) children = Some kids →
  mapM (fun c => frames' !! c) children = Some kids' →
  map (fun k => opt_number (Frame.totalTime k)) kids'
  = map (fun k => opt_number (Frame.totalTime k)) kids.
Proof.
  intros HF Hk Hk'. apply mapM_Some in Hk. apply mapM_Some in Hk'.
  revert kids' Hk'. induction Hk as [|c k cs ks Hc _ IH]; intros kids' Hk'.
  - by apply Forall2_nil_inv_l in Hk' as ->.
  - apply Forall2_cons_inv_l in Hk' as (k' & ks' & Hc' & Hks' & ->). simpl.
    destruct (Forall2_lookup_l _ _ _ _ _ HF Hc) as (k0 & Hk0 & Hsim).
    rewrite Hc' in Hk0. injection Hk0 as <-.
    destruct Hsim as (_ & _ & _ & _ & _ & -> & _). f_equal. by apply IH.
Qed.

(** An exit packet of the replay that has the time of the packet of the
    ingestion and its values as written out is handled alike. *)
Lemma sim_exit (t t' t2 : Trace.t) (p p' : ExitPacket.t) (u : nat) (stack : list nat) :
  sim t t' → Inv t' → Trace._stack t = Some (u :: stack) → onExitedFrame t p = Ok t2 →
  ExitPacket.time p' = ExitPacket.time p →
  stringify (ExitPacket.return_ p') = stringify (ExitPacket.return_ p) →
  stringify (ExitPacket.throw p') = stringify (ExitPacket.throw p) →
  stringify (ExitPacket.yield p') = stringify (ExitPacket.yield p) →
  ∃ t2', onExitedFrame t' p' = Ok t2' ∧ sim t2 t2'.
Proof.
  intros Hs HI' Hst H Htime Hret Hthr Hyld.
  assert (Hst' : Trace._stack t' = Some (u :: stack)) by (by rewrite (sim_stack _ _ Hs)).
  destruct (onExitedFrame_total t' p' u stack HI' Hst') as (t2' & H').
  exists t2'. split; [done|].
  destruct (onExitedFrame_pop _ _ _ _ _ Hst H)
    as (f & kids & g & Hf & Hkids & Hg & Hfr & Hfun & Hst2 & Hids2 & Hroots2 & _).
  destruct (onExitedFrame_pop _ _ _ _ _ Hst' H')
    as (f' & kids' & g' & Hf' & Hkids' & Hg' & Hfr' & Hfun' & Hst2' & Hids2' & Hroots2' & _).
  pose proof (sim_frames _ _ Hs) as HF. pose proof (sim_functions _ _ Hs) as HG.
  destruct (Forall2_lookup_l _ _ _ _ _ HF Hf) as (f0 & Hf0 & Hsim).
  rewrite Hf' in Hf0. injection Hf0 as <-.
  pose proof Hsim as (Hc & Hfid & Hagg & Hstart & Hend & Htot & Hself & Hargs & Hr & Ht & Hy).
  rewrite Hc in Hkids'.
  pose proof (sim_kid_totals _ _ _ _ _ HF Hkids Hkids') as Hkt.
  rewrite Hagg in Hg', Hfun'.
  destruct (Forall2_lookup_l _ _ _ _ _ HG Hg) as (g0 & Hg0 & Hgsim).
  rewrite Hg' in Hg0. injection Hg0 as <-.
  destruct Hgsim as (Hcount & Hname & Hloc & Hpar & Hgtot & Hgself).
  split.
  - congruence.
  - rewrite Hids2, Hids2'. apply (sim_ids _ _ Hs).
  - rewrite Hroots2, Hroots2'. apply (sim_roots _ _ Hs).
  - rewrite Hfr, Hfr'. apply Forall2_insert; [done|].
    rewrite Htime, Hstart, Hkt.
    repeat split; simpl; try done.
    all: rewrite !defined_bind, ?Hret, ?Hthr, ?Hyld, ?Hr, ?Ht, ?Hy; done.
  - rewrite Hfun, Hfun'. apply Forall2_insert; [done|].
    rewrite Htime, Hstart, Hkt, Hgtot, Hgself. by repeat split.
Qed.

(** Traces of which one follows the other are written out alike. *)
Lemma sim_frameToJSONObj (frames frames' : list Frame.t) :
  Forall2 frame_sim frames frames' →
  ∀ fuel u, _frameToJSONObj fuel frames' u = _frameToJSONObj fuel frames u.
Proof.
  intros HF. induction fuel as [|fuel IH]; intros u; [done|]. simpl.
  destruct (frames !! u) as [f|] eqn:Hf.
  - destruct (Forall2_lookup_l _ _ _ _ _ HF Hf) as (f' & -> & Hsim). simpl.
    destruct Hsim as (-> & -> & _ & -> & -> & _ & _ & -> & -> & -> & ->).
    assert (Hkids : mapM (_frameToJSONObj fuel frames') (Frame.children f)
                    = mapM (_frameToJSONObj fuel frames) (Frame.children f)).
    { induction (Frame.children f) as [|c cs IHc]; [done|].
      simpl. by rewrite IH, IHc. }
    by rewrite Hkids.
  - apply lookup_ge_None in Hf.
    assert (Hnone : frames' !! u = None).
    { apply lookup_ge_None. by rewrite <- (Forall2_length _ _ _ HF). }
    by rewrite Hnone.
Qed.

Lemma sim_toJSON (t t' : Trace.t) : sim t t' → toJSON t' = toJSON t.
Proof.
  intros Hs. unfold toJSON.
  pose proof (sim_frames _ _ Hs) as HF. pose proof (sim_functions _ _ Hs) as HG.
  rewrite (sim_roots _ _ Hs), <- (Forall2_length _ _ _ HF).
  assert (Hkids : mapM (_frameToJSONObj (length (Trace.frames t)) (Trace.frames t'))
                    (Trace.children t)
                  = mapM (_frameToJSONObj (length (Trace.frames t)) (Trace.frames t))
                      (Trace.children t)).
  { induction (Trace.children t) as [|c cs IHc]; [done|].
    simpl. by rewrite (sim_frameToJSONObj _ _ HF), IHc. }
  rewrite Hkids.
  assert (Hfuns : stringify_function <$> Trace.functions t'
                  = stringify_function <$> Trace.functions t).
  { clear -HG. induction HG as [|g g' gs gs' Hsim _ IH]; [done|].
    rewrite !fmap_cons, IH. f_equal.
    destruct Hsim as (H1 & H2 & H3 & H4 & H5 & H6).
    unfold stringify_function. by rewrite H1, H2, H3, H4, H5, H6. }
  by rewrite Hfuns.
Qed.

(** ** The round trip *)

Lemma handle_static (t t' : Trace.t) (e : event) (i : nat) (g : Function.t) :
  handle t e = Ok t' → Trace.functions t !! i = Some g →
  ∃ g', Trace.functions t' !! i = Some g' ∧ static g' = static g.
Proof.
  intros H Hg. destruct e as [p|p]; simpl in H.
  - destruct (onEnteredFrame_functions _ _ _ H)
      as (ids & fid & fnew & _ & _ & _ & _ & [(g0 & _ & Hg0 & _ & ->)|(_ & _ & _ & ->)]).
    + destruct (decide (i = fid)) as [->|Hne].
      * rewrite list_lookup_insert_eq by (by eapply lookup_lt_Some).
        eexists. split; [done|]. rewrite Hg in Hg0. by injection Hg0 as <-.
      * rewrite list_lookup_insert_ne by done. eauto.
    + rewrite lookup_app_l by (by eapply lookup_lt_Some). eauto.
  - destruct (Trace._stack t) as [[|u stack]|] eqn:Hst.
    + rewrite onExitedFrame_sentinel in H by done.
      unfold finish in H. res_inv H. injection H as <-. simpl. eauto.
    + destruct (onExitedFrame_pop _ _ _ _ _ Hst H)
        as (f & kids & g0 & _ & _ & Hg0 & _ & -> & _).
      destruct (decide (i = Frame.aggregated f)) as [->|Hne].
      * rewrite list_lookup_insert_eq by (by eapply lookup_lt_Some).
        eexists. split; [done|]. rewrite Hg in Hg0. by injection Hg0 as <-.
      * rewrite list_lookup_insert_ne by done. eauto.
    + unfold onExitedFrame in H. by rewrite Hst in H.
Qed.

Lemma run_static (evs : list event) :
  ∀ (t t' : Trace.t) (i : nat) (g : Function.t),
    run t evs = Ok t' → Trace.functions t !! i = Some g →
    ∃ g', Trace.functions t' !! i = Some g' ∧ static g' = static g.
Proof.
  induction evs as [|e evs IH]; intros t t' i g Hrun Hg; simpl in Hrun.
  - injection Hrun as <-. eauto.
  - apply bind_Ok in Hrun as (t1 & H1 & Hrun).
    destruct (handle_static _ _ _ _ _ H1 Hg) as (g1 & Hg1 & Hs1).
    destruct (IH _ _ _ _ Hrun Hg1) as (g' & Hg' & Hs'). exists g'. split; congruence.
Qed.

Lemma handle_finished (t : Trace.t) (e : event) :
  Trace._stack t = None → handle t e = Err TypeError.
Proof.
  intros Hst. destruct e; simpl; unfold onEnteredFrame, onExitedFrame; by rewrite Hst.
Qed.

Lemma run_finished (t t' : Trace.t) (evs : list event) :
  Trace._stack t = None → run t evs = Ok t' → evs = [] ∧ t' = t.
Proof.
  intros Hst. destruct evs as [|e evs]; simpl.
  - by intros [= <-].
  - by rewrite handle_finished.
Qed.

(** The record that an entered frame refers to has the key of the packet,
    and the name, location and parameter names of the packet when the key
    was new. *)
Lemma onEnteredFrame_record (t t' : Trace.t) (p : EnterPacket.t) (fnew : Frame.t) :
  Inv t → onEnteredFrame t p = Ok t' →
  Trace.frames t' !! length (Trace.frames t) = Some fnew →
  ∃ g, Trace.functions t' !! Frame.fid fnew = Some g ∧
       locationToString (Function.location g) (Function.name g)
         = locationToString (EnterPacket.location p) (EnterPacket.name p) ∧
       (∀ ids, Trace._functionIds t = Some ids →
          ids !! locationToString (EnterPacket.location p) (EnterPacket.name p) = None →
          Function.name g = EnterPacket.name p ∧
          Function.location g = EnterPacket.location p ∧
          Function.parameterNames g = EnterPacket.parameterNames p).
Proof.
  intros HI H Hnew.
  destruct (onEnteredFrame_frames _ _ _ H) as (stack & _ & _ & Hst & _).
  destruct (onEnteredFrame_functions _ _ _ H)
    as (ids & fid & fnew0 & Hids & Hnew0 & Hfid & _ & Hfun).
  rewrite Hnew in Hnew0. injection Hnew0 as <-. rewrite Hfid.
  destruct (live_ids _ _ (inv_live _ HI _ Hst)) as (ids0 & Hids0 & Hkey).
  rewrite Hids in Hids0. injection Hids0 as <-.
  destruct Hfun as [(g & Hk & Hg & _ & ->)|(Hk & -> & _ & ->)].
  - rewrite list_lookup_insert_eq by (by eapply lookup_lt_Some).
    eexists. split; [done|]. simpl.
    destruct (Hkey _ _ Hk) as (g0 & Hg0 & Hkg). rewrite Hg in Hg0. injection Hg0 as <-.
    split; [done|]. intros ids' Hids' Hnone. congruence.
  - rewrite lookup_app_r, Nat.sub_diag by lia. simpl.
    eexists. split; [done|]. simpl. split; [done|]. done.
Qed.

(** The replay of the events read back follows the run. *)
Lemma roundtrip_run (F : list Snapshot.func) (evs : list event) :
  ∀ (t1 t1' t2 : Trace.t) (aevs1 : list aevent),
    Inv t1 → Inv t1' → Hist t1 aevs1 → sim t1 t1' →
    run t1 evs = Ok t2 → is_Some (Trace._stack t2) → static_link F t2 →
    ∃ aevs t2', Hist t2 (aevs1 ++ aevs) ∧ replay_all F aevs t1' = Ok t2' ∧
                sim t2 t2' ∧ Inv t2.
Proof.
  induction evs as [|e evs IH]; intros t1 t1' t2 aevs1 HI HI' HH Hs Hrun Hstack HF.
  - simpl in Hrun. injection Hrun as <-. exists [], t1'. rewrite app_nil_r.
    split; [done|]. split; [done|]. by split.
  - simpl in Hrun. apply bind_Ok in Hrun as (tm & Hstep & Hrun).
    assert (HIm : Inv tm) by exact (handle_Inv _ _ _ HI Hstep).
    destruct e as [p|p]; simpl in Hstep.
    + destruct (Hist_enter _ _ _ _ HI HH Hstep) as (fnew & Hnew & HHm).
      destruct (onEnteredFrame_record _ _ _ _ HI Hstep Hnew) as (g & Hg & Hgkey & Hgnew).
      destruct (run_static _ _ _ _ _ Hrun Hg) as (g2 & Hg2 & Hstat).
      destruct (HF _ _ Hg2) as (sf & Hsf & Hname & Hloc & Hpar).
      injection Hstat as Hn2 Hl2 Hp2. rewrite Hn2 in Hname. rewrite Hl2 in Hloc.
      rewrite Hp2 in Hpar.
      destruct (sim_enter t1 t1' tm p
                  (EnterPacket.mk (Snapshot.name sf) (parse_opt (Snapshot.location sf))
                     VUndef (parse_time (stringify_time (EnterPacket.time p)))
                     (parse_opt (Snapshot.parameterNames sf))
                     (parse_opt (stringify (EnterPacket.arguments p)))) Hs HI' Hstep)
        as (tm' & Hstep' & Hsm); simpl.
      * unfold locationToString in *. simpl.
        by rewrite Hname, Hloc, stringify_parse_opt.
      * intros ids Hids Hnone. destruct (Hgnew _ Hids Hnone) as (Hn & Hl & Hp).
        rewrite Hname, Hloc, Hpar, !stringify_parse_opt. by rewrite Hn, Hl, Hp.
      * apply parse_stringify_time.
      * apply stringify_parse_opt.
      * assert (HIm' : Inv tm') by exact (onEnteredFrame_Inv _ _ _ HI' Hstep').
        destruct (IH _ _ _ _ HIm HIm' HHm Hsm Hrun Hstack HF)
          as (aevs & t2' & HH2 & Hrep & Hs2 & HI2).
        exists (aevent_of_enter (Frame.fid fnew) p :: aevs), t2'.
        split; [by rewrite <- app_assoc in HH2|]. split; [|done].
        simpl. rewrite Hsf. simpl. rewrite Hstep'. simpl. exact Hrep.
    + destruct (Trace._stack t1) as [[|u stack]|] eqn:Hst.
      * rewrite onExitedFrame_sentinel in Hstep by done.
        assert (Hnone : Trace._stack tm = None).
        { unfold finish in Hstep. res_inv Hstep. by injection Hstep as <-. }
        destruct (run_finished _ _ _ Hnone Hrun) as [_ ->].
        rewrite Hnone in Hstack. by destruct Hstack.
      * pose proof (Hist_exit _ _ _ _ _ _ HI HH Hst Hstep) as HHm.
        destruct (sim_exit t1 t1' tm p
                    (ExitPacket.mk (parse_time (stringify_time (ExitPacket.time p)))
                       (parse_opt (stringify (ExitPacket.return_ p)))
                       (parse_opt (stringify (ExitPacket.throw p)))
                       (parse_opt (stringify (ExitPacket.yield p)))) u stack
                    Hs HI' Hst Hstep)
          as (tm' & Hstep' & Hsm); simpl;
          [apply parse_stringify_time|apply stringify_parse_opt
          |apply stringify_parse_opt|apply stringify_parse_opt|].
        assert (HIm' : Inv tm') by exact (onExitedFrame_Inv _ _ _ HI' Hstep').
        destruct (IH _ _ _ _ HIm HIm' HHm Hsm Hrun Hstack HF)
          as (aevs & t2' & HH2 & Hrep & Hs2 & HI2).
        exists (aevent_of_exit p :: aevs), t2'.
        split; [by rewrite <- app_assoc in HH2|]. split; [|done].
        simpl. rewrite Hstep'. simpl. exact Hrep.
      * unfold onExitedFrame in Hstep. by rewrite Hst in Hstep.
Qed.

Lemma new_Trace_sim (c c' : option client) (name name' : option string) :
  sim (new_Trace c name) (new_Trace c' name').
Proof. split; simpl; try done; constructor. Qed.

Lemma static_link_self (t : Trace.t) :
  static_link (stringify_function <$> Trace.functions t) t.
Proof.
  intros i g Hg. exists (stringify_function g). split; [|done].
  by rewrite list_lookup_fmap, Hg.
Qed.

Lemma set_finished_toJSON (t : Trace.t) : toJSON (set_finished t) = toJSON t.
Proof. done. Qed.

(** The round trip of a trace whose frames are all closed and that still
    collects. *)
Lemma round_trip_collecting (c : option client) (name : option string)
    (evs : list event) (t : Trace.t) :
  run (new_Trace c name) evs = Ok t → Trace._stack t = Some [] →
  ∃ s t', toJSON t = Some s ∧ parseTrace s = Ok t' ∧ toJSON t' = Some s.
Proof.
  intros Hrun Hst.
  destruct (roundtrip_run (stringify_function <$> Trace.functions t) evs
              (new_Trace c name) (new_Trace None None) t [])
    as (aevs & t2' & HH & Hrep & Hs & HI).
  - apply new_Trace_Inv.
  - apply new_Trace_Inv.
  - apply Hist_new.
  - apply new_Trace_sim.
  - done.
  - by rewrite Hst.
  - apply static_link_self.
  - destruct (Hist_complete _ _ HI HH Hst) as (nodes & HJ & Haevs).
    simpl in Haevs. subst aevs.
    eexists _, (set_finished t2'). split; [exact HJ|]. split.
    + unfold parseTrace. simpl. rewrite enterFrames_replay, Hrep. done.
    + rewrite set_finished_toJSON, (sim_toJSON _ _ Hs). exact HJ.
Qed.

(** A finished trace was finished by an exit at the sentinel. *)
Lemma run_finished_inv (evs : list event) :
  ∀ t0 t, run t0 evs = Ok t → Trace._stack t = None → is_Some (Trace._stack t0) →
    ∃ evs0 tm, run t0 evs0 = Ok tm ∧ Trace._stack tm = Some [] ∧ finish tm = Ok t.
Proof.
  induction evs as [|e evs IH]; intros t0 t Hrun Hnone Hsome; simpl in Hrun.
  - injection Hrun as <-. rewrite Hnone in Hsome. by destruct Hsome.
  - apply bind_Ok in Hrun as (t1 & H1 & Hrun).
    destruct (Trace._stack t1) as [stack1|] eqn:Hst1.
    + destruct (IH _ _ Hrun Hnone) as (evs0 & tm & Hrun0 & Hstm & Hfin); [by rewrite Hst1|].
      exists (e :: evs0), tm. simpl. rewrite H1. simpl. done.
    + destruct (run_finished _ _ _ Hst1 Hrun) as [-> ->].
      exists [], t0. split; [done|].
      destruct e as [p|p]; simpl in H1.
      * destruct (onEnteredFrame_frames _ _ _ H1) as (? & ? & ? & _ & _ & Hst' & _).
        congruence.
      * destruct (Trace._stack t0) as [[|u stack]|] eqn:Hst0.
        -- split; [done|]. by rewrite onExitedFrame_sentinel in H1.
        -- destruct (onExitedFrame_pop _ _ _ _ _ Hst0 H1)
             as (? & ? & ? & _ & _ & _ & _ & _ & Hst' & _).
           congruence.
        -- by destruct Hsome.
Qed.

Lemma finish_toJSON (t t' : Trace.t) : finish t = Ok t' → toJSON t' = toJSON t.
Proof. unfold finish. intros H. res_inv H. by injection H as <-. Qed.

(** C1: for every trace that ingestion built and all of whose frames are
    closed, [toJSON] returns a snapshot, [parseTrace] accepts it, and
    [toJSON] of the trace that [parseTrace] returns is the same snapshot. *)
Theorem snapshot_round_trip (c : option client) (name : option string)
    (evs : list event) (t : Trace.t) :
  run (new_Trace c name) evs = Ok t →
  (∀ f, f ∈ Trace.frames t → is_Some (Frame.endTime f)) →
  ∃ s t', toJSON t = Some s ∧ parseTrace s = Ok t' ∧ toJSON t' = Some s.
Proof.
  intros Hrun Hclosed.
  assert (HI : Inv t).
  { apply reachable_Inv. left. by exists c, name, evs. }
  destruct (Trace._stack t) as [stack|] eqn:Hst.
  - destruct stack as [|u stack]; [by eapply round_trip_collecting|].
    destruct (live_open _ _ (inv_live _ HI _ Hst) u) as (f & Hf & Hopen & _); [by left|].
    destruct (Hclosed f) as [e He]; [by eapply list_elem_of_lookup_2|]. congruence.
  - destruct (run_finished_inv _ _ _ Hrun Hst) as (evs0 & tm & Hrun0 & Hstm & Hfin);
      [by eexists|].
    rewrite (finish_toJSON _ _ Hfin). by eapply round_trip_collecting.
Qed.

Lemma snapshot_round_trip_witness :
  ∃ s t', toJSON scenario_trace = Some s ∧ parseTrace s = Ok t' ∧ toJSON t' = Some s.
Proof.
  apply (snapshot_round_trip (Some []) None scenario scenario_trace).
  - vm_compute. reflexivity.
  - intros f Hf. vm_compute in Hf.
    repeat (apply elem_of_cons in Hf as [->|Hf]; [by eexists|]).
    by apply elem_of_nil in Hf.
Defined.

(** ** The tree of frames *)

(** The frame that [onEnteredFrame] creates, and the record it refers to. *)
Lemma onEnteredFrame_new (t t' : Trace.t) (p : EnterPacket.t) :
  onEnteredFrame t p = Ok t' →
  ∃ stack sib fid g,
    Trace._stack t = Some stack ∧
    children_of t (_currentFrame stack) = Ok sib ∧
    Trace.functions t' !! fid = Some (Function.incr_count g) ∧
    Trace.frames t' !! length (Trace.frames t) =
      Some (Frame.mk (length (Trace.frames t)) (length stack) []
              (Some (_currentFrame stack)) (last sib) None fid fid
              (Function.name g) (Function.location g) (Function.parameterNames g)
              (EnterPacket.time p) (EnterPacket.callsite p) (EnterPacket.arguments p)
              None None None None None None).
Proof.
  unfold onEnteredFrame. intros H. res_inv H. injection H as <-; simpl.
  exists x, x0, x2, x3. split; [done|]. split; [done|]. split.
  { apply list_lookup_insert_eq. by eapply lookup_lt_Some. }
  set (n := length (Trace.frames t)).
  set (frames1 := match last x0 with
                  | Some p0 => alter (Frame.set_next n) p0 (Trace.frames t)
                  | None => Trace.frames t end).
  assert (Hlen1 : length frames1 = n) by apply link_previous_length.
  destruct (_currentFrame x) as [|c] eqn:Ecur.
  - rewrite lookup_app_r by lia. by rewrite Hlen1, Nat.sub_diag.
  - assert (c ≠ n).
    { intros ->. simpl in E0. apply of_option_Ok in E0.
      destruct (Trace.frames t !! n) eqn:En; [|done].
      apply lookup_lt_Some in En. unfold n in En. lia. }
    rewrite list_lookup_alter_ne by done.
    rewrite lookup_app_r by lia. by rewrite Hlen1, Nat.sub_diag.
Qed.

Lemma onEnteredFrame_client (t t' : Trace.t) (p : EnterPacket.t) :
  onEnteredFrame t p = Ok t' →
  Trace._client t' = Trace._client t ∧ Trace.finished t' = Trace.finished t ∧
  Trace.name t' = Trace.name t.
Proof. unfold onEnteredFrame. intros H. res_inv H. by injection H as <-. Qed.

(** A frame that existed before [onEnteredFrame], afterwards. *)
Lemma onEnteredFrame_old (t t' : Trace.t) (p : EnterPacket.t) (stack : list nat)
    (sib : list nat) (u : nat) (f : Frame.t) :
  onEnteredFrame t p = Ok t' → Trace._stack t = Some stack →
  children_of t (_currentFrame stack) = Ok sib →
  Trace.frames t !! u = Some f →
  ∃ f', Trace.frames t' !! u = Some f' ∧ scalars f' = scalars f ∧
        Frame.children f' =
          (if decide (_currentFrame stack = RFrame u)
           then Frame.children f ++ [length (Trace.frames t)] else Frame.children f) ∧
        Frame.next f' =
          (if decide (last sib = Some u) then Some (length (Trace.frames t))
           else Frame.next f).
Proof.
  intros H Hst Hsib Hf.
  destruct (onEnteredFrame_frames _ _ _ H)
    as (stack0 & sib0 & fnew & Hst0 & Hsib0 & _ & _ & _ & _ & _ & _ & _ & _ & _ & _ & _
        & Hold & _).
  rewrite Hst in Hst0. injection Hst0 as <-.
  rewrite Hsib in Hsib0. injection Hsib0 as <-.
  rewrite (Hold u) by (by eapply lookup_lt_Some). rewrite Hf. simpl.
  eexists. split; [done|].
  destruct (decide (_currentFrame stack = RFrame u)),
           (decide (last sib = Some u)); done.
Qed.

Lemma family_ext (frames frames' : list Frame.t) (r : ref) (d : nat) (kids : list nat) :
  (∀ c fc, c ∈ kids → frames !! c = Some fc →
     ∃ fc', frames' !! c = Some fc' ∧ Frame.older fc' = Frame.older fc ∧
            Frame.depth fc' = Frame.depth fc ∧
            Frame.previous fc' = Frame.previous fc ∧ Frame.next fc' = Frame.next fc) →
  family frames r d kids → family frames' r d kids.
Proof.
  intros Hext [Hasc Hfam]. split; [exact Hasc|]. intros i c Hi.
  destruct (Hfam i c Hi) as (fc & Hfc & Ho & Hd & Hp & Hn).
  destruct (Hext c fc) as (fc' & Hfc' & Ho' & Hd' & Hp' & Hn');
    [by eapply list_elem_of_lookup_2|done|].
  exists fc'. repeat split; congruence.
Qed.

Lemma chain_ext (frames frames' : list Frame.t) (stack : list nat) :
  (∀ c fc, c ∈ stack → frames !! c = Some fc →
     ∃ fc', frames' !! c = Some fc' ∧ Frame.older fc' = Frame.older fc ∧
            Frame.depth fc' = Frame.depth fc) →
  chain frames stack → chain frames' stack.
Proof.
  induction stack as [|u rest IH]; simpl; [done|].
  intros Hext [(f & Hf & Ho & Hd) Hrest]. split.
  - destruct (Hext u f) as (f' & Hf' & Ho' & Hd'); [by left|done|].
    exists f'. repeat split; congruence.
  - apply IH; [|done]. intros c fc Hc. apply Hext. by right.
Qed.

Lemma ascending_uids_index (l : list nat) (i a : nat) :
  ascending_uids l → l !! i = Some a → (i ≤ a)%nat.
Proof.
  intros Hasc. revert a. induction i as [|i IH]; intros a Ha; [lia|].
  assert (Hb : is_Some (l !! i)) by (apply lookup_lt_is_Some; apply lookup_lt_Some in Ha; lia).
  destruct Hb as [b Hb]. pose proof (IH b Hb).
  pose proof (Hasc i (S i) b a ltac:(lia) Hb Ha). lia.
Qed.

Lemma ascending_uids_NoDup (l : list nat) (i j : nat) (a : nat) :
  ascending_uids l → l !! i = Some a → l !! j = Some a → i = j.
Proof.
  intros Hasc Hi Hj. destruct (Nat.lt_trichotomy i j) as [Hlt|[->|Hgt]]; [|done|].
  - specialize (Hasc _ _ _ _ Hlt Hi Hj). lia.
  - specialize (Hasc _ _ _ _ Hgt Hj Hi). lia.
Qed.

Lemma ascending_uids_snoc (l : list nat) (n : nat) :
  ascending_uids l → Forall (fun c => c < n)%nat l → ascending_uids (l ++ [n]).
Proof.
  intros Hasc Hlt i j a b Hij Hi Hj.
  apply lookup_app_Some in Hj as [Hj|[Hlen Hj]].
  - rewrite lookup_app_l in Hi by (apply lookup_lt_Some in Hj; lia).
    by eapply Hasc.
  - apply list_lookup_singleton_Some in Hj as [Hz <-].
    rewrite lookup_app_l in Hi by lia.
    rewrite Forall_forall in Hlt. apply Hlt. by eapply list_elem_of_lookup_2.
Qed.

(** The child list of [r] after [onEnteredFrame]. *)
Lemma family_enter (t t' : Trace.t) (p : EnterPacket.t) (stack sib : list nat)
    (r : ref) (d : nat) (kids : list nat) :
  Tree t → onEnteredFrame t p = Ok t' → Trace._stack t = Some stack →
  children_of t (_currentFrame stack) = Ok sib →
  children_at (Trace.children t) (Trace.frames t) r = Some kids →
  Forall (fun c => c < length (Trace.frames t))%nat kids →
  (r = _currentFrame stack → d = length stack) →
  family (Trace.frames t) r d kids →
  family (Trace.frames t') r d
    (if decide (r = _currentFrame stack) then kids ++ [length (Trace.frames t)]
     else kids).
Proof.
  intros HT H Hst Hsib Hkids Hlt Hd [Hasc Hfam].
  set (n := length (Trace.frames t)) in *.
  destruct (onEnteredFrame_new _ _ _ H) as (stack0 & sib0 & fid & g & Hst0 & Hsib0 & _ & Hnew).
  rewrite Hst in Hst0. injection Hst0 as <-.
  rewrite Hsib in Hsib0. injection Hsib0 as <-.
  fold n in Hnew.
  assert (Hsibfam : ∃ dc, family (Trace.frames t) (_currentFrame stack) dc sib).
  { destruct (_currentFrame stack) as [|u0]; simpl in Hsib.
    - injection Hsib as <-. eexists. apply (tree_roots _ HT).
    - apply of_option_Ok in Hsib.
      destruct (Trace.frames t !! u0) as [f0|] eqn:Hf0; [|done].
      injection Hsib as <-. eexists. by apply (tree_kids _ HT). }
  destruct Hsibfam as (dc & Hascs & Hsibfam).
  destruct (decide (r = _currentFrame stack)) as [->|Hne].
  - assert (kids = sib) as ->.
    { destruct (_currentFrame stack) as [|u0]; simpl in *; [congruence|].
      apply of_option_Ok in Hsib. congruence. }
    split; [by apply ascending_uids_snoc|].
    intros i c Hi. apply lookup_app_Some in Hi as [Hi|[Hlen Hi]].
    + destruct (Hfam i c Hi) as (fc & Hfc & Ho & Hdep & Hp & Hn).
      destruct (onEnteredFrame_old _ _ _ _ _ _ _ H Hst Hsib Hfc)
        as (fc' & Hfc' & Hs & _ & Hn').
      apply scalars_inv in Hs. destruct_and!.
      exists fc'. split; [done|]. split; [congruence|]. split; [congruence|]. split.
      * destruct i as [|i']; [congruence|].
        rewrite lookup_app_l by (apply lookup_lt_Some in Hi; lia). congruence.
      * rewrite Hn'. destruct (decide (last sib = Some c)) as [Hlast|Hnlast].
        -- rewrite last_lookup in Hlast.
           pose proof (ascending_uids_NoDup _ _ _ _ Hasc Hi Hlast) as ->.
           apply lookup_lt_Some in Hi.
           rewrite lookup_app_r by lia.
           replace (S (pred (length sib)) - length sib)%nat with 0%nat by lia. done.
        -- rewrite Hn. destruct (decide (S i < length sib)%nat) as [Hin|Hout].
           ++ by rewrite lookup_app_l.
           ++ exfalso. apply Hnlast. rewrite last_lookup.
              apply lookup_lt_Some in Hi as Hi'.
              replace (pred (length sib)) with i by lia. done.
    + apply list_lookup_singleton_Some in Hi as [Hz <-].
      eexists. split; [exact Hnew|]. simpl. split; [done|]. split; [by rewrite Hd|].
      split.
      * rewrite last_lookup. destruct i as [|i'].
        -- assert (length sib = 0)%nat as Hl by lia. rewrite Hl. simpl.
           apply lookup_ge_None. lia.
        -- rewrite lookup_app_l by lia. f_equal. lia.
      * symmetry. apply lookup_ge_None. rewrite length_app. simpl. lia.
  - split; [done|]. intros i c Hi.
    destruct (Hfam i c Hi) as (fc & Hfc & Ho & Hdep & Hp & Hn).
    destruct (onEnteredFrame_old _ _ _ _ _ _ _ H Hst Hsib Hfc)
      as (fc' & Hfc' & Hs & _ & Hn').
    apply scalars_inv in Hs. destruct_and!.
    exists fc'. split; [done|]. split; [congruence|]. split; [congruence|].
    split; [congruence|]. rewrite Hn'.
    rewrite decide_False; [done|]. intros Hlast. rewrite last_lookup in Hlast.
    destruct (Hsibfam _ _ Hlast) as (fc0 & Hfc0 & Ho0 & _). congruence.
Qed.

Lemma onEnteredFrame_maxDepth (t t' : Trace.t) (p : EnterPacket.t) (stack : list nat) :
  onEnteredFrame t p = Ok t' → Trace._stack t = Some stack →
  Trace.maxDepth t' = Nat.max (Trace.maxDepth t) (length stack).
Proof.
  unfold onEnteredFrame. intros H Hst. rewrite Hst in H. simpl in H.
  res_inv H. injection H as <-; simpl.
  destruct (decide (Trace.maxDepth t < length stack)%nat); lia.
Qed.

Lemma onEnteredFrame_depths (t t' : Trace.t) (p : EnterPacket.t) (stack : list nat) :
  onEnteredFrame t p = Ok t' → Trace._stack t = Some stack →
  Frame.depth <$> Trace.frames t' = (Frame.depth <$> Trace.frames t) ++ [length stack].
Proof.
  intros H Hst.
  destruct (onEnteredFrame_frames _ _ _ H)
    as (stack0 & sib & fnew & Hst0 & _ & _ & Hlen & Hnew & _ & Hdepth & _ & _ & _ & _ & _ & _
        & Hold & _).
  rewrite Hst in Hst0. injection Hst0 as <-.
  apply list_eq. intros i. rewrite list_lookup_fmap.
  destruct (Nat.lt_trichotomy i (length (Trace.frames t))) as [Hlt|[->|Hgt]].
  - rewrite lookup_app_l by (by rewrite length_fmap).
    rewrite list_lookup_fmap, (Hold i Hlt).
    destruct (Trace.frames t !! i) as [f|]; simpl; [|done].
    by destruct (decide (_currentFrame stack = RFrame i)), (decide (last sib = Some i)).
  - rewrite Hnew. simpl. rewrite lookup_app_r by (by rewrite length_fmap).
    by rewrite length_fmap, Nat.sub_diag, Hdepth.
  - rewrite (lookup_ge_None_2 (Trace.frames t')) by lia. simpl. symmetry.
    apply lookup_ge_None. rewrite length_app, length_fmap. simpl. lia.
Qed.

Lemma foldr_max_snoc (l : list nat) (d : nat) :
  foldr Nat.max 0%nat (l ++ [d]) = Nat.max (foldr Nat.max 0%nat l) d.
Proof. induction l as [|x l IH]; simpl; [lia|]. rewrite IH. lia. Qed.

Lemma onEnteredFrame_Tree (t t' : Trace.t) (p : EnterPacket.t) :
  Inv t → Tree t → onEnteredFrame t p = Ok t' → Tree t'.
Proof.
  intros HI HT H.
  destruct (onEnteredFrame_new _ _ _ H) as (stack & sib & fid & g & Hst & Hsib & _ & Hnew).
  destruct (onEnteredFrame_frames _ _ _ H)
    as (stack0 & sib0 & fnew & Hst0 & _ & Hst' & Hlen & _ & _ & _ & _ & _ & _ & _ & _ & _
        & _ & Hroots).
  rewrite Hst in Hst0. injection Hst0 as <-.
  set (n := length (Trace.frames t)) in *.
  pose proof (tree_stack _ HT _ Hst) as Hchain.
  assert (Hcurdepth : ∀ u0 f0, _currentFrame stack = RFrame u0 →
            Trace.frames t !! u0 = Some f0 → S (Frame.depth f0) = length stack).
  { destruct stack as [|u1 rest]; [done|]. intros u0 f0 [= <-] Hf0.
    destruct Hchain as [(f & Hf & _ & Hd) _]. rewrite Hf in Hf0. injection Hf0 as <-.
    simpl. lia. }
  assert (Hold : ∀ u f, Trace.frames t !! u = Some f →
            ∃ f', Trace.frames t' !! u = Some f' ∧ scalars f' = scalars f).
  { intros u f Hf. by eapply onEnteredFrame_old_frame_rev. }
  assert (Hcases : ∀ u f', Trace.frames t' !! u = Some f' →
            (u = n ∧ Trace.frames t' !! n = Some f') ∨
            ((u < n)%nat ∧ ∃ f, Trace.frames t !! u = Some f ∧ scalars f' = scalars f ∧
               Frame.children f' =
                 if decide (_currentFrame stack = RFrame u)
                 then Frame.children f ++ [n] else Frame.children f)).
  { intros u f' Hu. destruct (decide (u = n)) as [->|Hne].
    - left. done.
    - right. assert (u < n)%nat.
      { apply lookup_lt_Some in Hu. lia. }
      split; [done|]. by eapply onEnteredFrame_old_frame. }
  split.
  - (* roots *)
    pose proof (family_enter t t' p stack sib RTrace 0%nat (Trace.children t)
                  HT H Hst Hsib eq_refl (inv_roots _ HI)) as Hfam.
    rewrite Hroots. destruct (_currentFrame stack) as [|u0] eqn:Ecur.
    + rewrite decide_True in Hfam by done. apply Hfam; [|apply (tree_roots _ HT)].
      intros _. by destruct stack.
    + rewrite decide_False in Hfam by done. apply Hfam; [done|apply (tree_roots _ HT)].
  - (* children *)
    intros u f' Hu.
    destruct (Hcases _ _ Hu) as [[-> Hn]|(Hlt & f & Hf & Hs & Hc)].
    + rewrite Hnew in Hn. injection Hn as <-. simpl. split.
      * intros i j a b _ Hi. by rewrite lookup_nil in Hi.
      * intros i c Hi. by rewrite lookup_nil in Hi.
    + apply scalars_inv in Hs. destruct_and!.
      assert (Hfam : family (Trace.frames t') (RFrame u) (S (Frame.depth f))
                (if decide (RFrame u = _currentFrame stack)
                 then Frame.children f ++ [n] else Frame.children f)).
      { apply (family_enter t t' p stack sib); try done.
        - simpl. by rewrite Hf.
        - eapply Forall_impl; [apply (inv_children _ HI _ _ Hf)|]. simpl. intros; lia.
        - intros Hcur. symmetry in Hcur. by apply (Hcurdepth u f).
        - by apply (tree_kids _ HT). }
      rewrite Hc. replace (Frame.depth f') with (Frame.depth f) by done.
      destruct (decide (_currentFrame stack = RFrame u)) as [Heq|Hne].
      * by rewrite decide_True in Hfam.
      * rewrite decide_False in Hfam; [done|congruence].
  - (* parent *)
    intros c fc' Hc.
    destruct (Hcases _ _ Hc) as [[-> Hn]|(Hlt & fc & Hfc & Hs & _)].
    + rewrite Hnew in Hn. injection Hn as <-. simpl.
      exists (_currentFrame stack), (sib ++ [n]). split; [done|].
      split; [|apply elem_of_app; right; by left].
      assert (Hat : children_at (Trace.children t) (Trace.frames t) (_currentFrame stack)
                    = Some sib).
      { destruct (_currentFrame stack) as [|u0]; simpl in *; [congruence|].
        by apply of_option_Ok in Hsib. }
      rewrite (children_at_enter _ _ _ _ _ _ H Hst Hat). by rewrite decide_True.
    + apply scalars_inv in Hs. destruct_and!.
      destruct (tree_parent _ HT _ _ Hfc) as (r & kids & Ho & Hat & Hin).
      exists r. eexists. split; [congruence|].
      rewrite (children_at_enter _ _ _ _ _ _ H Hst Hat). split; [done|].
      destruct (decide (r = _currentFrame stack)); [|done].
      apply elem_of_app. by left.
  - (* stack *)
    intros stack1 Hstack1. rewrite Hst' in Hstack1. injection Hstack1 as <-.
    simpl. split.
    + eexists. split; [exact Hnew|]. done.
    + eapply chain_ext; [|exact Hchain]. intros c fc _ Hfc.
      destruct (Hold _ _ Hfc) as (fc' & Hfc' & Hs). apply scalars_inv in Hs.
      destruct_and!. eauto.
  - (* depth *)
    rewrite (onEnteredFrame_maxDepth _ _ _ _ H Hst), (onEnteredFrame_depths _ _ _ _ H Hst).
    by rewrite foldr_max_snoc, (tree_depth _ HT).
Qed.

Lemma Tree_ext (t t' : Trace.t) :
  Trace.children t' = Trace.children t →
  Trace.maxDepth t' = Trace.maxDepth t →
  Forall2 (fun f f' => links f' = links f) (Trace.frames t) (Trace.frames t') →
  (∀ stack', Trace._stack t' = Some stack' →
     ∃ stack, Trace._stack t = Some stack ∧ stack' `suffix_of` stack) →
  Tree t → Tree t'.
Proof.
  intros Hroots Hmax Hfr Hstack HT.
  assert (Hfw : ∀ c fc, Trace.frames t !! c = Some fc →
            ∃ fc', Trace.frames t' !! c = Some fc' ∧ links fc' = links fc).
  { intros c fc Hfc. destruct (Forall2_lookup_l _ _ _ _ _ Hfr Hfc) as (fc' & ? & ?). eauto. }
  assert (Hbw : ∀ c fc', Trace.frames t' !! c = Some fc' →
            ∃ fc, Trace.frames t !! c = Some fc ∧ links fc' = links fc).
  { intros c fc' Hfc. destruct (Forall2_lookup_r _ _ _ _ _ Hfr Hfc) as (fc & ? & ?). eauto. }
  assert (Hfam : ∀ r d kids, family (Trace.frames t) r d kids →
                             family (Trace.frames t') r d kids).
  { intros r d kids. apply family_ext. intros c fc _ Hfc.
    destruct (Hfw _ _ Hfc) as (fc' & Hfc' & [= ? ? ? ? ?]). eauto 10. }
  assert (Hat : ∀ r, children_at (Trace.children t') (Trace.frames t') r
                     = children_at (Trace.children t) (Trace.frames t) r).
  { intros [|u]; simpl; [by rewrite Hroots|].
    destruct (Trace.frames t !! u) as [f|] eqn:Hf.
    - destruct (Hfw _ _ Hf) as (f' & -> & [= ? ? ? ? ?]). simpl. congruence.
    - destruct (Trace.frames t' !! u) as [f'|] eqn:Hf'; [|done].
      destruct (Hbw _ _ Hf') as (f & Hf0 & _). congruence. }
  split.
  - rewrite Hroots. apply Hfam, (tree_roots _ HT).
  - intros u f' Hf'. destruct (Hbw _ _ Hf') as (f & Hf & [= Hd Hc ? ? ?]).
    rewrite Hd, Hc. apply Hfam. by apply (tree_kids _ HT).
  - intros c fc' Hfc'. destruct (Hbw _ _ Hfc') as (fc & Hfc & [= ? ? Ho ? ?]).
    destruct (tree_parent _ HT _ _ Hfc) as (r & kids & Hor & Hkids & Hin).
    exists r, kids. rewrite Hat. split; [congruence|done].
  - intros stack' Hst'. destruct (Hstack _ Hst') as (stack & Hst & [pre ->]).
    pose proof (tree_stack _ HT _ Hst) as Hchain.
    assert (Hsuf : chain (Trace.frames t) stack').
    { clear -Hchain. induction pre as [|x pre IH]; simpl in *; [done|].
      apply IH. by destruct Hchain. }
    eapply chain_ext; [|exact Hsuf]. intros c fc _ Hfc.
    destruct (Hfw _ _ Hfc) as (fc' & Hfc' & [= ? ? ? ? ?]). eauto.
  - rewrite Hmax, (tree_depth _ HT). f_equal.
    apply list_eq. intros i. rewrite !list_lookup_fmap.
    destruct (Trace.frames t !! i) as [f|] eqn:Hf.
    + destruct (Hfw _ _ Hf) as (f' & -> & [= ? ? ? ? ?]). simpl. congruence.
    + destruct (Trace.frames t' !! i) as [f'|] eqn:Hf'; [|done].
      destruct (Hbw _ _ Hf') as (f & Hf0 & _). congruence.
Qed.

Lemma Forall2_same {A : Type} (R : A → A → Prop) (l : list A) :
  (∀ x, R x x) → Forall2 R l l.
Proof. intros HR. induction l; constructor; auto. Qed.

Lemma Forall2_insert_same {A : Type} (R : A → A → Prop) (l : list A) (i : nat) (x y : A) :
  (∀ x, R x x) → l !! i = Some x → R x y → Forall2 R l (<[i := y]> l).
Proof.
  intros HR. revert i. induction l as [|a l IH]; intros i Hi Hxy; [done|].
  destruct i as [|i]; simpl in *.
  - injection Hi as ->. constructor; [done|by apply Forall2_same].
  - constructor; [done|by apply IH].
Qed.

Lemma onExitedFrame_Tree (t t' : Trace.t) (p : ExitPacket.t) :
  Tree t → onExitedFrame t p = Ok t' → Tree t'.
Proof.
  intros HT H.
  destruct (Trace._stack t) as [[|u stack']|] eqn:Hst.
  - rewrite onExitedFrame_sentinel in H by done.
    unfold finish in H. res_inv H. injection H as <-.
    eapply Tree_ext; [| | | |exact HT]; simpl; try done.
    by apply Forall2_same.
  - destruct (onExitedFrame_pop _ _ _ _ _ Hst H)
      as (f & kids & g & Hf & _ & _ & Hfr & _ & Hst' & _ & Hroots & _).
    assert (Hmax : Trace.maxDepth t' = Trace.maxDepth t).
    { revert H. unfold onExitedFrame. rewrite Hst. simpl. intros H. res_inv H.
      by injection H as <-. }
    eapply Tree_ext; [exact Hroots|exact Hmax| | |exact HT].
    + rewrite Hfr. by eapply Forall2_insert_same.
    + intros s Hs. rewrite Hst' in Hs. injection Hs as <-.
      exists (u :: stack'). split; [done|]. by exists [u].
  - unfold onExitedFrame in H. by rewrite Hst in H.
Qed.

Lemma reachable_Tree (t : Trace.t) : reachable t → Inv t ∧ Tree t.
Proof.
  revert t. apply (reachable_invariant (fun t => Inv t ∧ Tree t)).
  - intros c name. split; [apply new_Trace_Inv|]. split; simpl.
    + split; [intros i j a b _ Hi; by rewrite lookup_nil in Hi|].
      intros i c0 Hi. by rewrite lookup_nil in Hi.
    + intros u f Hu. by rewrite lookup_nil in Hu.
    + intros u f Hu. by rewrite lookup_nil in Hu.
    + by intros stack [= <-].
    + done.
  - intros t1 e t2 [HI HT] H. split; [by eapply handle_Inv|].
    destruct e as [p|p]; simpl in H.
    + by eapply onEnteredFrame_Tree.
    + by eapply onExitedFrame_Tree.
  - intros t1 [HI HT]. split; [by apply set_finished_Inv|].
    eapply Tree_ext; [| | | |exact HT]; simpl; try done.
    + by apply Forall2_same.
    + intros s Hs. exists s. done.
Qed.

(** ** The table of functions *)

Lemma onEnteredFrame_snoc (t t' : Trace.t) (p : EnterPacket.t) :
  onEnteredFrame t p = Ok t' →
  ∃ old fnew, Trace.frames t' = old ++ [fnew] ∧
              Trace.frames t' !! length (Trace.frames t) = Some fnew ∧
              Forall2 (fun f f' => scalars f' = scalars f) (Trace.frames t) old.
Proof.
  intros H.
  destruct (onEnteredFrame_frames _ _ _ H)
    as (stack & sib & fnew & Hst & _ & _ & Hlen & Hnew & _).
  exists (take (length (Trace.frames t)) (Trace.frames t')), fnew.
  split; [|split; [done|]].
  - rewrite <- (take_drop (length (Trace.frames t)) (Trace.frames t')) at 1. f_equal.
    apply list_eq. intros [|i].
    + by rewrite lookup_drop, Nat.add_0_r, Hnew.
    + rewrite lookup_drop. simpl. apply lookup_ge_None. lia.
  - apply Forall2_same_length_lookup. split.
    + rewrite length_take. lia.
    + intros i f f' Hf Hf'. rewrite lookup_take_Some in Hf'. destruct Hf' as [Hf' Hi].
      destruct (onEnteredFrame_old_frame_rev _ _ _ _ _ H Hf) as (f0 & Hf0 & Hs).
      congruence.
Qed.

Lemma filter_fmap_Forall2 {A B : Type} (P : A → Prop) `{∀ x, Decision (P x)}
    (w : A → B) (l l' : list A) :
  Forall2 (fun x y => (P x ↔ P y) ∧ w x = w y) l l' →
  w <$> filter P l = w <$> filter P l'.
Proof.
  induction 1 as [|x y l l' [HP Hw] _ IH]; [done|].
  rewrite !filter_cons. destruct (decide (P x)), (decide (P y)); try tauto.
  rewrite !fmap_cons. by rewrite Hw, IH.
Qed.

Lemma filter_length_Forall2 {A : Type} (P : A → Prop) `{∀ x, Decision (P x)}
    (l l' : list A) :
  Forall2 (fun x y => P x ↔ P y) l l' → length (filter P l) = length (filter P l').
Proof.
  intros HF.
  assert (E := filter_fmap_Forall2 P (fun _ => tt) l l').
  rewrite <- (length_fmap (fun _ => tt) (filter P l)), E, length_fmap; [done|].
  eapply Forall2_impl; [exact HF|]. done.
Qed.

Lemma filter_none {A : Type} (P : A → Prop) `{∀ x, Decision (P x)} (l : list A) :
  Forall (fun x => ¬ P x) l → filter P l = [].
Proof.
  induction 1 as [|x l Hx _ IH]; [done|]. rewrite filter_cons.
  by rewrite decide_False.
Qed.

Lemma num_add_comm (a b : num) : num_add a b = num_add b a.
Proof. destruct a, b; simpl; try done. f_equal. lia. Qed.

Lemma num_add_assoc (a b c : num) : num_add a (num_add b c) = num_add (num_add a b) c.
Proof. destruct a, b, c; simpl; try done. f_equal. lia. Qed.

Lemma num_sum_middle (l1 l2 : list num) (x : num) :
  num_sum (l1 ++ x :: l2) = num_add (num_sum (l1 ++ l2)) x.
Proof.
  unfold num_sum. induction l1 as [|y l1 IH]; simpl.
  - apply num_add_comm.
  - rewrite IH. apply num_add_assoc.
Qed.

Lemma sum_of_default (l : list num) : default (Num 0) (sum_of l) = num_sum l.
Proof. by destruct l. Qed.

Lemma sum_of_middle (l1 l2 : list num) (x : num) :
  sum_of (l1 ++ x :: l2) = Some (num_add (num_sum (l1 ++ l2)) x).
Proof.
  rewrite <- num_sum_middle. by destruct l1.
Qed.

Lemma scalars_names (f f' : Frame.t) :
  scalars f' = scalars f →
  Frame.name f' = Frame.name f ∧ Frame.location f' = Frame.location f ∧
  Frame.parameterNames f' = Frame.parameterNames f ∧ Frame.callsite f' = Frame.callsite f.
Proof. unfold scalars. intros [= ]. repeat split; done. Qed.

Lemma static_key (g g' : Function.t) : static g' = static g → key_of g' = key_of g.
Proof. unfold static, key_of. by intros [= -> -> _]. Qed.

Lemma onEnteredFrame_Table (t t' : Trace.t) (p : EnterPacket.t) :
  Inv t → Table t → onEnteredFrame t p = Ok t' → Table t'.
Proof.
  intros HI HTb H.
  destruct (onEnteredFrame_snoc _ _ _ H) as (old & fnew & Hfr & Hnew & Hold).
  destruct (onEnteredFrame_new _ _ _ H) as (stack & sib & fid0 & g0 & Hst & _ & Hg0 & Hnew0).
  destruct (onEnteredFrame_functions _ _ _ H)
    as (ids & fid & fnew1 & Hids & Hnew1 & Hfid & _ & Hfun).
  rewrite Hnew in Hnew1. injection Hnew1 as <-.
  assert (fid0 = fid) as ->.
  { rewrite Hnew in Hnew0. injection Hnew0 as ->. done. }
  assert (Hopen : Frame.endTime fnew = None).
  { rewrite Hnew in Hnew0. injection Hnew0 as ->. done. }
  assert (Hcalls : ∀ i, length (calls i (Trace.frames t')) =
            (length (calls i (Trace.frames t)) + if decide (fid = i) then 1 else 0)%nat).
  { intros i. unfold calls. rewrite Hfr, filter_app, length_app. f_equal.
    - symmetry. apply filter_length_Forall2. eapply Forall2_impl; [exact Hold|].
      simpl. intros f f' Hs. apply scalars_inv in Hs. destruct_and!. split; congruence.
    - rewrite filter_cons, filter_nil, Hfid. by destruct (decide (fid = i)). }
  assert (Hexited : ∀ i, total_of <$> exited_calls i (Trace.frames t')
                         = total_of <$> exited_calls i (Trace.frames t) ∧
                         self_of <$> exited_calls i (Trace.frames t')
                         = self_of <$> exited_calls i (Trace.frames t)).
  { intros i. unfold exited_calls. rewrite Hfr, filter_app.
    rewrite (filter_cons _ fnew), filter_nil, Hopen.
    rewrite decide_False by (intros [_ [? ?]]; done). rewrite app_nil_r.
    split; symmetry; apply filter_fmap_Forall2.
    all: eapply Forall2_impl; [exact Hold|].
    all: simpl; intros f f' Hs; apply scalars_inv in Hs; destruct_and!.
    all: unfold total_of, self_of.
    all: split; [split; intros [? ?]; split; congruence|congruence]. }
  assert (Hkeep : ∀ i g, Trace.functions t !! i = Some g →
            ∃ g', Trace.functions t' !! i = Some g' ∧ static g' = static g).
  { intros i g Hg. by apply (handle_static t t' (Entered p)). }
  pose proof (inv_live _ HI _ Hst) as HL.
  destruct (live_ids _ _ HL) as (ids0 & Hids0 & Hkey).
  rewrite Hids in Hids0. injection Hids0 as <-.
  assert (Hframe : ∀ u f, Trace.frames t' !! u = Some f →
     ∃ g, Trace.functions t' !! Frame.fid f = Some g ∧
          Frame.name f = Function.name g ∧ Frame.location f = Function.location g ∧
          Frame.parameterNames f = Function.parameterNames g).
  { intros u f' Hf'. destruct (decide (u = length (Trace.frames t))) as [->|Hne].
    - rewrite Hnew0 in Hf'. injection Hf' as <-. simpl. eexists. split; [exact Hg0|]. done.
    - assert (Hu : (u < length (Trace.frames t))%nat).
      { apply lookup_lt_Some in Hf'. rewrite Hfr, length_app in Hf'. simpl in Hf'.
        rewrite <- (Forall2_length _ _ _ Hold) in Hf'. lia. }
      destruct (onEnteredFrame_old_frame _ _ _ stack u f' H Hst Hu Hf') as (f & Hf & Hs & _).
      pose proof (scalars_names _ _ Hs) as (Hn0 & Hl0 & Hp0 & _).
      apply scalars_inv in Hs. destruct_and!.
      destruct (table_frame _ HTb _ _ Hf) as (g & Hg & Hn & Hl & Hp).
      destruct (Hkeep _ _ Hg) as (g' & Hg' & [= Hn' Hl' Hp']).
      exists g'. split; [congruence|]. split; [congruence|]. split; congruence. }
  destruct Hfun as [(g & Hk & Hg & Hids' & Hfuns)|(Hk & -> & Hids' & Hfuns)].
  - (* the key is known *)
    assert (Hback : ∀ i g', Trace.functions t' !! i = Some g' →
              ∃ g1, Trace.functions t !! i = Some g1 ∧ static g' = static g1 ∧
                    Function.totalTime g' = Function.totalTime g1 ∧
                    Function.selfTime g' = Function.selfTime g1 ∧
                    Function.count g' =
                      (Function.count g1 + if decide (fid = i) then 1 else 0)%nat).
    { intros i g' Hg'. rewrite Hfuns in Hg'.
      apply list_lookup_insert_Some in Hg' as [(-> & <- & _)|[Hne Hg']].
      - exists g. rewrite decide_True by done. simpl. repeat split; [done|lia].
      - exists g'. rewrite decide_False by done. repeat split; [done|lia]. }
    split.
    + intros i g' Hg'. destruct (Hback _ _ Hg') as (g1 & Hg1 & _ & _ & _ & ->).
      rewrite Hcalls. destruct (table_count _ HTb _ _ Hg1) as [-> ?]. split; lia.
    + exact Hframe.
    + intros i j gi gj Hi Hj Hkeys.
      destruct (Hback _ _ Hi) as (gi1 & Hgi1 & Hsi & _).
      destruct (Hback _ _ Hj) as (gj1 & Hgj1 & Hsj & _).
      apply (table_keys _ HTb i j gi1 gj1); [done|done|].
      by rewrite <- (static_key _ _ Hsi), <- (static_key _ _ Hsj).
    + intros ids1 Hids1 i g' Hg'. rewrite Hids' in Hids1. injection Hids1 as <-.
      destruct (Hback _ _ Hg') as (g1 & Hg1 & Hs & _).
      rewrite (static_key _ _ Hs). by apply (table_ids _ HTb).
    + intros i g' Hg'. destruct (Hback _ _ Hg') as (g1 & Hg1 & _ & -> & -> & _).
      destruct (Hexited i) as [-> ->]. by apply (table_times _ HTb).
  - (* the key is new *)
    set (k := locationToString (EnterPacket.location p) (EnterPacket.name p)) in *.
    set (gnew := Function.mk 1 (EnterPacket.name p) (EnterPacket.location p)
                   (EnterPacket.parameterNames p) None None) in *.
    assert (Hback : ∀ i g', Trace.functions t' !! i = Some g' →
              (Trace.functions t !! i = Some g' ∧ i ≠ length (Trace.functions t)) ∨
              (i = length (Trace.functions t) ∧ g' = gnew)).
    { intros i g' Hg'. rewrite Hfuns in Hg'.
      apply lookup_app_Some in Hg' as [Hg'|[Hlen Hg']].
      - left. split; [done|]. apply lookup_lt_Some in Hg'. lia.
      - right. apply list_lookup_singleton_Some in Hg' as [Hz <-]. split; [lia|done]. }
    assert (Hnone : ∀ f, f ∈ Trace.frames t → Frame.fid f ≠ length (Trace.functions t)).
    { intros f Hf. apply list_elem_of_lookup in Hf as [u Hu].
      destruct (inv_aggregated _ HI _ _ Hu). lia. }
    assert (Hfresh : ∀ i g, Trace.functions t !! i = Some g → key_of g ≠ k).
    { intros i g Hg Heq. pose proof (table_ids _ HTb _ Hids _ _ Hg) as Hi. congruence. }
    split.
    + intros i g' Hg'. rewrite Hcalls.
      destruct (Hback _ _ Hg') as [[Hg1 Hne]|[-> ->]].
      * rewrite decide_False by done.
        destruct (table_count _ HTb _ _ Hg1) as [-> ?]. split; lia.
      * rewrite decide_True by done. unfold calls.
        rewrite filter_none; [simpl; lia|].
        apply Forall_forall. intros f Hf. by apply Hnone.
    + exact Hframe.
    + intros i j gi gj Hi Hj Hkeys.
      destruct (Hback _ _ Hi) as [[Hgi Hnei]|[-> ->]],
               (Hback _ _ Hj) as [[Hgj Hnej]|[-> ->]].
      * by apply (table_keys _ HTb i j gi gj).
      * exfalso. by apply (Hfresh _ _ Hgi).
      * exfalso. by apply (Hfresh _ _ Hgj).
      * done.
    + intros ids1 Hids1 i g' Hg'. rewrite Hids' in Hids1. injection Hids1 as <-.
      destruct (Hback _ _ Hg') as [[Hg1 Hne]|[-> ->]].
      * rewrite lookup_insert_ne by (intros Heq; by apply (Hfresh _ _ Hg1)).
        by apply (table_ids _ HTb).
      * apply lookup_insert_eq.
    + intros i g' Hg'. destruct (Hexited i) as [-> ->].
      destruct (Hback _ _ Hg') as [[Hg1 Hne]|[-> ->]].
      * by apply (table_times _ HTb).
      * unfold exited_calls.
        rewrite filter_none; [done|].
        apply Forall_forall. intros f Hf [Hfid' _]. by apply (Hnone f).
Qed.

Lemma Table_same (t t' : Trace.t) :
  Trace.frames t' = Trace.frames t → Trace.functions t' = Trace.functions t →
  (Trace._functionIds t' = Trace._functionIds t ∨ Trace._functionIds t' = None) →
  Table t → Table t'.
Proof.
  intros Hfr Hfun Hids [H1 H2 H3 H4 H5]. split; rewrite ?Hfr, ?Hfun; try done.
  intros ids Hids'. destruct Hids as [Hids|Hids]; [|congruence].
  apply H4. congruence.
Qed.

Lemma onExitedFrame_Table (t t' : Trace.t) (p : ExitPacket.t) :
  Inv t → Table t → onExitedFrame t p = Ok t' → Table t'.
Proof.
  intros HI HTb H.
  destruct (Trace._stack t) as [[|u stack']|] eqn:Hst.
  - rewrite onExitedFrame_sentinel in H by done.
    unfold finish in H. res_inv H. injection H as <-.
    eapply Table_same; [| | |exact HTb]; simpl; auto.
  - destruct (onExitedFrame_pop _ _ _ _ _ Hst H)
      as (f & kids & g & Hf & _ & Hg & Hfr & Hfun & _ & Hids & _).
    destruct (live_open _ _ (inv_live _ HI _ Hst) u) as (f0 & Hf0 & Hopen & _); [by left|].
    rewrite Hf in Hf0. injection Hf0 as <-.
    destruct (inv_aggregated _ HI _ _ Hf) as [Hagg _]. rewrite Hagg in *.
    set (tt := num_sub (to_number (ExitPacket.time p)) (to_number (Frame.startTime f))) in *.
    set (st := self_from tt (map (fun k => opt_number (Frame.totalTime k)) kids)) in *.
    set (f1 := Frame.close (ExitPacket.time p) tt st _ _ _ f) in *.
    assert (Hu : (u < length (Trace.frames t))%nat) by (by eapply lookup_lt_Some).
    assert (Hsame : Forall2 (fun x y => Frame.fid x = Frame.fid y)
                      (Trace.frames t) (Trace.frames t')).
    { rewrite Hfr. by eapply Forall2_insert_same. }
    assert (Hcalls : ∀ i, length (calls i (Trace.frames t'))
                          = length (calls i (Trace.frames t))).
    { intros i. symmetry. apply filter_length_Forall2.
      eapply Forall2_impl; [exact Hsame|]. simpl. intros x y ->. done. }
    assert (Hexited : ∀ i, ∃ l1 l2,
              exited_calls i (Trace.frames t) = l1 ++ l2 ∧
              exited_calls i (Trace.frames t') =
                if decide (Frame.fid f = i) then l1 ++ f1 :: l2 else l1 ++ l2).
    { intros i.
      exists (exited_calls i (take u (Trace.frames t))),
             (exited_calls i (drop (S u) (Trace.frames t))).
      unfold exited_calls. rewrite Hfr, insert_take_drop by done.
      rewrite <- (take_drop_middle _ _ _ Hf) at 1.
      rewrite !filter_app, !filter_cons.
      rewrite (decide_False (P := Frame.fid f = i ∧ is_Some (Frame.endTime f))).
      2: { rewrite Hopen. intros [_ [? ?]]. done. }
      split; [done|]. simpl.
      destruct (decide (Frame.fid f = i)) as [Hi|Hi].
      - rewrite decide_True; [done|]. split; [done|]. by eexists.
      - rewrite decide_False; [done|]. tauto. }
    assert (Hback : ∀ i g', Trace.functions t' !! i = Some g' →
              ∃ g1, Trace.functions t !! i = Some g1 ∧ static g' = static g1 ∧
                    Function.count g' = Function.count g1 ∧
                    (i ≠ Frame.fid f → g' = g1) ∧
                    (i = Frame.fid f →
                       Function.totalTime g' =
                         Some (num_add (default (Num 0) (Function.totalTime g1)) tt) ∧
                       Function.selfTime g' =
                         Some (num_add
                                 (match Function.totalTime g1 with
                                  | None => Num 0
                                  | Some _ => opt_number (Function.selfTime g1)
                                  end) st))).
    { intros i g' Hg'. rewrite Hfun in Hg'.
      apply list_lookup_insert_Some in Hg' as [(<- & <- & _)|[Hne Hg']].
      - exists g. repeat split; done.
      - exists g'. repeat split; done. }
    split.
    + intros i g' Hg'. destruct (Hback _ _ Hg') as (g1 & Hg1 & _ & -> & _).
      rewrite Hcalls. by apply (table_count _ HTb).
    + intros v fv Hv. rewrite Hfr in Hv.
      assert (∃ fv0, Trace.frames t !! v = Some fv0 ∧ Frame.fid fv = Frame.fid fv0 ∧
                Frame.name fv = Frame.name fv0 ∧ Frame.location fv = Frame.location fv0 ∧
                Frame.parameterNames fv = Frame.parameterNames fv0)
        as (fv0 & Hfv0 & -> & -> & -> & ->).
      { apply list_lookup_insert_Some in Hv as [(-> & <- & _)|[Hne Hv]]; eauto 10. }
      destruct (table_frame _ HTb _ _ Hfv0) as (g1 & Hg1 & Hn & Hl & Hp).
      destruct (handle_static t t' (Exited p) _ _ H Hg1) as (g' & Hg' & [= Hn' Hl' Hp']).
      exists g'. split; [done|]. split; [congruence|]. split; congruence.
    + intros i j gi gj Hi Hj Hkeys.
      destruct (Hback _ _ Hi) as (gi1 & Hgi1 & Hsi & _).
      destruct (Hback _ _ Hj) as (gj1 & Hgj1 & Hsj & _).
      apply (table_keys _ HTb i j gi1 gj1); [done|done|].
      by rewrite <- (static_key _ _ Hsi), <- (static_key _ _ Hsj).
    + intros ids1 Hids1 i g' Hg'. rewrite Hids in Hids1.
      destruct (Hback _ _ Hg') as (g1 & Hg1 & Hs & _).
      rewrite (static_key _ _ Hs). by apply (table_ids _ HTb _ Hids1).
    + intros i g' Hg'.
      destruct (Hback _ _ Hg') as (g1 & Hg1 & _ & _ & Hother & Hthis).
      destruct (table_times _ HTb _ _ Hg1) as [Htt Hst1].
      destruct (Hexited i) as (l1 & l2 & Hold & Hnew). rewrite Hnew. rewrite Hold in *.
      destruct (decide (Frame.fid f = i)) as [Hi|Hi].
      * destruct Hthis as [-> ->]; [done|].
        rewrite !fmap_app, !fmap_cons, !sum_of_middle.
        rewrite fmap_app in Htt, Hst1.
        split.
        -- by rewrite Htt, sum_of_default.
        -- rewrite Htt, Hst1. do 2 f_equal. by destruct l1, l2.
      * rewrite (Hother ltac:(congruence)). done.
  - unfold onExitedFrame in H. by rewrite Hst in H.
Qed.

Lemma reachable_Table (t : Trace.t) : reachable t → Inv t ∧ Table t.
Proof.
  revert t. apply (reachable_invariant (fun t => Inv t ∧ Table t)).
  - intros c name. split; [apply new_Trace_Inv|]. split; simpl.
    + intros i g Hg. by rewrite lookup_nil in Hg.
    + intros u f Hu. by rewrite lookup_nil in Hu.
    + intros i j gi gj Hi. by rewrite lookup_nil in Hi.
    + intros ids _ i g Hg. by rewrite lookup_nil in Hg.
    + intros i g Hg. by rewrite lookup_nil in Hg.
  - intros t1 e t2 [HI HT] H. split; [by eapply handle_Inv|].
    destruct e as [p|p]; simpl in H.
    + by eapply onEnteredFrame_Table.
    + by eapply onExitedFrame_Table.
  - intros t1 [HI HT]. split; [by apply set_finished_Inv|].
    eapply Table_same; [| | |exact HT]; simpl; auto.
Qed.

(** ** Properties of the tree and of the table *)

Lemma scenario_reachable : reachable scenario_trace.
Proof. left. exists (Some []), None, scenario. vm_compute. reflexivity. Qed.

(** X1: in every trace that ingestion builds, the [children] lists and the
    [older] links describe the same tree. A root names the trace as [older]
    and is at depth 0; a child of a frame names that frame as [older] and is
    one level deeper; and every frame is in the [children] of its [older],
    the trace or a frame. *)
Theorem children_and_older_agree (t : Trace.t) :
  reachable t →
  (∀ c, c ∈ Trace.children t →
     ∃ fc, Trace.frames t !! c = Some fc ∧ Frame.older fc = Some RTrace ∧
           Frame.depth fc = 0%nat) ∧
  (∀ u f c, Trace.frames t !! u = Some f → c ∈ Frame.children f →
     ∃ fc, Trace.frames t !! c = Some fc ∧ Frame.older fc = Some (RFrame u) ∧
           Frame.depth fc = S (Frame.depth f)) ∧
  (∀ c fc, Trace.frames t !! c = Some fc →
     (Frame.older fc = Some RTrace ∧ c ∈ Trace.children t) ∨
     (∃ u f, Frame.older fc = Some (RFrame u) ∧ Trace.frames t !! u = Some f ∧
             c ∈ Frame.children f)).
Proof.
  intros Hr. destruct (reachable_Tree _ Hr) as [HI HT]. split; [|split].
  - intros c Hc. apply list_elem_of_lookup in Hc as [i Hi].
    destruct (tree_roots _ HT) as [_ Hfam].
    destruct (Hfam _ _ Hi) as (fc & Hfc & Ho & Hd & _). eauto.
  - intros u f c Hf Hc. apply list_elem_of_lookup in Hc as [i Hi].
    destruct (tree_kids _ HT _ _ Hf) as [_ Hfam].
    destruct (Hfam _ _ Hi) as (fc & Hfc & Ho & Hd & _). eauto.
  - intros c fc Hfc. destruct (tree_parent _ HT _ _ Hfc) as (r & kids & Ho & Hat & Hin).
    destruct r as [|u]; simpl in Hat.
    + left. injection Hat as <-. done.
    + right. destruct (Trace.frames t !! u) as [f|] eqn:Hf; [|done].
      injection Hat as <-. eauto.
Qed.

Lemma children_and_older_agree_witness :
  reachable scenario_trace ∧
  ∃ fc, Trace.frames scenario_trace !! 1%nat = Some fc ∧
        Frame.older fc = Some (RFrame 0) ∧ Frame.depth fc = 1%nat.
Proof.
  split; [exact scenario_reachable|].
  destruct (children_and_older_agree scenario_trace scenario_reachable) as (_ & H2 & _).
  apply (H2 0%nat _ 1%nat eq_refl). simpl. by left.
Defined.

(** X2: in every trace that ingestion builds, the [previous] and [next]
    links of the children of the trace or of a frame follow the order of
    the [children] list, which is the order of creation: the first child has
    no [previous], the last no [next], and each other link is the neighbour
    in the list. *)
Theorem siblings_are_linked (t : Trace.t) (r : ref) (kids : list nat) :
  reachable t → children_at (Trace.children t) (Trace.frames t) r = Some kids →
  (∀ i j a b, (i < j)%nat → kids !! i = Some a → kids !! j = Some b → (a < b)%nat) ∧
  (∀ i c, kids !! i = Some c →
     ∃ fc, Trace.frames t !! c = Some fc ∧
           Frame.previous fc = match i with O => None | S i' => kids !! i' end ∧
           Frame.next fc = kids !! S i).
Proof.
  intros Hr Hat. destruct (reachable_Tree _ Hr) as [HI HT].
  assert (Hfam : ∃ d, family (Trace.frames t) r d kids).
  { destruct r as [|u]; simpl in Hat.
    - injection Hat as <-. eexists. apply (tree_roots _ HT).
    - destruct (Trace.frames t !! u) as [f|] eqn:Hf; [|done]. injection Hat as <-.
      eexists. by apply (tree_kids _ HT). }
  destruct Hfam as (d & Hasc & Hfam). split; [exact Hasc|].
  intros i c Hi. destruct (Hfam _ _ Hi) as (fc & Hfc & _ & _ & Hp & Hn). eauto.
Qed.

Lemma siblings_are_linked_witness :
  ∃ t fb fc, run (new_Trace None None) two_long_children = Ok t ∧
    Trace.frames t !! 1%nat = Some fb ∧ Trace.frames t !! 2%nat = Some fc ∧
    Frame.previous fb = None ∧ Frame.next fb = Some 2%nat ∧
    Frame.previous fc = Some 1%nat ∧ Frame.next fc = None.
Proof.
  destruct (run (new_Trace None None) two_long_children) as [t|] eqn:Hrun;
    [|vm_compute in Hrun; discriminate].
  assert (Hr : reachable t) by (left; eauto).
  assert (Hkids : children_at (Trace.children t) (Trace.frames t) (RFrame 0)
                  = Some [1; 2]%nat).
  { vm_compute in Hrun. injection Hrun as <-. reflexivity. }
  destruct (siblings_are_linked t (RFrame 0) [1; 2]%nat Hr Hkids) as [_ H].
  destruct (H 0%nat 1%nat eq_refl) as (fb & Hfb & Hpb & Hnb).
  destruct (H 1%nat 2%nat eq_refl) as (fc & Hfc & Hpc & Hnc).
  exists t, fb, fc. repeat split; done.
Defined.

Lemma foldr_max_spec (l : list nat) :
  (∀ x, x ∈ l → (x ≤ foldr Nat.max 0 l)%nat) ∧
  (l ≠ [] → foldr Nat.max 0%nat l ∈ l).
Proof.
  induction l as [|x l [IH1 IH2]]; simpl.
  - split; [|done]. intros x Hx. by apply elem_of_nil in Hx.
  - split.
    + intros y Hy. apply elem_of_cons in Hy as [->|Hy]; [lia|].
      specialize (IH1 _ Hy). lia.
    + intros _. destruct (decide (foldr Nat.max 0%nat l ≤ x)%nat) as [Hle|Hgt].
      * rewrite Nat.max_l by done. by left.
      * rewrite Nat.max_r by lia. right. apply IH2. intros ->. simpl in Hgt. lia.
Qed.

(** X3: in every trace that ingestion builds, [maxDepth] is the largest
    depth of a frame: no frame is deeper, some frame is that deep when there
    are frames, and it is 0 when there are none (and when all frames are
    roots, whose depth is 0). *)
Theorem maxDepth_is_deepest (t : Trace.t) :
  reachable t →
  (∀ f, f ∈ Trace.frames t → (Frame.depth f ≤ Trace.maxDepth t)%nat) ∧
  (Trace.frames t = [] → Trace.maxDepth t = 0%nat) ∧
  (Trace.frames t ≠ [] → ∃ f, f ∈ Trace.frames t ∧ Frame.depth f = Trace.maxDepth t).
Proof.
  intros Hr. destruct (reachable_Tree _ Hr) as [HI HT].
  rewrite (tree_depth _ HT).
  destruct (foldr_max_spec (Frame.depth <$> Trace.frames t)) as [H1 H2].
  split; [|split].
  - intros f Hf. apply H1. by apply list_elem_of_fmap_2.
  - by intros ->.
  - intros Hne. destruct (Trace.frames t) as [|f0 fs] eqn:E; [done|].
    apply list_elem_of_fmap in H2 as (f & Hd & Hf); [|done].
    exists f. by split.
Qed.

Lemma maxDepth_is_deepest_witness :
  reachable scenario_trace ∧ Trace.maxDepth scenario_trace = 1%nat ∧
  ∃ f, f ∈ Trace.frames scenario_trace ∧ Frame.depth f = 1%nat.
Proof.
  split; [exact scenario_reachable|]. split; [reflexivity|].
  destruct (maxDepth_is_deepest scenario_trace scenario_reachable) as (_ & _ & H).
  apply H. discriminate.
Defined.

Lemma chain_lookup (frames : list Frame.t) (stack : list nat) (i u : nat) :
  chain frames stack → stack !! i = Some u →
  ∃ f, frames !! u = Some f ∧
       Frame.older f = Some (_currentFrame (drop (S i) stack)) ∧
       Frame.depth f = (length stack - S i)%nat.
Proof.
  revert i. induction stack as [|v rest IH]; intros i Hch Hi; [done|].
  destruct Hch as [(f & Hf & Ho & Hd) Hrest]. destruct i as [|i]; simpl in *.
  - injection Hi as <-. exists f. rewrite drop_0. split; [done|]. split; [done|]. lia.
  - by apply IH.
Qed.

(** X4: while a trace collects, [_stack] holds exactly the frames that were
    entered and not exited, and it is the chain of [older] links of the
    current frame: each entry names the entry below it as [older], the
    bottom entry names the trace, and the depth of an entry is the number of
    entries below it. *)
Theorem stack_is_ancestor_chain (t : Trace.t) (stack : list nat) :
  reachable t → Trace._stack t = Some stack →
  (∀ u f, Trace.frames t !! u = Some f → (u ∈ stack ↔ Frame.endTime f = None)) ∧
  (∀ i u, stack !! i = Some u →
     ∃ f, Trace.frames t !! u = Some f ∧
          Frame.older f = Some (_currentFrame (drop (S i) stack)) ∧
          Frame.depth f = (length stack - S i)%nat).
Proof.
  intros Hr Hst. destruct (reachable_Tree _ Hr) as [HI HT].
  pose proof (inv_live _ HI _ Hst) as HL. split.
  - intros u f Hf. split.
    + intros Hin. destruct (live_open _ _ HL _ Hin) as (f0 & Hf0 & Hopen & _).
      congruence.
    + by apply (live_stack _ _ HL).
  - intros i u Hi. apply chain_lookup; [|done]. by apply (tree_stack _ HT).
Qed.

Lemma stack_is_ancestor_chain_witness :
  ∃ t f, run (new_Trace None None) clock_backwards = Ok t ∧
    Trace.frames t !! 1%nat = Some f ∧ Frame.older f = Some (RFrame 0) ∧
    Frame.endTime f = None.
Proof.
  destruct (run (new_Trace None None) clock_backwards) as [t|] eqn:Hrun;
    [|vm_compute in Hrun; discriminate].
  assert (Hr : reachable t) by (left; eauto).
  assert (Hst : Trace._stack t = Some [1; 0]%nat).
  { vm_compute in Hrun. injection Hrun as <-. reflexivity. }
  destruct (stack_is_ancestor_chain t _ Hr Hst) as [H1 H2].
  destruct (H2 0%nat 1%nat eq_refl) as (f & Hf & Ho & _).
  exists t, f. split; [done|]. split; [done|]. split; [done|].
  apply (H1 1%nat f Hf). by left.
Defined.

(** X5: in every trace that ingestion builds, [count] of a record of
    [functions] is the number of frames whose [fid] is the position of the
    record, and it is at least 1. *)
Theorem record_counts_calls (t : Trace.t) (i : nat) (g : Function.t) :
  reachable t → Trace.functions t !! i = Some g →
  Function.count g = length (filter (fun f => Frame.fid f = i) (Trace.frames t)) ∧
  (1 ≤ Function.count g)%nat.
Proof.
  intros Hr Hg. destruct (reachable_Table _ Hr) as [HI HT].
  by apply (table_count _ HT).
Qed.

Lemma record_counts_calls_witness :
  reachable scenario_trace ∧
  (Function.count <$> Trace.functions scenario_trace !! 0%nat) = Some 1%nat.
Proof.
  split; [exact scenario_reachable|].
  destruct (Trace.functions scenario_trace !! 0%nat) as [g|] eqn:Hg; [|discriminate].
  destruct (record_counts_calls scenario_trace 0 g scenario_reachable Hg) as [Hc _].
  simpl. f_equal. rewrite Hc. vm_compute in Hg. injection Hg as <-. reflexivity.
Defined.

Lemma reachable_ids_stack (t : Trace.t) :
  reachable t → is_Some (Trace._functionIds t) → is_Some (Trace._stack t).
Proof.
  revert t. apply (reachable_invariant
    (fun t => is_Some (Trace._functionIds t) → is_Some (Trace._stack t))).
  - intros c name _. by eexists.
  - intros t e t' _ H. destruct e as [p|p]; simpl in H.
    + destruct (onEnteredFrame_frames _ _ _ H) as (? & ? & ? & _ & _ & -> & _).
      by eexists.
    + destruct (Trace._stack t) as [[|u s]|] eqn:Hst.
      * rewrite onExitedFrame_sentinel in H by done.
        unfold finish in H. res_inv H. injection H as <-. simpl. by intros [? ?].
      * destruct (onExitedFrame_pop _ _ _ _ _ Hst H)
          as (? & ? & ? & _ & _ & _ & _ & _ & -> & _). by eexists.
      * unfold onExitedFrame in H. by rewrite Hst in H.
  - done.
Qed.

(** X6: in every trace that ingestion builds, no two records of [functions]
    have the same key [(name || "") + JSON.stringify(location)]; while the
    trace collects, [_functionIds] maps a key to a position exactly when the
    record at that position has that key; and every frame refers through
    [fid] (and [aggregated]) to a record whose name, location and parameter
    names are those of the frame. *)
Theorem one_record_per_key (t : Trace.t) :
  reachable t →
  (∀ i j gi gj, Trace.functions t !! i = Some gi → Trace.functions t !! j = Some gj →
     key_of gi = key_of gj → i = j) ∧
  (∀ ids, Trace._functionIds t = Some ids →
     ∀ k i, ids !! k = Some i ↔ ∃ g, Trace.functions t !! i = Some g ∧ key_of g = k) ∧
  (∀ u f, Trace.frames t !! u = Some f →
     Frame.aggregated f = Frame.fid f ∧
     ∃ g, Trace.functions t !! Frame.fid f = Some g ∧
          Frame.name f = Function.name g ∧ Frame.location f = Function.location g ∧
          Frame.parameterNames f = Function.parameterNames g).
Proof.
  intros Hr. destruct (reachable_Table _ Hr) as [HI HT]. split; [|split].
  - apply (table_keys _ HT).
  - intros ids Hids k i. split.
    + intros Hk. destruct (Trace._stack t) as [stack|] eqn:Hst.
      * destruct (live_ids _ _ (inv_live _ HI _ Hst)) as (ids0 & Hids0 & Hkey).
        rewrite Hids in Hids0. injection Hids0 as <-. by apply Hkey.
      * destruct (reachable_ids_stack _ Hr) as [? ?]; [by eexists|congruence].
    + intros (g & Hg & <-). by apply (table_ids _ HT).
  - intros u f Hf. split; [apply (inv_aggregated _ HI _ _ Hf)|].
    by apply (table_frame _ HT _ _ Hf).
Qed.

Lemma one_record_per_key_witness :
  reachable scenario_trace ∧
  ∃ f g, Trace.frames scenario_trace !! 1%nat = Some f ∧
         Trace.functions scenario_trace !! Frame.fid f = Some g ∧
         Frame.name f = Function.name g.
Proof.
  split; [exact scenario_reachable|].
  destruct (one_record_per_key scenario_trace scenario_reachable) as (_ & _ & H).
  destruct (Trace.frames scenario_trace !! 1%nat) as [f|] eqn:Hf; [|discriminate].
  destruct (H 1%nat f Hf) as (_ & g & Hg & Hn & _).
  exists f, g. done.
Defined.

(** X7: after events whose time stamps are integers, small enough for every
    difference and sum that is computed from them to be a safe integer (so
    that no operation rounds), [totalTime] and [selfTime] of a record of
    [functions] are the sums of [totalTime] and [selfTime] of the exited
    frames of that function; the record has neither property before the
    first exit of a call of the function. *)
Theorem record_sums_times (c : option client) (name : option string)
    (evs : list event) (zs : list Z) (B : Z) (t : Trace.t) (i : nat) (g : Function.t) :
  run (new_Trace c name) evs = Ok t →
  time_of <$> evs = TNum <$> zs → exact_clock (length evs) B zs →
  Trace.functions t !! i = Some g →
  Function.totalTime g = sum_of (total_of <$> exited_calls i (Trace.frames t)) ∧
  Function.selfTime g = sum_of (self_of <$> exited_calls i (Trace.frames t)).
Proof.
  intros Hrun _ _ Hg.
  assert (Hr : reachable t) by (left; eauto).
  destruct (reachable_Table _ Hr) as [HI HT].
  by apply (table_times _ HT).
Qed.

Lemma record_sums_times_witness :
  ∃ g, Trace.functions scenario_trace !! 0%nat = Some g ∧
       Function.totalTime g = Some (Num 5) ∧ Function.selfTime g = Some (Num 3).
Proof.
  destruct (Trace.functions scenario_trace !! 0%nat) as [g|] eqn:Hg; [|discriminate].
  destruct (record_sums_times (Some []) None scenario [0; 1; 3; 5] 5 scenario_trace 0 g)
    as [Ht Hs].
  - vm_compute. reflexivity.
  - reflexivity.
  - split; [repeat constructor; lia|]. simpl. lia.
  - exact Hg.
  - exists g. split; [done|]. rewrite Ht, Hs. split; reflexivity.
Defined.

Lemma run_finished_stack (evs : list event) :
  ∀ t0 t, (Trace.finished t0 = true → Trace._stack t0 = None ∧
                                      Trace._functionIds t0 = None) →
    run t0 evs = Ok t →
    Trace.finished t = true → Trace._stack t = None ∧ Trace._functionIds t = None.
Proof.
  induction evs as [|e evs IH]; intros t0 t H0 Hrun; simpl in Hrun.
  - by injection Hrun as <-.
  - apply bind_Ok in Hrun as (t1 & H1 & Hrun). apply (IH t1); [|done].
    destruct (Trace._stack t0) as [stack|] eqn:Hst.
    2: { by rewrite handle_finished in H1. }
    assert (Hnf : Trace.finished t0 ≠ true).
    { intros Hf. destruct (H0 Hf). done. }
    destruct e as [p|p]; simpl in H1.
    + destruct (onEnteredFrame_client _ _ _ H1) as (_ & -> & _). done.
    + destruct stack as [|u stack].
      * rewrite onExitedFrame_sentinel in H1 by done.
        unfold finish in H1. res_inv H1. by injection H1 as <-.
      * destruct (onExitedFrame_pop _ _ _ _ _ Hst H1)
          as (? & ? & ? & _ & _ & _ & _ & _ & _ & _ & _ & _ & _ & _ & ->). done.
Qed.

(** X19: a trace that was built from events and is finished has dropped
    its stack and its map of function ids, and handles no further event:
    [onEnteredFrame] and [onExitedFrame] both throw a TypeError on it. *)
Theorem finished_trace_rejects_events (c : option client) (name : option string)
    (evs : list event) (t : Trace.t) :
  run (new_Trace c name) evs = Ok t → Trace.finished t = true →
  Trace._stack t = None ∧ Trace._functionIds t = None ∧
  ∀ e, handle t e = Err TypeError.
Proof.
  intros Hrun Hfin.
  destruct (run_finished_stack evs (new_Trace c name) t) as [Hst Hids]; try done.
  split; [done|]. split; [done|]. intros e. by apply handle_finished.
Qed.

Lemma finished_trace_rejects_events_witness :
  ∃ t, run (new_Trace (Some []) None) scenario_then_exit = Ok t ∧
       handle t (Entered (enter_at "A" 10)) = Err TypeError.
Proof.
  destruct (run (new_Trace (Some []) None) scenario_then_exit) as [t|] eqn:Hrun;
    [|vm_compute in Hrun; discriminate].
  exists t. split; [reflexivity|].
  apply (finished_trace_rejects_events (Some []) None scenario_then_exit t Hrun).
  vm_compute in Hrun. injection Hrun as <-. reflexivity.
Defined.

Lemma handle_records (t t' : Trace.t) (e : event) (done : list event) :
  Inv t → handle t e = Ok t' →
  Forall2 (records t) (enter_packets done) (Trace.frames t) →
  Forall2 (records t') (enter_packets (done ++ [e])) (Trace.frames t').
Proof.
  intros HI H HP.
  assert (Hkeep : ∀ p f f', records t p f →
            Frame.startTime f' = Frame.startTime f ∧ Frame.callsite f' = Frame.callsite f ∧
            Frame.arguments f' = Frame.arguments f ∧ Frame.fid f' = Frame.fid f →
            records t' p f').
  { intros p f f' (Hs & Hc & Ha & g & Hg & Hk) (? & ? & ? & ?).
    destruct (handle_static _ _ _ _ _ H Hg) as (g' & Hg' & Hst).
    split; [congruence|]. split; [congruence|]. split; [congruence|].
    exists g'. split; [congruence|]. rewrite <- Hk. by apply static_key. }
  unfold enter_packets in *. rewrite omap_app. destruct e as [p|p]; simpl in H |- *.
  - destruct (onEnteredFrame_snoc _ _ _ H) as (old & fnew & Hfr & Hnew & Hold).
    rewrite Hfr. apply Forall2_app.
    + apply Forall2_same_length_lookup. split.
      * rewrite (Forall2_length _ _ _ HP). by eapply Forall2_length.
      * intros i q f' Hq Hf'.
        destruct (Forall2_lookup_r _ _ _ _ _ Hold Hf') as (f & Hf & Hsc).
        pose proof (scalars_names _ _ Hsc) as (_ & _ & _ & Hcs).
        apply scalars_inv in Hsc. destruct_and!.
        apply (Hkeep q f); [|done].
        destruct (Forall2_lookup_l _ _ _ _ _ HP Hq) as (f0 & Hf0 & HR). congruence.
    + constructor; [|constructor].
      destruct (onEnteredFrame_new _ _ _ H) as (stack & sib & fid & g & _ & _ & _ & Hnew0).
      rewrite Hnew in Hnew0. injection Hnew0 as ->. simpl.
      split; [done|]. split; [done|]. split; [done|].
      destruct (onEnteredFrame_record _ _ _ _ HI H Hnew) as (g1 & Hg1 & Hk & _).
      exists g1. split; [exact Hg1|exact Hk].
  - rewrite app_nil_r.
    destruct (Trace._stack t) as [[|u stack]|] eqn:Hst.
    + rewrite onExitedFrame_sentinel in H by done.
      assert (Hfr : Trace.frames t' = Trace.frames t) by (by eapply finish_frames).
      rewrite Hfr. eapply Forall2_impl; [exact HP|]. intros q f HR. by eapply Hkeep.
    + destruct (onExitedFrame_pop _ _ _ _ _ Hst H) as (f & kids & g & Hf & _ & _ & Hfr & _).
      rewrite Hfr. apply Forall2_same_length_lookup. split.
      * rewrite length_insert. by eapply Forall2_length.
      * intros i q f' Hq Hf'.
        destruct (Forall2_lookup_l _ _ _ _ _ HP Hq) as (f0 & Hf0 & HR).
        eapply Hkeep; [exact HR|].
        apply list_lookup_insert_Some in Hf' as [(-> & <- & _)|[Hne Hf']].
        -- rewrite Hf in Hf0. by injection Hf0 as <-.
        -- assert (f' = f0) as -> by congruence. done.
    + unfold onExitedFrame in H. by rewrite Hst in H.
Qed.

Lemma run_records (evs : list event) :
  ∀ (done : list event) (t0 t : Trace.t),
    Inv t0 → Forall2 (records t0) (enter_packets done) (Trace.frames t0) →
    run t0 evs = Ok t →
    Forall2 (records t) (enter_packets (done ++ evs)) (Trace.frames t).
Proof.
  induction evs as [|e evs IH]; intros done t0 t HI HP Hrun; simpl in Hrun.
  - injection Hrun as <-. by rewrite app_nil_r.
  - apply bind_Ok in Hrun as (t1 & H1 & Hrun).
    replace (done ++ e :: evs) with ((done ++ [e]) ++ evs) by (by rewrite <- app_assoc).
    apply (IH _ t1); [by eapply handle_Inv| |done].
    by apply (handle_records t0).
Qed.

(** X24: the list [frames] records the enter events in the order of their
    arrival: after any events handled by a new trace there is one frame for
    each enter event, the frame at position [i] has the time, the call site
    and the arguments of the packet of the [i]-th enter event, and the
    record of [functions] it refers to has the key of that packet. *)
Theorem frames_record_enter_events (c : option client) (name : option string)
    (evs : list event) (t : Trace.t) :
  run (new_Trace c name) evs = Ok t →
  length (Trace.frames t) = length (enter_packets evs) ∧
  ∀ i p, enter_packets evs !! i = Some p →
    ∃ f g, Trace.frames t !! i = Some f ∧
      Frame.startTime f = EnterPacket.time p ∧
      Frame.callsite f = EnterPacket.callsite p ∧
      Frame.arguments f = EnterPacket.arguments p ∧
      Trace.functions t !! Frame.fid f = Some g ∧
      locationToString (Function.location g) (Function.name g)
        = locationToString (EnterPacket.location p) (EnterPacket.name p).
Proof.
  intros Hrun.
  pose proof (run_records evs [] (new_Trace c name) t (new_Trace_Inv c name)
                ltac:(constructor) Hrun) as HP.
  simpl in HP. split; [symmetry; by eapply Forall2_length|].
  intros i p Hp.
  destruct (Forall2_lookup_l _ _ _ _ _ HP Hp) as (f & Hf & Hs & Hc & Ha & g & Hg & Hk).
  exists f, g. done.
Qed.

Lemma frames_record_enter_events_witness :
  ∃ f, Trace.frames scenario_trace !! 1%nat = Some f ∧ Frame.startTime f = TNum 1.
Proof.
  destruct (frames_record_enter_events (Some []) None scenario scenario_trace)
    as [_ H]; [vm_compute; reflexivity|].
  destruct (H 1%nat (enter_at "B" 1) eq_refl) as (f & g & Hf & Hs & _).
  exists f. split; [exact Hf|exact Hs].
Defined.

(** ** A clock that never runs backwards *)

(** The children of the current frame, or of the trace when no frame is
    open, were all exited. *)
Lemma current_children_closed (t : Trace.t) (stack kids : list nat) (c : nat) :
  Inv t → Trace._stack t = Some stack →
  children_at (Trace.children t) (Trace.frames t) (_currentFrame stack) = Some kids →
  c ∈ kids →
  ∃ fc e, Trace.frames t !! c = Some fc ∧ Frame.endTime fc = Some e.
Proof.
  intros HI Hst Hat Hc. pose proof (inv_live _ HI _ Hst) as HL.
  assert (Hlt : (c < length (Trace.frames t))%nat ∧
                ∀ u, _currentFrame stack = RFrame u → (u < c)%nat).
  { destruct stack as [|u rest]; simpl in Hat.
    - injection Hat as <-. split; [|done].
      pose proof (inv_roots _ HI) as Hroots. rewrite Forall_forall in Hroots. auto.
    - destruct (Trace.frames t !! u) as [f|] eqn:Hf; [|done]. injection Hat as <-.
      pose proof (inv_children _ HI _ _ Hf) as Hch. rewrite Forall_forall in Hch.
      specialize (Hch _ Hc). split; [lia|]. intros u0 [= <-]. lia. }
  destruct Hlt as [Hlt Hgt]. apply lookup_lt_is_Some in Hlt as [fc Hfc].
  destruct (Frame.endTime fc) as [e|] eqn:He; [eauto|]. exfalso.
  pose proof (live_stack _ _ HL _ _ Hfc He) as Hin.
  destruct stack as [|u rest]; [by apply elem_of_nil in Hin|].
  apply (descending_not_elem u c rest); [apply (live_descending _ _ HL)| |done].
  by apply Hgt.
Qed.

Lemma Timed_mono (now now' : Z) (t t' : Trace.t) :
  now ≤ now' → Trace.frames t' = Trace.frames t → Trace.children t' = Trace.children t →
  Timed now t → Timed now' t'.
Proof.
  intros Hle Hfr Hroots [H1 H2 H3]. split; rewrite ?Hfr, ?Hroots; [|done|done].
  intros u f Hf. destruct (H1 _ _ Hf) as (s & Hs & Hsn & He).
  exists s. split; [done|]. split; [lia|]. intros e Hend.
  destruct (He _ Hend) as (ez & -> & ?). exists ez. split; [done|lia].
Qed.

Lemma onEnteredFrame_Timed (now z : Z) (t t' : Trace.t) (p : EnterPacket.t) :
  Inv t → Timed now t → EnterPacket.time p = TNum z → now ≤ z →
  onEnteredFrame t p = Ok t' → Timed z t'.
Proof.
  intros HI HT Hz Hle H.
  destruct (onEnteredFrame_new _ _ _ H) as (stack & sib & fid & g & Hst & Hsib & _ & Hnew).
  destruct (onEnteredFrame_frames _ _ _ H)
    as (stack0 & sib0 & fnew & Hst0 & _ & _ & Hlen & _).
  clear stack0 sib0 fnew Hst0.
  set (n := length (Trace.frames t)) in *.
  pose proof (inv_live _ HI _ Hst) as HL.
  assert (Hat : children_at (Trace.children t) (Trace.frames t) (_currentFrame stack)
                = Some sib).
  { destruct (_currentFrame stack) as [|u0]; simpl in *; [congruence|].
    by apply of_option_Ok in Hsib. }
  assert (Hcases : ∀ u f', Trace.frames t' !! u = Some f' →
            (u = n ∧ Trace.frames t' !! n = Some f') ∨
            ((u < n)%nat ∧ ∃ f, Trace.frames t !! u = Some f ∧ scalars f' = scalars f ∧
               Frame.children f' =
                 if decide (_currentFrame stack = RFrame u)
                 then Frame.children f ++ [n] else Frame.children f)).
  { intros u f' Hu. destruct (decide (u = n)) as [->|Hne].
    - left. done.
    - right. assert (u < n)%nat.
      { apply lookup_lt_Some in Hu. lia. }
      split; [done|]. by eapply onEnteredFrame_old_frame. }
  split.
  - intros u f' Hu.
    destruct (Hcases _ _ Hu) as [[-> Hn]|(Hlt & f & Hf & Hs & _)].
    + rewrite Hnew in Hn. injection Hn as <-. simpl. exists z.
      split; [done|]. split; [lia|]. done.
    + apply scalars_inv in Hs. destruct_and!.
      destruct (timed_frame _ _ HT _ _ Hf) as (s & Hstart & Hsn & He).
      exists s. split; [congruence|]. split; [lia|]. intros e Hend.
      destruct (He e) as (ez & -> & ?); [congruence|]. exists ez. split; [done|lia].
  - intros u f' c fc' s sc Hu Hc Hfc Hs Hsc.
    destruct (Hcases _ _ Hu) as [[-> Hn]|(Hlt & f & Hf & Hsf & Hkids)].
    { rewrite Hnew in Hn. injection Hn as <-. simpl in Hc. by apply elem_of_nil in Hc. }
    apply scalars_inv in Hsf. destruct_and!.
    destruct (Hcases _ _ Hfc) as [[-> Hn]|(Hltc & fc & Hfc0 & Hsfc & _)].
    + (* the new frame, under the current frame *)
      rewrite Hnew in Hn. injection Hn as <-. simpl in Hsc. 
      assert (Hcur : _currentFrame stack = RFrame u).
      { destruct (decide (_currentFrame stack = RFrame u)) as [|Hne]; [done|].
        rewrite Hkids in Hc.
        pose proof (inv_children _ HI _ _ Hf) as Hch. rewrite Forall_forall in Hch.
        specialize (Hch _ Hc). lia. }
      destruct (timed_frame _ _ HT _ _ Hf) as (s0 & Hstart & Hsn & _).
      split; [assert (s = s0) by congruence; assert (sc = z) by congruence; lia|].
      intros e He. exfalso.
      destruct stack as [|u0 rest]; [done|]. injection Hcur as ->.
      destruct (live_open _ _ HL u) as (f0 & Hf0 & Hopen & _); [by left|]. congruence.
    + apply scalars_inv in Hsfc. destruct_and!.
      assert (Hc0 : c ∈ Frame.children f).
      { rewrite Hkids in Hc. destruct (decide _); [|done].
        apply elem_of_app in Hc as [Hc|Hc]; [done|].
        apply list_elem_of_singleton in Hc. lia. }
      destruct (timed_child _ _ HT u f c fc s sc) as [Hle' Hend]; try congruence.
      split; [done|]. intros e He. destruct (Hend e) as (ec & Hec & ?); [congruence|].
      exists ec. split; [congruence|done].
  - intros r kids' i a b fb' Hat' Ha Hb Hfb.
    assert (Hold : ∃ kids, children_at (Trace.children t) (Trace.frames t) r = Some kids ∧
              kids' = if decide (r = _currentFrame stack) then kids ++ [n] else kids).
    { destruct r as [|u].
      - eexists. split; [done|].
        rewrite (children_at_enter _ _ _ _ RTrace _ H Hst eq_refl) in Hat'.
        by injection Hat' as <-.
      - simpl in Hat' |- *. destruct (Trace.frames t' !! u) as [f'|] eqn:Hf'; [|done]. injection Hat' as <-.
        destruct (Hcases _ _ Hf') as [[-> Hn]|(Hlt & f & Hf & _ & Hkids)].
        + rewrite Hnew in Hn. injection Hn as <-. done.
        + rewrite Hf. eexists. split; [done|]. rewrite Hkids.
          destruct (decide (_currentFrame stack = RFrame u)) as [Heq|Hne].
          * by rewrite decide_True.
          * rewrite decide_False; [done|congruence]. }
    destruct Hold as (kids & Hatold & ->).
    assert (Hback : ∀ a fa ea, Trace.frames t !! a = Some fa →
              Frame.endTime fa = Some (TNum ea) →
              ∃ fa', Trace.frames t' !! a = Some fa' ∧ Frame.endTime fa' = Some (TNum ea)).
    { intros a0 fa ea Hfa Hea.
      destruct (onEnteredFrame_old_frame_rev _ _ _ _ _ H Hfa) as (fa' & Hfa' & Hsa).
      apply scalars_inv in Hsa. destruct_and!. exists fa'. split; [done|congruence]. }
    destruct (decide (S i < length kids)%nat) as [Hin|Hout].
    + (* a pair that existed *)
      assert (Ha0 : kids !! i = Some a).
      { destruct (decide _); [|done]. by rewrite lookup_app_l in Ha by lia. }
      assert (Hb0 : kids !! S i = Some b).
      { destruct (decide _); [|done]. by rewrite lookup_app_l in Hb by lia. }
      destruct (Hcases _ _ Hfb) as [[-> Hn]|(Hltb & fb & Hfb0 & Hsb & _)].
      { exfalso. destruct r as [|u]; simpl in Hatold.
        - injection Hatold as <-.
          pose proof (inv_roots _ HI) as Hroots. rewrite Forall_forall in Hroots.
          apply list_elem_of_lookup_2, Hroots in Hb0. lia.
        - destruct (Trace.frames t !! u) as [f|] eqn:Hf; [|done]. injection Hatold as <-.
          pose proof (inv_children _ HI _ _ Hf) as Hch. rewrite Forall_forall in Hch.
          apply list_elem_of_lookup_2, Hch in Hb0. lia. }
      apply scalars_inv in Hsb. destruct_and!.
      destruct (timed_next _ _ HT r kids i a b fb Hatold Ha0 Hb0 Hfb0)
        as (fa & ea & sb & Hfa & Hea & Hsb & ?).
      destruct (Hback _ _ _ Hfa Hea) as (fa' & Hfa' & Hea').
      exists fa', ea, sb. repeat split; try done. congruence.
    + (* the new frame after the last child of the current frame *)
      destruct (decide (r = _currentFrame stack)) as [->|Hne].
      2: { apply lookup_lt_Some in Hb. lia. }
      assert (kids = sib) as -> by congruence.
      assert (Hi : S i = length sib).
      { apply lookup_lt_Some in Hb. rewrite length_app in Hb. simpl in Hb. lia. }
      rewrite lookup_app_l in Ha by lia.
      rewrite lookup_app_r in Hb by lia.
      replace (S i - length sib)%nat with 0%nat in Hb by lia. injection Hb as <-.
      rewrite Hnew in Hfb. injection Hfb as <-. simpl.
      destruct (current_children_closed t stack sib a HI Hst Hat) as (fa & e & Hfa & He);
        [by eapply list_elem_of_lookup_2|].
      destruct (timed_frame _ _ HT _ _ Hfa) as (s & _ & _ & Hend).
      destruct (Hend _ He) as (ea & -> & ?).
      destruct (Hback _ _ _ Hfa He) as (fa' & Hfa' & Hea').
      exists fa', ea, z. repeat split; try done. lia.
Qed.

Lemma onExitedFrame_Timed (now z : Z) (t t' : Trace.t) (p : ExitPacket.t) :
  Inv t → Timed now t → ExitPacket.time p = TNum z → now ≤ z →
  onExitedFrame t p = Ok t' → Timed z t'.
Proof.
  intros HI HT Hz Hle H.
  destruct (Trace._stack t) as [[|u stack']|] eqn:Hst.
  - rewrite onExitedFrame_sentinel in H by done.
    unfold finish in H. res_inv H. injection H as <-.
    by eapply Timed_mono; [exact Hle| | |exact HT].
  - destruct (onExitedFrame_pop _ _ _ _ _ Hst H)
      as (f & kids & g & Hf & _ & _ & Hfr & _ & _ & _ & Hroots & _).
    pose proof (inv_live _ HI _ Hst) as HL.
    destruct (live_open _ _ HL u) as (f0 & Hf0 & Hopen & _); [by left|].
    rewrite Hf in Hf0. injection Hf0 as <-.
    rewrite Hz in Hfr.
    set (f1 := Frame.close (TNum z) _ _ _ _ _ f) in *.
    assert (Hu : (u < length (Trace.frames t))%nat) by (by eapply lookup_lt_Some).
    assert (Hcases : ∀ v fv', Trace.frames t' !! v = Some fv' →
              (v = u ∧ fv' = f1) ∨ (v ≠ u ∧ Trace.frames t !! v = Some fv')).
    { intros v fv' Hv. rewrite Hfr in Hv.
      apply list_lookup_insert_Some in Hv as [(-> & <- & _)|[Hne Hv]]; auto. }
    split.
    + intros v fv' Hv. destruct (Hcases _ _ Hv) as [[-> ->]|[Hne Hv0]].
      * destruct (timed_frame _ _ HT _ _ Hf) as (s & Hs & Hsn & _).
        exists s. simpl. split; [done|]. split; [lia|].
        intros e [= <-]. exists z. split; [done|lia].
      * destruct (timed_frame _ _ HT _ _ Hv0) as (s & Hs & Hsn & He).
        exists s. split; [done|]. split; [lia|]. intros e Hend.
        destruct (He _ Hend) as (ez & -> & ?). exists ez. split; [done|lia].
    + intros v fv' c fc' s sc Hv Hc Hfc Hs Hsc.
      destruct (Hcases _ _ Hv) as [[-> ->]|[Hne Hv0]].
      * (* the children of the exited frame *)
        simpl in Hc, Hs.
        assert (Hcu : c ≠ u).
        { pose proof (inv_children _ HI _ _ Hf) as Hch. rewrite Forall_forall in Hch.
          specialize (Hch _ Hc). lia. }
        destruct (Hcases _ _ Hfc) as [[-> _]|[_ Hfc0]]; [done|].
        destruct (timed_child _ _ HT u f c fc' s sc Hf Hc Hfc0 Hs Hsc) as [Hle' _].
        split; [done|]. simpl. intros e [= <-].
        destruct (current_children_closed t (u :: stack') (Frame.children f) c HI Hst)
          as (fc0 & e0 & Hfc1 & He0); [simpl; by rewrite Hf|done|].
        rewrite Hfc0 in Hfc1. injection Hfc1 as <-.
        destruct (timed_frame _ _ HT _ _ Hfc0) as (s0 & _ & _ & Hend).
        destruct (Hend _ He0) as (ez & -> & ?). exists ez. split; [done|lia].
      * destruct (Hcases _ _ Hfc) as [[-> ->]|[Hnec Hfc0]].
        -- (* the exited frame under its parent *)
           simpl in Hsc.
           destruct (timed_child _ _ HT v fv' u f s sc Hv0 Hc Hf Hs Hsc) as [Hle' Hend].
           split; [done|]. intros e He. destruct (Hend _ He) as (ec & Hec & _).
           congruence.
        -- by apply (timed_child _ _ HT v fv' c fc' s sc).
    + intros r kids0 i a b fb' Hat Ha Hb Hfb.
      rewrite (children_at_exit _ _ _ _ _ r Hst H) in Hat.
      assert (Hfb0 : ∃ fb, Trace.frames t !! b = Some fb ∧
                           Frame.startTime fb' = Frame.startTime fb).
      { destruct (Hcases _ _ Hfb) as [[-> ->]|[_ Hfb0]]; eauto. }
      destruct Hfb0 as (fb & Hfb0 & Hsame).
      destruct (timed_next _ _ HT r kids0 i a b fb Hat Ha Hb Hfb0)
        as (fa & ea & sb & Hfa & Hea & Hsb & ?).
      exists fa, ea, sb. split; [|split; [done|split; [congruence|done]]].
      rewrite Hfr, list_lookup_insert_ne; [done|]. intros ->. congruence.
  - unfold onExitedFrame in H. by rewrite Hst in H.
Qed.

(** The invariant after a run whose events carry the time stamps [zs], none
    of them before the one before it. *)
Lemma run_Timed (evs : list event) :
  ∀ (zs : list Z) (now : Z) (t t' : Trace.t),
    Inv t → Timed now t → time_of <$> evs = TNum <$> zs → nondecreasing now zs →
    run t evs = Ok t' → Inv t' ∧ ∃ now', Timed now' t'.
Proof.
  induction evs as [|e evs IH]; intros zs now t t' HI HT Hzs Hmono Hrun.
  - simpl in Hrun. injection Hrun as <-. eauto.
  - destruct zs as [|z zs]; [done|]. rewrite !fmap_cons in Hzs.
    injection Hzs as Hz Hzs. destruct Hmono as [Hle Hmono].
    simpl in Hrun. apply bind_Ok in Hrun as (t1 & H1 & Hrun).
    apply (IH zs z t1 t'); try done.
    + by eapply handle_Inv.
    + destruct e as [p|p]; simpl in *.
      * by eapply onEnteredFrame_Timed.
      * by eapply onExitedFrame_Timed.
Qed.

Lemma new_Trace_Timed (now : Z) (c : option client) (name : option string) :
  Timed now (new_Trace c name).
Proof.
  split; simpl.
  - intros u f Hf. by rewrite lookup_nil in Hf.
  - intros u f c0 fc s sc Hf. by rewrite lookup_nil in Hf.
  - intros [|u] kids i a b fb; simpl.
    + intros [= <-] Ha. by rewrite lookup_nil in Ha.
    + by rewrite lookup_nil.
Qed.

Lemma children_at_valid (t : Trace.t) (r : ref) (kids : list nat) (c : nat) :
  Inv t → children_at (Trace.children t) (Trace.frames t) r = Some kids → c ∈ kids →
  is_Some (Trace.frames t !! c).
Proof.
  intros HI Hat Hc. apply lookup_lt_is_Some. destruct r as [|u]; simpl in Hat.
  - injection Hat as <-.
    pose proof (inv_roots _ HI) as Hroots. rewrite Forall_forall in Hroots. auto.
  - destruct (Trace.frames t !! u) as [f|] eqn:Hf; [|done]. injection Hat as <-.
    pose proof (inv_children _ HI _ _ Hf) as Hch. rewrite Forall_forall in Hch.
    specialize (Hch _ Hc). lia.
Qed.

(** Of two children of the same parent, the one that comes first in the
    list was exited before the other was entered. *)
Lemma siblings_ordered (now : Z) (t : Trace.t) (r : ref) (kids : list nat) :
  Inv t → Timed now t →
  children_at (Trace.children t) (Trace.frames t) r = Some kids →
  ∀ j i a b fa fb, (i < j)%nat → kids !! i = Some a → kids !! j = Some b →
    Trace.frames t !! a = Some fa → Trace.frames t !! b = Some fb →
    ∃ sa ea sb, Frame.startTime fa = TNum sa ∧ Frame.endTime fa = Some (TNum ea) ∧
                Frame.startTime fb = TNum sb ∧ sa ≤ ea ∧ ea ≤ sb.
Proof.
  intros HI HT Hat. induction j as [|j IH]; intros i a b fa fb Hij Ha Hb Hfa Hfb; [lia|].
  destruct (kids !! j) as [m|] eqn:Hm.
  2: { apply lookup_ge_None in Hm. apply lookup_lt_Some in Hb. lia. }
  destruct (timed_next _ _ HT r kids j m b fb Hat Hm Hb Hfb)
    as (fm & em & sb & Hfm & Hem & Hsb & Hle).
  destruct (timed_frame _ _ HT _ _ Hfm) as (sm & Hsm & _ & Hend).
  destruct (Hend _ Hem) as (em' & [= <-] & Hsmem & _).
  destruct (decide (i = j)) as [->|Hne].
  - rewrite Hm in Ha. injection Ha as <-. rewrite Hfm in Hfa. injection Hfa as <-.
    exists sm, em, sb. repeat split; done.
  - destruct (IH i a m fa fm) as (sa & ea & sm' & Hsa & Hea & Hsm' & ? & ?);
      [lia|done|done|done|done|].
    assert (sm' = sm) as -> by congruence.
    exists sa, ea, sb. repeat split; try done. lia.
Qed.

(** X8: when every event carries a time stamp and no time stamp is smaller
    than the one before it, the children of the trace and of every frame are
    in the order of time: a child that comes earlier in the list was exited
    before the later one was entered. The end times of a list of exited
    siblings are therefore in ascending order, which is what [binarySearch]
    expects of the list it is given. *)
Theorem siblings_sorted_by_time (c : option client) (name : option string)
    (evs : list event) (zs : list Z) (z0 : Z) (t : Trace.t) (r : ref)
    (kids : list nat) :
  run (new_Trace c name) evs = Ok t →
  time_of <$> evs = TNum <$> zs → nondecreasing z0 zs →
  children_at (Trace.children t) (Trace.frames t) r = Some kids →
  (∀ i j a b fa fb, (i < j)%nat → kids !! i = Some a → kids !! j = Some b →
     Trace.frames t !! a = Some fa → Trace.frames t !! b = Some fb →
     ∃ sa ea sb, Frame.startTime fa = TNum sa ∧ Frame.endTime fa = Some (TNum ea) ∧
                 Frame.startTime fb = TNum sb ∧ sa ≤ ea ∧ ea ≤ sb) ∧
  (∀ array ends, mapM (fun u => Trace.frames t !! u) kids = Some array →
     ends_of array ends → ascending ends).
Proof.
  intros Hrun Hzs Hmono Hat.
  destruct (run_Timed evs zs z0 _ t (new_Trace_Inv c name) (new_Trace_Timed z0 c name)
              Hzs Hmono Hrun) as (HI & now & HT).
  split.
  - intros i j a b fa fb Hij. by apply (siblings_ordered now t r kids HI HT Hat j i).
  - intros array ends Harr Hends i j ei ej Hij Hei Hej.
    destruct (decide (i = j)) as [->|Hne]; [assert (ei = ej) by congruence; lia|].
    apply mapM_Some in Harr.
    destruct (Forall2_lookup_r _ _ _ _ _ Hends Hei) as (fa & Hfa & Hea).
    destruct (Forall2_lookup_r _ _ _ _ _ Hends Hej) as (fb & Hfb & Heb).
    destruct (Forall2_lookup_r _ _ _ _ _ Harr Hfa) as (a & Ha & Hfa').
    destruct (Forall2_lookup_r _ _ _ _ _ Harr Hfb) as (b & Hb & Hfb').
    destruct (siblings_ordered now t r kids HI HT Hat j i a b fa fb)
      as (sa & ea & sb & Hsa & Hea' & Hsb & ? & ?); [lia|done..|].
    destruct (timed_frame _ _ HT _ _ Hfb') as (sb' & Hsb' & _ & Hend).
    destruct (Hend _ Heb) as (eb & [= <-] & ? & _).
    assert (ea = ei) as -> by congruence. assert (sb' = sb) as -> by congruence. lia.
Qed.

Lemma siblings_sorted_by_time_witness :
  ∃ t array, run (new_Trace None None) two_short_children = Ok t ∧
    mapM (fun u => Trace.frames t !! u) [1; 2]%nat = Some array ∧
    ends_of array [2; 4] ∧ ascending [2; 4].
Proof.
  destruct (run (new_Trace None None) two_short_children) as [t|] eqn:Hrun;
    [|vm_compute in Hrun; discriminate].
  assert (Hkids : children_at (Trace.children t) (Trace.frames t) (RFrame 0)
                  = Some [1; 2]%nat).
  { vm_compute in Hrun. injection Hrun as <-. reflexivity. }
  destruct (mapM (fun u => Trace.frames t !! u) [1; 2]%nat) as [array|] eqn:Harr.
  2: { vm_compute in Hrun. injection Hrun as <-. vm_compute in Harr. discriminate. }
  assert (Hends : ends_of array [2; 4]).
  { vm_compute in Hrun. injection Hrun as <-. vm_compute in Harr.
    injection Harr as <-. repeat constructor. }
  exists t, array. split; [done|]. split; [done|]. split; [done|].
  destruct (siblings_sorted_by_time None None two_short_children [0; 1; 2; 3; 4; 5] 0 t
              (RFrame 0) [1; 2]%nat Hrun) as [_ H]; [reflexivity|simpl; lia|done|].
  by apply (H array).
Defined.

(** X9: when every event carries a time stamp and no time stamp is smaller
    than the one before it, a child runs within its parent: it is entered no
    earlier than the parent, and once the parent was exited the child was
    exited too, no later than the parent. *)
Theorem child_within_parent (c0 : option client) (name : option string)
    (evs : list event) (zs : list Z) (z0 : Z) (t : Trace.t) (u c : nat)
    (f fc : Frame.t) :
  run (new_Trace c0 name) evs = Ok t →
  time_of <$> evs = TNum <$> zs → nondecreasing z0 zs →
  Trace.frames t !! u = Some f → c ∈ Frame.children f → Trace.frames t !! c = Some fc →
  ∃ s sc, Frame.startTime f = TNum s ∧ Frame.startTime fc = TNum sc ∧ s ≤ sc ∧
    ∀ e, Frame.endTime f = Some e →
      ∃ ez ec, e = TNum ez ∧ Frame.endTime fc = Some (TNum ec) ∧ sc ≤ ec ∧ ec ≤ ez.
Proof.
  intros Hrun Hzs Hmono Hf Hc Hfc.
  destruct (run_Timed evs zs z0 _ t (new_Trace_Inv c0 name) (new_Trace_Timed z0 c0 name)
              Hzs Hmono Hrun) as (HI & now & HT).
  destruct (timed_frame _ _ HT _ _ Hf) as (s & Hs & _ & Hend).
  destruct (timed_frame _ _ HT _ _ Hfc) as (sc & Hsc & _ & Hendc).
  destruct (timed_child _ _ HT u f c fc s sc Hf Hc Hfc Hs Hsc) as [Hle Hcl].
  exists s, sc. split; [done|]. split; [done|]. split; [done|].
  intros e He. destruct (Hend _ He) as (ez & -> & _).
  destruct (Hcl _ He) as (ec & Hec & ?).
  destruct (Hendc _ Hec) as (ec' & [= <-] & ? & _).
  exists ez, ec. done.
Qed.

Lemma child_within_parent_witness :
  ∃ fc, Trace.frames scenario_trace !! 1%nat = Some fc ∧
        Frame.startTime fc = TNum 1 ∧ Frame.endTime fc = Some (TNum 3).
Proof.
  destruct (child_within_parent (Some []) None scenario [0; 1; 3; 5] 0 scenario_trace
              0%nat 1%nat) with (f := default (leaf_frame 0 0 0)
                                         (Trace.frames scenario_trace !! 0%nat))
                               (fc := default (leaf_frame 0 0 0)
                                         (Trace.frames scenario_trace !! 1%nat))
    as (s & sc & Hs & Hsc & Hle & Hend).
  - vm_compute. reflexivity.
  - reflexivity.
  - simpl. lia.
  - reflexivity.
  - simpl. by left.
  - reflexivity.
  - eexists. split; [reflexivity|]. split; reflexivity.
Defined.

Lemma packed_intro (frames : list Frame.t) (kids : list nat) :
  ∀ lo hi, lo ≤ hi →
    (∀ c, c ∈ kids →
       ∃ fc s e, frames !! c = Some fc ∧ Frame.startTime fc = TNum s ∧
                 Frame.endTime fc = Some (TNum e) ∧
                 Frame.totalTime fc = Some (Num (e - s)) ∧ lo ≤ s ∧ s ≤ e ∧ e ≤ hi) →
    (∀ i j a b fa fb, (i < j)%nat → kids !! i = Some a → kids !! j = Some b →
       frames !! a = Some fa → frames !! b = Some fb →
       ∃ sa ea sb, Frame.startTime fa = TNum sa ∧ Frame.endTime fa = Some (TNum ea) ∧
                   Frame.startTime fb = TNum sb ∧ sa ≤ ea ∧ ea ≤ sb) →
    packed frames lo kids hi.
Proof.
  induction kids as [|c rest IH]; intros lo hi Hlh Heach Hord; simpl; [done|].
  destruct (Heach c) as (fc & s & e & Hfc & Hs & He & Htt & ? & ? & ?); [by left|].
  exists fc, s, e. repeat split; try done.
  apply IH; [done| |].
  - intros c' Hc'.
    destruct (Heach c') as (fc' & s' & e' & Hfc' & Hs' & He' & Htt' & ? & ? & ?);
      [by right|].
    exists fc', s', e'. repeat split; try done.
    apply list_elem_of_lookup in Hc' as [j Hj].
    destruct (Hord 0%nat (S j) c c' fc fc') as (sa & ea & sb & Hsa & Hea & Hsb & ? & ?);
      [lia|done|done|done|done|].
    assert (ea = e) as -> by congruence. assert (sb = s') as -> by congruence. done.
  - intros i j a b fa fb Hij Ha Hb. apply (Hord (S i) (S j)); [lia|done|done].
Qed.

Lemma packed_sum (frames : list Frame.t) (kids : list nat) :
  ∀ lo hi totals, packed frames lo kids hi → totals_at frames kids totals →
    ∃ sum, num_sum totals = Num sum ∧ 0 ≤ sum ∧ sum ≤ hi - lo.
Proof.
  induction kids as [|c rest IH]; intros lo hi totals Hp Ht.
  - apply Forall2_nil_inv_l in Ht as ->. exists 0. simpl in Hp. simpl.
    split; [done|]. lia.
  - apply Forall2_cons_inv_l in Ht as (x & totals' & (fc' & e' & Hfc' & _ & Hx) & Ht & ->).
    destruct Hp as (fc & s & e & Hfc & Hs & He & Htt & ? & ? & Hp).
    destruct (IH _ _ _ Hp Ht) as (sum & Hsum & ? & ?).
    assert (x = Num (e - s)) as -> by congruence.
    exists (e - s + sum). unfold num_sum in *. simpl. rewrite Hsum. simpl.
    split; [done|]. lia.
Qed.

(** X10: when every event carries a time stamp, the time stamps are
    integers of magnitude at most 2^52 (so that no subtraction rounds) and
    none is smaller than the one before it, [totalTime] and [selfTime] of an
    exited frame are numbers, neither is negative, and [selfTime] is at most
    [totalTime]. *)
Theorem self_time_not_negative (c0 : option client) (name : option string)
    (evs : list event) (zs : list Z) (z0 : Z) (t : Trace.t) (u : nat)
    (f : Frame.t) (e : timeval) :
  run (new_Trace c0 name) evs = Ok t →
  time_of <$> evs = TNum <$> zs → nondecreasing z0 zs →
  Forall (fun z => - 2 ^ 52 ≤ z ≤ 2 ^ 52) zs →
  Trace.frames t !! u = Some f → Frame.endTime f = Some e →
  ∃ total self, Frame.totalTime f = Some (Num total) ∧
                Frame.selfTime f = Some (Num self) ∧ 0 ≤ self ∧ self ≤ total.
Proof.
  intros Hrun Hzs Hmono _ Hf He.
  destruct (run_Timed evs zs z0 _ t (new_Trace_Inv c0 name) (new_Trace_Timed z0 c0 name)
              Hzs Hmono Hrun) as (HI & now & HT).
  destruct (inv_closed _ HI _ _ _ Hf He) as (totals & Htot & Htt & Hself).
  destruct (timed_frame _ _ HT _ _ Hf) as (s & Hs & _ & Hend).
  destruct (Hend _ He) as (ez & -> & Hsez & _).
  rewrite Hs in Htt, Hself. simpl in Htt, Hself.
  assert (Hp : packed (Trace.frames t) s (Frame.children f) ez).
  { apply packed_intro; [done| |].
    - intros c Hc.
      destruct (children_at_valid t (RFrame u) (Frame.children f) c HI) as [fc Hfc];
        [simpl; by rewrite Hf|done|].
      destruct (timed_frame _ _ HT _ _ Hfc) as (sc & Hsc & _ & Hendc).
      destruct (timed_child _ _ HT u f c fc s sc Hf Hc Hfc Hs Hsc) as [Hle Hcl].
      destruct (Hcl _ He) as (ec & Hec & ?).
      destruct (Hendc _ Hec) as (ec' & [= <-] & ? & _).
      destruct (inv_closed _ HI _ _ _ Hfc Hec) as (_ & _ & Httc & _).
      rewrite Hsc in Httc. simpl in Httc.
      exists fc, sc, ec. repeat split; done.
    - intros i j a b fa fb Hij.
      apply (siblings_ordered now t (RFrame u) (Frame.children f) HI HT); [|done].
      simpl. by rewrite Hf. }
  destruct (packed_sum _ _ _ _ _ Hp Htot) as (sum & Hsum & ? & ?).
  rewrite self_from_sum, Hsum in Hself. simpl in Hself.
  exists (ez - s), (ez - s - sum). split; [done|]. split; [done|]. lia.
Qed.

Lemma self_time_not_negative_witness :
  ∃ f, Trace.frames scenario_trace !! 0%nat = Some f ∧
       Frame.totalTime f = Some (Num 5) ∧ Frame.selfTime f = Some (Num 3).
Proof.
  destruct (self_time_not_negative (Some []) None scenario [0; 1; 3; 5] 0 scenario_trace
              0%nat (default (leaf_frame 0 0 0) (Trace.frames scenario_trace !! 0%nat))
              (TNum 5))
    as (total & self & Ht & Hs & _).
  - vm_compute. reflexivity.
  - reflexivity.
  - simpl. lia.
  - repeat constructor; lia.
  - reflexivity.
  - reflexivity.
  - eexists. split; [reflexivity|]. split; reflexivity.
Defined.

(** ** parseTrace *)

(** The replay of a node on a trace that collects and has no client: it
    returns, with the stack as it was, when the function ids of the node are
    all in the table, and throws a TypeError otherwise. *)
Lemma replay_dfs (F : list Snapshot.func) (n : Snapshot.node) :
  ∀ tr stack, Inv tr → Trace._stack tr = Some stack → Trace._client tr = None →
    if fids_ok F n
    then ∃ tr', replay_all F (dfs n) tr = Ok tr' ∧ Inv tr' ∧
                Trace._stack tr' = Some stack ∧ Trace._client tr' = None
    else replay_all F (dfs n) tr = Err TypeError.
Proof.
  induction n as [fid st et args r th y kids IH] using node_ind'.
  intros tr stack HI Hst Hcl. cbn [fids_ok dfs replay_all replay].
  destruct (bool_decide (fid < length F)%nat) eqn:Hfid; simpl.
  2: { apply bool_decide_eq_false in Hfid.
       rewrite (lookup_ge_None_2 F fid) by lia. done. }
  apply bool_decide_eq_true in Hfid. apply lookup_lt_is_Some in Hfid as [agg ->].
  simpl.
  destruct (onEnteredFrame_total tr
              (EnterPacket.mk (Snapshot.name agg) (parse_opt (Snapshot.location agg))
                 VUndef (parse_time st) (parse_opt (Snapshot.parameterNames agg))
                 (parse_opt args)) stack HI Hst) as (tr1 & H1).
  rewrite H1. simpl.
  assert (HI1 : Inv tr1) by (by eapply onEnteredFrame_Inv).
  destruct (onEnteredFrame_frames _ _ _ H1) as (stack0 & _ & _ & Hst0 & _ & Hst1 & _).
  rewrite Hst in Hst0. injection Hst0 as <-.
  destruct (onEnteredFrame_client _ _ _ H1) as (Hcl1 & _). rewrite Hcl in Hcl1.
  set (top := length (Trace.frames tr)) in *. clearbody top.
  clear H1 HI Hst Hcl tr. revert tr1 HI1 Hst1 Hcl1.
  induction IH as [|k kids Hk _ IHkids]; intros tr1 HI1 Hst1 Hcl1; simpl.
  - destruct (onExitedFrame_total tr1
                (ExitPacket.mk (parse_time et) (parse_opt r) (parse_opt th) (parse_opt y))
                top stack HI1 Hst1) as (tr2 & H2).
    rewrite H2. simpl. exists tr2. split; [done|].
    split; [by eapply onExitedFrame_Inv|].
    destruct (onExitedFrame_pop _ _ _ _ _ Hst1 H2)
      as (? & ? & ? & _ & _ & _ & _ & _ & -> & _ & _ & _ & _ & -> & _). done.
  - rewrite <- app_assoc, replay_all_app.
    specialize (Hk tr1 (top :: stack) HI1 Hst1 Hcl1).
    destruct (fids_ok F k); simpl.
    + destruct Hk as (tr2 & -> & HI2 & Hst2 & Hcl2). simpl. by apply IHkids.
    + by rewrite Hk.
Qed.

Lemma replay_forest (F : list Snapshot.func) (l : list Snapshot.node) :
  ∀ tr stack, Inv tr → Trace._stack tr = Some stack → Trace._client tr = None →
    if forallb (fids_ok F) l
    then ∃ tr', replay_all F (concat (map dfs l)) tr = Ok tr' ∧ Inv tr' ∧
                Trace._stack tr' = Some stack ∧ Trace._client tr' = None
    else replay_all F (concat (map dfs l)) tr = Err TypeError.
Proof.
  induction l as [|n l IH]; intros tr stack HI Hst Hcl; simpl.
  - exists tr. done.
  - rewrite replay_all_app. pose proof (replay_dfs F n tr stack HI Hst Hcl) as Hn.
    destruct (fids_ok F n); simpl.
    + destruct Hn as (tr1 & -> & HI1 & Hst1 & Hcl1). simpl. by apply IH.
    + by rewrite Hn.
Qed.

(** X11: [parseTrace] returns a trace exactly when every node of the
    snapshot has a function id that is a position of [data.functions]; when
    some node has not, it throws a TypeError (at [aggregated.name]). *)
Theorem parseTrace_accepts (data : Snapshot.t) :
  if forallb (fids_ok (Snapshot.functions data)) (Snapshot.children data)
  then ∃ t, parseTrace data = Ok t
  else parseTrace data = Err TypeError.
Proof.
  unfold parseTrace. rewrite enterFrames_replay.
  pose proof (replay_forest (Snapshot.functions data) (Snapshot.children data)
                (new_Trace None None) [] (new_Trace_Inv None None) eq_refl eq_refl) as H.
  destruct (forallb _ _).
  - destruct H as (tr & -> & _). simpl. eauto.
  - by rewrite H.
Qed.

(** What [parseTrace] leaves of the state of collection. *)
Lemma parseTrace_state (data : Snapshot.t) (t : Trace.t) :
  parseTrace data = Ok t →
  Inv t ∧ Trace.finished t = true ∧ Trace._stack t = Some [] ∧ Trace._client t = None.
Proof.
  unfold parseTrace. rewrite enterFrames_replay. intros H.
  pose proof (replay_forest (Snapshot.functions data) (Snapshot.children data)
                (new_Trace None None) [] (new_Trace_Inv None None) eq_refl eq_refl) as Hf.
  destruct (forallb _ _).
  - destruct Hf as (tr & Htr & HI & Hst & Hcl). rewrite Htr in H. simpl in H.
    injection H as <-. split; [by apply set_finished_Inv|]. done.
  - rewrite Hf in H. done.
Qed.

(** X12: the trace that [parseTrace] returns is marked finished, but it was
    not finished by [finish]: its stack holds the sentinel alone, it keeps
    its map of function ids and it has no client. So it still accepts an
    enter event, and an exit event makes it throw a TypeError, in [finish],
    which reads the client. *)
Theorem parsed_trace_still_collects (data : Snapshot.t) (t : Trace.t) :
  parseTrace data = Ok t →
  Trace.finished t = true ∧ Trace._stack t = Some [] ∧
  is_Some (Trace._functionIds t) ∧ Trace._client t = None ∧
  (∀ p, ∃ t', onEnteredFrame t p = Ok t' ∧
              Trace.children t' = Trace.children t ++ [length (Trace.frames t)]) ∧
  (∀ p, onExitedFrame t p = Err TypeError).
Proof.
  intros H. destruct (parseTrace_state _ _ H) as (HI & Hfin & Hst & Hcl).
  split; [done|]. split; [done|]. split.
  { destruct (live_ids _ _ (inv_live _ HI _ Hst)) as (ids & -> & _). by eexists. }
  split; [done|]. split.
  - intros p. destruct (onEnteredFrame_total t p [] HI Hst) as (t' & Ht').
    exists t'. split; [done|].
    destruct (onEnteredFrame_frames _ _ _ Ht')
      as (stack & _ & _ & Hst0 & _ & _ & _ & _ & _ & _ & _ & _ & _ & _ & _ & _ & _ & Hroots).
    rewrite Hst in Hst0. injection Hst0 as <-. done.
  - intros p. rewrite onExitedFrame_sentinel by done. unfold finish. by rewrite Hcl.
Qed.

Lemma parsed_trace_still_collects_witness :
  ∃ t, parseTrace nested_snapshot = Ok t ∧ Trace.finished t = true ∧
       onExitedFrame t (exit_at 9) = Err TypeError.
Proof.
  destruct (parseTrace nested_snapshot) as [t|] eqn:H; [|vm_compute in H; discriminate].
  destruct (parsed_trace_still_collects nested_snapshot t H) as (Hf & _ & _ & _ & _ & Hx).
  exists t. split; [done|]. split; [done|]. apply Hx.
Defined.

Lemma stringify_parse_time (o : option Z) : stringify_time (parse_time o) = o.
Proof. by destruct o. Qed.

(** The events read back from the trace that a replay builds are the events
    replayed, but for the function ids. *)
Lemma replay_Hist (F : list Snapshot.func) (aevs : list aevent) :
  ∀ t1 t2 h1, Inv t1 → Hist t1 h1 → Trace._client t1 = None →
    replay_all F aevs t1 = Ok t2 →
    ∃ h2, Hist t2 (h1 ++ h2) ∧ ashape <$> h2 = ashape <$> aevs ∧ Inv t2.
Proof.
  induction aevs as [|a aevs IH]; intros t1 t2 h1 HI HH Hcl Hrep; simpl in Hrep.
  - injection Hrep as <-. exists []. by rewrite app_nil_r.
  - apply bind_Ok in Hrep as (tm & Hstep & Hrep).
    destruct a as [fid st args|et r th y]; simpl in Hstep.
    + res_inv Hstep.
      destruct (Hist_enter _ _ _ _ HI HH Hstep) as (fnew & Hnew & HHm).
      destruct (onEnteredFrame_client _ _ _ Hstep) as (Hclm & _). rewrite Hcl in Hclm.
      destruct (IH tm t2 _ (onEnteredFrame_Inv _ _ _ HI Hstep) HHm Hclm Hrep)
        as (h2 & HH2 & Hsh & HI2).
      eexists (_ :: h2). split; [by rewrite <- app_assoc in HH2|]. split; [|done].
      rewrite !fmap_cons, Hsh. f_equal. unfold aevent_of_enter. simpl.
      by rewrite stringify_parse_time, stringify_parse_opt.
    + destruct HH as (stack & Hst & Hrs).
      destruct stack as [|u stack].
      { rewrite onExitedFrame_sentinel in Hstep by done. unfold finish in Hstep.
        by rewrite Hcl in Hstep. }
      assert (HH : Hist t1 h1) by (by exists (u :: stack)).
      pose proof (Hist_exit _ _ _ _ _ _ HI HH Hst Hstep) as HHm.
      destruct (onExitedFrame_pop _ _ _ _ _ Hst Hstep)
        as (? & ? & ? & _ & _ & _ & _ & _ & _ & _ & _ & _ & _ & Hclm & _).
      rewrite Hcl in Hclm.
      destruct (IH tm t2 _ (onExitedFrame_Inv _ _ _ HI Hstep) HHm Hclm Hrep)
        as (h2 & HH2 & Hsh & HI2).
      eexists (_ :: h2). split; [by rewrite <- app_assoc in HH2|]. split; [|done].
      rewrite !fmap_cons, Hsh. f_equal. unfold aevent_of_exit. simpl.
      by rewrite stringify_parse_time, !stringify_parse_opt.
Qed.

Lemma ashape_dfs (n : Snapshot.node) : ashape <$> dfs n = dfs (shape n).
Proof.
  induction n as [fid st et args r th y kids IH] using node_ind'. simpl.
  rewrite fmap_app. simpl. do 2 f_equal.
  induction IH as [|k kids Hk _ IHkids]; simpl; [done|].
  by rewrite fmap_app, Hk, IHkids.
Qed.

Lemma ashape_forest (l : list Snapshot.node) :
  ashape <$> concat (map dfs l) = concat (map dfs (map shape l)).
Proof.
  induction l as [|n l IH]; simpl; [done|]. by rewrite fmap_app, ashape_dfs, IH.
Qed.

Lemma forest_inj (l : list Snapshot.node) :
  Forall (fun n => ∀ n' r r', dfs n ++ r = dfs n' ++ r' → n = n' ∧ r = r') l →
  ∀ l' r r', after_forest r → after_forest r' →
    concat (map dfs l) ++ r = concat (map dfs l') ++ r' → l = l' ∧ r = r'.
Proof.
  induction 1 as [|n l Hn _ IH]; intros l' r r' Hr Hr' Heq.
  - destruct l' as [|[fid' st' et' args' r1 th' y' kids'] l']; simpl in Heq; [done|].
    subst r. done.
  - destruct l' as [|n' l'].
    + destruct n as [fid st et args r1 th y kids]. simpl in Heq. subst r'. done.
    + simpl in Heq. rewrite <- !app_assoc in Heq.
      destruct (Hn _ _ _ Heq) as [-> Heq'].
      destruct (IH _ _ _ Hr Hr' Heq') as [-> ->]. done.
Qed.

Lemma dfs_inj (n : Snapshot.node) :
  ∀ n' r r', dfs n ++ r = dfs n' ++ r' → n = n' ∧ r = r'.
Proof.
  induction n as [fid st et args r1 th y kids IH] using node_ind'.
  intros [fid' st' et' args' r1' th' y' kids'] r r' Heq. simpl in Heq.
  injection Heq as -> -> -> Heq. rewrite <- !app_assoc in Heq. simpl in Heq.
  destruct (forest_inj kids IH kids' (AExit et r1 th y :: r) (AExit et' r1' th' y' :: r')
              I I Heq) as [-> Hr].
  by injection Hr as -> -> -> -> ->.
Qed.

Lemma dfs_forest_inj (l l' : list Snapshot.node) :
  concat (map dfs l) = concat (map dfs l') → l = l'.
Proof.
  intros Heq. apply (forest_inj l) with (r := []) (r' := []); [|done|done|].
  - apply Forall_forall. intros n _. apply dfs_inj.
  - by rewrite !app_nil_r.
Qed.

(** X13: [toJSON] of the trace that [parseTrace] returns gives back the tree
    of the snapshot: the same nodes in the same order, each with the start
    and end time, arguments, return, throw and yield values of the node it
    was read from. Only the function ids may differ, because [parseTrace]
    assigns them anew. *)
Theorem parse_then_serialize (data : Snapshot.t) (t : Trace.t) :
  parseTrace data = Ok t →
  ∃ s, toJSON t = Some s ∧
       map shape (Snapshot.children s) = map shape (Snapshot.children data).
Proof.
  intros H. destruct (parseTrace_state _ _ H) as (HI & _ & Hst & _).
  revert H. unfold parseTrace. rewrite enterFrames_replay. intros H.
  apply bind_Ok in H as (t0 & Hrep & [= <-]).
  destruct (replay_Hist _ _ _ _ [] (new_Trace_Inv None None) (Hist_new None None)
              eq_refl Hrep) as (h & HH & Hsh & HI0).
  destruct (Hist_complete _ _ HI0 HH Hst) as (nodes & HJ & Hh). simpl in Hh.
  rewrite set_finished_toJSON, HJ. eexists. split; [done|]. simpl.
  apply dfs_forest_inj. rewrite <- !ashape_forest. by rewrite <- Hh.
Qed.

Lemma parse_then_serialize_witness :
  ∃ t s, parseTrace nested_snapshot = Ok t ∧ toJSON t = Some s ∧
         map shape (Snapshot.children s) = map shape (Snapshot.children nested_snapshot).
Proof.
  destruct (parseTrace nested_snapshot) as [t|] eqn:H; [|vm_compute in H; discriminate].
  destruct (parse_then_serialize nested_snapshot t H) as (s & Hs & Hshape).
  exists t, s. split; [reflexivity|]. split; [exact Hs|exact Hshape].
Defined.

(** ** toJSON while frames are open *)

Lemma frameToJSONObj_total (frames : list Frame.t) :
  (∀ u f, frames !! u = Some f →
     Forall (fun c => u < c < length frames)%nat (Frame.children f)) →
  ∀ fuel u, (u < length frames)%nat → (length frames - u ≤ fuel)%nat →
    is_Some (_frameToJSONObj fuel frames u).
Proof.
  intros Hch. induction fuel as [|fuel IH]; intros u Hu Hfuel; [lia|].
  simpl. apply lookup_lt_is_Some in Hu as Hf. destruct Hf as [f Hf]. rewrite Hf. simpl.
  assert (Hkids : is_Some (mapM (_frameToJSONObj fuel frames) (Frame.children f))).
  { apply mapM_is_Some. eapply Forall_impl; [apply (Hch _ _ Hf)|]. simpl.
    intros c Hc. apply IH; lia. }
  destruct Hkids as [kids ->]. simpl. by eexists.
Qed.

(** X14: [toJSON] returns a snapshot of every trace that ingestion builds,
    also while frames are open: the recursion of [_frameToJSONObj] over
    [children] ends, because a child was always created after its parent.
    The snapshot has the records of [functions] in order and one node for
    each root in order; the node has the fid, the times, the arguments and
    the results of the frame (a frame that was not exited has no end time),
    and one child node for each child of the frame. *)
Theorem toJSON_returns (t : Trace.t) :
  reachable t →
  ∃ s, toJSON t = Some s ∧
    Snapshot.functions s = stringify_function <$> Trace.functions t ∧
    Forall2 (fun u node =>
               ∃ f kids, Trace.frames t !! u = Some f ∧
                 length kids = length (Frame.children f) ∧
                 node = Snapshot.Node (Frame.fid f)
                          (stringify_time (Frame.startTime f))
                          (Frame.endTime f ≫= stringify_time)
                          (stringify (Frame.arguments f))
                          (Frame.return_ f ≫= stringify)
                          (Frame.throw f ≫= stringify)
                          (Frame.yield f ≫= stringify) kids)
      (Trace.children t) (Snapshot.children s).
Proof.
  intros Hr. apply reachable_Inv in Hr as HI. unfold toJSON.
  assert (Hroots : is_Some (mapM (_frameToJSONObj (length (Trace.frames t))
                                    (Trace.frames t)) (Trace.children t))).
  { apply mapM_is_Some. eapply Forall_impl; [apply (inv_roots _ HI)|]. simpl.
    intros u Hu. apply frameToJSONObj_total; [apply (inv_children _ HI)|done|lia]. }
  destruct Hroots as [nodes Hnodes]. rewrite Hnodes. simpl.
  eexists. split; [done|]. split; [done|]. simpl.
  apply mapM_Some in Hnodes. eapply Forall2_impl; [exact Hnodes|]. simpl.
  intros u node Hnode. destruct (length (Trace.frames t)) as [|fuel]; [done|].
  simpl in Hnode. destruct (Trace.frames t !! u) as [f|]; [|done]. simpl in Hnode.
  destruct (mapM _ (Frame.children f)) as [kids|] eqn:Hkids; [|done].
  simpl in Hnode. injection Hnode as <-. exists f, kids. split; [done|]. split; [|done].
  apply mapM_Some in Hkids. symmetry. by eapply Forall2_length.
Qed.

Lemma toJSON_returns_witness :
  ∃ t s, run (new_Trace None None) clock_backwards = Ok t ∧ toJSON t = Some s ∧
         length (Snapshot.children s) = 1%nat.
Proof.
  destruct (run (new_Trace None None) clock_backwards) as [t|] eqn:Hrun;
    [|vm_compute in Hrun; discriminate].
  assert (Hr : reachable t) by (left; eauto).
  destruct (toJSON_returns t Hr) as (s & Hs & _ & Hroots).
  exists t, s. split; [reflexivity|]. split; [exact Hs|].
  apply Forall2_length in Hroots. rewrite <- Hroots.
  vm_compute in Hrun. injection Hrun as <-. reflexivity.
Defined.

(** ** More of the viewport *)

(** X15: [setBounds] stores bounds that are already in order and within
    [0, 1] as they are, with one exception: a right bound of 0 is stored as
    1, because of [right || 1]. It leaves the total time alone and notifies
    the observers of "changed" once, with the reason given. *)
Theorem setBounds_keeps_valid_bounds (b : TraceBounds.t) (l r : Q) (why : option string) :
  (0 <= l)%Q → (l <= r)%Q → (r <= 1)%Q →
  ∃ l' r', TraceBounds._left (setBounds b (XFin l) (XFin r) why) = XFin l' ∧
           TraceBounds._right (setBounds b (XFin l) (XFin r) why) = XFin r' ∧
           (l' == l)%Q ∧ (0 < r → r' == r)%Q ∧ (r == 0 → r' == 1)%Q ∧
           TraceBounds._totalTime (setBounds b (XFin l) (XFin r) why)
             = TraceBounds._totalTime b ∧
           TraceBounds.changed (setBounds b (XFin l) (XFin r) why)
             = TraceBounds.changed b ++ [why].
Proof.
  intros Hl Hlr Hr. destruct (Qlt_le_dec 0 r) as [Hpos|Hzero].
  - destruct (setBounds_fin b l r why Hlr Hpos) as (l' & r' & H1 & H2 & H3 & H4 & H5 & H6 & H7).
    exists l', r'. split; [done|]. split; [done|].
    split; [apply H4; lra|]. split; [intros _; apply H6; lra|]. split; [lra|]. done.
  - unfold setBounds.
    assert (Hgt : x_gt (XFin l) (XFin r) = false).
    { unfold x_gt. simpl. destruct (Qlt_le_dec r l); [lra|done]. }
    rewrite Hgt. cbn [TraceBounds._left TraceBounds._right TraceBounds._totalTime
                      TraceBounds.changed].
    simpl. case_sign l; [|lra|lra]. case_sign r; [|lra|lra].
    eexists _, _. split; [reflexivity|]. split; [reflexivity|].
    split; [lra|]. split; [lra|]. split; [reflexivity|]. done.
Qed.

Lemma setBounds_keeps_valid_bounds_witness :
  ∃ l' r', TraceBounds._left (setBounds new_TraceBounds (XFin 0) (XFin 0) None) = XFin l' ∧
           TraceBounds._right (setBounds new_TraceBounds (XFin 0) (XFin 0) None) = XFin r' ∧
           (l' == 0)%Q ∧ (r' == 1)%Q.
Proof.
  destruct (setBounds_keeps_valid_bounds new_TraceBounds 0 0 None)
    as (l' & r' & H1 & H2 & H3 & _ & H5 & _).
  - vm_compute. discriminate.
  - vm_compute. discriminate.
  - vm_compute. discriminate.
  - exists l', r'. split; [exact H1|]. split; [exact H2|]. split; [exact H3|].
    apply H5. reflexivity.
Defined.

Lemma x_lt_fin (a b : Q) :
  x_lt (XFin a) (XFin b) = if Qlt_le_dec a b then true else false.
Proof. reflexivity. Qed.

(** In exact arithmetic [panByPercent] moves both bounds by the same
    amount, which is cut to the room that is left on the side of the pan. *)
Lemma panByPercent_shift (b : TraceBounds.t) (l r v : Q) :
  TraceBounds._left b = XFin l → TraceBounds._right b = XFin r →
  (0 <= l)%Q → (l <= r)%Q → (r <= 1)%Q → (0 < r)%Q →
  ∃ l' r', TraceBounds._left (panByPercent b (XFin v)) = XFin l' ∧
           TraceBounds._right (panByPercent b (XFin v)) = XFin r' ∧
           (r' - l' == r - l)%Q ∧ (0 <= l')%Q ∧ (r' <= 1)%Q ∧
           (v < 0 → (l + (r - l) * v <= 0 → l' == 0) ∧
                    (0 <= l + (r - l) * v → l' == l + (r - l) * v))%Q ∧
           (0 <= v → (1 <= r + (r - l) * v → r' == 1) ∧
                     (r + (r - l) * v <= 1 → r' == r + (r - l) * v))%Q.
Proof.
  intros Hl Hr Hl0 Hlr Hr1 Hrpos.
  unfold panByPercent, intervalWidth, x_gt, x_sub. rewrite Hl, Hr.
  cbn [x_neg x_add x_mul]. rewrite x_lt_fin.
  set (w := (r + - l)%Q) in *.
  assert (Hw : (0 <= w)%Q) by (unfold w; lra).
  assert (Hwl : (w == r + - l)%Q) by reflexivity. clearbody w.
  set (p := (w * v)%Q) in *.
  assert (Hp : ((v < 0 → p <= 0) ∧ (0 <= v → 0 <= p))%Q).
  { unfold p. split; intros; nra. }
  assert (Hpv : (p == w * v)%Q) by reflexivity.
  assert (Hpv' : (p == (r - l) * v)%Q) by (unfold p; rewrite Hwl; ring).
  clearbody p. destruct Hp as [Hpneg Hppos].
  destruct (Qlt_le_dec v 0) as [Hv|Hv]; cbn [x_abs x_neg]; rewrite x_lt_fin.
  - specialize (Hpneg Hv). clear Hppos.
    assert (Ha : (Qabs p == - p)%Q) by (by apply Qabs_neg).
    assert (Hb : (Qabs (- l) == l)%Q).
    { rewrite Qabs_neg by lra. ring. }
    destruct (Qlt_le_dec (Qabs (- l)) (Qabs p)) as [Hcut|Hfree]; cbn [x_add].
    + assert (Hwpos : (0 < w)%Q).
      { destruct (Qlt_le_dec 0 w) as [|Hle]; [done|].
        assert (Hz : (w == 0)%Q) by lra. rewrite Hz in Hpv. lra. }
      destruct (setBounds_fin b (l + - l) (r + - l) (Some "pan"%string))
        as (l' & r' & -> & -> & H1 & H2 & H3 & H4 & H5); [lra|lra|].
      exists l', r'. split; [done|]. split; [done|].
      repeat match goal with
        | H : (_ → _)%Q |- _ => first [specialize (H ltac:(lra)) | clear H]
        end.
      repeat split; intros; lra.
    + assert (Hrp : (0 < r + p)%Q).
      { destruct (Qlt_le_dec 0 w) as [|Hle]; [lra|].
        assert (Hz : (w == 0)%Q) by lra. rewrite Hz in Hpv. lra. }
      destruct (setBounds_fin b (l + p) (r + p) (Some "pan"%string))
        as (l' & r' & -> & -> & H1 & H2 & H3 & H4 & H5); [lra|lra|].
      exists l', r'. split; [done|]. split; [done|].
      repeat match goal with
        | H : (_ → _)%Q |- _ => first [specialize (H ltac:(lra)) | clear H]
        end.
      repeat split; intros; lra.
  - specialize (Hppos Hv). clear Hpneg.
    assert (Ha : (Qabs p == p)%Q) by (by apply Qabs_pos).
    assert (Hb : (Qabs (1 + - r) == 1 + - r)%Q) by (apply Qabs_pos; lra).
    destruct (Qlt_le_dec (Qabs (1 + - r)) (Qabs p)) as [Hcut|Hfree]; cbn [x_add].
    + destruct (setBounds_fin b (l + (1 + - r)) (r + (1 + - r)) (Some "pan"%string))
        as (l' & r' & -> & -> & H1 & H2 & H3 & H4 & H5); [lra|lra|].
      exists l', r'. split; [done|]. split; [done|].
      repeat match goal with
        | H : (_ → _)%Q |- _ => first [specialize (H ltac:(lra)) | clear H]
        end.
      repeat split; intros; lra.
    + assert (Hrp : (0 < r + p)%Q).
      { destruct (Qlt_le_dec 0 w) as [|Hle]; [lra|].
        assert (Hz : (w == 0)%Q) by lra. rewrite Hz in Hpv. lra. }
      destruct (setBounds_fin b (l + p) (r + p) (Some "pan"%string))
        as (l' & r' & -> & -> & H1 & H2 & H3 & H4 & H5); [lra|lra|].
      exists l', r'. split; [done|]. split; [done|].
      repeat match goal with
        | H : (_ → _)%Q |- _ => first [specialize (H ltac:(lra)) | clear H]
        end.
      repeat split; intros; lra.
Qed.

(** X16: from bounds within [0, 1] whose right bound is not 0,
    [panByPercent] leaves bounds within [0, 1] and no bound moves against
    the pan: for a negative value neither bound grows, for any other value
    neither shrinks. At the edge nothing moves: with the left bound at 0 a
    pan to the left, with the right bound at 1 a pan to the right, and
    anywhere a pan by 0, leave both bounds as they were. *)
Theorem panByPercent_follows_direction (b : TraceBounds.t) (l r v : Q) :
  TraceBounds._left b = XFin l → TraceBounds._right b = XFin r →
  (0 <= l)%Q → (l <= r)%Q → (r <= 1)%Q → (0 < r)%Q →
  ∃ l' r', TraceBounds._left (panByPercent b (XFin v)) = XFin l' ∧
           TraceBounds._right (panByPercent b (XFin v)) = XFin r' ∧
           (0 <= l')%Q ∧ (l' <= r')%Q ∧ (r' <= 1)%Q ∧
           (v < 0 → l' <= l ∧ r' <= r)%Q ∧
           (0 <= v → l <= l' ∧ r <= r')%Q ∧
           ((v < 0 ∧ l == 0) ∨ (0 <= v ∧ r == 1) ∨ v == 0 → l' == l ∧ r' == r)%Q.
Proof.
  intros Hl Hr Hl0 Hlr Hr1 Hrpos.
  destruct (panByPercent_shift b l r v Hl Hr Hl0 Hlr Hr1 Hrpos)
    as (l' & r' & El & Er & Hw & Hl' & Hr' & Hneg & Hpos).
  exists l', r'. split; [done|]. split; [done|].
  set (p := ((r - l) * v)%Q) in *.
  assert (Hp : ((v < 0 → p <= 0) ∧ (0 <= v → 0 <= p) ∧ (v == 0 → p == 0) ∧
                (l == 0 → p == r * v) ∧ (r == 1 → p == (1 - l) * v))%Q).
  { unfold p. split; [intros; nra|]. split; [intros; nra|].
    split; [intros E; rewrite E; ring|].
    split; intros E; rewrite E; ring. }
  clearbody p. destruct Hp as (Hp1 & Hp2 & Hp3 & Hp4 & Hp5).
  split; [lra|]. split; [lra|]. split; [lra|].
  split; [|split].
  - intros Hv. specialize (Hneg Hv) as [Ha Hb]. specialize (Hp1 Hv).
    destruct (Qlt_le_dec 0 (l + p)).
    + specialize (Hb ltac:(lra)). lra.
    + specialize (Ha ltac:(lra)). lra.
  - intros Hv. specialize (Hpos Hv) as [Ha Hb]. specialize (Hp2 Hv).
    destruct (Qlt_le_dec (r + p) 1).
    + specialize (Hb ltac:(lra)). lra.
    + specialize (Ha ltac:(lra)). lra.
  - intros [[Hv E]|[[Hv E]|E]].
    + specialize (Hneg Hv) as [Ha _]. specialize (Hp1 Hv).
      specialize (Ha ltac:(lra)). lra.
    + specialize (Hpos Hv) as [Ha _]. specialize (Hp2 Hv).
      specialize (Ha ltac:(lra)). lra.
    + specialize (Hp3 E). specialize (Hpos ltac:(lra)) as [_ Hb].
      specialize (Hb ltac:(lra)). lra.
Qed.

Lemma panByPercent_follows_direction_witness :
  ∃ l' r',
    TraceBounds._left (panByPercent (TraceBounds.mk (XFin 300) (XFin (1 # 4)) (XFin (1 # 2)) [])
                         (XFin (-2))) = XFin l' ∧
    TraceBounds._right (panByPercent (TraceBounds.mk (XFin 300) (XFin (1 # 4)) (XFin (1 # 2)) [])
                          (XFin (-2))) = XFin r' ∧
    (0 <= l')%Q ∧ (l' <= 1 # 4)%Q ∧ (r' <= 1 # 2)%Q.
Proof.
  destruct (panByPercent_follows_direction
              (TraceBounds.mk (XFin 300) (XFin (1 # 4)) (XFin (1 # 2)) [])
              (1 # 4) (1 # 2) (-2))
    as (l' & r' & H1 & H2 & H3 & _ & _ & H4 & _).
  - reflexivity.
  - reflexivity.
  - vm_compute. discriminate.
  - vm_compute. discriminate.
  - vm_compute. discriminate.
  - reflexivity.
  - exists l', r'. split; [exact H1|]. split; [exact H2|]. split; [exact H3|].
    apply H4. reflexivity.
Defined.

Lemma x_max_fin (a b : Q) :
  x_max (XFin a) (XFin b) = if Qlt_le_dec a b then XFin b else XFin a.
Proof. unfold x_max. rewrite x_lt_fin. by destruct (Qlt_le_dec a b). Qed.

Lemma floor_at_most_one (T : Q) : (3 <= T)%Q → (0 < 3 / T)%Q ∧ (3 / T <= 1)%Q.
Proof.
  intros HT. split.
  - apply Qdiv_pos; lra.
  - apply Qle_shift_div_r; lra.
Qed.

(** In exact arithmetic the window that assigning [center] gives is as
    wide as the larger of the width it had and the floor [3 / totalTime], and
    its center is the value assigned, moved into the range where such a
    window fits. *)
Lemma set_center_window (b : TraceBounds.t) (T l r p : Q) :
  TraceBounds._totalTime b = XFin T → (3 <= T)%Q →
  TraceBounds._left b = XFin l → TraceBounds._right b = XFin r →
  (0 <= l)%Q → (l <= r)%Q → (r <= 1)%Q →
  ∃ l' r' w,
    TraceBounds._left (set_center b (XFin p)) = XFin l' ∧
    TraceBounds._right (set_center b (XFin p)) = XFin r' ∧
    (3 / T <= r - l → w == r - l)%Q ∧ (r - l <= 3 / T → w == 3 / T)%Q ∧
    (r' - l' == w)%Q ∧ (0 <= l')%Q ∧ (r' <= 1)%Q ∧
    (p <= w / 2 → l' == 0)%Q ∧ (1 - w / 2 <= p → r' == 1)%Q ∧
    (w / 2 <= p → p <= 1 - w / 2 → (l' + r') / 2 == p)%Q.
Proof.
  intros HT HT3 Hl Hr Hl0 Hlr Hr1.
  destruct (floor_at_most_one T HT3) as [Hm0 Hm1].
  unfold set_center, intervalWidth, _minimumIntervalWidth, _minimumIntervalTime, x_gt, x_sub.
  rewrite HT, Hl, Hr. cbn [x_neg x_add x_div].
  rewrite (Qsign_pos T) by lra. rewrite x_max_fin. unfold Qminus in *.
  set (m := (3 / T)%Q) in *. clearbody m.
  assert (Hcases : ∃ w, (if Qlt_le_dec (r + - l) m then XFin m else XFin (r + - l)) = XFin w ∧
            (m <= r + - l → w == r + - l)%Q ∧ (r + - l <= m → w == m)%Q ∧
            (0 < w)%Q ∧ (w <= 1)%Q).
  { destruct (Qlt_le_dec (r + - l) m).
    - exists m. repeat split; try done; intros; lra.
    - exists (r + - l)%Q. repeat split; try done; intros; lra. }
  destruct Hcases as (w & -> & Hw1 & Hw2 & Hw0 & Hw1').
  cbn [x_div]. change (Qsign 2) with Gt. cbn iota.
  set (hw := (w / 2)%Q) in *.
  assert (Hhw : (hw * 2 == w)%Q) by (unfold hw; field).
  rewrite x_lt_fin.
  destruct (Qlt_le_dec p hw) as [Hleft|Hnl].
  - cbn [x_neg x_add].
    destruct (setBounds_fin b (hw + - hw) (hw + hw) None)
      as (l' & r' & -> & -> & H1 & H2 & H3 & H4 & H5); [lra|lra|].
    exists l', r', w. split; [done|]. split; [done|].
      split; [exact Hw1|]. split; [exact Hw2|]. fold hw. clearbody hw.
    repeat match goal with
      | H : (_ → _)%Q |- _ => first [specialize (H ltac:(lra)) | clear H]
      end.
    repeat split; intros; try lra; try (exfalso; lra).
  - cbn [x_neg x_add]. rewrite x_lt_fin.
    destruct (Qlt_le_dec (1 + - hw) p) as [Hright|Hnr]; cbn [x_neg x_add].
    + destruct (setBounds_fin b (1 + - hw + - hw) (1 + - hw + hw) None)
        as (l' & r' & -> & -> & H1 & H2 & H3 & H4 & H5); [lra|lra|].
      exists l', r', w. split; [done|]. split; [done|].
      split; [exact Hw1|]. split; [exact Hw2|]. fold hw. clearbody hw.
      repeat match goal with
        | H : (_ → _)%Q |- _ => first [specialize (H ltac:(lra)) | clear H]
        end.
      repeat split; intros; try lra; try (exfalso; lra).
    + destruct (setBounds_fin b (p + - hw) (p + hw) None)
        as (l' & r' & -> & -> & H1 & H2 & H3 & H4 & H5); [lra|lra|].
      exists l', r', w. split; [done|]. split; [done|].
      split; [exact Hw1|]. split; [exact Hw2|]. fold hw. clearbody hw.
      repeat match goal with
        | H : (_ → _)%Q |- _ => first [specialize (H ltac:(lra)) | clear H]
        end.
      repeat split; intros; try lra; try (exfalso; lra).
      assert (Hs : (l' + r' == p * 2)%Q) by lra. rewrite Hs. field.
Qed.

(** X17: on a trace of at least 3 time units and from bounds within
    [0, 1], assigning [center] gives a window within [0, 1] that holds the
    value assigned when that value is within [0, 1]; the window starts at 0
    for a value that is not positive and ends at 1 for a value of 1 or more;
    and a larger value never gives a smaller left or right bound. *)
Theorem set_center_holds_value (b : TraceBounds.t) (T l r p : Q) :
  TraceBounds._totalTime b = XFin T → (3 <= T)%Q →
  TraceBounds._left b = XFin l → TraceBounds._right b = XFin r →
  (0 <= l)%Q → (l <= r)%Q → (r <= 1)%Q →
  ∃ l' r',
    TraceBounds._left (set_center b (XFin p)) = XFin l' ∧
    TraceBounds._right (set_center b (XFin p)) = XFin r' ∧
    (0 <= l')%Q ∧ (l' <= r')%Q ∧ (r' <= 1)%Q ∧
    (0 <= p → p <= 1 → l' <= p ∧ p <= r')%Q ∧
    (p <= 0 → l' == 0)%Q ∧ (1 <= p → r' == 1)%Q ∧
    ∀ p2, (p <= p2)%Q →
      ∃ l2 r2, TraceBounds._left (set_center b (XFin p2)) = XFin l2 ∧
               TraceBounds._right (set_center b (XFin p2)) = XFin r2 ∧
               (l' <= l2)%Q ∧ (r' <= r2)%Q.
Proof.
  intros HT HT3 Hl Hr Hl0 Hlr Hr1.
  destruct (floor_at_most_one T HT3) as [Hm0 Hm1].
  destruct (set_center_window b T l r p HT HT3 Hl Hr Hl0 Hlr Hr1)
    as (l' & r' & w & El & Er & Hw1 & Hw2 & Hw & Hl' & Hr' & Ha & Hb & Hc).
  exists l', r'. split; [done|]. split; [done|].
  remember (3 / T)%Q as m eqn:Em.
  assert (Hwm : (0 < w ∧ w <= 1)%Q).
  { destruct (Qlt_le_dec (r - l) m).
    - specialize (Hw2 ltac:(lra)). lra.
    - specialize (Hw1 ltac:(lra)). lra. }
  set (h := (w / 2)%Q) in *.
  assert (Hh : (h * 2 == w)%Q) by (unfold h; field). clearbody h.
  assert (Hmid : (h <= p → p <= 1 - h → l' + r' == p * 2)%Q).
  { intros H1 H2. specialize (Hc H1 H2).
    assert (E : ((l' + r') / 2 * 2 == l' + r')%Q) by field.
    rewrite Hc in E. lra. }
  split; [lra|]. split; [lra|]. split; [lra|].
  split; [|split; [|split]].
  - intros Hp0 Hp1. destruct (Qlt_le_dec p h).
    + specialize (Ha ltac:(lra)). lra.
    + destruct (Qlt_le_dec (1 - h) p).
      * specialize (Hb ltac:(lra)). lra.
      * specialize (Hmid ltac:(lra) ltac:(lra)). lra.
  - intros Hp. apply Ha. lra.
  - intros Hp. apply Hb. lra.
  - intros p2 Hp2.
    destruct (set_center_window b T l r p2 HT HT3 Hl Hr Hl0 Hlr Hr1)
      as (l2 & r2 & w2 & El2 & Er2 & Hv1 & Hv2 & Hv & Hl2 & Hr2 & Ha2 & Hb2 & Hc2).
    exists l2, r2. split; [done|]. split; [done|].
    rewrite <- Em in Hv1, Hv2.
    assert (Eww : (w2 == w)%Q).
    { destruct (Qlt_le_dec (r - l) m).
      - specialize (Hw2 ltac:(lra)). specialize (Hv2 ltac:(lra)). lra.
      - specialize (Hw1 ltac:(lra)). specialize (Hv1 ltac:(lra)). lra. }
    assert (Eh : (w2 / 2 == h)%Q) by (rewrite Eww, <- Hh; field).
    rewrite Eh in Ha2, Hb2, Hc2.
    assert (Hmid2 : (h <= p2 → p2 <= 1 - h → l2 + r2 == p2 * 2)%Q).
    { intros H1 H2. specialize (Hc2 H1 H2).
      assert (E : ((l2 + r2) / 2 * 2 == l2 + r2)%Q) by field.
      rewrite Hc2 in E. lra. }
    clear Hc Hc2 Hw1 Hw2 Hv1 Hv2.
    destruct (Qlt_le_dec p h); [specialize (Ha ltac:(lra))|];
      [|destruct (Qlt_le_dec (1 - h) p);
         [specialize (Hb ltac:(lra))|specialize (Hmid ltac:(lra) ltac:(lra))]].
    all: destruct (Qlt_le_dec p2 h); [specialize (Ha2 ltac:(lra))|];
      [|destruct (Qlt_le_dec (1 - h) p2);
         [specialize (Hb2 ltac:(lra))|specialize (Hmid2 ltac:(lra) ltac:(lra))]].
    all: lra.
Qed.

Lemma set_center_holds_value_witness :
  ∃ l' r',
    TraceBounds._left (set_center (TraceBounds.mk (XFin 300) (XFin (1 # 4)) (XFin (1 # 2)) [])
                         (XFin 0)) = XFin l' ∧
    TraceBounds._right (set_center (TraceBounds.mk (XFin 300) (XFin (1 # 4)) (XFin (1 # 2)) [])
                          (XFin 0)) = XFin r' ∧
    (l' == 0)%Q ∧ (0 <= r')%Q.
Proof.
  destruct (set_center_holds_value
              (TraceBounds.mk (XFin 300) (XFin (1 # 4)) (XFin (1 # 2)) [])
              300 (1 # 4) (1 # 2) 0)
    as (l' & r' & H1 & H2 & _ & _ & _ & H3 & H4 & _).
  - reflexivity.
  - vm_compute. discriminate.
  - reflexivity.
  - reflexivity.
  - vm_compute. discriminate.
  - vm_compute. discriminate.
  - vm_compute. discriminate.
  - exists l', r'. split; [exact H1|]. split; [exact H2|].
    split; [apply H4; vm_compute; discriminate|].
    apply H3; vm_compute; discriminate.
Defined.

Lemma Qsign_nonzero (q : Q) : ¬ (q == 0)%Q → Qsign q ≠ Eq.
Proof. intros Hq. case_sign q; done. Qed.

Lemma x_div_fin (a b : Q) : ¬ (b == 0)%Q → x_div (XFin a) (XFin b) = XFin (a / b).
Proof.
  intros Hb. unfold x_div. pose proof (Qsign_nonzero b Hb). by destruct (Qsign b).
Qed.

(** X18: [percentageFromTime] and [timeFromPercentage] agree at the edges,
    for a total time that is a number other than 0. For the whole trace the
    times 0 and [totalTime] are the fractions 0 and 1, and the fractions 0
    and 1 are the times 0 and [totalTime]. Within a window whose two times
    differ, the times of the left and of the right bound are the fractions 0
    and 1, and the fraction 0 is the time of the left bound. Both
    conversions keep the order: for the whole trace when the total time is
    positive, within the window when its left time is smaller than its right
    time. *)
Theorem time_percentage_edges (b : TraceBounds.t) (T l r tl tr : Q) :
  TraceBounds._totalTime b = XFin T → ¬ (T == 0)%Q →
  TraceBounds._left b = XFin l → TraceBounds._right b = XFin r →
  get_leftTime b = XFin tl → get_rightTime b = XFin tr →
  (∃ p0 p1 t0 t1,
     percentageFromTime b (XFin 0) false = XFin p0 ∧
     percentageFromTime b (XFin T) false = XFin p1 ∧
     timeFromPercentage b (XFin 0) false = XFin t0 ∧
     timeFromPercentage b (XFin 1) false = XFin t1 ∧
     (p0 == 0)%Q ∧ (p1 == 1)%Q ∧ (t0 == 0)%Q ∧ (t1 == T)%Q) ∧
  (¬ (tl == tr)%Q →
   ∃ p0 p1 t0,
     percentageFromTime b (XFin tl) true = XFin p0 ∧
     percentageFromTime b (XFin tr) true = XFin p1 ∧
     timeFromPercentage b (XFin 0) true = XFin t0 ∧
     (p0 == 0)%Q ∧ (p1 == 1)%Q ∧ (t0 == tl)%Q) ∧
  (∀ inBounds x y,
     (inBounds = true → (tl < tr)%Q) → (inBounds = false → (0 < T)%Q) → (x <= y)%Q →
     ∃ px py tx ty,
       percentageFromTime b (XFin x) inBounds = XFin px ∧
       percentageFromTime b (XFin y) inBounds = XFin py ∧
       timeFromPercentage b (XFin x) inBounds = XFin tx ∧
       timeFromPercentage b (XFin y) inBounds = XFin ty ∧
       (px <= py)%Q ∧ (tx <= ty)%Q).
Proof.
  intros HT HT0 Hl Hr.
  unfold timeFromPercentage, percentageFromTime, intervalTime, get_leftTime,
    get_rightTime, x_sub.
  rewrite HT, Hl, Hr. cbn [x_mul x_neg x_add].
  intros [= <-] [= <-].
  split; [|split].
  - rewrite !x_div_fin by done.
    eexists _, _, _, _. do 4 (split; [reflexivity|]).
    split; [field; done|]. split; [field; done|]. split; ring.
  - intros Hne.
    assert (Hd : ¬ (T * r + - (T * l) == 0)%Q) by (intros Hz; apply Hne; lra).
    rewrite !x_div_fin by done.
    eexists _, _, _. do 3 (split; [reflexivity|]).
    split; [field; done|]. split; [field; done|]. ring.
  - intros inBounds x y Hwin Hpos Hxy. destruct inBounds.
    + specialize (Hwin eq_refl).
      assert (Hd : ¬ (T * r + - (T * l) == 0)%Q) by lra.
      rewrite !x_div_fin by done.
      eexists _, _, _, _. do 4 (split; [reflexivity|]). split.
      * unfold Qdiv. apply Qmult_le_compat_r; [lra|].
        apply Qlt_le_weak, Qinv_lt_0_compat. lra.
      * assert ((x * (T * r + - (T * l)) <= y * (T * r + - (T * l)))%Q)
          by (apply Qmult_le_compat_r; lra).
        lra.
    + specialize (Hpos eq_refl). rewrite !x_div_fin by done.
      eexists _, _, _, _. do 4 (split; [reflexivity|]). split.
      * unfold Qdiv. apply Qmult_le_compat_r; [lra|].
        apply Qlt_le_weak, Qinv_lt_0_compat. done.
      * apply Qmult_le_compat_r; lra.
Qed.

Lemma time_percentage_edges_witness :
  ∃ p0 p1,
    percentageFromTime (TraceBounds.mk (XFin 300) (XFin (1 # 4)) (XFin (1 # 2)) [])
      (XFin (300 * (1 # 4))) true = XFin p0 ∧
    percentageFromTime (TraceBounds.mk (XFin 300) (XFin (1 # 4)) (XFin (1 # 2)) [])
      (XFin (300 * (1 # 2))) true = XFin p1 ∧
    (p0 == 0)%Q ∧ (p1 == 1)%Q.
Proof.
  destruct (time_percentage_edges
              (TraceBounds.mk (XFin 300) (XFin (1 # 4)) (XFin (1 # 2)) [])
              300 (1 # 4) (1 # 2) (300 * (1 # 4)) (300 * (1 # 2))) as (_ & H & _).
  - reflexivity.
  - vm_compute. discriminate.
  - reflexivity.
  - reflexivity.
  - reflexivity.
  - reflexivity.
  - destruct H as (p0 & p1 & t0 & H0 & H1 & _ & E0 & E1 & _).
    + vm_compute. discriminate.
    + exists p0, p1. split; [exact H0|]. split; [exact H1|]. split; [exact E0|exact E1].
Defined.

(** ** binarySearch with any comparator *)

Lemma middle_within (first last : Z) :
  0 ≤ first → first ≤ last → last < 2 ^ 30 →
  first ≤ Z.shiftr (toInt32 (first + last)) 1 ≤ last.
Proof.
  intros H0 Hle Hn. rewrite toInt32_small by lia. rewrite Z.shiftr_div_pow2 by lia.
  change (2 ^ 1) with 2. split.
  - apply Z.div_le_lower_bound; lia.
  - apply Z.div_le_upper_bound; lia.
Qed.

Lemma binarySearch_loop_range {K A : Type} (key : K) (array : list A)
    (comparator : K → option A → res num) :
  Z.of_nat (length array) ≤ 2 ^ 30 →
  (∀ x, x ∈ array → ∃ c, comparator key (Some x) = Ok c) →
  ∀ (fuel : nat) (first last : Z),
    0 ≤ first → last < Z.of_nat (length array) → first ≤ last + 1 →
    last - first + 1 < Z.of_nat fuel →
    ∃ idx, binarySearch_loop fuel key array comparator first last = Ok idx ∧
      ((first ≤ idx ≤ last ∧
        ∃ x c, array !! Z.to_nat idx = Some x ∧ comparator key (Some x) = Ok c ∧
               num_gt c (Num 0) = false ∧ num_lt c (Num 0) = false) ∨
       (idx < 0 ∧ first ≤ - (idx + 1) ≤ last + 1)).
Proof.
  intros Hlen Hcmp. induction fuel as [|fuel IH]; intros first last H0 Hn Hfl Hfuel; [lia|].
  simpl. destruct (decide (first ≤ last)) as [Hle|Hgt].
  - pose proof (middle_within first last H0 Hle ltac:(lia)) as Hmid.
    set (mid := Z.shiftr (toInt32 (first + last)) 1) in *. clearbody mid.
    assert (Hx : is_Some (array !! Z.to_nat mid)) by (apply lookup_lt_is_Some; lia).
    destruct Hx as [x Hx].
    destruct (Hcmp x) as [c Hc]; [by eapply list_elem_of_lookup_2|].
    unfold at_index. rewrite decide_True by lia. rewrite Hx, Hc. simpl.
    destruct (num_gt c (Num 0)) eqn:Egt.
    + destruct (IH (mid + 1) last) as (idx & -> & Hidx); try lia.
      exists idx. split; [done|]. destruct Hidx as [[? ?]|[? ?]]; [left|right].
      * split; [lia|done].
      * split; [done|lia].
    + assert (Hlt : num_lt c (Num 0)
                    = match c with NaN => false | Num y => bool_decide (y < 0) end)
        by (by destruct c).
      rewrite <- Hlt. clear Hlt. destruct (num_lt c (Num 0)) eqn:Elt.
      * destruct (IH first (mid - 1)) as (idx & -> & Hidx); try lia.
        exists idx. split; [done|]. destruct Hidx as [[? ?]|[? ?]]; [left|right].
        -- split; [lia|done].
        -- split; [done|lia].
      * exists mid. split; [done|]. left. split; [lia|]. by exists x, c.
  - exists (- (first + 1)). split; [done|]. right. split; lia.
Qed.

(** X20: on an array of at most 2^30 elements, with a comparator that
    returns for every element of the array, [binarySearch] returns: the loop
    ends and never reads outside the array. The result is either an index
    of the array, whose element the comparator finds neither greater nor
    smaller than the key (its result is 0, or NaN), or a negative number
    [-(i + 1)] with [i] from 0 to the length; on an empty array it is -1. *)
Theorem binarySearch_in_range {K A : Type} (key : K) (array : list A)
    (comparator : K → option A → res num) :
  Z.of_nat (length array) ≤ 2 ^ 30 →
  (∀ x, x ∈ array → ∃ c, comparator key (Some x) = Ok c) →
  ∃ idx, binarySearch key array comparator = Ok idx ∧
    - (Z.of_nat (length array) + 1) ≤ idx < Z.of_nat (length array) ∧
    0 ≤ decode idx ≤ Z.of_nat (length array) ∧
    (0 ≤ idx →
     ∃ x c, array !! Z.to_nat idx = Some x ∧ comparator key (Some x) = Ok c ∧
            num_gt c (Num 0) = false ∧ num_lt c (Num 0) = false) ∧
    (array = [] → idx = -1).
Proof.
  intros Hlen Hcmp. unfold binarySearch.
  destruct (binarySearch_loop_range key array comparator Hlen Hcmp
              (S (length array)) 0 (Z.of_nat (length array) - 1))
    as (idx & Hrun & Hidx); try lia.
  exists idx. split; [done|]. unfold decode.
  destruct Hidx as [[Hin Hhit]|[Hneg Hrange]].
  - rewrite decide_False by lia. split; [lia|]. split; [lia|]. split; [done|].
    intros ->. simpl in Hin. lia.
  - rewrite decide_True by lia. split; [lia|]. split; [lia|]. split; [lia|].
    intros ->. simpl in Hrange. lia.
Qed.

Lemma binarySearch_in_range_witness :
  ∃ idx, binarySearch (Num 2) same_end_siblings byEndTime = Ok idx ∧ 0 ≤ decode idx ≤ 3.
Proof.
  destruct (binarySearch_in_range (Num 2) same_end_siblings byEndTime)
    as (idx & Hrun & _ & Hdec & _).
  - vm_compute. discriminate.
  - intros x Hx. unfold byEndTime. simpl. eauto.
  - exists idx. split; [exact Hrun|exact Hdec].
Defined.

(** ** The colors *)

Lemma advance_h (v : Z) :
  0 < v ≤ 360 → advance Palette.h v = (v - 1 - 43) mod 360 + 1.
Proof.
  intros Hv. unfold advance. simpl. destruct (decide (v - 43 ≤ 0)).
  - rewrite <- (Z.mod_add (v - 1 - 43) 1 360) by lia. rewrite Z.mod_small; lia.
  - rewrite Z.mod_small; lia.
Qed.

Lemma advance_s (v : Z) :
  30 < v ≤ 70 → advance Palette.s v = (v - 31 - 3) mod 40 + 31.
Proof.
  intros Hv. unfold advance. simpl. destruct (decide (v - 3 ≤ 30)).
  - rewrite <- (Z.mod_add (v - 31 - 3) 1 40) by lia. rewrite Z.mod_small; lia.
  - rewrite Z.mod_small; lia.
Qed.

Lemma advance_l (v : Z) :
  20 < v ≤ 60 → advance Palette.l v = (v - 21 - 5) mod 40 + 21.
Proof.
  intros Hv. unfold advance. simpl. destruct (decide (v - 5 ≤ 20)).
  - rewrite <- (Z.mod_add (v - 21 - 5) 1 40) by lia. rewrite Z.mod_small; lia.
  - rewrite Z.mod_small; lia.
Qed.

(** [current] after [n] calls, in closed form. *)
Lemma colors_after_closed (c : Current.t) (n : nat) :
  in_palette c →
  colors_after n c =
    Current.mk ((Current.h c - 1 - 43 * Z.of_nat n) mod 360 + 1)
      ((Current.s c - 31 - 3 * Z.of_nat n) mod 40 + 31)
      ((Current.l c - 21 - 5 * Z.of_nat n) mod 40 + 21).
Proof.
  intros (Hh & Hs & Hl). induction n as [|n IH].
  - simpl. destruct c as [h s l]. simpl in *.
    rewrite !Z.sub_0_r. rewrite !Z.mod_small by lia. f_equal; lia.
  - unfold colors_after in *. rewrite Nat.iter_succ, IH. unfold getColor. simpl.
    rewrite advance_h, advance_s, advance_l.
    + f_equal.
      * replace ((Current.h c - 1 - 43 * Z.of_nat n) mod 360 + 1 - 1 - 43)
          with ((Current.h c - 1 - 43 * Z.of_nat n) mod 360 - 43) by lia.
        rewrite Zminus_mod_idemp_l. do 2 f_equal. lia.
      * replace ((Current.s c - 31 - 3 * Z.of_nat n) mod 40 + 31 - 31 - 3)
          with ((Current.s c - 31 - 3 * Z.of_nat n) mod 40 - 3) by lia.
        rewrite Zminus_mod_idemp_l. do 2 f_equal. lia.
      * replace ((Current.l c - 21 - 5 * Z.of_nat n) mod 40 + 21 - 21 - 5)
          with ((Current.l c - 21 - 5 * Z.of_nat n) mod 40 - 5) by lia.
        rewrite Zminus_mod_idemp_l. do 2 f_equal. lia.
    + pose proof (Z.mod_pos_bound (Current.l c - 21 - 5 * Z.of_nat n) 40). lia.
    + pose proof (Z.mod_pos_bound (Current.s c - 31 - 3 * Z.of_nat n) 40). lia.
    + pose proof (Z.mod_pos_bound (Current.h c - 1 - 43 * Z.of_nat n) 360). lia.
Qed.

(** X21: [getColor] keeps the hue within (0, 360], the saturation within
    (30, 70] and the lightness within (20, 60], which is where the script
    starts; the saturation and the lightness pass the [max] of 40 of their
    ranges. The colors come back after exactly 360 calls: the color after
    360 more calls is the same, and no two of 360 calls in a row leave the
    same color. *)
Theorem getColor_cycles (c : Current.t) (n m : nat) :
  in_palette c →
  in_palette (colors_after n c) ∧
  colors_after (n + 360) c = colors_after n c ∧
  ((n < m < n + 360)%nat → colors_after n c ≠ colors_after m c).
Proof.
  intros Hc. rewrite !colors_after_closed by done. split; [|split].
  - unfold in_palette. simpl.
    pose proof (Z.mod_pos_bound (Current.h c - 1 - 43 * Z.of_nat n) 360).
    pose proof (Z.mod_pos_bound (Current.s c - 31 - 3 * Z.of_nat n) 40).
    pose proof (Z.mod_pos_bound (Current.l c - 21 - 5 * Z.of_nat n) 40). lia.
  - f_equal; f_equal.
    + replace (Current.h c - 1 - 43 * Z.of_nat (n + 360))
        with (Current.h c - 1 - 43 * Z.of_nat n + (-43) * 360) by lia.
      by rewrite Z.mod_add.
    + replace (Current.s c - 31 - 3 * Z.of_nat (n + 360))
        with (Current.s c - 31 - 3 * Z.of_nat n + (-27) * 40) by lia.
      by rewrite Z.mod_add.
    + replace (Current.l c - 21 - 5 * Z.of_nat (n + 360))
        with (Current.l c - 21 - 5 * Z.of_nat n + (-45) * 40) by lia.
      by rewrite Z.mod_add.
  - intros Hnm [= Hh _ _].
    assert (Hmod : (Current.h c - 1 - 43 * Z.of_nat n) mod 360
                   = (Current.h c - 1 - 43 * Z.of_nat m) mod 360) by lia.
    apply Z.cong_iff_ex in Hmod as [k Hk]. lia.
Qed.

Lemma getColor_cycles_witness :
  in_palette (colors_after 3 Palette.current) ∧
  colors_after (3 + 360) Palette.current = colors_after 3 Palette.current.
Proof.
  destruct (getColor_cycles Palette.current 3 4) as (H1 & H2 & _).
  - unfold in_palette. simpl. lia.
  - split; [exact H1|exact H2].
Defined.

(** X22: the color of a frame that is not selected depends on its name
    alone and never changes: [_renderFrame] gives a name the color that
    [getColor] returns when the name is first seen, keeps the colors of all
    the names seen before, and gives every later frame of that name the
    same color without another call of [getColor]. The selected frame is
    yellow, and no name gets a color for it. *)
Theorem frame_color_is_stable (st st1 : Colors.t) (selected : option nat)
    (frame : Frame.t) (color : option string) :
  frameColor st selected frame = (st1, color) →
  is_Some color ∧
  (∀ name c, Colors.colors st !! name = Some c → Colors.colors st1 !! name = Some c) ∧
  (selected = Some (Frame.uid frame) → st1 = st ∧ color = Some "yellow"%string) ∧
  (selected ≠ Some (Frame.uid frame) →
   Colors.colors st1 !! Frame.name frame = color ∧
   (is_Some (Colors.colors st !! Frame.name frame) → st1 = st) ∧
   (Colors.colors st !! Frame.name frame = None →
    color = Some (getColor (Colors.current st)).2 ∧
    Colors.current st1 = (getColor (Colors.current st)).1) ∧
   ∀ frame', Frame.name frame' = Frame.name frame →
     selected ≠ Some (Frame.uid frame') →
     frameColor st1 selected frame' = (st1, color)).
Proof.
  unfold frameColor. intros H.
  destruct (decide (selected = Some (Frame.uid frame))) as [Hsel|Hsel].
  - injection H as <- <-. split; [by eexists|]. split; [done|]. split; [done|]. done.
  - destruct (Colors.colors st !! Frame.name frame) as [c0|] eqn:Hname.
    + rewrite bool_decide_eq_true_2 in H by (by eexists). rewrite Hname in H.
      injection H as <- <-. split; [by eexists|]. split; [done|]. split; [done|].
      intros _. split; [done|]. split; [done|]. split; [done|].
      intros frame' Hn Hsel'. rewrite decide_False by done. rewrite Hn, Hname.
      rewrite bool_decide_eq_true_2 by (by eexists). by rewrite Hname.
    + rewrite bool_decide_eq_false_2 in H by (by intros [? ?]).
      destruct (getColor (Colors.current st)) as [current1 c1] eqn:Hget.
      simpl in H. rewrite lookup_insert_eq in H. injection H as <- <-.
      split; [by eexists|]. split.
      { intros name c Hc. simpl. rewrite lookup_insert_ne; [done|]. congruence. }
      split; [done|]. intros _. simpl. rewrite lookup_insert_eq.
      split; [done|]. split; [by intros [? ?]|]. split; [done|].
      intros frame' Hn Hsel'. rewrite decide_False by done. rewrite Hn. simpl.
      rewrite lookup_insert_eq.
      rewrite bool_decide_eq_true_2 by (by eexists). simpl.
      by rewrite lookup_insert_eq.
Qed.

Lemma frame_color_is_stable_witness :
  ∃ st1 color, frameColor new_Colors None (leaf_frame 0 0 2) = (st1, color) ∧
               frameColor st1 None (leaf_frame 1 2 4) = (st1, color).
Proof.
  destruct (frameColor new_Colors None (leaf_frame 0 0 2)) as [st1 color] eqn:H.
  exists st1, color. split; [reflexivity|].
  destruct (frame_color_is_stable _ _ _ _ _ H) as (_ & _ & _ & H4).
  destruct H4 as (_ & _ & _ & H5); [discriminate|].
  apply H5; [reflexivity|discriminate].
Defined.

(** ** The Map substitute *)

(** X23: the Map substitute of map.js finds a value under every key whose
    property name is that of the key it was set with, and under no other:
    [get] after [set] returns the value when the two keys have the same
    string form and what it returned before otherwise, and [has] holds
    exactly for the keys of which the string form was set. A new map has no
    key, not even the names of [Object.prototype]. Unlike a Map, it does not
    tell a key from its string form: undefined and ["undefined"], or 1 and
    ["1"], are one key. *)
Theorem Map_substitute_lookup {A : Type} (m : Map.t A) (key key' : value) (v : A) :
  Map.get (Map.set m key v) key' =
    (if decide (to_string key = to_string key') then Some v else Map.get m key') ∧
  Map.has (Map.set m key v) key' =
    (bool_decide (to_string key = to_string key') || Map.has m key') ∧
  (Map.has m key = true ↔ is_Some (Map.get m key)) ∧
  Map.has (@new_Map A) key = false ∧ Map.get (@new_Map A) key = None ∧
  Map.get (Map.set m VUndef v) (VStr "undefined") = Some v ∧
  Map.get (Map.set m (VNum (Num 1)) v) (VStr "1") = Some v.
Proof.
  unfold Map.get, Map.has, Map.set, new_Map. simpl. split; [|split; [|split]].
  - destruct (decide (to_string key = to_string key')) as [->|Hne].
    + apply lookup_insert_eq.
    + by apply lookup_insert_ne.
  - destruct (decide (to_string key = to_string key')) as [Heq|Hne].
    + rewrite Heq, lookup_insert_eq.
      rewrite (bool_decide_eq_true_2 (is_Some _)) by (by eexists).
      by rewrite (bool_decide_eq_true_2 (_ = _)).
    + rewrite lookup_insert_ne by done. by rewrite (bool_decide_eq_false_2 (_ = _)).
  - apply bool_decide_eq_true.
  - split.
    { apply bool_decide_eq_false_2. rewrite lookup_empty. by intros [? ?]. }
    split; [apply lookup_empty|].
    split; apply lookup_insert_eq.
Qed.

(** ** The frames that the main view draws *)

Lemma byEndTime_of_closed (L : Q) (f : Frame.t) (e : Z) :
  Frame.endTime f = Some (TNum e) →
  ∃ c, byEndTime_of (XFin L) (Some f) = Ok c ∧
       (num_gt c (Num 0) = true ↔ (inject_Z e < L)%Q) ∧
       (num_lt c (Num 0) = true ↔ (L < inject_Z e)%Q).
Proof.
  intros He. unfold byEndTime_of. simpl. rewrite He. simpl.
  eexists. split; [reflexivity|]. unfold num_lt.
  case_sign (L + - inject_Z e)%Q; simpl; split; split; intros; try done; try lra.
Qed.

Section SearchTime.

Variable array : list Frame.t.
Variable ends : list Z.
Variable L : Q.
Hypothesis array_ends : ends_of array ends.
Hypothesis ends_ascending : ascending ends.
Hypothesis array_small : Z.of_nat (length array) ≤ 2 ^ 30.

(** What the loop returns for a time of the viewport, from a range that
    brackets it. *)
Lemma binarySearch_loop_time (fuel : nat) :
  ∀ first last : Z,
    0 ≤ first → last < Z.of_nat (length array) → first ≤ last + 1 →
    last - first + 1 < Z.of_nat fuel →
    (∀ k e, Z.of_nat k < first → ends !! k = Some e → (inject_Z e < L)%Q) →
    (∀ k e, last < Z.of_nat k → ends !! k = Some e → (L < inject_Z e)%Q) →
    ∃ idx, binarySearch_loop fuel (XFin L) array byEndTime_of first last = Ok idx ∧
      0 ≤ decode idx ≤ Z.of_nat (length array) ∧
      (∀ k e, Z.of_nat k < decode idx → ends !! k = Some e → (inject_Z e <= L)%Q) ∧
      (∀ k e, decode idx ≤ Z.of_nat k → ends !! k = Some e → (L <= inject_Z e)%Q).
Proof using array_ends ends_ascending array_small.
  pose proof (Forall2_length _ _ _ array_ends) as Hlen'.
  assert (Hmono : ∀ i j a b, (i ≤ j)%nat → ends !! i = Some a → ends !! j = Some b →
                    (inject_Z a <= inject_Z b)%Q).
  { intros i j a b Hij Ha Hb. rewrite <- Zle_Qle. by apply (ends_ascending i j). }
  induction fuel as [|fuel' IH]; intros first last H0 Hn Hfl Hfuel Hlo Hhi; [lia|].
  simpl. destruct (decide (first ≤ last)) as [Hle|Hgt].
  - pose proof (middle_within first last H0 Hle ltac:(lia)) as Hmid.
    set (mid := Z.shiftr (toInt32 (first + last)) 1) in *. clearbody mid.
    assert (Hsome : is_Some (ends !! Z.to_nat mid)) by (apply lookup_lt_is_Some; lia).
    destruct Hsome as [e He].
    destruct (ends_of_lookup _ _ _ _ array_ends He) as (f & Hf & Hfe).
    unfold at_index. rewrite decide_True by lia. rewrite Hf.
    destruct (byEndTime_of_closed L f e Hfe) as (c & -> & Hgt & Hlt). simpl.
    assert (Hlt' : num_lt c (Num 0)
                   = match c with NaN => false | Num y => bool_decide (y < 0) end)
      by (by destruct c).
    rewrite <- Hlt'. clear Hlt'.
    destruct (num_gt c (Num 0)) eqn:E1.
    + apply IH; try lia; [|exact Hhi].
      intros k e' Hk He'. assert (E1' : (inject_Z e < L)%Q) by (by apply Hgt).
      assert (inject_Z e' <= inject_Z e)%Q; [|lra].
      apply (Hmono k (Z.to_nat mid)); [lia|done|done].
    + destruct (num_lt c (Num 0)) eqn:E2.
      * apply IH; try lia; [exact Hlo|].
        intros k e' Hk He'. assert (E2' : (L < inject_Z e)%Q) by (by apply Hlt).
        assert (inject_Z e <= inject_Z e')%Q; [|lra].
        apply (Hmono (Z.to_nat mid) k); [lia|done|done].
      * assert (HeL : (inject_Z e == L)%Q).
        { destruct (Qlt_le_dec (inject_Z e) L) as [Hx|Hx].
          - apply Hgt in Hx. discriminate.
          - destruct (Qlt_le_dec L (inject_Z e)) as [Hy|Hy].
            + apply Hlt in Hy. discriminate.
            + lra. }
        exists mid. split; [done|]. unfold decode. rewrite decide_False by lia.
        split; [lia|]. split.
        -- intros k e' Hk He'. rewrite <- HeL.
           apply (Hmono k (Z.to_nat mid)); [lia|done|done].
        -- intros k e' Hk He'. rewrite <- HeL.
           apply (Hmono (Z.to_nat mid) k); [lia|done|done].
  - eexists. split; [done|]. unfold decode. rewrite decide_True by lia.
    replace (- (- (first + 1) + 1)) with first by lia.
    split; [lia|]. split.
    + intros k e Hk He. specialize (Hlo k e Hk He). lra.
    + intros k e Hk He. assert (last < Z.of_nat k) by lia.
      specialize (Hhi k e ltac:(lia) He). lra.
Qed.

(** [binarySearch] for a time of the viewport: the decoded index splits the
    list into the frames that end at that time or before, and those that
    end at that time or after. *)
Lemma binarySearch_time :
  ∃ idx, binarySearch (XFin L) array byEndTime_of = Ok idx ∧
    0 ≤ decode idx ≤ Z.of_nat (length array) ∧
    (∀ k e, Z.of_nat k < decode idx → ends !! k = Some e → (inject_Z e <= L)%Q) ∧
    (∀ k e, decode idx ≤ Z.of_nat k → ends !! k = Some e → (L <= inject_Z e)%Q).
Proof using array_ends ends_ascending array_small.
  pose proof (Forall2_length _ _ _ array_ends) as Hlen'.
  unfold binarySearch. apply binarySearch_loop_time; try lia.
  intros k e Hk He. apply lookup_lt_Some in He. lia.
Qed.

End SearchTime.

Section Render.

Variable t : Trace.t.
Variable bounds : TraceBounds.t.
Variable now : Z.
Variable L R : Q.
Hypothesis HI : Inv t.
Hypothesis HT : Tree t.
Hypothesis HTm : Timed now t.
Hypothesis Hclosed : ∀ u f, Trace.frames t !! u = Some f → is_Some (Frame.endTime f).
Hypothesis Hsmall : Z.of_nat (length (Trace.frames t)) ≤ 2 ^ 30.
Hypothesis HL : get_leftTime bounds = XFin L.
Hypothesis HR : get_rightTime bounds = XFin R.

Lemma frame_span (u : nat) (f : Frame.t) :
  Trace.frames t !! u = Some f →
  ∃ s e, Frame.startTime f = TNum s ∧ Frame.endTime f = Some (TNum e) ∧ s ≤ e.
Proof using HTm Hclosed.
  intros Hf. destruct (timed_frame _ _ HTm _ _ Hf) as (s & Hs & _ & Hend).
  destruct (Hclosed _ _ Hf) as [e He]. destruct (Hend _ He) as (ez & -> & ? & _).
  exists s, ez. done.
Qed.

Lemma span_fun (u : nat) (s e s' e' : Z) :
  span t u s e → span t u s' e' → s = s' ∧ e = e'.
Proof.
  intros (f & Hf & Hs & He) (f' & Hf' & Hs' & He').
  assert (f' = f) as -> by congruence. split; congruence.
Qed.

(** The children of the trace or of a frame, as [_renderChildren] sees
    them. *)
Lemma kids_spans (r : ref) (kids : list nat) :
  children_at (Trace.children t) (Trace.frames t) r = Some kids →
  ∃ array ends,
    mapM (fun c => Trace.frames t !! c) kids = Some array ∧
    ends_of array ends ∧ ascending ends ∧ length array = length kids ∧
    (∀ k c, kids !! k = Some c →
       ∃ s e, span t c s e ∧ ends !! k = Some e ∧ s ≤ e) ∧
    (∀ i j a b sa ea sb eb, (i < j)%nat → kids !! i = Some a → kids !! j = Some b →
       span t a sa ea → span t b sb eb → ea ≤ sb).
Proof using HI HTm Hclosed.
  intros Hat.
  assert (Harr : is_Some (mapM (fun c => Trace.frames t !! c) kids)).
  { apply mapM_is_Some. apply Forall_forall. intros c Hc.
    by apply (children_at_valid t r kids). }
  destruct Harr as [array Harr]. apply mapM_Some in Harr as HF.
  pose proof (Forall2_length _ _ _ HF) as Hlen.
  set (end_of := fun f : Frame.t =>
                   match Frame.endTime f with Some (TNum e) => e | _ => 0 end).
  exists array, (end_of <$> array).
  assert (Hord : ∀ i j a b sa ea sb eb, (i < j)%nat → kids !! i = Some a →
            kids !! j = Some b → span t a sa ea → span t b sb eb → ea ≤ sb).
  { intros i j a b sa ea sb eb Hij Ha Hb (fa & Hfa & Hsa & Hea) (fb & Hfb & Hsb & Heb).
    destruct (siblings_ordered now t r kids HI HTm Hat j i a b fa fb Hij Ha Hb Hfa Hfb)
      as (sa' & ea' & sb' & ? & ? & ? & ? & ?).
    assert (ea' = ea) as -> by congruence. assert (sb' = sb) as -> by congruence. done. }
  assert (Heach : ∀ k c, kids !! k = Some c →
            ∃ s e, span t c s e ∧ (end_of <$> array) !! k = Some e ∧ s ≤ e).
  { intros k c Hk. destruct (Forall2_lookup_l _ _ _ _ _ HF Hk) as (f & Hfk & Hf).
    destruct (frame_span _ _ Hf) as (s & e & Hs & He & Hse).
    exists s, e. split; [by exists f|]. split; [|done].
    rewrite list_lookup_fmap, Hfk. simpl. unfold end_of. by rewrite He. }
  split; [done|]. split; [|split; [|split; [lia|split; [done|done]]]].
  - apply Forall2_fmap_r. apply Forall2_same_length_lookup. split; [done|].
    intros k f f' Hf Hf'. assert (f' = f) as -> by congruence.
    destruct (Forall2_lookup_r _ _ _ _ _ HF Hf) as (c & Hc & Hfc).
    destruct (frame_span _ _ Hfc) as (s & e & _ & He & _). unfold compose, end_of. by rewrite He.
  - intros i j a b Hij Ha Hb.
    destruct (decide (i = j)) as [->|Hne]; [assert (a = b) by congruence; lia|].
    assert (Hi : is_Some (kids !! i)).
    { apply lookup_lt_is_Some. apply lookup_lt_Some in Ha.
      rewrite length_fmap in Ha. lia. }
    assert (Hj : is_Some (kids !! j)).
    { apply lookup_lt_is_Some. apply lookup_lt_Some in Hb.
      rewrite length_fmap in Hb. lia. }
    destruct Hi as [ci Hci], Hj as [cj Hcj].
    destruct (Heach _ _ Hci) as (si & ei & Hspi & Hei & ?).
    destruct (Heach _ _ Hcj) as (sj & ej & Hspj & Hej & ?).
    assert (ei = a) as -> by congruence. assert (ej = b) as -> by congruence.
    pose proof (Hord i j ci cj si a sj b ltac:(lia) Hci Hcj Hspi Hspj). lia.
Qed.

Lemma totalTime_is_0_returns (r : ref) (kids : list nat) :
  children_of t r = Ok kids → ∃ z, totalTime_is_0 t r = Ok z.
Proof.
  destruct r as [|u]; simpl; [eauto|].
  destruct (Trace.frames t !! u); simpl; [eauto|done].
Qed.

Lemma children_of_at (r : ref) (kids : list nat) :
  children_of t r = Ok kids ↔
  children_at (Trace.children t) (Trace.frames t) r = Some kids.
Proof.
  destruct r as [|u]; simpl.
  - split; congruence.
  - destruct (Trace.frames t !! u); simpl; split; congruence.
Qed.

Lemma render_from_sound (bl : nat → res (list nat)) (l : list nat) :
  (∀ c, c ∈ l → ∃ s e, span t c s e ∧ (L <= inject_Z e)%Q) →
  (∀ c, c ∈ l → ∃ out, bl c = Ok out ∧ Forall (meets_window t L R) out) →
  ∃ out, render_from t (XFin R) bl l = Ok out ∧ Forall (meets_window t L R) out.
Proof.
  induction l as [|c l IH]; intros Hl Hbl; simpl; [by exists []|].
  destruct (Hl c) as (s & e & (f & Hf & Hs & He) & HLe); [by left|].
  rewrite Hf. simpl. rewrite Hs. unfold x_gt. simpl.
  destruct (Qlt_le_dec R (inject_Z s)); [by exists []|].
  destruct (Hbl c) as (drawn & -> & Hdrawn); [by left|]. simpl.
  destruct IH as (rest & -> & Hrest).
  { intros c' Hc'. apply Hl. by right. }
  { intros c' Hc'. apply Hbl. by right. }
  simpl. eexists. split; [done|]. constructor.
  - exists s, e. split; [by exists f|]. done.
  - by apply Forall_app.
Qed.

Lemma kids_bound (r : ref) (kids : list nat) :
  children_at (Trace.children t) (Trace.frames t) r = Some kids →
  (length kids ≤ length (Trace.frames t))%nat ∧
  ∀ c, c ∈ kids → (c < length (Trace.frames t))%nat ∧
                  match r with RTrace => True | RFrame u => (u < c)%nat end.
Proof using HI HT.
  intros Hat.
  assert (Hasc : ascending_uids kids ∧
                 Forall (fun c => (c < length (Trace.frames t))%nat ∧
                           match r with RTrace => True | RFrame u => (u < c)%nat end) kids).
  { destruct r as [|u]; simpl in Hat.
    - injection Hat as <-. split; [apply (tree_roots _ HT)|].
      eapply Forall_impl; [apply (inv_roots _ HI)|]. simpl. intros; split; [lia|done].
    - destruct (Trace.frames t !! u) as [f|] eqn:Hf; [|done]. injection Hat as <-.
      split; [apply (tree_kids _ HT _ _ Hf)|].
      eapply Forall_impl; [apply (inv_children _ HI _ _ Hf)|]. simpl. intros; lia. }
  destruct Hasc as [Hasc Hall]. rewrite Forall_forall in Hall. split; [|done].
  destruct (decide (length kids = 0)%nat) as [->|Hne]; [lia|].
  assert (Hlast : is_Some (kids !! (length kids - 1)%nat)) by (apply lookup_lt_is_Some; lia).
  destruct Hlast as [a Ha].
  pose proof (ascending_uids_index _ _ _ Hasc Ha).
  assert (a ∈ kids) as Hin by (by eapply list_elem_of_lookup_2).
  apply Hall in Hin. lia.
Qed.

Lemma renderChildren_sound (fuel : nat) :
  ∀ r, fuel_for t r fuel →
    ∃ out, _renderChildren fuel t bounds r = Ok out ∧ Forall (meets_window t L R) out.
Proof using HI HT HTm Hclosed Hsmall HL HR.
  induction fuel as [|fuel IH]; intros r Hfuel.
  { destruct r; simpl in Hfuel; lia. }
  assert (Hkids : ∃ kids, children_of t r = Ok kids).
  { destruct r as [|u]; simpl; [eauto|]. destruct Hfuel as [Hu _].
    apply lookup_lt_is_Some in Hu as [f ->]. simpl. eauto. }
  destruct Hkids as (kids & Hkids). simpl. rewrite Hkids. simpl.
  destruct (totalTime_is_0_returns r kids Hkids) as (z & ->). simpl.
  destruct z; [by exists []|].
  apply children_of_at in Hkids as Hat.
  destruct (kids_spans r kids Hat) as (array & ends & -> & Hends & Hasc & Hlen & Heach & _).
  destruct (kids_bound r kids Hat) as [Hbound Hin].
  simpl. rewrite HL, HR.
  destruct (binarySearch_time array ends L Hends Hasc ltac:(lia))
    as (idx & -> & Hrange & _ & Hafter).
  simpl. destruct (at_index kids (decode idx)) as [first|]; [|by exists []].
  apply render_from_sound.
  - intros c Hc. apply list_elem_of_lookup in Hc as [k Hk]. rewrite lookup_drop in Hk.
    destruct (Heach _ _ Hk) as (s & e & Hsp & He & _). exists s, e. split; [done|].
    apply (Hafter (Z.to_nat (decode idx) + k)%nat); [lia|done].
  - intros c Hc. apply IH. apply list_elem_of_lookup in Hc as [k Hk].
    rewrite lookup_drop in Hk. apply list_elem_of_lookup_2 in Hk.
    destruct (Hin _ Hk) as [Hc Hu]. split; [done|].
    destruct r as [|u]; simpl in Hfuel; lia.
Qed.

Lemma child_within (c u : nat) (kids : list nat) (sc ec su eu : Z) :
  children_at (Trace.children t) (Trace.frames t) (RFrame c) = Some kids → u ∈ kids →
  span t c sc ec → span t u su eu → sc ≤ su ∧ eu ≤ ec.
Proof using HTm.
  intros Hat Hu (fc & Hfc & Hsc & Hec) (fu & Hfu & Hsu & Heu). simpl in Hat.
  rewrite Hfc in Hat. injection Hat as <-.
  destruct (timed_child _ _ HTm c fc u fu sc su Hfc Hu Hfu Hsc Hsu) as [Hle Hend].
  split; [done|]. destruct (Hend _ Hec) as (eu' & Heu' & ?).
  assert (eu' = eu) as -> by congruence. done.
Qed.

Lemma below_within (r : ref) (u : nat) :
  below t r u → ∀ c sc ec su eu, r = RFrame c →
    span t c sc ec → span t u su eu → sc ≤ su ∧ eu ≤ ec.
Proof using HI HTm Hclosed.
  induction 1 as [r kids u Hat Hu|r kids m u Hat Hm Hbelow IH];
    intros c sc ec su eu -> Hc Hspan.
  - by apply (child_within c u kids).
  - destruct (children_at_valid t _ kids m HI Hat Hm) as [fm Hfm].
    destruct (frame_span _ _ Hfm) as (sm & em & Hsm & Hem & _).
    assert (Hspm : span t m sm em) by (by exists fm).
    destruct (child_within c m kids sc ec sm em Hat Hm Hc Hspm).
    destruct (IH m sm em su eu eq_refl Hspm Hspan). lia.
Qed.

Lemma below_snoc (r : ref) (p : nat) (kids : list nat) (u : nat) :
  below t r p →
  children_at (Trace.children t) (Trace.frames t) (RFrame p) = Some kids → u ∈ kids →
  below t r u.
Proof.
  induction 1 as [r kids' p Hat Hp|r kids' m p Hat Hm Hbelow IH]; intros Hkids Hu.
  - eapply below_deeper; [exact Hat|exact Hp|]. by eapply below_child.
  - eapply below_deeper; [exact Hat|exact Hm|]. by apply IH.
Qed.

(** Every frame is below the trace. *)
Lemma all_below (u : nat) :
  ∀ f, Trace.frames t !! u = Some f → below t RTrace u.
Proof using HI HT.
  induction u as [u IH] using lt_wf_ind. intros f Hf.
  destruct (tree_parent _ HT _ _ Hf) as (r & kids & _ & Hat & Hu).
  destruct r as [|p]; [by eapply below_child|].
  simpl in Hat. destruct (Trace.frames t !! p) as [fp|] eqn:Hfp; [|done].
  injection Hat as <-.
  pose proof (inv_children _ HI _ _ Hfp) as Hch. rewrite Forall_forall in Hch.
  apply (below_snoc RTrace p (Frame.children fp)); [|by simpl; rewrite Hfp|done].
  apply (IH p) with fp; [|done]. apply Hch in Hu. lia.
Qed.

Lemma render_from_complete (bl : nat → res (list nat)) (l : list nat) :
  ∀ out j c, render_from t (XFin R) bl l = Ok out → l !! j = Some c →
    (∀ j' c', (j' ≤ j)%nat → l !! j' = Some c' →
       ∃ s e, span t c' s e ∧ (inject_Z s <= R)%Q) →
    c ∈ out ∧ ∃ drawn, bl c = Ok drawn ∧ ∀ u, u ∈ drawn → u ∈ out.
Proof.
  induction l as [|c0 l IH]; intros out j c Hrun Hj Hleft; [done|].
  simpl in Hrun.
  destruct (Hleft 0%nat c0 ltac:(lia) eq_refl) as (s & e & (f & Hf & Hs & He) & HsR).
  rewrite Hf in Hrun. simpl in Hrun. rewrite Hs in Hrun. unfold x_gt in Hrun.
  simpl in Hrun. destruct (Qlt_le_dec R (inject_Z s)); [lra|].
  destruct (bl c0) as [drawn|] eqn:Hbl; [|done]. simpl in Hrun.
  destruct (render_from t (XFin R) bl l) as [rest|] eqn:Hrest; [|done].
  simpl in Hrun. injection Hrun as <-.
  destruct j as [|j]; simpl in Hj.
  - injection Hj as <-. split; [by left|]. exists drawn. split; [done|].
    intros u Hu. right. apply elem_of_app. by left.
  - destruct (IH rest j c eq_refl Hj) as (Hc & drawn' & Hbl' & Hsub).
    { intros j' c' Hj' Hc'. apply (Hleft (S j') c'); [lia|done]. }
    split; [right; apply elem_of_app; by right|].
    exists drawn'. split; [done|]. intros u Hu. right. apply elem_of_app. right. auto.
Qed.

Lemma in_window_not_0 (c : nat) :
  in_window t L R c → totalTime_is_0 t (RFrame c) = Ok false.
Proof using HI.
  intros (s & e & (f & Hf & Hs & He) & Hse & _). simpl. rewrite Hf. simpl.
  destruct (inv_closed _ HI _ _ _ Hf He) as (totals & _ & Htotal & _).
  rewrite Htotal, Hs. simpl. f_equal. apply bool_decide_eq_false_2.
  intros [= H0]. lia.
Qed.

Lemma renderChildren_complete (fuel : nat) :
  ∀ r out, _renderChildren fuel t bounds r = Ok out → totalTime_is_0 t r = Ok false →
    ∀ u, below t r u → in_window t L R u → u ∈ out.
Proof using HI HT HTm Hclosed Hsmall HL HR.
  induction fuel as [|fuel IH]; intros r out Hrun Hzero u Hbelow Hvis; [done|].
  assert (Hc : ∃ kids c, children_at (Trace.children t) (Trace.frames t) r = Some kids ∧
                 c ∈ kids ∧ in_window t L R c ∧ (u = c ∨ below t (RFrame c) u)).
  { destruct Hbelow as [r kids u Hat Hu|r kids m u Hat Hm Hbelow].
    - exists kids, u. eauto.
    - exists kids, m. split; [done|]. split; [done|]. split; [|by right].
      destruct (children_at_valid t _ kids m HI Hat Hm) as [fm Hfm].
      destruct (frame_span _ _ Hfm) as (sm & em & Hsm & Hem & _).
      assert (Hspm : span t m sm em) by (by exists fm).
      destruct Hvis as (su & eu & Hspu & Hlt & HLe & HsR).
      destruct (below_within _ _ Hbelow m sm em su eu eq_refl Hspm Hspu) as [Hs He].
      exists sm, em. split; [done|]. split; [lia|].
      rewrite Zle_Qle in Hs, He. split; lra. }
  destruct Hc as (kids & c & Hat & Hc & Hvisc & Hu).
  apply children_of_at in Hat as Hkids.
  simpl in Hrun. rewrite Hkids in Hrun. simpl in Hrun. rewrite Hzero in Hrun.
  simpl in Hrun.
  destruct (kids_spans r kids Hat) as (array & ends & Harr & Hends & Hasc & Hlen & Heach & Hord).
  destruct (kids_bound r kids Hat) as [Hbound _].
  rewrite Harr in Hrun. simpl in Hrun. rewrite HL, HR in Hrun.
  destruct (binarySearch_time array ends L Hends Hasc ltac:(lia))
    as (idx & Hidx & Hrange & Hbefore & _).
  rewrite Hidx in Hrun. simpl in Hrun.
  apply list_elem_of_lookup in Hc as [k Hk].
  destruct Hvisc as (s & e & Hsp & Hse & HLe & HsR).
  destruct (Heach _ _ Hk) as (s' & e' & Hsp' & Hek & _).
  destruct (span_fun _ _ _ _ _ Hsp Hsp') as [<- <-].
  assert (Hik : decode idx ≤ Z.of_nat k).
  { destruct (decide (decode idx ≤ Z.of_nat k)) as [|Hn]; [done|].
    pose proof (Hbefore k e ltac:(lia) Hek). lra. }
  apply lookup_lt_Some in Hk as Hklen.
  assert (Hfirst : is_Some (at_index kids (decode idx))).
  { unfold at_index. rewrite decide_True by lia. apply lookup_lt_is_Some. lia. }
  destruct Hfirst as [first Hfirst]. rewrite Hfirst in Hrun.
  destruct (render_from_complete _ _ out (k - Z.to_nat (decode idx))%nat c Hrun)
    as (Hcout & drawn & Hdrawn & Hsub).
  { rewrite lookup_drop. rewrite <- Hk. f_equal. lia. }
  { intros j' c' Hj' Hc'. rewrite lookup_drop in Hc'.
    destruct (Heach _ _ Hc') as (sj & ej & Hspj & _ & Hsej).
    exists sj, ej. split; [done|].
    destruct (decide (Z.to_nat (decode idx) + j' = k)%nat) as [Heq|Hne].
    - rewrite Heq in Hc'. assert (c' = c) as -> by congruence.
      destruct (span_fun _ _ _ _ _ Hsp Hspj) as [<- <-]. done.
    - pose proof (Hord (Z.to_nat (decode idx) + j')%nat k c' c sj ej s e ltac:(lia)
                    Hc' Hk Hspj Hsp) as Hle.
      assert (sj ≤ s) as Hle' by lia. rewrite Zle_Qle in Hle'. lra. }
  destruct Hu as [->|Hu]; [done|].
  apply Hsub. apply (IH (RFrame c) drawn Hdrawn); [|done|done].
  apply in_window_not_0. by exists s, e.
Qed.

End Render.

Lemma run_render_ready (c : option client) (name : option string) (evs : list event)
    (zs : list Z) (z0 : Z) (t : Trace.t) :
  run (new_Trace c name) evs = Ok t →
  time_of <$> evs = TNum <$> zs → nondecreasing z0 zs →
  Forall (fun f => is_Some (Frame.endTime f)) (Trace.frames t) →
  Inv t ∧ Tree t ∧ (∃ now, Timed now t) ∧
  ∀ u f, Trace.frames t !! u = Some f → is_Some (Frame.endTime f).
Proof.
  intros Hrun Hzs Hmono Hclosed.
  destruct (run_Timed evs zs z0 _ t (new_Trace_Inv c name) (new_Trace_Timed z0 c name)
              Hzs Hmono Hrun) as (HI & HTm).
  assert (Hreach : reachable t) by (left; eauto).
  destruct (reachable_Tree t Hreach) as [_ HT].
  split; [done|]. split; [done|]. split; [done|].
  intros u f Hf. rewrite Forall_lookup in Hclosed. eauto.
Qed.

(** X25: take a trace collected from events whose time stamps never decrease,
    all of whose frames were exited, and a window with finite edges. Then
    [_doRender] returns, and every frame it draws is a frame of the trace
    that meets the window: it starts at the right edge of the window or
    before, and ends at the left edge or after. *)
Theorem doRender_draws_within_window (c : option client) (name : option string)
    (evs : list event) (zs : list Z) (z0 : Z) (t : Trace.t) (bounds : TraceBounds.t)
    (L R : Q) :
  run (new_Trace c name) evs = Ok t →
  time_of <$> evs = TNum <$> zs → nondecreasing z0 zs →
  Forall (fun f => is_Some (Frame.endTime f)) (Trace.frames t) →
  Z.of_nat (length (Trace.frames t)) ≤ 2 ^ 30 →
  get_leftTime bounds = XFin L → get_rightTime bounds = XFin R →
  ∃ out, _doRender t bounds = Ok out ∧
    ∀ u, u ∈ out →
      ∃ s e, span t u s e ∧ (inject_Z s <= R)%Q ∧ (L <= inject_Z e)%Q.
Proof.
  intros Hrun Hzs Hmono Hclosed Hsmall HL HR.
  destruct (run_render_ready c name evs zs z0 t Hrun Hzs Hmono Hclosed)
    as (HI & HT & (now & HTm) & Hall).
  destruct (renderChildren_sound t bounds now L R HI HT HTm Hall Hsmall HL HR
              (S (length (Trace.frames t))) RTrace) as (out & Hout & Hsound).
  { simpl. lia. }
  exists out. split; [done|]. by rewrite Forall_forall in Hsound.
Qed.

Lemma doRender_draws_within_window_witness :
  ∃ out, _doRender scenario_trace (setTrace new_TraceBounds scenario_trace) = Ok out ∧
    ∀ u, u ∈ out →
      ∃ s e, span scenario_trace u s e ∧ (inject_Z s <= 5 * 1)%Q ∧ (5 * 0 <= inject_Z e)%Q.
Proof.
  apply (doRender_draws_within_window (Some []) None scenario [0; 1; 3; 5] 0).
  - vm_compute. reflexivity.
  - reflexivity.
  - simpl. lia.
  - repeat constructor; by eexists.
  - simpl. lia.
  - reflexivity.
  - reflexivity.
Defined.

(** X26: for such a trace whose total time is not 0, and such a window,
    [_doRender] draws every frame that took some time, ends after the left
    edge of the window and starts at the right edge or before. Panning or
    zooming never hides a frame that overlaps the window. *)
Theorem doRender_draws_frames_in_window (c : option client) (name : option string)
    (evs : list event) (zs : list Z) (z0 : Z) (t : Trace.t) (bounds : TraceBounds.t)
    (L R : Q) (out : list nat) (u : nat) (s e : Z) :
  run (new_Trace c name) evs = Ok t →
  time_of <$> evs = TNum <$> zs → nondecreasing z0 zs →
  Forall (fun f => is_Some (Frame.endTime f)) (Trace.frames t) →
  Z.of_nat (length (Trace.frames t)) ≤ 2 ^ 30 →
  get_leftTime bounds = XFin L → get_rightTime bounds = XFin R →
  totalTime t ≠ TNum 0 →
  _doRender t bounds = Ok out →
  span t u s e → s < e → (L < inject_Z e)%Q → (inject_Z s <= R)%Q →
  u ∈ out.
Proof.
  intros Hrun Hzs Hmono Hclosed Hsmall HL HR Htotal Hout Hspan Hse HLe HsR.
  destruct (run_render_ready c name evs zs z0 t Hrun Hzs Hmono Hclosed)
    as (HI & HT & (now & HTm) & Hall).
  apply (renderChildren_complete t bounds now L R HI HT HTm Hall Hsmall HL HR
           (S (length (Trace.frames t))) RTrace out Hout).
  - simpl. f_equal. by apply bool_decide_eq_false_2.
  - destruct Hspan as (f & Hf & _). by apply (all_below t HI HT u f).
  - by exists s, e.
Qed.

Lemma doRender_draws_frames_in_window_witness :
  ∃ out, _doRender scenario_trace
           (TraceBounds.mk (XFin 5) (XFin (2 # 5)) (XFin (4 # 5)) []) = Ok out ∧
         (1 ∈ out)%nat.
Proof.
  eexists. split; [vm_compute; reflexivity|].
  apply (doRender_draws_frames_in_window (Some []) None scenario [0; 1; 3; 5] 0
           scenario_trace (TraceBounds.mk (XFin 5) (XFin (2 # 5)) (XFin (4 # 5)) [])
           (5 * (2 # 5)) (5 * (4 # 5)) _ 1%nat 1 3).
  - vm_compute. reflexivity.
  - reflexivity.
  - simpl. lia.
  - repeat constructor; by eexists.
  - simpl. lia.
  - reflexivity.
  - reflexivity.
  - vm_compute. discriminate.
  - vm_compute. reflexivity.
  - eexists. split; [vm_compute; reflexivity|]. split; reflexivity.
  - lia.
  - vm_compute. reflexivity.
  - vm_compute. discriminate.
Defined.

(** ** The rectangles of the frames *)

(** The horizontal extent of the rectangle of an exited frame in the zoom
    view. *)
Lemma frameRect_extent (v : View.t) (t : Trace.t) (bounds : TraceBounds.t)
    (u : nat) (f : Frame.t) (s e : Z) (L R : Q) :
  Inv t → Trace.frames t !! u = Some f →
  Frame.startTime f = TNum s → Frame.endTime f = Some (TNum e) → e ≠ 0 →
  View._isZoomView v = true →
  get_leftTime bounds = XFin L → get_rightTime bounds = XFin R → (L < R)%Q →
  ∃ xq wq y h, _frameRect v t bounds f = (XFin xq, y, XFin wq, h) ∧
    (xq == inject_Z (Z.of_N (View.width v)) * ((inject_Z s - L) / (R - L)))%Q ∧
    (xq + wq == inject_Z (Z.of_N (View.width v)) * ((inject_Z e - L) / (R - L)))%Q.
Proof.
  intros HI Hf Hs He He0 Hzoom HL HR HLR.
  destruct (inv_closed _ HI _ _ _ Hf He) as (totals & _ & Htotal & _).
  rewrite Hs in Htotal. simpl in Htotal.
  unfold _frameRect. rewrite Hzoom, Hs, He, Htotal. simpl.
  unfold percentageFromTime, intervalTime. rewrite HL, HR. simpl.
  assert (Hsign : Qsign (R + - L) = Gt) by (apply Qsign_pos; lra).
  rewrite Hsign.
  assert (He0' : Qsign (inject_Z e) ≠ Eq).
  { unfold Qsign. intros Heq. apply Qeq_alt in Heq.
    apply He0. unfold Qeq in Heq. simpl in Heq. lia. }
  destruct (Qsign (inject_Z e)) eqn:Hse; [done| |]; simpl.
  all: do 4 eexists; split; [reflexivity|]; split;
    [unfold Qminus; reflexivity|];
    unfold Z.sub; rewrite inject_Z_plus, inject_Z_opp; field; lra.
Qed.

(** X28: take a trace collected from events whose time stamps never decrease,
    all of whose frames were exited, and a window with finite edges
    [L < R]. Every frame that [_doRender] draws in the zoom view, unless it
    was exited at time 0, gets a rectangle that meets the canvas
    horizontally: its left edge [x] is not beyond the width of the canvas,
    its right edge [x + w] is not before 0, and [w] is not negative. *)
Theorem drawn_frames_meet_canvas (c : option client) (name : option string)
    (evs : list event) (zs : list Z) (z0 : Z) (t : Trace.t) (bounds : TraceBounds.t)
    (L R : Q) (v : View.t) :
  run (new_Trace c name) evs = Ok t →
  time_of <$> evs = TNum <$> zs → nondecreasing z0 zs →
  Forall (fun f => is_Some (Frame.endTime f)) (Trace.frames t) →
  Z.of_nat (length (Trace.frames t)) ≤ 2 ^ 30 →
  get_leftTime bounds = XFin L → get_rightTime bounds = XFin R → (L < R)%Q →
  View._isZoomView v = true →
  ∃ out, _doRender t bounds = Ok out ∧
    ∀ u, u ∈ out →
      ∃ f, Trace.frames t !! u = Some f ∧
        (Frame.endTime f ≠ Some (TNum 0) →
         ∃ xq wq y h, _frameRect v t bounds f = (XFin xq, y, XFin wq, h) ∧
           (xq <= inject_Z (Z.of_N (View.width v)))%Q ∧ (0 <= xq + wq)%Q ∧
           (0 <= wq)%Q).
Proof.
  intros Hrun Hzs Hmono Hclosed Hsmall HL HR HLR Hzoom.
  destruct (run_render_ready c name evs zs z0 t Hrun Hzs Hmono Hclosed)
    as (HI & HT & (now & HTm) & Hall).
  destruct (renderChildren_sound t bounds now L R HI HT HTm Hall Hsmall HL HR
              (S (length (Trace.frames t))) RTrace) as (out & Hout & Hsound).
  { simpl. lia. }
  exists out. split; [done|]. rewrite Forall_forall in Hsound.
  intros u Hu. destruct (Hsound u Hu) as (s & e & (f & Hf & Hs & He) & HsR & HLe).
  exists f. split; [done|]. intros He0.
  assert (e ≠ 0) as He0' by (intros ->; done).
  destruct (frameRect_extent v t bounds u f s e L R HI Hf Hs He He0' Hzoom HL HR HLR)
    as (xq & wq & y & h & Hrect & Hx & Hxw).
  exists xq, wq, y, h. split; [done|].
  destruct (timed_frame _ _ HTm _ _ Hf) as (s' & Hs' & _ & Hend).
  destruct (Hend _ He) as (e' & [= <-] & Hse & _).
  assert (s' = s) as -> by congruence. rewrite Zle_Qle in Hse.
  set (W := inject_Z (Z.of_N (View.width v))) in *.
  assert (HW : (0 <= W)%Q) by (unfold W; rewrite <- (Zle_Qle 0); lia).
  set (p := ((inject_Z s - L) / (R - L))%Q) in *.
  set (q := ((inject_Z e - L) / (R - L))%Q) in *.
  assert (Hp : (p <= 1)%Q) by (apply Qle_shift_div_r; lra).
  assert (Hq : (0 <= q)%Q) by (apply Qle_shift_div_l; lra).
  assert (Hpq : (p <= q)%Q).
  { unfold p, q, Qdiv. apply Qmult_le_compat_r; [lra|].
    apply Qlt_le_weak, Qinv_lt_0_compat. lra. }
  clearbody p q W. split; [|split]; nra.
Qed.

Lemma drawn_frames_meet_canvas_witness :
  ∃ out, _doRender scenario_trace (setTrace new_TraceBounds scenario_trace) = Ok out ∧
    ∀ u, u ∈ out →
      ∃ f, Trace.frames scenario_trace !! u = Some f ∧
        (Frame.endTime f ≠ Some (TNum 0) →
         ∃ xq wq y h,
           _frameRect (View.mk true (XFin 2) 100 50) scenario_trace
             (setTrace new_TraceBounds scenario_trace) f = (XFin xq, y, XFin wq, h) ∧
           (xq <= inject_Z 100)%Q ∧ (0 <= xq + wq)%Q ∧ (0 <= wq)%Q).
Proof.
  apply (drawn_frames_meet_canvas (Some []) None scenario [0; 1; 3; 5] 0 scenario_trace
           (setTrace new_TraceBounds scenario_trace) (5 * 0) (5 * 1)
           (View.mk true (XFin 2) 100 50)).
  - vm_compute. reflexivity.
  - reflexivity.
  - simpl. lia.
  - repeat constructor; by eexists.
  - simpl. lia.
  - reflexivity.
  - reflexivity.
  - reflexivity.
  - reflexivity.
Defined.

(** X29: the rows of the graph are counted from the bottom edge of the
    canvas, and the height of a row is the height of the canvas divided by
    [maxDepth]; but the frames of depth [maxDepth] are in row
    [maxDepth + 1]. In every trace that ingestion builds and that has
    frames, there are frames of that depth, and the rectangle of each of
    them starts above the canvas, whose height is not 0: [y] is negative, or
    -Infinity when no frame is nested. *)
Theorem deepest_frames_above_canvas (v : View.t) (t : Trace.t) (bounds : TraceBounds.t) :
  reachable t → Trace.frames t ≠ [] → (0 < View.height v)%N →
  (∃ f, f ∈ Trace.frames t ∧ Frame.depth f = Trace.maxDepth t) ∧
  ∀ f, f ∈ Trace.frames t → Frame.depth f = Trace.maxDepth t →
    ∃ x y w h, _frameRect v t bounds f = (x, y, w, h) ∧
      (y = XNInf ∨ ∃ yq, y = XFin yq ∧ (yq < 0)%Q).
Proof.
  intros Hr Hne Hheight. destruct (reachable_Tree _ Hr) as [HI HT]. split.
  { rewrite (tree_depth _ HT).
    destruct (foldr_max_spec (Frame.depth <$> Trace.frames t)) as [_ H2].
    destruct (Trace.frames t) as [|f0 fs] eqn:E; [done|].
    apply list_elem_of_fmap in H2 as (f & Hd & Hf); [|done]. exists f. by split. }
  intros f Hf Hdepth. unfold _frameRect. do 4 eexists. split; [reflexivity|].
  rewrite Hdepth. unfold x_of_N, x_of_nat.
  set (H := inject_Z (Z.of_N (View.height v))).
  assert (HH : (0 < H)%Q) by (unfold H; rewrite <- (Zlt_Qlt 0); lia).
  set (D := inject_Z (Z.of_nat (Trace.maxDepth t))).
  assert (HD1 : (inject_Z (Z.of_nat (Trace.maxDepth t + 1)) == D + 1)%Q).
  { unfold D. rewrite Nat2Z.inj_add, inject_Z_plus. reflexivity. }
  assert (HD : (0 <= D)%Q) by (unfold D; rewrite <- (Zle_Qle 0); lia).
  set (D1 := inject_Z (Z.of_nat (Trace.maxDepth t + 1))) in *.
  clearbody D1 D H.
  destruct (Qsign D) eqn:HsD.
  - left.
    assert (Hh : x_div (XFin H) (XFin D) = XPInf)
      by (simpl; by rewrite HsD, (Qsign_pos H HH)).
    rewrite !Hh. simpl.
    assert (Qsign D1 = Gt) as -> by (apply Qsign_pos; lra). reflexivity.
  - exfalso. unfold Qsign in HsD. apply Qlt_alt in HsD. lra.
  - right.
    assert (Hh : x_div (XFin H) (XFin D) = XFin (H / D)) by (simpl; by rewrite HsD).
    rewrite !Hh. unfold Qsign in HsD. apply Qgt_alt in HsD. simpl.
    assert (Hy : (H + - (D1 * (H / D)) + H / D == 0)%Q) by (rewrite HD1; field; lra).
    assert (Hrow : (0 < H / D)%Q) by (by apply Qdiv_pos).
    eexists. split; [reflexivity|]. lra.
Qed.

Lemma deepest_frames_above_canvas_witness :
  (∃ f, f ∈ Trace.frames scenario_trace ∧ Frame.depth f = Trace.maxDepth scenario_trace) ∧
  ∀ f, f ∈ Trace.frames scenario_trace → Frame.depth f = Trace.maxDepth scenario_trace →
    ∃ x y w h,
      _frameRect (View.mk true (XFin 2) 100 50) scenario_trace
        (setTrace new_TraceBounds scenario_trace) f = (x, y, w, h) ∧
      (y = XNInf ∨ ∃ yq, y = XFin yq ∧ (yq < 0)%Q).
Proof.
  apply (deepest_frames_above_canvas (View.mk true (XFin 2) 100 50) scenario_trace
           (setTrace new_TraceBounds scenario_trace)).
  - apply scenario_reachable.
  - discriminate.
  - reflexivity.
Defined.
